(** * A shallow embedding of the reactive core of jotai-solid-api

    The development follows the TypeScript source of the library: the
    dependency tracker, signals, memos, effects, the batch scheduler,
    [untrack], the structural store and the keyed array projection; then
    mutable stores, scopes, disposal, cleanups, exceptions and the props of
    a component.

    User code (compute functions, effect bodies, updaters) is represented by
    a small tree of calls into the library's API ([prog]); the library itself
    is translated function by function.  All reads, writes and notifications
    are synchronous, as in the source, and callbacks can re-enter the
    library, so the interpreter is indexed by a fuel counter. *)

From stdpp Require Import gmap strings list fin_maps.

Set Default Proof Using "Type".

(** ** Values

    JavaScript values with identity.  Numbers are restricted to integers,
    objects and arrays are references into a heap, functions are references
    into a table of function bodies, [VError msg] is an [Error] object
    carrying [msg]. *)

Inductive val : Type :=
| VUndef
| VNull
| VBool (b : bool)
| VNum (n : Z)
| VStr (s : string)
| VObj (a : nat)
| VFun (f : nat)
| VError (msg : string).

#[global] Instance val_eq_dec : EqDecision val.
Proof. solve_decision. Defined.

(** [Object.is] on the values above: equal primitives, or the same
    reference. *)
Definition object_is (a b : val) : bool := bool_decide (a = b).

(** [typeof v === "function"] *)
Definition is_function (v : val) : bool :=
  match v with VFun _ => true | _ => false end.

(** [typeof value === "object" && value !== null] *)
Definition isObjectLike (v : val) : bool :=
  match v with VObj _ => true | _ => false end.

(** ** JavaScript [Set] with live iteration

    ECMAScript keeps the elements of a [Set] in insertion order; [delete]
    leaves a hole in place of the element, [add] appends when the element is
    absent, and an iterator is an index into that list, so elements added
    during a [for..of] are visited and deleted ones are skipped. *)

Abbreviation jsset A := (list (option A)).

Section JsSet.
Context {A : Type} `{EqDecision A}.

Definition jsset_has (x : A) (s : jsset A) : bool := bool_decide (Some x ∈ s).

Definition jsset_add (x : A) (s : jsset A) : jsset A :=
  if jsset_has x s then s else s ++ [Some x].

Definition jsset_delete (x : A) (s : jsset A) : jsset A :=
  (λ e, if decide (e = Some x) then None else e) <$> s.

(** [Array.from(set)]: the elements in insertion order. *)
Definition jsset_live (s : jsset A) : list A := omap id s.
End JsSet.

(** A plain insertion-ordered set, for the sets nobody iterates while they
    change ([collecting], [pendingSubscribers], the keys of
    [subscriptions]). *)
Definition set_add {A} `{EqDecision A} (x : A) (l : list A) : list A :=
  if bool_decide (x ∈ l) then l else l ++ [x].

(** ** The reactive graph *)

(** A [Subscribable] is a signal or a memo. *)
Inductive dep : Type := DSig (s : nat) | DMemo (m : nat).

(** Every tracker is built with one [onDependencyChange] closure; a
    subscriber is identified by the computation owning the tracker: a memo
    (the closure calls [recompute]), an effect (it calls [schedule]) or a
    component instance (it calls [forceUpdate]). *)
Inductive owner : Type := OMemo (m : nat) | OEffect (e : nat) | ORender (c : nat).

#[global] Instance dep_eq_dec : EqDecision dep.
Proof. solve_decision. Defined.
#[global] Instance owner_eq_dec : EqDecision owner.
Proof. solve_decision. Defined.

Record DependencyTracker : Type := Tracker {
  subscriptions : list dep;  (* keys of the Map, in insertion order *)
  collecting : list dep
}.

Record SignalSource : Type := Signal {
  sig_value : val;
  sig_subscribers : jsset owner
}.

Record MemoSource : Type := Memo {
  memo_tracker : DependencyTracker;
  memo_subscribers : jsset owner;
  hasValue : bool;
  memo_value : val;
  computing : bool
}.

Record EffectComputation : Type := Effect {
  eff_tracker : DependencyTracker;
  scheduled : bool;
  running : bool;
  disposed : bool;
  cleanups : list nat
}.

(** The part of [ComponentInstance] the reactive core sees: its render
    tracker, the number of [forceUpdate] calls and the flag that mutes
    them. *)
Record ComponentInstance : Type := Component {
  renderTracker : DependencyTracker;
  forceUpdates : nat;
  suppressRenderInvalidation : bool
}.

(** Property keys as a Proxy trap receives them: strings.  [KIdx i] is the
    canonical decimal string of the array index [i], [KStr k] any other
    string (symbols are not modelled). *)
Inductive pkey : Type := KStr (k : string) | KIdx (i : nat).

#[global] Instance pkey_eq_dec : EqDecision pkey.
Proof. solve_decision. Defined.
#[global] Instance pkey_countable : Countable pkey.
Proof.
  refine (inj_countable'
            (λ k, match k with KStr s => inl s | KIdx i => inr i end)
            (λ x, match x with inl s => KStr s | inr i => KIdx i end) _).
  by intros [].
Defined.

(** Heap objects, with their own enumerable properties: a plain object, or
    an array with its elements (an array carries nothing else here). *)
Inductive object : Type :=
| OPlain (props : gmap pkey val)
| OArray (elems : list val).

(** Instrumentation, never read by the library: [EvNotify cb] records a
    call [notifySubscriber(cb)], [EvInvoke cb] that the subscriber [cb] was
    called, [EvRun o] that a collection of the computation [o] started. *)
Inductive event : Type :=
| EvNotify (cb : owner)
| EvInvoke (cb : owner)
| EvRun (o : owner).

#[global] Instance event_eq_dec : EqDecision event.
Proof. solve_decision. Defined.

(** The reactive graph: every signal, memo, effect and component. *)
Record graph : Type := Graph {
  signals : gmap nat SignalSource;
  memos : gmap nat MemoSource;
  effects : gmap nat EffectComputation;
  components : gmap nat ComponentInstance
}.

Record state : Type := State {
  nodes : graph;
  collectorStack : list owner;      (* top of the stack is the last element *)
  batchDepth : Z;
  pendingSubscribers : list owner;
  activeEffect : option nat;
  heap : list object;               (* an object's reference is its index *)
  console : list val;               (* what user code logged *)
  trace : list event                (* instrumentation *)
}.

Definition fresh_tracker : DependencyTracker := Tracker [] [].
Definition fresh_signal : SignalSource := Signal VUndef [].
Definition fresh_memo : MemoSource := Memo fresh_tracker [] false VUndef false.
Definition fresh_effect : EffectComputation := Effect fresh_tracker false false false [].
Definition fresh_component : ComponentInstance := Component fresh_tracker 0 false.

Definition initial_state : state :=
  State (Graph ∅ ∅ ∅ ∅) [] 0%Z [] None [] [] [].

(** *** Reading and writing the graph *)

(** A computation that was never touched is in the state its constructor
    gives it. *)
Definition signal_of (g : graph) (s : nat) : SignalSource :=
  default fresh_signal (signals g !! s).
Definition memo_of (g : graph) (m : nat) : MemoSource :=
  default fresh_memo (memos g !! m).
Definition effect_of (g : graph) (e : nat) : EffectComputation :=
  default fresh_effect (effects g !! e).
Definition component_of (g : graph) (c : nat) : ComponentInstance :=
  default fresh_component (components g !! c).

Definition set_signal (s : nat) (x : SignalSource) (g : graph) : graph :=
  Graph (<[s := x]> (signals g)) (memos g) (effects g) (components g).
Definition set_memo (m : nat) (x : MemoSource) (g : graph) : graph :=
  Graph (signals g) (<[m := x]> (memos g)) (effects g) (components g).
Definition set_effect (e : nat) (x : EffectComputation) (g : graph) : graph :=
  Graph (signals g) (memos g) (<[e := x]> (effects g)) (components g).
Definition set_component (c : nat) (x : ComponentInstance) (g : graph) : graph :=
  Graph (signals g) (memos g) (effects g) (<[c := x]> (components g)).

Definition tracker_of (g : graph) (o : owner) : DependencyTracker :=
  match o with
  | OMemo m => memo_tracker (memo_of g m)
  | OEffect e => eff_tracker (effect_of g e)
  | ORender c => renderTracker (component_of g c)
  end.

Definition set_tracker (o : owner) (t : DependencyTracker) (g : graph) : graph :=
  match o with
  | OMemo m =>
      let x := memo_of g m in
      set_memo m (Memo t (memo_subscribers x) (hasValue x) (memo_value x) (computing x)) g
  | OEffect e =>
      let x := effect_of g e in
      set_effect e (Effect t (scheduled x) (running x) (disposed x) (cleanups x)) g
  | ORender c =>
      let x := component_of g c in
      set_component c (Component t (forceUpdates x) (suppressRenderInvalidation x)) g
  end.

Definition subscribers_of (g : graph) (d : dep) : jsset owner :=
  match d with
  | DSig s => sig_subscribers (signal_of g s)
  | DMemo m => memo_subscribers (memo_of g m)
  end.

Definition set_subscribers (d : dep) (subs : jsset owner) (g : graph) : graph :=
  match d with
  | DSig s => set_signal s (Signal (sig_value (signal_of g s)) subs) g
  | DMemo m =>
      let x := memo_of g m in
      set_memo m (Memo (memo_tracker x) subs (hasValue x) (memo_value x) (computing x)) g
  end.

(** [this.store.set(this.signalAtom, value)] *)
Definition set_sig_value (s : nat) (v : val) (g : graph) : graph :=
  set_signal s (Signal v (sig_subscribers (signal_of g s))) g.

Definition set_scheduled (e : nat) (b : bool) (g : graph) : graph :=
  let x := effect_of g e in
  set_effect e (Effect (eff_tracker x) b (running x) (disposed x) (cleanups x)) g.
Definition set_running (e : nat) (b : bool) (g : graph) : graph :=
  let x := effect_of g e in
  set_effect e (Effect (eff_tracker x) (scheduled x) b (disposed x) (cleanups x)) g.
Definition set_disposed (e : nat) (b : bool) (g : graph) : graph :=
  let x := effect_of g e in
  set_effect e (Effect (eff_tracker x) (scheduled x) (running x) b (cleanups x)) g.
Definition set_cleanups (e : nat) (cs : list nat) (g : graph) : graph :=
  let x := effect_of g e in
  set_effect e (Effect (eff_tracker x) (scheduled x) (running x) (disposed x) cs) g.

Definition set_computing (m : nat) (b : bool) (g : graph) : graph :=
  let x := memo_of g m in
  set_memo m (Memo (memo_tracker x) (memo_subscribers x) (hasValue x) (memo_value x) b) g.
(** [this.value = nextValue; this.hasValue = true] *)
Definition set_memo_result (m : nat) (v : val) (g : graph) : graph :=
  let x := memo_of g m in
  set_memo m (Memo (memo_tracker x) (memo_subscribers x) true v (computing x)) g.

(** [this.forceUpdate()] *)
Definition force_update (c : nat) (g : graph) : graph :=
  let x := component_of g c in
  set_component c (Component (renderTracker x) (S (forceUpdates x))
                             (suppressRenderInvalidation x)) g.

(** [DependencyTracker.addDependency] *)
Definition addDependency (o : owner) (d : dep) (g : graph) : graph :=
  let t := tracker_of g o in
  set_tracker o (Tracker (subscriptions t) (set_add d (collecting t))) g.

(** [this.subscribers.add(callback)] *)
Definition add_subscriber (d : dep) (cb : owner) (g : graph) : graph :=
  set_subscribers d (jsset_add cb (subscribers_of g d)) g.

(** The [Unsubscribe] closure returned by [subscribe]:
    [this.subscribers.delete(callback)]. *)
Definition unsubscribe (d : dep) (cb : owner) (g : graph) : graph :=
  set_subscribers d (jsset_delete cb (subscribers_of g d)) g.

(** First loop of [reconcileSubscriptions]: drop what the run did not read.
    [unsubscribe] only deletes from a subscriber set, so the loop over the
    live Map visits each entry once. *)
Definition drop_stale (o : owner) (nextDeps : list dep) (g : graph) : graph :=
  foldl (λ g d,
           if bool_decide (d ∈ nextDeps) then g
           else
             let g := unsubscribe d o g in
             let t := tracker_of g o in
             set_tracker o (Tracker (filter (λ d', d' ≠ d) (subscriptions t)) (collecting t)) g)
        g (subscriptions (tracker_of g o)).

(** [this.subscriptions.set(dep, unsubscribe)] for a [dep] that is not a
    key yet. *)
Definition add_subscription (o : owner) (d : dep) (g : graph) : graph :=
  let t := tracker_of g o in
  set_tracker o (Tracker (subscriptions t ++ [d]) (collecting t)) g.

(** [this.collecting = new Set()] *)
Definition reset_collecting (o : owner) (g : graph) : graph :=
  set_tracker o (Tracker (subscriptions (tracker_of g o)) []) g.

(** [DependencyTracker.dispose] *)
Definition tracker_dispose (o : owner) (g : graph) : graph :=
  let g := foldl (λ g d, unsubscribe d o g) g (subscriptions (tracker_of g o)) in
  set_tracker o (Tracker [] (collecting (tracker_of g o))) g.

(** *** Field updates of the state *)

Definition upd (f : graph → graph) (st : state) : state :=
  State (f (nodes st)) (collectorStack st) (batchDepth st) (pendingSubscribers st)
        (activeEffect st) (heap st) (console st) (trace st).
Definition set_collectorStack (x : list owner) (st : state) : state :=
  State (nodes st) x (batchDepth st) (pendingSubscribers st)
        (activeEffect st) (heap st) (console st) (trace st).
Definition set_batchDepth (x : Z) (st : state) : state :=
  State (nodes st) (collectorStack st) x (pendingSubscribers st)
        (activeEffect st) (heap st) (console st) (trace st).
Definition set_pendingSubscribers (x : list owner) (st : state) : state :=
  State (nodes st) (collectorStack st) (batchDepth st) x
        (activeEffect st) (heap st) (console st) (trace st).
Definition set_activeEffect (x : option nat) (st : state) : state :=
  State (nodes st) (collectorStack st) (batchDepth st) (pendingSubscribers st)
        x (heap st) (console st) (trace st).
Definition set_heap (x : list object) (st : state) : state :=
  State (nodes st) (collectorStack st) (batchDepth st) (pendingSubscribers st)
        (activeEffect st) x (console st) (trace st).
Definition set_console (x : list val) (st : state) : state :=
  State (nodes st) (collectorStack st) (batchDepth st) (pendingSubscribers st)
        (activeEffect st) (heap st) x (trace st).
Definition emit (ev : event) (st : state) : state :=
  State (nodes st) (collectorStack st) (batchDepth st) (pendingSubscribers st)
        (activeEffect st) (heap st) (console st) (trace st ++ [ev]).

(** ** Plain values in the heap: the store's path functions *)

Abbreviation heap_t := (list object).

Definition object_at (h : heap_t) (a : nat) : object :=
  default (OPlain ∅) (h !! a).

(** [Array.isArray(value)] *)
Definition isArray (h : heap_t) (v : val) : bool :=
  match v with
  | VObj a => match object_at h a with OArray _ => true | OPlain _ => false end
  | _ => false
  end.

(** The own enumerable properties, as the spread [{...value}] copies them. *)
Definition own_props (o : object) : gmap pkey val :=
  match o with
  | OPlain p => p
  | OArray l => list_to_map (imap (λ i v, (KIdx i, v)) l)
  end.

(** [container[key]] on an object or array. *)
Definition object_get (o : object) (key : pkey) : val :=
  match o with
  | OPlain p => default VUndef (p !! key)
  | OArray l =>
      match key with
      | KIdx i => default VUndef (l !! i)
      | KStr k => if decide (k = "length") then VNum (Z.of_nat (length l)) else VUndef
      end
  end.

(** [container[key] = value]; an array is written at an index up to its
    length (writes further out, which leave holes, are not modelled). *)
Definition object_set (o : object) (key : pkey) (value : val) : object :=
  match o with
  | OPlain p => OPlain (<[key := value]> p)
  | OArray l =>
      match key with
      | KIdx i => if decide (i < length l) then OArray (<[i := value]> l)
                  else if decide (i = length l) then OArray (l ++ [value])
                  else OArray l
      | KStr _ => OArray l
      end
  end.

(** [delete container[key]]; deleting an array element leaves a hole. *)
Definition object_delete (o : object) (key : pkey) : object :=
  match o with
  | OPlain p => OPlain (delete key p)
  | OArray l =>
      match key with
      | KIdx i => OArray (<[i := VUndef]> l)
      | KStr _ => OArray l
      end
  end.

(** [value[key]] for any value: only objects and arrays carry properties. *)
Definition read_prop (h : heap_t) (v : val) (key : pkey) : val :=
  match v with
  | VObj a => object_get (object_at h a) key
  | _ => VUndef
  end.

(** A new object; its reference is the next free index. *)
Definition alloc (o : object) (h : heap_t) : val * heap_t :=
  (VObj (length h), h ++ [o]).

(** [shallowClone]: [[...value]] for an array, [{...value}] for an object,
    the value itself otherwise. *)
Definition shallowClone (h : heap_t) (value : val) : val * heap_t :=
  match value with
  | VObj a => alloc (match object_at h a with
                     | OArray l => OArray l
                     | OPlain p => OPlain p
                     end) h
  | _ => (value, h)
  end.

(** A path segment is a property key; [seg_number] tells whether the caller
    passed it as a number ([typeof segment === "number"]). *)
Record seg : Type := Seg { seg_key : pkey; seg_number : bool }.

#[global] Instance seg_eq_dec : EqDecision seg.
Proof. solve_decision. Defined.

(** The segment a Proxy trap appends for its [prop]: always a string. *)
Definition prop_seg (key : pkey) : seg := Seg key false.

Fixpoint getAtPath (h : heap_t) (cursor : val) (path : list seg) : val :=
  match path with
  | [] => cursor
  | segment :: path' =>
      if isObjectLike cursor then getAtPath h (read_prop h cursor (seg_key segment)) path'
      else VUndef
  end.

(** [setAtPath]: [None] stands for the [TypeError] of a property access on
    a value that is not an object (the code runs in strict mode). *)
Fixpoint setAtPath (h : heap_t) (root : val) (path : list seg) (value : val)
    : option (val * heap_t) :=
  match path with
  | [] => Some (value, h)
  | head :: tail =>
      let '(clone, h) := shallowClone h root in
      match clone with
      | VObj c =>
          let currentValue := read_prop h clone (seg_key head) in
          match tail with
          | [] => Some (clone, <[c := object_set (object_at h c) (seg_key head) value]> h)
          | next :: _ =>
              let '(child, h) :=
                if isObjectLike currentValue then (currentValue, h)
                else alloc (if seg_number next then OArray [] else OPlain ∅) h in
              '(child', h) ← setAtPath h child tail value;
              Some (clone, <[c := object_set (object_at h c) (seg_key head) child']> h)
          end
      | _ => None
      end
  end.

(** ** User code

    A program is a tree of calls into the public API; the continuation of a
    call receives its result.  [Ret] returns, [Throw] raises. *)

Inductive prog : Type :=
| Ret (v : val)
| Throw (e : val)
| SigGet (s : nat) (k : val → prog)           (* the getter of createSignal *)
| SigSet (s : nat) (v : val) (k : val → prog) (* the setter of createSignal *)
| MemoGet (m : nat) (k : val → prog)          (* the accessor of createMemo *)
| Untrack (p : prog) (k : val → prog)
| Batch (p : prog) (k : val → prog)
| TryCatch (p : prog) (h : val → prog) (k : val → prog)
| Log (v : val) (k : prog)
| NewObj (o : object) (k : val → prog)        (* an object or array literal *)
| GetProp (v : val) (key : pkey) (k : val → prog).

(** The closures handed to the library when the graph is built. *)
Record env : Type := Env {
  memo_compute : nat → prog;        (* MemoSource.compute *)
  effect_body : nat → prog;         (* EffectComputation.effect *)
  render_body : nat → prog;         (* ComponentInstance.render *)
  fn_body : nat → val → prog        (* the body of the function value [VFun f] *)
}.

Inductive result : Type := Normal (v : val) | Thrown (e : val).

Inductive outcome : Type := OutOfFuel | Done (r : result) (st : state).

Definition ret (v : val) (st : state) : outcome := Done (Normal v) st.

Definition bind (o : outcome) (k : val → state → outcome) : outcome :=
  match o with
  | Done (Normal v) st => k v st
  | other => other
  end.

(** [try { body } finally { fin }]: [fin] runs on both exits; when it throws,
    its exception replaces the result of the body. *)
Definition finally (o : outcome) (fin : state → outcome) : outcome :=
  match o with
  | OutOfFuel => OutOfFuel
  | Done r st =>
      match fin st with
      | Done (Normal _) st' => Done r st'
      | other => other
      end
  end.

(** [for (const x of xs) body(x)] over an array nobody changes meanwhile. *)
Fixpoint for_each {A} (body : A → state → outcome) (xs : list A) (st : state) : outcome :=
  match xs with
  | [] => ret VUndef st
  | x :: xs' => bind (body x st) (λ _ st', for_each body xs' st')
  end.

(** The points where the library loops or calls back into user code. *)
Inductive task : Type :=
| TProg (p : prog)                  (* run user code *)
| TNotifyAll (d : dep) (i : nat)    (* [for (const subscriber of this.subscribers)] of [d], iterator at index [i] *)
| TFlush                            (* flushSubscribers *)
| TRecompute (m : nat)              (* MemoSource.recompute *)
| TExecute (e : nat).               (* EffectComputation.execute *)

(** *** Collector stack *)

Definition currentCollector (st : state) : option owner := last (collectorStack st).

Definition pushCollector (o : owner) (st : state) : state :=
  set_collectorStack (collectorStack st ++ [o]) st.

Definition popCollector (st : state) : state :=
  set_collectorStack (removelast (collectorStack st)) st.

Definition trackDependency (d : dep) (st : state) : state :=
  match currentCollector st with
  | Some o => upd (addDependency o d) st
  | None => st
  end.

Section Library.
Variable E : env.
(** The recursive calls, with one unit of fuel less. *)
Variable rec : task → state → outcome.

(** **** Dependency tracker *)

(** [dep.subscribe(callback)]: a memo that has no value yet computes one. *)
Definition subscribe (d : dep) (cb : owner) (st : state) : outcome :=
  let st := upd (add_subscriber d cb) st in
  match d with
  | DSig _ => ret VUndef st
  | DMemo m =>
      if hasValue (memo_of (nodes st) m) then ret VUndef st
      else rec (TRecompute m) st
  end.

(** Second loop of [reconcileSubscriptions]: subscribe to what is new. *)
Definition add_new (o : owner) (nextDeps : list dep) (st : state) : outcome :=
  for_each (λ d st,
              if bool_decide (d ∈ subscriptions (tracker_of (nodes st) o)) then ret VUndef st
              else bind (subscribe d o st) (λ _ st, ret VUndef (upd (add_subscription o d) st)))
           nextDeps st.

Definition reconcileSubscriptions (o : owner) (nextDeps : list dep) (st : state) : outcome :=
  add_new o nextDeps (upd (drop_stale o nextDeps) st).

Definition collect (o : owner) (fn : prog) (st : state) : outcome :=
  let st := emit (EvRun o) st in
  let st := upd (reset_collecting o) st in
  let st := pushCollector o st in
  finally (rec (TProg fn) st)
    (λ st, let st := popCollector st in
           reconcileSubscriptions o (collecting (tracker_of (nodes st) o)) st).

(** **** Effects *)

Definition EffectComputation_schedule (e : nat) (st : state) : outcome :=
  if disposed (effect_of (nodes st) e) then ret VUndef st
  else if running (effect_of (nodes st) e) then ret VUndef (upd (set_scheduled e true) st)
  else rec (TExecute e) st.

Definition EffectComputation_start (e : nat) (st : state) : outcome :=
  EffectComputation_schedule e st.

Definition runCleanups (e : nat) (st : state) : outcome :=
  let pending := cleanups (effect_of (nodes st) e) in
  let st := upd (set_cleanups e []) st in
  for_each (λ f st, rec (TProg (fn_body E f VUndef)) st) pending st.

Definition EffectComputation_execute (e : nat) (st : state) : outcome :=
  if disposed (effect_of (nodes st) e) then ret VUndef st
  else
    let st := upd (set_running e true) st in
    let st := upd (set_scheduled e false) st in
    bind (runCleanups e st) (λ _ st,
      let previousEffect := activeEffect st in
      let st := set_activeEffect (Some e) st in
      bind
        (finally
           (bind (collect (OEffect e) (effect_body E e) st) (λ maybeCleanup st,
              match maybeCleanup with
              | VFun f =>
                  ret VUndef
                    (upd (set_cleanups e (cleanups (effect_of (nodes st) e) ++ [f])) st)
              | _ => ret VUndef st
              end))
           (λ st, ret VUndef (upd (set_running e false) (set_activeEffect previousEffect st))))
        (λ _ st,
           if scheduled (effect_of (nodes st) e) then rec (TExecute e) st
           else ret VUndef st)).

Definition EffectComputation_dispose (e : nat) (st : state) : outcome :=
  if disposed (effect_of (nodes st) e) then ret VUndef st
  else
    let st := upd (set_disposed e true) st in
    bind (runCleanups e st) (λ _ st, ret VUndef (upd (tracker_dispose (OEffect e)) st)).

(** **** Memos *)

Definition MemoSource_recompute (m : nat) (st : state) : outcome :=
  if computing (memo_of (nodes st) m) then ret VUndef st
  else
    let st := upd (set_computing m true) st in
    finally
      (bind (collect (OMemo m) (memo_compute E m) st) (λ nextValue st,
         let x := memo_of (nodes st) m in
         let changed := negb (hasValue x) || negb (object_is (memo_value x) nextValue) in
         let st := upd (set_memo_result m nextValue) st in
         if changed then rec (TNotifyAll (DMemo m) 0) st else ret VUndef st))
      (λ st, ret VUndef (upd (set_computing m false) st)).

Definition MemoSource_get (m : nat) (st : state) : outcome :=
  let st := trackDependency (DMemo m) st in
  bind (if hasValue (memo_of (nodes st) m) then ret VUndef st else rec (TRecompute m) st)
       (λ _ st, ret (memo_value (memo_of (nodes st) m)) st).

(** **** Batch/notification scheduler *)

(** The call [subscriber()]. *)
Definition call_subscriber (cb : owner) (st : state) : outcome :=
  let st := emit (EvInvoke cb) st in
  match cb with
  | OMemo m => rec (TRecompute m) st
  | OEffect e => EffectComputation_schedule e st
  | ORender c =>
      if suppressRenderInvalidation (component_of (nodes st) c) then ret VUndef st
      else ret VUndef (upd (force_update c) st)
  end.

Definition notifySubscriber (cb : owner) (st : state) : outcome :=
  let st := emit (EvNotify cb) st in
  if bool_decide (0 < batchDepth st)%Z then
    ret VUndef (set_pendingSubscribers (set_add cb (pendingSubscribers st)) st)
  else call_subscriber cb st.

(** One turn of [while (pendingSubscribers.size > 0)]. *)
Definition flushSubscribers (st : state) : outcome :=
  match pendingSubscribers st with
  | [] => ret VUndef st
  | queued =>
      let st := set_pendingSubscribers [] st in
      bind (for_each call_subscriber queued st) (λ _ st, rec TFlush st)
  end.

(** One step of [for (const subscriber of this.subscribers)
    notifySubscriber(subscriber)], the Set iterator being at index [i]. *)
Definition notify_all (d : dep) (i : nat) (st : state) : outcome :=
  match subscribers_of (nodes st) d !! i with
  | None => ret VUndef st
  | Some None => rec (TNotifyAll d (S i)) st
  | Some (Some cb) => bind (notifySubscriber cb st) (λ _ st, rec (TNotifyAll d (S i)) st)
  end.

(** **** Signals *)

Definition SignalSource_get (s : nat) (st : state) : outcome :=
  let st := trackDependency (DSig s) st in
  ret (sig_value (signal_of (nodes st) s)) st.

Definition SignalSource_peek (s : nat) (st : state) : outcome :=
  ret (sig_value (signal_of (nodes st) s)) st.

Definition SignalSource_set (s : nat) (nextValue : val) (st : state) : outcome :=
  let previous := sig_value (signal_of (nodes st) s) in
  bind (match nextValue with
        | VFun f => rec (TProg (fn_body E f previous)) st
        | _ => ret nextValue st
        end)
    (λ resolvedValue st,
       let st := upd (set_sig_value s resolvedValue) st in
       bind (if object_is previous resolvedValue then ret VUndef st
             else rec (TNotifyAll (DSig s) 0) st)
            (λ _ st, ret resolvedValue st)).

(** **** batch and untrack *)

Definition batch (fn : prog) (st : state) : outcome :=
  let st := set_batchDepth (batchDepth st + 1) st in
  finally (rec (TProg fn) st)
    (λ st, let st := set_batchDepth (batchDepth st - 1) st in
           if bool_decide (batchDepth st = 0%Z) then rec TFlush st else ret VUndef st).

Definition untrack (fn : prog) (st : state) : outcome :=
  let previous := last (collectorStack st) in
  let st := popCollector st in
  finally (rec (TProg fn) st)
    (λ st, match previous with
           | Some o => ret VUndef (pushCollector o st)
           | None => ret VUndef st
           end).

(** [ComponentInstance.renderNode] *)
Definition renderNode (c : nat) (st : state) : outcome :=
  collect (ORender c) (render_body E c) st.

(** **** Running user code: one API call, then the continuation *)

Definition exec (p : prog) (st : state) : outcome :=
  match p with
  | Ret v => Done (Normal v) st
  | Throw e => Done (Thrown e) st
  | SigGet s k => bind (SignalSource_get s st) (λ v st, rec (TProg (k v)) st)
  | SigSet s v k => bind (SignalSource_set s v st) (λ v st, rec (TProg (k v)) st)
  | MemoGet m k => bind (MemoSource_get m st) (λ v st, rec (TProg (k v)) st)
  | Untrack p k => bind (untrack p st) (λ v st, rec (TProg (k v)) st)
  | Batch p k => bind (batch p st) (λ v st, rec (TProg (k v)) st)
  | TryCatch p h k =>
      match rec (TProg p) st with
      | OutOfFuel => OutOfFuel
      | Done (Normal v) st => rec (TProg (k v)) st
      | Done (Thrown e) st => bind (rec (TProg (h e)) st) (λ v st, rec (TProg (k v)) st)
      end
  | Log v k => rec (TProg k) (set_console (console st ++ [v]) st)
  | NewObj o k => rec (TProg (k (VObj (length (heap st))))) (set_heap (heap st ++ [o]) st)
  | GetProp v key k => rec (TProg (k (read_prop (heap st) v key))) st
  end.

Definition dispatch (t : task) (st : state) : outcome :=
  match t with
  | TProg p => exec p st
  | TNotifyAll d i => notify_all d i st
  | TFlush => flushSubscribers st
  | TRecompute m => MemoSource_recompute m st
  | TExecute e => EffectComputation_execute e st
  end.
End Library.

Fixpoint run (E : env) (fuel : nat) (t : task) (st : state) : outcome :=
  match fuel with
  | O => OutOfFuel
  | S fuel' => dispatch E (run E fuel') t st
  end.

(** ** The structural store *)

Definition immutable_error : val :=
  VError "Cannot mutate immutable store. Use setStore instead.".
Definition type_error : val := VError "TypeError".

(** The native array methods the projection uses, applied to the copy
    [nextArray]: the new elements, the result and the heap. *)
Inductive array_call : Type :=
| Splice (start deleteCount : nat) (items : list val)
| Pop
| Push (items : list val).

Definition apply_native (call : array_call) (l : list val) (h : heap_t)
    : list val * val * heap_t :=
  match call with
  | Splice start deleteCount items =>
      let removed := take deleteCount (drop start l) in
      let '(result, h) := alloc (OArray removed) h in
      (take start l ++ items ++ drop (start + deleteCount) l, result, h)
  | Pop => (removelast l, default VUndef (last l), h)
  | Push items => (l ++ items, VNum (Z.of_nat (length (l ++ items))), h)
  end.

(** What the wrapper of a mutating array method computes before it calls
    [source.set]: the method's result and the next root. *)
Definition method_root (h : heap_t) (previousRoot : val) (path : list seg)
    (call : array_call) : option (val * val * heap_t) :=
  match getAtPath h previousRoot path with
  | VObj a =>
      match object_at h a with
      | OArray currentArray =>
          let '(nextArray, h) := alloc (OArray currentArray) h in
          let '(elems, result, h) := apply_native call currentArray h in
          let h := match nextArray with
                   | VObj n => <[n := OArray elems]> h
                   | _ => h
                   end in
          '(nextRoot, h) ← setAtPath h previousRoot path nextArray;
          Some (result, nextRoot, h)
      | OPlain _ => None
      end
  | _ => None
  end.

Section Store.
Variable E : env.
Variable rec : task → state → outcome.

(** The [set] trap of the view at [path]. *)
Definition proxy_set (mutable : bool) (source : nat) (path : list seg)
    (prop : pkey) (value : val) (st : state) : outcome :=
  if negb mutable then Done (Thrown immutable_error) st
  else
    let previousRoot := sig_value (signal_of (nodes st) source) in
    match setAtPath (heap st) previousRoot (path ++ [prop_seg prop]) value with
    | None => Done (Thrown type_error) st
    | Some (nextRoot, h) =>
        bind (SignalSource_set E rec source nextRoot (set_heap h st))
             (λ _ st, ret (VBool true) st)
    end.

(** The [deleteProperty] trap of the view at [path]. *)
Definition proxy_deleteProperty (mutable : bool) (source : nat) (path : list seg)
    (prop : pkey) (st : state) : outcome :=
  if negb mutable then Done (Thrown immutable_error) st
  else
    let previousRoot := sig_value (signal_of (nodes st) source) in
    match getAtPath (heap st) previousRoot path with
    | VObj a =>
        let '(clone, h) := shallowClone (heap st) (VObj a) in
        let h := match clone with
                 | VObj c => <[c := object_delete (object_at h c) prop]> h
                 | _ => h
                 end in
        match setAtPath h previousRoot path clone with
        | None => Done (Thrown type_error) st
        | Some (nextRoot, h) =>
            bind (SignalSource_set E rec source nextRoot (set_heap h st))
                 (λ _ st, ret (VBool true) st)
        end
    | _ => ret (VBool true) st
    end.

(** The function the [get] trap returns for a mutating array method of a
    mutable store, called with the arguments in [call]. *)
Definition proxy_array_method (source : nat) (path : list seg)
    (call : array_call) (st : state) : outcome :=
  let previousRoot := sig_value (signal_of (nodes st) source) in
  match method_root (heap st) previousRoot path call with
  | None =>
      if isArray (heap st) (getAtPath (heap st) previousRoot path)
      then Done (Thrown type_error) st
      else ret VUndef st
  | Some (result, nextRoot, h) =>
      bind (SignalSource_set E rec source nextRoot (set_heap h st))
           (λ _ st, ret result st)
  end.

(** [setStore], the setter [createStore] returns for the signal [source]. *)
Definition setStore (source : nat) (next : val) (st : state) : outcome :=
  let previous := sig_value (signal_of (nodes st) source) in
  bind (match next with
        | VFun f => rec (TProg (fn_body E f previous)) st
        | _ => ret next st
        end)
    (λ resolved st,
       let '(merged, h) :=
         if isObjectLike previous && isObjectLike resolved then
           alloc (OPlain (own_props (match resolved with
                                     | VObj r => object_at (heap st) r
                                     | _ => OPlain ∅
                                     end)
                          ∪ own_props (match previous with
                                       | VObj p => object_at (heap st) p
                                       | _ => OPlain ∅
                                       end)))
                 (heap st)
         else (resolved, heap st) in
       SignalSource_set E rec source merged (set_heap h st)).
End Store.

(** *** Views

    [createAtPath] caches one Proxy per path, so a view is identified by its
    store and its path. *)
Record view : Type := View {
  view_source : nat;
  view_mutable : bool;
  view_path : list seg
}.

Inductive got : Type :=
| GotValue (v : val)
| GotView (w : view)
| GotMethod (w : view) (name : string).

Definition MUTATING_ARRAY_METHODS : list string :=
  ["copyWithin"; "fill"; "pop"; "push"; "reverse"; "shift"; "sort"; "splice"; "unshift"].

(** The [get] trap ([Symbol] properties and inherited methods are not
    modelled).  [readNode] goes through [source.get()], which tracks. *)
Definition proxy_get (w : view) (prop : pkey) (st : state) : got * state :=
  let st := trackDependency (DSig (view_source w)) st in
  let node := getAtPath (heap st) (sig_value (signal_of (nodes st) (view_source w))) (view_path w) in
  if negb (isObjectLike node) then (GotValue VUndef, st)
  else
    match prop with
    | KStr name =>
        if view_mutable w && isArray (heap st) node
           && bool_decide (name ∈ MUTATING_ARRAY_METHODS)
        then (GotMethod w name, st)
        else
          let value := read_prop (heap st) node prop in
          if isObjectLike value
          then (GotView (View (view_source w) (view_mutable w) (view_path w ++ [prop_seg prop])), st)
          else (GotValue value, st)
    | KIdx _ =>
        let value := read_prop (heap st) node prop in
        if isObjectLike value
        then (GotView (View (view_source w) (view_mutable w) (view_path w ++ [prop_seg prop])), st)
        else (GotValue value, st)
    end.

(** The views of a store: the root view [createReactiveProxy] returns and
    the views its [get] trap hands out. *)
Inductive store_view (source : nat) (mutable : bool) : view → Prop :=
| store_view_root : store_view source mutable (View source mutable [])
| store_view_get w prop st w' st' :
    store_view source mutable w →
    proxy_get w prop st = (GotView w', st') →
    store_view source mutable w'.

(** Assignment and [delete] through a view. *)
Definition view_set (E : env) (rec : task → state → outcome) (w : view)
    (prop : pkey) (value : val) (st : state) : outcome :=
  proxy_set E rec (view_mutable w) (view_source w) (view_path w) prop value st.

Definition view_delete (E : env) (rec : task → state → outcome) (w : view)
    (prop : pkey) (st : state) : outcome :=
  proxy_deleteProperty E rec (view_mutable w) (view_source w) (view_path w) prop st.

(** ** The keyed array projection

    [createArrayProjection] keeps the projected array in a mutable store
    ([createProjection] builds it with [createMutable]) and the keys in a
    closure variable.  The update callback below is the [mutate] argument it
    passes to [createProjection].  Every write to [target] goes through the
    store's Proxy and replaces the root; the subscribers of the projection
    (its readers) are notified at each replacement and are not part of this
    model, which follows the root, the heap and the keys. *)

Record ArrayProjectionOptions : Type := Options {
  (* [key]; reads the source item *)
  opt_key : option (heap_t → val → nat → val);
  (* [map]; may allocate the projected item *)
  opt_map : heap_t → val → nat → val * heap_t;
  (* [update]: the assignments [projected.k = v] it performs on the view of
     the projected item it receives *)
  opt_update : option (heap_t → val → nat → list (pkey * val))
}.

Record projection : Type := Projection {
  target_root : val;              (* the root the store's signal holds *)
  keys : list val;
  pheap : heap_t;
  map_calls : list (val * nat)    (* instrumentation: the calls of [map] *)
}.

Definition target_elems (s : projection) : list val :=
  match target_root s with
  | VObj a => match object_at (pheap s) a with OArray l => l | OPlain _ => [] end
  | _ => []
  end.

(** [target.method(...)] on the root view. *)
Definition target_call (call : array_call) (s : projection) : val * projection :=
  match method_root (pheap s) (target_root s) [] call with
  | Some (result, nextRoot, h) => (result, Projection nextRoot (keys s) h (map_calls s))
  | None => (VUndef, s)
  end.

(** [const [first] = array] for the array a native [splice] returns. *)
Definition first_of (h : heap_t) (v : val) : val := read_prop h v (KIdx 0).

(** [view.k = v] for the view [target[index]]; [None] is a [TypeError]. *)
Definition item_write (index : nat) (k : pkey) (v : val) (s : projection)
    : option projection :=
  if isObjectLike (read_prop (pheap s) (target_root s) (KIdx index)) then
    '(nextRoot, h) ← setAtPath (pheap s) (target_root s)
                        ([prop_seg (KIdx index)] ++ [prop_seg k]) v;
    Some (Projection nextRoot (keys s) h (map_calls s))
  else None.

(** [if (options.update) options.update(target[index], list[index], index)] *)
Definition call_update (o : ArrayProjectionOptions) (item : val) (index : nat)
    (s : projection) : option projection :=
  match opt_update o with
  | None => Some s
  | Some update =>
      foldl (λ acc '(k, v), s ← acc; item_write index k v s)
            (Some s) (update (pheap s) item index)
  end.

Definition keyFn (o : ArrayProjectionOptions) (h : heap_t) (item : val) (index : nat) : val :=
  match opt_key o with
  | Some key => key h item index
  | None => VNum (Z.of_nat index)
  end.

(** The forward scan [for (cursor = index + 1; cursor < keys.length; ...)]. *)
Definition find_from (ks : list val) (index : nat) (nextKey : val) : option nat :=
  (λ r, S index + r.1) <$> list_find (λ k, object_is k nextKey = true) (drop (S index) ks).

(** One turn of the loop over [index]. *)
Definition mutate_step (o : ArrayProjectionOptions) (item nextKey : val) (index : nat)
    (s : projection) : option projection :=
  if bool_decide (index < length (keys s))
     && object_is (default VUndef (keys s !! index)) nextKey
  then call_update o item index s
  else
    match find_from (keys s) index nextKey with
    | Some foundIndex =>
        let '(removed, s) := target_call (Splice foundIndex 1 []) s in
        let movedItem := first_of (pheap s) removed in
        let movedKey := default VUndef (keys s !! foundIndex) in
        let ks := take foundIndex (keys s) ++ drop (S foundIndex) (keys s) in
        let '(_, s) := target_call (Splice index 0 [movedItem]) s in
        let ks := take index ks ++ [movedKey] ++ drop index ks in
        call_update o item index (Projection (target_root s) ks (pheap s) (map_calls s))
    | None =>
        let '(projected, h) := opt_map o (pheap s) item index in
        let s := Projection (target_root s) (keys s) h (map_calls s ++ [(item, index)]) in
        let '(_, s) := target_call (Splice index 0 [projected]) s in
        Some (Projection (target_root s)
                         (take index (keys s) ++ [nextKey] ++ drop index (keys s))
                         (pheap s) (map_calls s))
    end.

Fixpoint mutate_loop (o : ArrayProjectionOptions) (items : list (val * val)) (index : nat)
    (s : projection) : option projection :=
  match items with
  | [] => Some s
  | (item, nextKey) :: items' =>
      s ← mutate_step o item nextKey index s;
      mutate_loop o items' (S index) s
  end.

(** [while (target.length > list.length) target.pop()], at most [n] turns. *)
Fixpoint pop_target (n len : nat) (s : projection) : projection :=
  match n with
  | O => s
  | S n' =>
      if bool_decide (len < length (target_elems s))
      then pop_target n' len (target_call Pop s).2
      else s
  end.

Definition mutate (o : ArrayProjectionOptions) (nextSource : list val) (s : projection)
    : option projection :=
  let list := nextSource in
  let nextKeys := imap (λ index item, keyFn o (pheap s) item index) list in
  s ← mutate_loop o (zip list nextKeys) 0 s;
  let s := pop_target (length (target_elems s)) (length list) s in
  Some (Projection (target_root s) (take (length list) (keys s)) (pheap s) (map_calls s)).

(** Top-level entry points, with fuel. *)
Definition run_prog (E : env) (fuel : nat) (p : prog) (st : state) : outcome :=
  run E fuel (TProg p) st.

(** ** Observations on the instrumentation *)

Definition is_invoke (ev : event) : bool :=
  match ev with EvInvoke _ => true | _ => false end.
Definition is_notify (ev : event) : bool :=
  match ev with EvNotify _ => true | _ => false end.

(** The subscribers called so far, in order. *)
Definition invocations (st : state) : list event := filter is_invoke (trace st).
(** The [notifySubscriber] calls made so far. *)
Definition notifications (st : state) : list event := filter is_notify (trace st).
(** How often the body of computation [o] has started. *)
Definition run_count (o : owner) (st : state) : nat :=
  length (filter (λ ev, ev = EvRun o) (trace st)).

(** * Definitions used in the statements *)

(** ** The immutable store *)

(** The argument of a setter: a function is called with the previous value
    as an updater, anything else is the next value itself. *)
Definition resolves (E : env) (rec : task → state → outcome) (next previous : val)
    (st : state) (resolved : val) (st1 : state) : Prop :=
  match next with
  | VFun f => rec (TProg (fn_body E f previous)) st = Done (Normal resolved) st1
  | _ => resolved = next ∧ st1 = st
  end.

(** ** The keyed array projection: reordering *)

(** The [update] callback is absent, or assigns nothing. *)
Definition update_writes_nothing (o : ArrayProjectionOptions) : Prop :=
  match opt_update o with
  | None => True
  | Some update => ∀ h item index, update h item index = []
  end.

(** The root of the projection is an array with the elements [l]. *)
Definition target_is (s : projection) (l : list val) : Prop :=
  ∃ t, target_root s = VObj t ∧ pheap s !! t = Some (OArray l).

(** The elements a native method leaves in the array. *)
Definition native_elems (call : array_call) (l : list val) : list val :=
  match call with
  | Splice start deleteCount items => take start l ++ items ++ drop (start + deleteCount) l
  | Pop => removelast l
  | Push items => l ++ items
  end.

(** ** Reasoning about the interpreter

    [wp o Q]: if the computation [o] finished, its result and final state
    satisfy [Q].  The rules below follow the structure of the library's
    functions; [run_wp] lifts a property of one [dispatch] step to every
    run. *)

Definition wp (o : outcome) (Q : result → state → Prop) : Prop :=
  match o with
  | OutOfFuel => True
  | Done r st => Q r st
  end.

(** The recursive calls meet the specification [Post]. *)
Definition rec_ok (rec : task → state → outcome)
    (Post : task → state → result → state → Prop) : Prop :=
  ∀ t st, wp (rec t st) (Post t st).

(** ** The scheduler's bookkeeping is restored by every call

    [basic c st st']: the collector stack, the batch depth and the active
    effect are the same in [st'] as in [st], the trace only grew, and (under
    the side condition [c]) if a batch was open in [st] no subscriber was
    called in between. *)

Definition quiet (l : list event) : Prop := Forall (λ ev, is_invoke ev = false) l.

Record basic (c : Prop) (st st' : state) : Prop := Basic {
  basic_stack : collectorStack st' = collectorStack st;
  basic_depth : batchDepth st' = batchDepth st;
  basic_active : activeEffect st' = activeEffect st;
  basic_trace : ∃ l, trace st' = trace st ++ l ∧ (c → (0 < batchDepth st)%Z → quiet l)
}.

Definition Post_basic (t : task) (st : state) (r : result) (st' : state) : Prop :=
  basic (t ≠ TFlush) st st'.

(** ** untrack *)

(** User code that reads the signals [ss] one after the other. *)
Definition read_all (ss : list nat) : prog :=
  foldr (λ s p, SigGet s (λ _, p)) (Ret VUndef) ss.

(** The dependencies a collector [o] gains when the signals [ss] are read
    while it is the current collector. *)
Definition add_reads (o : owner) (ss : list nat) (g : graph) : graph :=
  foldl (λ g s, addDependency o (DSig s) g) g ss.

(** ** Signals: notification on change *)

(** [notifySubscriber] while a batch is open. *)
Definition enqueue (cb : owner) (st : state) : state :=
  let st := emit (EvNotify cb) st in
  set_pendingSubscribers (set_add cb (pendingSubscribers st)) st.

(** ** Batches *)

(** User code that writes the values [vs] to the signal [s], in order. *)
Definition writes (s : nat) (vs : list val) : prog :=
  foldr (λ v p, SigSet s v (λ _, p)) (Ret VUndef) vs.

(** [m] batch calls around [p]. *)
Fixpoint nested_batch (m : nat) (p : prog) : prog :=
  match m with
  | O => p
  | S m' => Batch (nested_batch m' p) Ret
  end.

(** Every write changes the value: none is identical to the value before
    it. *)
Fixpoint all_changing (v0 : val) (vs : list val) : Prop :=
  match vs with
  | [] => True
  | v :: vs' => v0 ≠ v ∧ all_changing v vs'
  end.

(** A write while a batch is open. *)
Definition batched_write (s : nat) (v : val) (st : state) : state :=
  let previous := sig_value (signal_of (nodes st) s) in
  let st := upd (set_sig_value s v) st in
  if object_is previous v then st
  else foldl (λ st cb, enqueue cb st) st (jsset_live (subscribers_of (nodes st) (DSig s))).

(** ** Effects: what happens to a running effect *)

(** The flags of effect [e]. *)
Definition flags (e : nat) (g : graph) : bool * bool * bool :=
  let x := effect_of g e in (scheduled x, running x, disposed x).

(** How often the subscriber of effect [e] has been called. *)
Definition arrivals (e : nat) (st : state) : nat :=
  length (filter (λ ev, ev = EvInvoke (OEffect e)) (trace st)).

(** [held e st st']: effect [e] is still running and not disposed in [st'],
    its body was not started between [st] and [st'], and its [scheduled]
    flag was raised exactly if its subscriber was called in between. *)
Record held (e : nat) (st st' : state) : Prop := Held {
  held_running : running (effect_of (nodes st') e) = true;
  held_disposed : disposed (effect_of (nodes st') e) = false;
  held_runs : run_count (OEffect e) st' = run_count (OEffect e) st;
  held_arrivals : arrivals e st ≤ arrivals e st';
  held_scheduled :
    scheduled (effect_of (nodes st') e)
    = scheduled (effect_of (nodes st) e) || bool_decide (arrivals e st < arrivals e st')
}.

(** Effect [e] is running and not disposed. *)
Definition busy (e : nat) (st : state) : Prop :=
  running (effect_of (nodes st) e) = true ∧ disposed (effect_of (nodes st) e) = false.

Definition Post_held (e : nat) (t : task) (st : state) (r : result) (st' : state) : Prop :=
  t ≠ TExecute e → busy e st → held e st st'.

(** *** One run of an effect *)

(** [execute] keeps the function the body returned as a cleanup. *)
Definition keep_cleanup (e : nat) (v : val) (st : state) : state :=
  match v with
  | VFun f => upd (set_cleanups e (cleanups (effect_of (nodes st) e) ++ [f])) st
  | _ => st
  end.

(** The state in which [execute] runs the cleanups. *)
Definition begin_run (e : nat) (st : state) : state :=
  upd (set_scheduled e false) (upd (set_running e true) st).

(** The state [execute] leaves when the body has returned [v]. *)
Definition end_run (e : nat) (previousEffect : option nat) (v : val) (st : state) : state :=
  upd (set_running e false) (set_activeEffect previousEffect (keep_cleanup e v st)).

(** * Dependency precision *)

(** ** Trackers and subscriber sets *)

(** What an effect holds besides its tracker. *)
Definition rest_of (x : EffectComputation) : bool * bool * bool * list nat :=
  (scheduled x, running x, disposed x, cleanups x).

(** *** The two loops of [reconcileSubscriptions] *)

(** The second loop when every new dependency is a signal: subscribing to
    a signal only adds the subscriber. *)
Definition subscribe_new (o : owner) (nextDeps : list dep) (g : graph) : graph :=
  foldl (λ g d,
           if bool_decide (d ∈ subscriptions (tracker_of g o)) then g
           else add_subscription o d (add_subscriber d o g))
        g nextDeps.

Definition is_signal (d : dep) : Prop :=
  match d with DSig _ => True | DMemo _ => False end.

(** ** User code that only reads signals

    [reads_only t n p]: the program [p] calls signal getters and logs, at
    most [n] times whatever the signals hold, and then returns a value that
    is not a function or, if [t] is set, throws. *)

Inductive reads_only (t : bool) : nat → prog → Prop :=
| reads_only_ret n v : is_function v = false → reads_only t n (Ret v)
| reads_only_throw n err : t = true → reads_only t n (Throw err)
| reads_only_get n s k : (∀ v, reads_only t n (k v)) → reads_only t (S n) (SigGet s k)
| reads_only_log n v k : reads_only t n k → reads_only t (S n) (Log v k).

(** The signals such a program reads in the graph [g], in order, what it
    returns and what it logs. *)
Fixpoint reads_of (g : graph) (p : prog) : list nat :=
  match p with
  | SigGet s k => s :: reads_of g (k (sig_value (signal_of g s)))
  | Log _ k => reads_of g k
  | _ => []
  end.

Fixpoint result_of (g : graph) (p : prog) : result :=
  match p with
  | Ret v => Normal v
  | Throw err => Thrown err
  | SigGet s k => result_of g (k (sig_value (signal_of g s)))
  | Log _ k => result_of g k
  | _ => Normal VUndef
  end.

Fixpoint logs_of (g : graph) (p : prog) : list val :=
  match p with
  | SigGet s k => logs_of g (k (sig_value (signal_of g s)))
  | Log v k => v :: logs_of g k
  | _ => []
  end.

(** ** A collection whose function only reads signals *)

(** [reconcileSubscriptions(this.collecting)] on the graph. *)
Definition reconciled (o : owner) (g : graph) : graph :=
  let nextDeps := collecting (tracker_of g o) in
  subscribe_new o nextDeps (drop_stale o nextDeps g).

(** The state [collect] leaves. *)
Definition collected (o : owner) (fn : prog) (st : state) : state :=
  State (reconciled o (add_reads o (reads_of (nodes st) fn) (reset_collecting o (nodes st))))
        (collectorStack st) (batchDepth st) (pendingSubscribers st) (activeEffect st)
        (heap st) (console st ++ logs_of (nodes st) fn) (trace st ++ [EvRun o]).

(** ** Effects whose bodies only read signals *)

(** An effect at rest: not scheduled, not running, not disposed, and with
    no cleanup to run. *)
Definition idle (e : nat) (g : graph) : Prop :=
  rest_of (effect_of g e) = (false, false, false, []).

(** The subscriptions of a computation and the subscriber sets agree. *)
Definition consistent (o : owner) (g : graph) : Prop :=
  ∀ d, d ∈ subscriptions (tracker_of g o) ↔ o ∈ jsset_live (subscribers_of g d).

(** The state [execute] leaves after one run of the body. *)
Definition rerun (E : env) (e : nat) (st : state) : state :=
  let st0 := set_activeEffect (Some e) (upd (set_cleanups e []) (begin_run e st)) in
  upd (set_running e false)
      (set_activeEffect (activeEffect st) (collected (OEffect e) (effect_body E e) st0)).

(** ** Computations that only read signals *)

(** A memo at rest that nobody subscribes to; its Set of subscribers has
    had at most [n] entries. *)
Definition leaf (n m : nat) (g : graph) : Prop :=
  computing (memo_of g m) = false
  ∧ jsset_live (memo_subscribers (memo_of g m)) = []
  ∧ length (memo_subscribers (memo_of g m)) ≤ n.

(** The function a computation runs. *)
Definition body_of (E : env) (cb : owner) : prog :=
  match cb with
  | OMemo m => memo_compute E m
  | OEffect e => effect_body E e
  | ORender c => render_body E c
  end.

Definition at_rest (n : nat) (g : graph) (cb : owner) : Prop :=
  match cb with
  | OMemo m => leaf n m g
  | OEffect e => idle e g
  | ORender _ => False
  end.

(** A subscriber that is an effect or a memo at rest whose function only
    reads signals. *)
Definition ready (E : env) (n : nat) (g : graph) (cb : owner) : Prop :=
  at_rest n g cb ∧ reads_only false n (body_of E cb).

(** The state [recompute] leaves. *)
Definition recomputed (E : env) (m : nat) (st : state) : state :=
  let st1 := collected (OMemo m) (memo_compute E m) (upd (set_computing m true) st) in
  match result_of (nodes st) (memo_compute E m) with
  | Normal v => upd (set_computing m false) (upd (set_memo_result m v) st1)
  | Thrown _ => upd (set_computing m false) st1
  end.

(** The state the subscriber [cb] leaves when it is called. *)
Definition restarted (E : env) (cb : owner) (st : state) : state :=
  match cb with
  | OMemo m => recomputed E m st
  | OEffect e => rerun E e st
  | ORender _ => st
  end.

(** * Scenarios *)

(** ** A signal, a memo over it and an effect reading both

    [count] is signal 0, [doubled] is memo 0 and computes [count() * 2], and
    effect 0 logs [count()] and [doubled()]: the first test of the
    repository's suite. *)

Definition twice (v : val) : val :=
  match v with VNum n => VNum (2 * n) | _ => VUndef end.

Definition counter_env : env :=
  Env (λ _, SigGet 0 (λ c, Ret (twice c)))
      (λ _, SigGet 0 (λ c, MemoGet 0 (λ d, Log c (Log d (Ret VUndef)))))
      (λ _, Ret VUndef)
      (λ _ _, Ret VUndef).

Definition state_of (o : outcome) : state :=
  match o with Done _ st => st | OutOfFuel => initial_state end.

Definition counter_created : state :=
  upd (set_signal 0 (Signal (VNum 1) [])) initial_state.

(** The effect has been started by its scope. *)
Definition counter_started : state :=
  state_of (EffectComputation_start (run counter_env 20) 0 counter_created).

(** [count] has been set to 2. *)
Definition counter_after_set : state :=
  state_of (SignalSource_set counter_env (run counter_env 20) 0 (VNum 2) counter_started).

(** ** An effect whose dependency throws

    Memo 0 throws whenever it is computed; effect 0 reads it. *)

Definition throwing_env : env :=
  Env (λ _, Throw (VError "boom"))
      (λ e, match e with
            | 0 => MemoGet 0 (λ _, Ret VUndef)
            | _ => TryCatch (MemoGet 0 Ret) (λ _, Ret VUndef) (λ _, SigGet 1 (λ _, Ret VUndef))
            end)
      (λ _, Ret VUndef)
      (λ _ _, Ret VUndef).

(** ** Three effects and a memo over two signals

    Effects 0 and 2 log signal 0, effect 1 logs signal 1, and memo 0
    doubles signal 0. *)

Definition watchers_env : env :=
  Env (λ _, SigGet 0 (λ v, Ret (twice v)))
      (λ e, match e with
            | 1 => SigGet 1 (λ v, Log v (Ret VUndef))
            | _ => SigGet 0 (λ v, Log v (Ret VUndef))
            end)
      (λ _, Ret VUndef)
      (λ _ _, Ret VUndef).

Definition watchers_created : state :=
  upd (set_signal 1 (Signal (VNum 10) [])) (upd (set_signal 0 (Signal (VNum 1) [])) initial_state).

(** The effects have been started, in the order 0, 1, 2, and the memo has
    been read once, outside every computation. *)
Definition watchers_started : state :=
  state_of (MemoSource_get (run watchers_env 20) 0
              (foldl (λ st e, state_of (EffectComputation_start (run watchers_env 20) e st))
                     watchers_created [0; 1; 2])).

(** ** An effect that writes its own dependency

    The effect reads [count], signal 0, and writes it twice when it reads
    1: it is notified twice while its body runs. *)

Definition self_writing_env : env :=
  Env (λ _, Ret VUndef)
      (λ _, SigGet 0 (λ c,
              if object_is c (VNum 1)
              then SigSet 0 (VNum 2) (λ _, SigSet 0 (VNum 3) (λ _, Ret VUndef))
              else Ret VUndef))
      (λ _, Ret VUndef)
      (λ _ _, Ret VUndef).

(** The effect ran once with [count = 0] and is subscribed to [count]; then
    [count] is set to 1 and the effect is about to be notified. *)
Definition self_writing_ready : state :=
  upd (set_sig_value 0 (VNum 1))
    (state_of (EffectComputation_start (run self_writing_env 20) 0
                 (upd (set_signal 0 (Signal (VNum 0) [])) initial_state))).

Definition first_cleanups : state :=
  state_of (runCleanups self_writing_env (run self_writing_env 11) 0
              (begin_run 0 self_writing_ready)).
Definition first_body : state :=
  state_of (collect (run self_writing_env 11) (OEffect 0) (effect_body self_writing_env 0)
              (set_activeEffect (Some 0) first_cleanups)).
Definition second_cleanups : state :=
  state_of (runCleanups self_writing_env (run self_writing_env 10) 0
              (begin_run 0 (end_run 0 (activeEffect first_cleanups) VUndef first_body))).
Definition second_body : state :=
  state_of (collect (run self_writing_env 10) (OEffect 0) (effect_body self_writing_env 0)
              (set_activeEffect (Some 0) second_cleanups)).

(** ** Nested collectors

    An effect and a memo are collecting; the memo's compute function reads
    signal 1 inside [untrack]. *)

Definition nested_collectors : state :=
  pushCollector (OMemo 0) (pushCollector (OEffect 0) counter_created).

(** ** An immutable store

    [createStore({ count: 1, nested: { enabled: true } })], held by signal
    0. *)

Definition store_heap : list object :=
  [ OPlain {[ KStr "enabled" := VBool true ]};
    OPlain (<[ KStr "count" := VNum 1 ]> {[ KStr "nested" := VObj 0 ]});
    OPlain {[ KStr "count" := VNum 2 ]} ].

Definition store_created : state :=
  set_heap store_heap (upd (set_signal 0 (Signal (VObj 1) [])) initial_state).

Definition nested_view : view := View 0 false [prop_seg (KStr "nested")].

(** ** A keyed array projection

    Three source items with the keys ["a"], ["b"], ["c"] were projected to
    the objects 0, 1 and 2; the source now holds the items 4, 5 and 6, with
    the keys ["c"], ["a"], ["b"] and new labels. *)

Definition row (id label : string) : object :=
  OPlain (<[ KStr "id" := VStr id ]> {[ KStr "label" := VStr label ]}).

Definition rows_heap : list object :=
  [ row "a" "A"; row "b" "B"; row "c" "C";
    OArray [VObj 0; VObj 1; VObj 2];
    row "c" "C2"; row "a" "A2"; row "b" "B2" ].

Definition rows_projected : projection :=
  Projection (VObj 3) [VStr "a"; VStr "b"; VStr "c"] rows_heap [].

Definition by_id : heap_t → val → nat → val := λ h item _, read_prop h item (KStr "id").
Definition copy_row : heap_t → val → nat → val * heap_t :=
  λ h item _, alloc (object_at h (match item with VObj a => a | _ => 0 end)) h.

(** Without [update]. *)
Definition rows_options : ArrayProjectionOptions := Options (Some by_id) copy_row None.

(** With [update: (row, item) => { row.label = item.label }], as in the
    repository's test of reorders. *)
Definition rows_options_update : ArrayProjectionOptions :=
  Options (Some by_id) copy_row
          (Some (λ h item _, [(KStr "label", read_prop h item (KStr "label"))])).

Definition rows_source : list val := [VObj 4; VObj 5; VObj 6].

(** * Further properties: definitions *)

(** ** Well-formed heaps *)

(** Every reference points to an allocated object. *)
Definition closed_val (h : heap_t) (v : val) : Prop :=
  match v with VObj a => a < length h | _ => True end.

#[global] Instance closed_val_dec h v : Decision (closed_val h v).
Proof. destruct v; cbn; apply _. Defined.

Definition closed_object (h : heap_t) (o : object) : Prop :=
  match o with
  | OPlain p => map_Forall (λ _ v, closed_val h v) p
  | OArray l => Forall (closed_val h) l
  end.

#[global] Instance closed_object_dec h o : Decision (closed_object h o).
Proof. destruct o; cbn; apply _. Defined.

Definition closed (h : heap_t) : Prop := Forall (closed_object h) h.

(** The segments the Proxy traps build: property keys, never numbers. *)
Definition proxy_path (path : list seg) : Prop :=
  Forall (λ s, seg_number s = false) path.

(** [in_range h cursor path]: every array the path goes through in [h] is
    entered at an index up to its length. *)
Fixpoint in_range (h : heap_t) (cursor : val) (path : list seg) : Prop :=
  match path with
  | [] => True
  | head :: tail =>
      match cursor with
      | VObj a =>
          match object_at h a with
          | OArray l => ∃ i, seg_key head = KIdx i ∧ i ≤ length l
          | OPlain _ => True
          end
          ∧ in_range h (read_prop h cursor (seg_key head)) tail
      | _ => True
      end
  end.

(** The child [setAtPath] descends into, and the heap it does so in. *)
Definition descend (h : heap_t) (a : nat) (head next : seg) : val * heap_t :=
  let h1 := h ++ [object_at h a] in
  let currentValue := object_get (object_at h a) (seg_key head) in
  if isObjectLike currentValue then (currentValue, h1)
  else alloc (if seg_number next then OArray [] else OPlain ∅) h1.

(** The path of [store.nested.enabled], as the traps build it. *)
Definition nested_enabled : list seg := [prop_seg (KStr "nested"); prop_seg (KStr "enabled")].

(** ** Mutable stores *)

(** The state in which a store's setter starts the loop over the
    subscribers: the new root installed, the heap extended. *)
Definition installed (source : nat) (nextRoot : val) (h : heap_t) (st : state) : state :=
  upd (set_sig_value source nextRoot) (set_heap h st).

(** A property that can be assigned in the model: any property of a plain
    object, an index up to the length of an array. *)
Definition assignable (o : object) (prop : pkey) : Prop :=
  match o with
  | OArray l => ∃ i, prop = KIdx i ∧ i ≤ length l
  | OPlain _ => True
  end.

(** A primitive, or a reference to an object or an array of the heap. *)
Definition is_data (v : val) : Prop :=
  match v with VFun _ | VError _ => False | _ => True end.

(** The values a native call puts into the array. *)
Definition call_items (call : array_call) : list val :=
  match call with
  | Splice _ _ items => items
  | Pop => []
  | Push items => items
  end.

(** The heap in which the wrapper calls [setAtPath]: the copy of the array
    after the native call and, for [splice], the array of removed
    elements. *)
Definition after_native (call : array_call) (l : list val) : heap_t :=
  OArray (native_elems call l)
  :: match call with
     | Splice start deleteCount _ => [OArray (take deleteCount (drop start l))]
     | _ => []
     end.

Definition native_result (call : array_call) (l : list val) (nextArray : nat) : val :=
  match call with
  | Splice _ _ _ => VObj (S nextArray)
  | Pop => default VUndef (last l)
  | Push items => VNum (Z.of_nat (length (l ++ items)))
  end.

(** The view of [store.nested] in a mutable store held by signal 0. *)
Definition nested_mutable_view : view := View 0 true [prop_seg (KStr "nested")].

(** A mutable store over the array of the three rows, held by signal 0. *)
Definition rows_store : state :=
  set_heap rows_heap (upd (set_signal 0 (Signal (VObj 3) [])) initial_state).

(** ** Computations that are switched off

    A disposed effect and a component whose render invalidation is
    suppressed ignore the notifications they receive. *)

Definition off (o : owner) (g : graph) : bool :=
  match o with
  | OMemo _ => false
  | OEffect e => disposed (effect_of g e)
  | ORender c => suppressRenderInvalidation (component_of g c)
  end.

(** The [forceUpdate] calls of a component. *)
Definition updates (o : owner) (g : graph) : nat :=
  match o with
  | ORender c => forceUpdates (component_of g c)
  | _ => 0
  end.

(** [o] is in the subscriber set of [d]. *)
Definition subscribed (o : owner) (g : graph) (d : dep) : Prop :=
  o ∈ jsset_live (subscribers_of g d).

(** [same_for o g g']: the graph [g'] has for [o] the switch, the number of
    forced updates, the subscriptions and the places in subscriber sets
    that [g] has. *)
Record same_for (o : owner) (g g' : graph) : Prop := SameFor {
  same_off : off o g' = off o g;
  same_updates : updates o g' = updates o g;
  same_subscriptions :
    subscriptions (tracker_of g' o) = subscriptions (tracker_of g o);
  same_subscribed : ∀ d, subscribed o g' d ↔ subscribed o g d
}.

(** [still o st st']: [o] is switched off in [st'], its function was not
    started between [st] and [st'], and the graph is the same for it. *)
Record still (o : owner) (st st' : state) : Prop := Still {
  still_off : off o (nodes st') = true;
  still_runs : run_count o st' = run_count o st;
  still_same : same_for o (nodes st) (nodes st')
}.

Definition Post_still (o : owner) (t : task) (st : state) (r : result) (st' : state) : Prop :=
  off o (nodes st) = true → still o st st'.

(** ** Components and disposed effects *)

(** [this.suppressRenderInvalidation = b] *)
Definition set_suppress (c : nat) (b : bool) (g : graph) : graph :=
  let x := component_of g c in
  set_component c (Component (renderTracker x) (forceUpdates x) b) g.

(** [ComponentInstance.updateProps]; [propsSource] is the signal that holds
    the props of component [c]. *)
Definition ComponentInstance_updateProps (E : env) (rec : task → state → outcome)
    (c propsSource : nat) (nextProps : val) (st : state) : outcome :=
  let st := upd (set_suppress c true) st in
  finally (SignalSource_set E rec propsSource nextProps st)
          (λ st, ret VUndef (upd (set_suppress c false) st)).

(** The effect of the counter has been disposed. *)
Definition counter_disposed : state := upd (set_disposed 0 true) counter_started.

(** Component 0 has rendered and read its props, which signal 0 holds. *)
Definition counter_rendered : state :=
  upd (add_subscriber (DSig 0) (ORender 0)) counter_created.

(** ** The keyed array projection: any update *)

(** [map] only allocates: the heap it returns extends the heap it
    received. *)
Definition map_allocates (o : ArrayProjectionOptions) : Prop :=
  ∀ h item index, ∃ new, (opt_map o h item index).2 = h ++ new.

(** The calls of [map] an update makes: one for every source item whose
    key is not among the keys [ks], in the order of the source. *)
Fixpoint new_calls (ks : list val) (items : list (val * val)) (index : nat)
    : list (val * nat) :=
  match items with
  | [] => []
  | (item, nextKey) :: items' =>
      (if bool_decide (nextKey ∈ ks) then [] else [(item, index)])
      ++ new_calls ks items' (S index)
  end.

(** The keys of the source list, as the update computes them. *)
Definition source_keys (o : ArrayProjectionOptions) (h : heap_t) (source : list val)
    : list val :=
  imap (λ index item, keyFn o h item index) source.

(** The keys of a projection that has no [key] option: the indices. *)
Definition index_keys (i n : nat) : list val := (λ j, VNum (Z.of_nat j)) <$> seq i n.

(** The rows ["a"] and ["b"] were projected to the objects 0 and 1; the
    source now holds the items 4, 5 and 6, with the keys ["c"], ["a"] and
    ["b"]. *)
Definition rows_projected_two : projection :=
  Projection (VObj 7) [VStr "a"; VStr "b"] (rows_heap ++ [OArray [VObj 0; VObj 1]]) [].

(** The same projection without a [key] option. *)
Definition rows_unkeyed_options : ArrayProjectionOptions := Options None copy_row None.

Definition rows_unkeyed : projection :=
  Projection (VObj 7) [VNum 0; VNum 1] (rows_heap ++ [OArray [VObj 0; VObj 1]]) [].

(** ** Batches over several signals *)

(** User code that performs the writes [ws], pairs of a signal and a
    value, in order. *)
Definition writes_to (ws : list (nat * val)) : prog :=
  foldr (λ w p, SigSet w.1 w.2 (λ _, p)) (Ret VUndef) ws.

(** The state after the writes [ws] while a batch is open. *)
Definition batched_writes (ws : list (nat * val)) (st : state) : state :=
  foldl (λ st w, batched_write w.1 w.2 st) st ws.

(** The signals whose value one of the writes [ws] changes, starting from
    the graph [g]. *)
Fixpoint changed (g : graph) (ws : list (nat * val)) : list nat :=
  match ws with
  | [] => []
  | w :: ws' =>
      (if object_is (sig_value (signal_of g w.1)) w.2 then [] else [w.1])
      ++ changed (set_sig_value w.1 w.2 g) ws'
  end.

(** Effect 0 logs the signals 0 and 1, effect 1 logs signal 1. *)
Definition pair_env : env :=
  Env (λ _, Ret VUndef)
      (λ e, match e with
            | 0 => SigGet 0 (λ a, SigGet 1 (λ b, Log a (Log b (Ret VUndef))))
            | _ => SigGet 1 (λ b, Log b (Ret VUndef))
            end)
      (λ _, Ret VUndef)
      (λ _ _, Ret VUndef).

(** Both effects have been started. *)
Definition pair_started : state :=
  foldl (λ st e, state_of (EffectComputation_start (run pair_env 20) e st))
        watchers_created [0; 1].

(** ** Scopes

    A [Scope] collects what a component's setup creates: the computations to
    dispose, the cleanups registered outside any effect, and the effects
    whose first run waits for the component to be mounted.  Every starter is
    the closure [() => computation.start()] of an effect, so a starter is
    identified by its effect. *)

Record Scope : Type := MkScope {
  disposables : list owner;
  scopeCleanups : list nat;
  layoutStarters : list nat;
  effectStarters : list nat;
  layoutStarted : bool;
  effectsStarted : bool
}.

Definition new_scope : Scope := MkScope [] [] [] [] false false.

(** [Scope.register] *)
Definition Scope_register (d : owner) (sc : Scope) : Scope :=
  MkScope (set_add d (disposables sc)) (scopeCleanups sc) (layoutStarters sc)
          (effectStarters sc) (layoutStarted sc) (effectsStarted sc).

(** [Scope.registerCleanup] *)
Definition Scope_registerCleanup (f : nat) (sc : Scope) : Scope :=
  MkScope (disposables sc) (set_add f (scopeCleanups sc)) (layoutStarters sc)
          (effectStarters sc) (layoutStarted sc) (effectsStarted sc).

Definition set_effectStarters (es : list nat) (sc : Scope) : Scope :=
  MkScope (disposables sc) (scopeCleanups sc) (layoutStarters sc)
          es (layoutStarted sc) (effectsStarted sc).

Definition set_effectsStarted (b : bool) (sc : Scope) : Scope :=
  MkScope (disposables sc) (scopeCleanups sc) (layoutStarters sc)
          (effectStarters sc) (layoutStarted sc) b.

Definition set_layoutStarters (es : list nat) (sc : Scope) : Scope :=
  MkScope (disposables sc) (scopeCleanups sc) es
          (effectStarters sc) (layoutStarted sc) (effectsStarted sc).

Definition set_layoutStarted (b : bool) (sc : Scope) : Scope :=
  MkScope (disposables sc) (scopeCleanups sc) (layoutStarters sc)
          (effectStarters sc) b (effectsStarted sc).

Section Scopes.
Variable E : env.
Variable rec : task → state → outcome.

(** [Scope.registerEffectStarter] *)
Definition Scope_registerEffectStarter (e : nat) (sc : Scope) (st : state)
    : Scope * outcome :=
  if effectsStarted sc then (sc, EffectComputation_start rec e st)
  else (set_effectStarters (effectStarters sc ++ [e]) sc, ret VUndef st).

(** [Scope.registerLayoutStarter] *)
Definition Scope_registerLayoutStarter (e : nat) (sc : Scope) (st : state)
    : Scope * outcome :=
  if layoutStarted sc then (sc, EffectComputation_start rec e st)
  else (set_layoutStarters (layoutStarters sc ++ [e]) sc, ret VUndef st).

(** [Scope.startEffects]: the flag is raised before the starters run, and
    the list is emptied after the last one has returned. *)
Definition Scope_startEffects (sc : Scope) (st : state) : Scope * outcome :=
  if effectsStarted sc then (sc, ret VUndef st)
  else
    let sc := set_effectsStarted true sc in
    match for_each (EffectComputation_start rec) (effectStarters sc) st with
    | Done (Normal _) st => (set_effectStarters [] sc, ret VUndef st)
    | other => (sc, other)
    end.

(** [Scope.startLayoutEffects] *)
Definition Scope_startLayoutEffects (sc : Scope) (st : state) : Scope * outcome :=
  if layoutStarted sc then (sc, ret VUndef st)
  else
    let sc := set_layoutStarted true sc in
    match for_each (EffectComputation_start rec) (layoutStarters sc) st with
    | Done (Normal _) st => (set_layoutStarters [] sc, ret VUndef st)
    | other => (sc, other)
    end.

(** [createEffect] for the new effect [e], in the scope [sc]. *)
Definition createEffect (e : nat) (sc : Scope) (st : state) : Scope * outcome :=
  Scope_registerEffectStarter e (Scope_register (OEffect e) sc) st.

(** [createLayoutEffect] *)
Definition createLayoutEffect (e : nat) (sc : Scope) (st : state) : Scope * outcome :=
  Scope_registerLayoutStarter e (Scope_register (OEffect e) sc) st.
End Scopes.

(** Like the watchers, but effect 1 throws after reading signal 0. *)
Definition failing_env : env :=
  Env (λ _, Ret VUndef)
      (λ e, match e with
            | 1 => SigGet 0 (λ _, Throw (VError "boom"))
            | _ => SigGet 0 (λ v, Log v (Ret VUndef))
            end)
      (λ _, Ret VUndef)
      (λ _ _, Ret VUndef).

(** The scope of a component whose setup created the effects 0, 1 and 2. *)
Definition mounting_scope (E : env) : Scope :=
  foldl (λ sc e, (createEffect (run E 20) e sc watchers_created).1) new_scope [0; 1; 2].

(** The scope of a component whose setup created the layout effect 1 and
    the effects 0 and 2. *)
Definition layout_scope (E : env) : Scope :=
  (createEffect (run E 20) 2
     (createLayoutEffect (run E 20) 1
        (createEffect (run E 20) 0 new_scope watchers_created).1 watchers_created).1
     watchers_created).1.

(** ** Disposal of a scope *)

(** [MemoSource.dispose]: [this.tracker.dispose(); this.subscribers.clear()] *)
Definition MemoSource_dispose (m : nat) (g : graph) : graph :=
  set_subscribers (DMemo m) [] (tracker_dispose (OMemo m) g).

Definition set_disposables (ds : list owner) (sc : Scope) : Scope :=
  MkScope ds (scopeCleanups sc) (layoutStarters sc)
          (effectStarters sc) (layoutStarted sc) (effectsStarted sc).

Definition set_scopeCleanups (fs : list nat) (sc : Scope) : Scope :=
  MkScope (disposables sc) fs (layoutStarters sc)
          (effectStarters sc) (layoutStarted sc) (effectsStarted sc).

Section ScopeDispose.
Variable E : env.
Variable rec : task → state → outcome.

(** [disposable.dispose()] for what a scope registers: a memo, an effect,
    or the render tracker of the component. *)
Definition dispose_one (d : owner) (st : state) : outcome :=
  match d with
  | OMemo m => ret VUndef (upd (MemoSource_dispose m) st)
  | OEffect e => EffectComputation_dispose E rec e st
  | ORender c => ret VUndef (upd (tracker_dispose (ORender c)) st)
  end.

(** [Scope.dispose] *)
Definition Scope_dispose (sc : Scope) (st : state) : Scope * outcome :=
  match for_each (λ f st, rec (TProg (fn_body E f VUndef)) st) (scopeCleanups sc) st with
  | Done (Normal _) st =>
      let sc := set_scopeCleanups [] sc in
      match for_each dispose_one (disposables sc) st with
      | Done (Normal _) st => (set_disposables [] sc, ret VUndef st)
      | other => (sc, other)
      end
  | other => (sc, other)
  end.
End ScopeDispose.

(** ** Memos are refreshed when a dependency is set *)

(** What the signals hold, and what a memo has cached. *)
Definition value_of (g : graph) (s : nat) : val := sig_value (signal_of g s).

Definition cache (g : graph) (m : nat) : bool * val :=
  (hasValue (memo_of g m), memo_value (memo_of g m)).

(** The value the compute function of memo [m] returns over the values
    the signals hold in [g] (for a function that only reads signals). *)
Definition computed (E : env) (g : graph) (m : nat) : val :=
  match result_of g (memo_compute E m) with
  | Normal v => v
  | Thrown _ => VUndef
  end.

(** ** Memos: notification on change *)

(** [count] holds 2 and the memo [isEven], memo 0, has cached [true] for
    it; effect 0 logs the memo. *)
Definition parity_env : env :=
  Env (λ _, SigGet 0 (λ c, Ret (match c with
                                 | VNum n => VBool (Z.even n)
                                 | _ => VUndef
                                 end)))
      (λ _, MemoGet 0 (λ p, Log p (Ret VUndef)))
      (λ _, Ret VUndef)
      (λ _ _, Ret VUndef).

Definition parity_started : state :=
  state_of (EffectComputation_start (run parity_env 20) 0
              (upd (set_signal 0 (Signal (VNum 2) [])) initial_state)).

(** [count] has been set to 4, and the memo is about to be notified. *)
Definition parity_changed : state := upd (set_sig_value 0 (VNum 4)) parity_started.

(** ** The cleanups of an effect *)

(** User code that only logs. *)
Inductive logs_only : nat → prog → Prop :=
| logs_only_ret n v : logs_only n (Ret v)
| logs_only_log n v k : logs_only n k → logs_only (S n) (Log v k).

(** User code that reads signals, logs and returns: what it returns may be
    a function, the cleanup of an effect. *)
Inductive reads_and_returns : nat → prog → Prop :=
| reads_and_returns_ret n v : reads_and_returns n (Ret v)
| reads_and_returns_get n s k :
    (∀ v, reads_and_returns n (k v)) → reads_and_returns (S n) (SigGet s k)
| reads_and_returns_log n v k :
    reads_and_returns n k → reads_and_returns (S n) (Log v k).

(** What the cleanups [cs] log when they are called in order. *)
Definition cleanup_logs (E : env) (g : graph) (cs : list nat) : list val :=
  concat ((λ f, logs_of g (fn_body E f VUndef)) <$> cs).

(** The cleanup a run leaves pending: the function the body returned. *)
Definition returned_cleanup (r : result) : list nat :=
  match r with Normal (VFun f) => [f] | _ => [] end.

(** An effect that logs signal 0 and returns a cleanup, function 7, which
    logs ["cleanup"]. *)
Definition cleanup_env : env :=
  Env (λ _, Ret VUndef)
      (λ _, SigGet 0 (λ v, Log v (Ret (VFun 7))))
      (λ _, Ret VUndef)
      (λ _ _, Log (VStr "cleanup") (Ret VUndef)).

(** The effect has run once. *)
Definition cleanup_started : state :=
  state_of (EffectComputation_start (run cleanup_env 20) 0 counter_created).

(** ** Computations that throw *)

(** The three effects of [failing_env] have been started, in order; the
    second one threw. *)
Definition failing_started : state :=
  foldl (λ st e, state_of (EffectComputation_start (run failing_env 20) e st))
        watchers_created [0; 1; 2].

(** ** A batch whose function throws *)

(** User code that performs the writes [ws] in order and then throws
    [err]. *)
Definition writes_then_throw (ws : list (nat * val)) (err : val) : prog :=
  foldr (λ w p, SigSet w.1 w.2 (λ _, p)) (Throw err) ws.

(** ** A memo that was disposed

    [MemoSource.dispose] unsubscribes the memo from its dependencies and
    clears its subscribers; the memo keeps its value and has no flag that
    records the disposal. *)

(** Memo [m] has a value, is in no subscriber set and is not pending:
    nothing is going to call it. *)
Record parked (m : nat) (st : state) : Prop := Parked {
  parked_value : hasValue (memo_of (nodes st) m) = true;
  parked_unsubscribed : ∀ d, ¬ subscribed (OMemo m) (nodes st) d;
  parked_not_pending : OMemo m ∉ pendingSubscribers st
}.

(** [frozen m st st']: memo [m] is parked in [st'] with the cache it has in
    [st], and its compute function was not started between [st] and
    [st']. *)
Record frozen (m : nat) (st st' : state) : Prop := Frozen {
  frozen_parked : parked m st';
  frozen_cache : cache (nodes st') m = cache (nodes st) m;
  frozen_runs : run_count (OMemo m) st' = run_count (OMemo m) st
}.

Definition Post_frozen (m : nat) (t : task) (st : state) (r : result) (st' : state) : Prop :=
  t ≠ TRecompute m → parked m st → frozen m st st'.

(** [kept m g g']: the graph [g'] has memo [m] in the subscriber sets where
    [g] has it, with the same cache. *)
Definition kept (m : nat) (g g' : graph) : Prop :=
  same_for (OMemo m) g g' ∧ cache g' m = cache g m.

(** The memo of the counter has been disposed. *)
Definition counter_memo_disposed : state := upd (MemoSource_dispose 0) counter_started.

(** * Theorems *)

(** ** Basic facts *)

Lemma run_S E fuel t st : run E (S fuel) t st = dispatch E (run E fuel) t st.
Proof. reflexivity. Qed.

Lemma jsset_live_app {A} (s1 s2 : jsset A) :
  jsset_live (s1 ++ s2) = jsset_live s1 ++ jsset_live s2.
Proof. unfold jsset_live. apply omap_app. Qed.

Lemma elem_of_jsset_live {A} (x : A) (s : jsset A) : x ∈ jsset_live s ↔ Some x ∈ s.
Proof.
  unfold jsset_live. rewrite list_elem_of_omap. split.
  - intros (y & Hy & Hid). destruct y; simplify_eq/=. done.
  - intros H. exists (Some x). done.
Qed.

Lemma set_add_elem {A} `{EqDecision A} (x y : A) (l : list A) :
  y ∈ set_add x l ↔ y = x ∨ y ∈ l.
Proof.
  unfold set_add. case_bool_decide as Hx.
  - split; [by right|]. by intros [->|?].
  - rewrite elem_of_app, list_elem_of_singleton. tauto.
Qed.

Lemma set_add_NoDup {A} `{EqDecision A} (x : A) (l : list A) :
  NoDup l → NoDup (set_add x l).
Proof.
  intros Hl. unfold set_add. case_bool_decide; [done|].
  apply NoDup_app. split_and!; [done| |apply NoDup_singleton].
  intros y Hy Hy'. apply list_elem_of_singleton in Hy'. by subst.
Qed.

Lemma set_add_idemp {A} `{EqDecision A} (x : A) (l : list A) :
  set_add x (set_add x l) = set_add x l.
Proof.
  unfold set_add at 1. rewrite bool_decide_eq_true_2; [done|].
  apply set_add_elem. by left.
Qed.

(** *** Looking up what was just written *)

Lemma signal_of_set_signal s s' x g :
  signal_of (set_signal s x g) s' = if decide (s = s') then x else signal_of g s'.
Proof.
  unfold signal_of, set_signal. cbn. rewrite lookup_insert. by case_decide.
Qed.

Lemma memo_of_set_memo m m' x g :
  memo_of (set_memo m x g) m' = if decide (m = m') then x else memo_of g m'.
Proof.
  unfold memo_of, set_memo. cbn. rewrite lookup_insert. by case_decide.
Qed.

Lemma effect_of_set_effect e e' x g :
  effect_of (set_effect e x g) e' = if decide (e = e') then x else effect_of g e'.
Proof.
  unfold effect_of, set_effect. cbn. rewrite lookup_insert. by case_decide.
Qed.

Lemma component_of_set_component c c' x g :
  component_of (set_component c x g) c' = if decide (c = c') then x else component_of g c'.
Proof.
  unfold component_of, set_component. cbn. rewrite lookup_insert. by case_decide.
Qed.

Lemma nodes_upd f st : nodes (upd f st) = f (nodes st).
Proof. done. Qed.

Lemma subscribers_of_set_sig_value s v g d :
  subscribers_of (set_sig_value s v g) d = subscribers_of g d.
Proof.
  destruct d as [s'|m]; [|done]. unfold subscribers_of, set_sig_value.
  rewrite signal_of_set_signal. by case_decide; subst.
Qed.

(** ** The immutable store *)

Lemma store_view_mutable source mutable w :
  store_view source mutable w → view_source w = source ∧ view_mutable w = mutable.
Proof.
  induction 1 as [|w prop st w' st' _ [IHs IHm] Hget]; [done|].
  unfold proxy_get in Hget.
  repeat case_match; simplify_eq/=; done.
Qed.

(** C8.  A store created by [createStore] is the view of an immutable
    Proxy.  Whatever view of it is used (the root or one its [get] trap
    returned for a nested path), an assignment and a [delete] throw the
    "Cannot mutate immutable store" error and leave the whole state as it
    was: the signal still holds the same root and nothing was notified. *)
Theorem immutable_store_rejects_mutation (E : env) (rec : task → state → outcome)
    (source : nat) (w : view) (prop : pkey) (value : val) (st : state) :
  store_view source false w →
  view_set E rec w prop value st = Done (Thrown immutable_error) st ∧
  view_delete E rec w prop st = Done (Thrown immutable_error) st.
Proof.
  intros Hw. apply store_view_mutable in Hw as [_ Hm].
  unfold view_set, view_delete, proxy_set, proxy_deleteProperty.
  by rewrite Hm.
Qed.

Lemma resolves_eq E rec next previous st resolved st1 :
  resolves E rec next previous st resolved st1 →
  match next with
  | VFun f => rec (TProg (fn_body E f previous)) st
  | _ => ret next st
  end = Done (Normal resolved) st1.
Proof.
  unfold resolves. intros Hres.
  destruct next; first [exact Hres | by destruct Hres as [-> ->]].
Qed.

Lemma lookup_merge_props (R P : gmap pkey val) (k : pkey) :
  (R ∪ P) !! k = match R !! k with Some v => Some v | None => P !! k end.
Proof.
  destruct (R !! k) as [v|] eqn:HR.
  - by apply lookup_union_Some_l.
  - by rewrite lookup_union_r.
Qed.

(** C9.  [setStore] with an object-like previous root [P] and an
    object-like argument or updater result [R]: the new root is a fresh
    object holding the properties of [R] and, for the keys [R] lacks, those
    of [P] (values are copied as they are, nothing is merged below the top
    level); its reference differs from [P], so the signal's identity test
    sees a change and the subscribers are notified; the new root is what the
    setter returns. *)
Theorem setStore_shallow_merge (E : env) (rec : task → state → outcome)
    (source : nat) (next : val) (st st1 : state) (p r : nat) :
  sig_value (signal_of (nodes st) source) = VObj p →
  resolves E rec next (VObj p) st (VObj r) st1 →
  sig_value (signal_of (nodes st1) source) = VObj p →
  p < length (heap st1) →
  let P := own_props (object_at (heap st1) p) in
  let R := own_props (object_at (heap st1) r) in
  let merged := VObj (length (heap st1)) in
  let st2 :=
    upd (set_sig_value source merged) (set_heap (heap st1 ++ [OPlain (R ∪ P)]) st1) in
  object_is (VObj p) merged = false ∧
  sig_value (signal_of (nodes st2) source) = merged ∧
  object_at (heap st2) (length (heap st1)) = OPlain (R ∪ P) ∧
  (∀ k, (R ∪ P) !! k = match R !! k with Some v => Some v | None => P !! k end) ∧
  setStore E rec source next st
  = bind (rec (TNotifyAll (DSig source) 0) st2) (λ _ st', ret merged st').
Proof.
  intros Hprev Hres Hprev1 Hlive P R merged st2.
  assert (Hne : object_is (VObj p) merged = false).
  { unfold object_is, merged. apply bool_decide_eq_false. intros [= ->]. lia. }
  split_and!.
  - done.
  - unfold st2, signal_of, set_sig_value, set_signal. simpl. by rewrite lookup_insert_eq.
  - unfold st2, object_at, upd, set_heap. cbn [heap].
    rewrite lookup_app_r by lia. by rewrite Nat.sub_diag.
  - apply lookup_merge_props.
  - unfold setStore. rewrite Hprev.
    rewrite (resolves_eq _ _ _ _ _ _ _ Hres). cbn [bind isObjectLike andb]. unfold alloc, SignalSource_set.
    cbn [nodes set_heap]. rewrite Hprev1. cbn [bind ret]. fold merged. rewrite Hne. reflexivity.
Qed.

(** ** The keyed array projection: reordering *)

Lemma call_update_nothing o item index s :
  update_writes_nothing o → call_update o item index s = Some s.
Proof.
  unfold update_writes_nothing, call_update. destruct (opt_update o) as [u|]; [|done].
  intros ->. done.
Qed.

Lemma object_is_refl v : object_is v v = true.
Proof. unfold object_is. by apply bool_decide_eq_true. Qed.

Lemma object_is_ne v w : v ≠ w → object_is v w = false.
Proof. unfold object_is. by apply bool_decide_eq_false. Qed.

Lemma target_call_root h t l call keys0 calls :
  h !! t = Some (OArray l) →
  target_call call (Projection (VObj t) keys0 h calls)
  = let '(elems, result, h') := apply_native call l (h ++ [OArray l]) in
    (result, Projection (VObj (length h)) keys0 (<[length h := OArray elems]> h') calls).
Proof.
  intros Ht. unfold target_call, method_root. cbn [getAtPath pheap target_root].
  unfold object_at. rewrite Ht. cbn [default from_option id alloc].
  destruct (apply_native call l (h ++ [OArray l])) as [[elems result] h'].
  cbn [setAtPath mbind option_bind]. reflexivity.
Qed.

Lemma target_is_elems s l : target_is s l → target_elems s = l.
Proof.
  intros (t & Hr & Ht). unfold target_elems, object_at. by rewrite Hr, Ht.
Qed.

Lemma target_call_spec call s l :
  target_is s l →
  target_is (target_call call s).2 (native_elems call l)
  ∧ keys (target_call call s).2 = keys s
  ∧ map_calls (target_call call s).2 = map_calls s
  ∧ match call with
    | Splice start deleteCount _ =>
        first_of (pheap (target_call call s).2) (target_call call s).1
        = default VUndef (take deleteCount (drop start l) !! 0)
    | _ => True
    end.
Proof.
  destruct s as [root ks h calls]. intros (t & Hr & Ht). simpl in Hr, Ht. subst root.
  rewrite (target_call_root _ _ _ _ _ _ Ht).
  destruct call as [start deleteCount items| |items]; cbn [apply_native alloc fst snd native_elems].
  - split_and!; [|done|done|].
    + exists (length h). cbn [target_root pheap]. split; [done|].
      apply list_lookup_insert_eq. rewrite !length_app. simpl. lia.
    + unfold first_of, read_prop, object_at. cbn [pheap].
      rewrite list_lookup_insert_ne by (rewrite length_app; simpl; lia).
      rewrite lookup_app_r by done. rewrite Nat.sub_diag. done.
  - split_and!; [|done|done|done].
    exists (length h). cbn [target_root pheap]. split; [done|].
    apply list_lookup_insert_eq. rewrite !length_app. simpl. lia.
  - split_and!; [|done|done|done].
    exists (length h). cbn [target_root pheap]. split; [done|].
    apply list_lookup_insert_eq. rewrite !length_app. simpl. lia.
Qed.

Lemma mutate_step_keep o item nextKey index s k :
  update_writes_nothing o →
  keys s !! index = Some k → object_is k nextKey = true →
  mutate_step o item nextKey index s = Some s.
Proof.
  intros Hu Hk Hsame. unfold mutate_step.
  rewrite bool_decide_eq_true_2 by (by eapply lookup_lt_Some).
  rewrite Hk. cbn [default from_option id andb]. rewrite Hsame.
  by apply call_update_nothing.
Qed.

Lemma mutate_step_move o item nextKey index s l foundIndex :
  update_writes_nothing o →
  target_is s l →
  object_is (default VUndef (keys s !! index)) nextKey = false →
  find_from (keys s) index nextKey = Some foundIndex →
  ∃ s', mutate_step o item nextKey index s = Some s'
    ∧ target_is s'
        (let l' := take foundIndex l ++ drop (S foundIndex) l in
         take index l' ++ [default VUndef (l !! foundIndex)] ++ drop index l')
    ∧ keys s'
      = (let ks := take foundIndex (keys s) ++ drop (S foundIndex) (keys s) in
         take index ks ++ [default VUndef (keys s !! foundIndex)] ++ drop index ks)
    ∧ map_calls s' = map_calls s.
Proof.
  intros Hu Hl Hdiff Hfind. unfold mutate_step.
  rewrite Hdiff, andb_false_r, Hfind.
  destruct (target_call_spec (Splice foundIndex 1 []) s l Hl) as (Hl1 & Hk1 & Hc1 & Hfirst).
  destruct (target_call (Splice foundIndex 1 []) s) as [removed s1]. cbn [fst snd] in *.
  set (moved := first_of (pheap s1) removed) in *.
  destruct (target_call_spec (Splice index 0 [moved]) s1 _ Hl1) as (Hl2 & Hk2 & Hc2 & _).
  destruct (target_call (Splice index 0 [moved]) s1) as [ignored s2]. cbn [fst snd] in *.
  eexists. split; [by apply call_update_nothing|]. cbn [target_root pheap keys map_calls].
  split_and!.
  - destruct Hl2 as (t & Hr & Ht). exists t. cbn [target_root pheap]. split; [done|].
    rewrite Ht. f_equal. f_equal. cbn [native_elems]. rewrite Nat.add_0_r.
    rewrite Hfirst. rewrite Nat.add_1_r. cbn [app].
    replace (take 1 (drop foundIndex l) !! 0) with (l !! foundIndex); [done|].
    rewrite lookup_take_lt by lia. rewrite lookup_drop. by rewrite Nat.add_0_r.
  - by rewrite Hk1.
  - congruence.
Qed.

(** C7 (as amended).  The projection holds the items [Pa], [Pb], [Pc] under
    the keys [a], [b], [c]; the source changes to items whose keys are [c],
    [a], [b], where [c] differs from [a] and [b].  The update never calls
    [map]; the keys become [c], [a], [b]; and when the projection has no
    [update] callback, or one that assigns nothing, the projected array is
    [Pc], [Pa], [Pb]: the same three references, moved by one forward scan
    and two splices. *)
Theorem keyed_reorder_reuses_items (o : ArrayProjectionOptions) (s : projection)
    (a b c Pa Pb Pc sa sb sc : val) :
  target_is s [Pa; Pb; Pc] →
  keys s = [a; b; c] →
  c ≠ a → c ≠ b →
  keyFn o (pheap s) sc 0 = c →
  keyFn o (pheap s) sa 1 = a →
  keyFn o (pheap s) sb 2 = b →
  update_writes_nothing o →
  ∃ s', mutate o [sc; sa; sb] s = Some s'
    ∧ target_elems s' = [Pc; Pa; Pb]
    ∧ keys s' = [c; a; b]
    ∧ map_calls s' = map_calls s.
Proof.
  intros Hl Hk Hca Hcb Hkc Hka Hkb Hu.
  unfold mutate. cbn [imap zip zip_with]. unfold compose. rewrite Hkc, Hka, Hkb.
  cbn [mutate_loop].
  destruct (mutate_step_move o sc c 0 s [Pa; Pb; Pc] 2 Hu Hl) as (s1 & Hs1 & Hl1 & Hk1 & Hc1).
  { rewrite Hk. cbn. apply object_is_ne. congruence. }
  { rewrite Hk. unfold find_from. cbn [drop list_find].
    rewrite (decide_False (P := object_is b c = true))
      by (rewrite object_is_ne by congruence; done).
    rewrite (decide_True (P := object_is c c = true)) by apply object_is_refl.
    done. }
  rewrite Hs1. cbn [mbind option_bind]. rewrite Hk in Hk1. cbn in Hl1, Hk1.
  rewrite (mutate_step_keep o sa a 1 s1 a Hu);
    [|by rewrite Hk1|apply object_is_refl].
  cbn [mbind option_bind].
  rewrite (mutate_step_keep o sb b 2 s1 b Hu);
    [|by rewrite Hk1|apply object_is_refl].
  cbn [mbind option_bind].
  rewrite (target_is_elems _ _ Hl1). simpl length. cbn [pop_target].
  rewrite (target_is_elems _ _ Hl1). simpl length.
  rewrite bool_decide_eq_false_2 by lia.
  eexists. split; [done|]. cbn [target_root pheap keys map_calls].
  split_and!.
  - destruct Hl1 as (t & Hr & Ht). unfold target_elems, object_at. cbn [target_root pheap].
    by rewrite Hr, Ht.
  - by rewrite Hk1.
  - done.
Qed.

(** ** Reasoning about the interpreter *)

Lemma wp_mono o (Q Q' : result → state → Prop) :
  wp o Q → (∀ r st, Q r st → Q' r st) → wp o Q'.
Proof. destruct o; simpl; auto. Qed.

Lemma wp_ret v st (Q : result → state → Prop) : Q (Normal v) st → wp (ret v st) Q.
Proof. done. Qed.

Lemma wp_bind o k (Q : result → state → Prop) :
  wp o (λ r st, match r with
                | Normal v => wp (k v st) Q
                | Thrown e => Q (Thrown e) st
                end) →
  wp (bind o k) Q.
Proof. destruct o as [|[v|e] st]; simpl; auto. Qed.

Lemma wp_finally o fin (Q : result → state → Prop) :
  wp o (λ r st, wp (fin st) (λ r' st',
                  match r' with
                  | Normal _ => Q r st'
                  | Thrown e => Q (Thrown e) st'
                  end)) →
  wp (finally o fin) Q.
Proof.
  destruct o as [|r st]; simpl; [done|].
  destruct (fin st) as [|[v|e] st']; simpl; auto.
Qed.

Lemma wp_for_each {A} (body : A → state → outcome) (I : state → Prop)
    (Q : result → state → Prop) xs st :
  I st →
  (∀ x st, x ∈ xs → I st →
     wp (body x st) (λ r st', match r with
                              | Normal _ => I st'
                              | Thrown e => Q (Thrown e) st'
                              end)) →
  (∀ st, I st → Q (Normal VUndef) st) →
  wp (for_each body xs st) Q.
Proof.
  intros HI Hbody HQ. revert st HI. induction xs as [|x xs IH]; intros st HI; simpl.
  { by apply HQ. }
  apply wp_bind. eapply wp_mono; [apply Hbody; [by left|done]|].
  intros [v|e] st' Hr; [|done].
  apply IH; [|done]. intros y st'' Hy. apply Hbody. by right.
Qed.

Lemma run_wp (E : env) (Post : task → state → result → state → Prop) :
  (∀ rec, rec_ok rec Post → ∀ t st, wp (dispatch E rec t st) (Post t st)) →
  ∀ fuel, rec_ok (run E fuel) Post.
Proof.
  intros Hstep fuel. induction fuel as [|fuel IH]; intros t st; simpl; [done|].
  by apply Hstep.
Qed.

Lemma wp_rec rec Post t st (Q : result → state → Prop) :
  rec_ok rec Post → (∀ r st', Post t st r st' → Q r st') → wp (rec t st) Q.
Proof. intros Hrec HQ. eapply wp_mono; [apply Hrec|done]. Qed.

(** ** The scheduler's bookkeeping is restored by every call *)

Lemma basic_refl c st : basic c st st.
Proof.
  split; try done. exists []. split; [by rewrite app_nil_r|]. intros _ _. constructor.
Qed.

Lemma basic_trans c st1 st2 st3 : basic c st1 st2 → basic c st2 st3 → basic c st1 st3.
Proof.
  intros [Hs1 Hd1 Ha1 (l1 & Ht1 & Hq1)] [Hs2 Hd2 Ha2 (l2 & Ht2 & Hq2)].
  split; try congruence.
  exists (l1 ++ l2). split.
  - by rewrite Ht2, Ht1, app_assoc.
  - intros Hc Hb. apply Forall_app. split; [by apply Hq1|].
    apply Hq2; [done|]. by rewrite Hd1.
Qed.

Lemma basic_weaken (c c' : Prop) st st' : (c' → c) → basic c st st' → basic c' st st'.
Proof.
  intros Hcc [Hs Hd Ha (l & Ht & Hq)]. split; try done. exists l. split; [done|]. auto.
Qed.

Lemma basic_not_batching c st st' :
  ¬ (0 < batchDepth st)%Z → basic False st st' → basic c st st'.
Proof.
  intros Hb [Hs Hd Ha (l & Ht & Hq)]. split; try done. exists l. split; [done|].
  intros _ Hb'. done.
Qed.

Lemma basic_fields c st st' :
  collectorStack st' = collectorStack st → batchDepth st' = batchDepth st →
  activeEffect st' = activeEffect st → trace st' = trace st →
  basic c st st'.
Proof.
  intros Hs Hd Ha Ht. split; try done. exists []. split; [by rewrite app_nil_r|].
  intros _ _. constructor.
Qed.

Lemma basic_upd c f st : basic c st (upd f st).
Proof. by apply basic_fields. Qed.

Lemma basic_set_pending c x st : basic c st (set_pendingSubscribers x st).
Proof. by apply basic_fields. Qed.

Lemma basic_set_heap c x st : basic c st (set_heap x st).
Proof. by apply basic_fields. Qed.

Lemma basic_set_console c x st : basic c st (set_console x st).
Proof. by apply basic_fields. Qed.

Lemma basic_emit c ev st : (c → is_invoke ev = false) → basic c st (emit ev st).
Proof.
  intros Hev. split; try done. exists [ev]. split; [done|].
  intros Hc _. constructor; [by apply Hev|constructor].
Qed.

Lemma basic_trackDependency c d st : basic c st (trackDependency d st).
Proof.
  unfold trackDependency. destruct (currentCollector st); [apply basic_upd|apply basic_refl].
Qed.

(** The brackets: a field is changed before a call and restored after it. *)

Lemma exists_last_or_nil {A} (l : list A) : l = [] ∨ ∃ l' x, l = l' ++ [x].
Proof. destruct l as [|x l] using rev_ind; [by left|right; eauto]. Qed.

Lemma basic_pop_push c o st st1 :
  basic c (pushCollector o st) st1 → basic c st (popCollector st1).
Proof.
  intros [Hs Hd Ha Ht]. split; try done.
  cbn in *. rewrite Hs. by rewrite removelast_last.
Qed.

Lemma basic_push_pop c st st1 :
  basic c (popCollector st) st1 →
  basic c st (match last (collectorStack st) with
              | Some o => pushCollector o st1
              | None => st1
              end).
Proof.
  intros [Hs Hd Ha Ht].
  destruct (exists_last_or_nil (collectorStack st)) as [Hst|(l0 & o0 & Hst)].
  - cbn in *. rewrite Hst in *. simpl in *. split; try done. congruence.
  - rewrite Hst, last_snoc. split; try done. cbn in *. rewrite Hst in *.
    rewrite Hs. by rewrite removelast_last.
Qed.

Lemma basic_batch c st st1 :
  basic c (set_batchDepth (batchDepth st + 1) st) st1 →
  basic c st (set_batchDepth (batchDepth st1 - 1) st1).
Proof.
  intros [Hs Hd Ha (l & Ht & Hq)]. split; try done.
  - cbn in *. lia.
  - exists l. split; [done|]. intros Hc Hb. apply Hq; [done|]. cbn. lia.
Qed.

Lemma basic_active_effect c x st st1 :
  basic c (set_activeEffect x st) st1 →
  basic c st (set_activeEffect (activeEffect st) st1).
Proof. intros [Hs Hd Ha Ht]. by split. Qed.

Section BasicStep.
Variable E : env.
Variable rec : task → state → outcome.
Hypothesis Hrec : rec_ok rec Post_basic.

Create HintDb basic.
Local Hint Resolve basic_refl basic_upd basic_set_pending basic_set_heap
  basic_set_console basic_trackDependency : basic.

Lemma wp_rec_basic t st (Q : result → state → Prop) :
  t ≠ TFlush → (∀ r st', basic True st st' → Q r st') → wp (rec t st) Q.
Proof using Hrec.
  intros Ht HQ. eapply wp_rec; [exact Hrec|]. intros r st' Hp. apply HQ.
  by eapply basic_weaken; [|exact Hp].
Qed.

Lemma wp_rec_flush st (Q : result → state → Prop) :
  (∀ r st', basic False st st' → Q r st') → wp (rec TFlush st) Q.
Proof using Hrec.
  intros HQ. eapply wp_rec; [exact Hrec|]. intros r st' Hp. apply HQ.
  by eapply basic_weaken; [|exact Hp].
Qed.

Lemma wp_subscribe d cb st (Q : result → state → Prop) :
  (∀ r st', basic True st st' → Q r st') → wp (subscribe rec d cb st) Q.
Proof using Hrec.
  intros HQ. unfold subscribe. destruct d as [s|m].
  - apply wp_ret, HQ. auto with basic.
  - destruct (hasValue _).
    + apply wp_ret, HQ. auto with basic.
    + apply wp_rec_basic; [done|]. intros r st' Hb. apply HQ.
      eapply basic_trans; [|exact Hb]. auto with basic.
Qed.

Lemma wp_reconcileSubscriptions o nextDeps st (Q : result → state → Prop) :
  (∀ r st', basic True st st' → Q r st') →
  wp (reconcileSubscriptions rec o nextDeps st) Q.
Proof using Hrec.
  intros HQ. unfold reconcileSubscriptions, add_new.
  apply (wp_for_each _ (λ st', basic True st st')).
  - auto with basic.
  - intros d st1 _ Hb1. case_bool_decide.
    + by apply wp_ret.
    + apply wp_bind, wp_subscribe. intros [v|e] st2 Hb2.
      * apply wp_ret. eapply basic_trans; [exact Hb1|].
        eapply basic_trans; [exact Hb2|]. auto with basic.
      * apply HQ. by eapply basic_trans.
  - intros st' Hb. by apply HQ.
Qed.

Lemma wp_collect o fn st (Q : result → state → Prop) :
  (∀ r st', basic True st st' → Q r st') → wp (collect rec o fn st) Q.
Proof using Hrec.
  intros HQ. unfold collect. apply wp_finally, wp_rec_basic; [done|].
  intros r st1 Hb1. apply basic_pop_push in Hb1.
  apply wp_reconcileSubscriptions. intros r' st2 Hb2.
  assert (basic True st st2) as Hb.
  { eapply basic_trans; [|exact Hb2]. eapply basic_trans; [|exact Hb1].
    apply (basic_trans _ _ (emit (EvRun o) st)); [by apply basic_emit|apply basic_upd]. }
  destruct r'; by apply HQ.
Qed.

Lemma wp_schedule e st (Q : result → state → Prop) :
  (∀ r st', basic True st st' → Q r st') → wp (EffectComputation_schedule rec e st) Q.
Proof using Hrec.
  intros HQ. unfold EffectComputation_schedule.
  destruct (disposed _); [apply wp_ret, HQ; auto with basic|].
  destruct (running _); [apply wp_ret, HQ; auto with basic|].
  apply wp_rec_basic; [done|]. done.
Qed.

Lemma wp_runCleanups e st (Q : result → state → Prop) :
  (∀ r st', basic True st st' → Q r st') → wp (runCleanups E rec e st) Q.
Proof using Hrec.
  intros HQ. unfold runCleanups.
  apply (wp_for_each _ (λ st', basic True st st')).
  - auto with basic.
  - intros f st1 _ Hb1. apply wp_rec_basic; [done|]. intros [v|err] st2 Hb2.
    + by eapply basic_trans.
    + apply HQ. by eapply basic_trans.
  - intros st' Hb. by apply HQ.
Qed.

Lemma wp_execute e st (Q : result → state → Prop) :
  (∀ r st', basic True st st' → Q r st') → wp (EffectComputation_execute E rec e st) Q.
Proof using Hrec.
  intros HQ. unfold EffectComputation_execute.
  destruct (disposed _); [apply wp_ret, HQ; auto with basic|].
  apply wp_bind, wp_runCleanups. intros [v|err] st1 Hb1; [|apply HQ].
  2:{ eapply basic_trans; [|exact Hb1]. by apply basic_fields. }
  assert (basic True st st1) as Hb1'.
  { eapply basic_trans; [|exact Hb1]. by apply basic_fields. }
  clear Hb1. apply wp_bind, wp_finally, wp_bind, wp_collect.
  intros r st2 Hb2.
  assert (∀ r' st3, basic True st2 st3 →
    wp (ret VUndef (upd (set_running e false) (set_activeEffect (activeEffect st1) st3)))
       (λ r'' st4,
          match r'' with
          | Normal _ =>
              match r' with
              | Normal v0 =>
                  wp (if scheduled (effect_of (nodes st4) e)
                      then rec (TExecute e) st4 else ret VUndef st4) Q
              | Thrown e0 => Q (Thrown e0) st4
              end
          | Thrown e0 => Q (Thrown e0) st4
          end)) as Hfin.
  { intros r' st3 Hb3. apply wp_ret.
    assert (basic True st (upd (set_running e false)
                             (set_activeEffect (activeEffect st1) st3))) as Hb4.
    { eapply basic_trans; [exact Hb1'|].
      eapply basic_trans; [|apply basic_upd].
      apply (basic_active_effect _ (Some e)). by eapply basic_trans. }
    destruct r' as [v0|e0]; [|by apply HQ].
    destruct (scheduled _); [|by apply wp_ret, HQ].
    apply wp_rec_basic; [done|]. intros r'' st5 Hb5. apply HQ. by eapply basic_trans. }
  destruct r as [maybeCleanup|err].
  - destruct maybeCleanup; apply wp_ret; apply (Hfin (Normal VUndef)); auto with basic.
  - apply (Hfin (Thrown err)). auto with basic.
Qed.

Lemma wp_recompute m st (Q : result → state → Prop) :
  (∀ r st', basic True st st' → Q r st') → wp (MemoSource_recompute E rec m st) Q.
Proof using Hrec.
  intros HQ. unfold MemoSource_recompute.
  destruct (computing _); [apply wp_ret, HQ; auto with basic|].
  apply wp_finally, wp_bind, wp_collect. intros r st1 Hb1.
  assert (basic True st st1) as Hb1'.
  { eapply basic_trans; [|exact Hb1]. auto with basic. }
  assert (∀ r' st2, basic True st1 st2 →
    wp (ret VUndef (upd (set_computing m false) st2))
       (λ r'' st3, match r'' with
                   | Normal _ => Q r' st3
                   | Thrown e0 => Q (Thrown e0) st3
                   end)) as Hfin.
  { intros r' st2 Hb2. apply wp_ret. apply HQ.
    eapply basic_trans; [exact Hb1'|]. eapply basic_trans; [exact Hb2|]. auto with basic. }
  destruct r as [nextValue|err]; [|apply Hfin; auto with basic].
  destruct (negb _ || negb _).
  - apply wp_rec_basic; [done|]. intros r' st2 Hb2. apply Hfin.
    eapply basic_trans; [|exact Hb2]. auto with basic.
  - apply wp_ret, Hfin. auto with basic.
Qed.

Lemma wp_MemoSource_get m st (Q : result → state → Prop) :
  (∀ r st', basic True st st' → Q r st') → wp (MemoSource_get rec m st) Q.
Proof using Hrec.
  intros HQ. unfold MemoSource_get. apply wp_bind.
  destruct (hasValue _).
  - apply wp_ret, wp_ret, HQ. auto with basic.
  - apply wp_rec_basic; [done|]. intros [v|err] st1 Hb1.
    + apply wp_ret, HQ. eapply basic_trans; [|exact Hb1]. auto with basic.
    + apply HQ. eapply basic_trans; [|exact Hb1]. auto with basic.
Qed.

Lemma wp_call_subscriber cb st (Q : result → state → Prop) :
  (∀ r st', basic False st st' → Q r st') → wp (call_subscriber rec cb st) Q.
Proof using Hrec.
  intros HQ. unfold call_subscriber.
  assert (basic False st (emit (EvInvoke cb) st)) as Hb0 by (by apply basic_emit).
  destruct cb as [m|e|c].
  - apply wp_rec_basic; [done|]. intros r st1 Hb1. apply HQ.
    eapply basic_trans; [exact Hb0|]. by eapply basic_weaken; [|exact Hb1].
  - apply wp_schedule. intros r st1 Hb1. apply HQ.
    eapply basic_trans; [exact Hb0|]. by eapply basic_weaken; [|exact Hb1].
  - destruct (suppressRenderInvalidation _); apply wp_ret, HQ; [done|].
    eapply basic_trans; [exact Hb0|]. apply basic_upd.
Qed.

Lemma wp_notifySubscriber cb st (Q : result → state → Prop) :
  (∀ r st', basic True st st' → Q r st') → wp (notifySubscriber rec cb st) Q.
Proof using Hrec.
  intros HQ. unfold notifySubscriber.
  assert (basic True st (emit (EvNotify cb) st)) as Hb0 by (by apply basic_emit).
  case_bool_decide as Hd.
  - apply wp_ret, HQ. eapply basic_trans; [exact Hb0|]. apply basic_set_pending.
  - apply wp_call_subscriber. intros r st1 Hb1. apply HQ.
    eapply basic_trans; [exact Hb0|]. by apply basic_not_batching.
Qed.

Lemma wp_flushSubscribers st (Q : result → state → Prop) :
  (∀ r st', basic False st st' → Q r st') → wp (flushSubscribers rec st) Q.
Proof using Hrec.
  intros HQ. unfold flushSubscribers.
  destruct (pendingSubscribers st) as [|cb queued] eqn:Hp; [apply wp_ret, HQ, basic_refl|].
  apply wp_bind.
  apply (wp_for_each _ (λ st', basic False st st')).
  - apply basic_set_pending.
  - intros cb' st1 _ Hb1. apply wp_call_subscriber. intros [v|err] st2 Hb2.
    + by eapply basic_trans.
    + apply HQ. by eapply basic_trans.
  - intros st1 Hb1. apply wp_rec_flush. intros r st2 Hb2. apply HQ.
    by eapply basic_trans.
Qed.

Lemma wp_notify_all d i st (Q : result → state → Prop) :
  (∀ r st', basic True st st' → Q r st') → wp (notify_all rec d i st) Q.
Proof using Hrec.
  intros HQ. unfold notify_all.
  destruct (subscribers_of (nodes st) d !! i) as [[cb|]|].
  - apply wp_bind, wp_notifySubscriber. intros [v|err] st1 Hb1; [|by apply HQ].
    apply wp_rec_basic; [done|]. intros r st2 Hb2. apply HQ. by eapply basic_trans.
  - apply wp_rec_basic; [done|]. done.
  - apply wp_ret, HQ, basic_refl.
Qed.

Lemma wp_SignalSource_set s v st (Q : result → state → Prop) :
  (∀ r st', basic True st st' → Q r st') → wp (SignalSource_set E rec s v st) Q.
Proof using Hrec.
  intros HQ. unfold SignalSource_set. apply wp_bind.
  assert (∀ resolved st1, basic True st st1 →
    wp (let st2 := upd (set_sig_value s resolved) st1 in
        bind (if object_is (sig_value (signal_of (nodes st) s)) resolved
              then ret VUndef st2 else rec (TNotifyAll (DSig s) 0) st2)
             (λ _ st3, ret resolved st3)) Q) as Hk.
  { intros resolved st1 Hb1. cbn zeta. apply wp_bind.
    destruct (object_is _ _).
    - apply wp_ret, wp_ret, HQ. eapply basic_trans; [exact Hb1|]. apply basic_upd.
    - apply wp_rec_basic; [done|]. intros [v'|err] st2 Hb2.
      + apply wp_ret, HQ. eapply basic_trans; [exact Hb1|].
        eapply basic_trans; [apply basic_upd|exact Hb2].
      + apply HQ. eapply basic_trans; [exact Hb1|].
        eapply basic_trans; [apply basic_upd|exact Hb2]. }
  destruct v; try (apply wp_ret, Hk, basic_refl).
  apply wp_rec_basic; [done|]. intros [v'|err] st1 Hb1; [by apply Hk|by apply HQ].
Qed.

Lemma wp_batch fn st (Q : result → state → Prop) :
  (∀ r st', basic True st st' → Q r st') → wp (batch rec fn st) Q.
Proof using Hrec.
  intros HQ. unfold batch. apply wp_finally, wp_rec_basic; [done|].
  intros r st1 Hb1. apply basic_batch in Hb1. cbn zeta.
  case_bool_decide as Hz.
  - apply wp_rec_flush. intros r' st2 Hb2.
    assert (basic True st st2) as Hb.
    { eapply basic_trans; [exact Hb1|]. apply basic_not_batching; [|done].
      rewrite Hz. lia. }
    destruct r'; by apply HQ.
  - apply wp_ret. by apply HQ.
Qed.

Lemma wp_untrack fn st (Q : result → state → Prop) :
  (∀ r st', basic True st st' → Q r st') → wp (untrack rec fn st) Q.
Proof using Hrec.
  intros HQ. unfold untrack. apply wp_finally, wp_rec_basic; [done|].
  intros r st1 Hb1. apply basic_push_pop in Hb1.
  destruct (last (collectorStack st)); apply wp_ret; by apply HQ.
Qed.

Lemma wp_exec p st (Q : result → state → Prop) :
  (∀ r st', basic True st st' → Q r st') → wp (exec E rec p st) Q.
Proof using Hrec.
  intros HQ.
  assert (∀ p' st1, basic True st st1 → wp (rec (TProg p') st1) Q) as Hk.
  { intros p' st1 Hb1. apply wp_rec_basic; [done|]. intros r st2 Hb2. apply HQ.
    by eapply basic_trans. }
  destruct p; cbn [exec].
  - apply HQ, basic_refl.
  - apply HQ, basic_refl.
  - unfold SignalSource_get. apply wp_bind, wp_ret, Hk. apply basic_trackDependency.
  - apply wp_bind, wp_SignalSource_set. intros [v'|err] st1 Hb1; [by apply Hk|by apply HQ].
  - apply wp_bind, wp_MemoSource_get. intros [v'|err] st1 Hb1; [by apply Hk|by apply HQ].
  - apply wp_bind, wp_untrack. intros [v'|err] st1 Hb1; [by apply Hk|by apply HQ].
  - apply wp_bind, wp_batch. intros [v'|err] st1 Hb1; [by apply Hk|by apply HQ].
  - pose proof (wp_rec_basic (TProg p) st
                  (λ r st1, basic True st st1)) as Hp.
    destruct (rec (TProg p) st) as [|[v'|err] st1]; [done| |].
    + apply Hk. apply Hp; [done|auto].
    + apply wp_bind. apply wp_rec_basic; [done|]. intros [v'|err'] st2 Hb2.
      * apply Hk. eapply basic_trans; [|exact Hb2]. apply Hp; [done|auto].
      * apply HQ. eapply basic_trans; [|exact Hb2]. apply Hp; [done|auto].
  - apply Hk. apply basic_set_console.
  - apply Hk. apply basic_set_heap.
  - apply Hk. apply basic_refl.
Qed.

Lemma dispatch_basic t st : wp (dispatch E rec t st) (Post_basic t st).
Proof using Hrec.
  unfold Post_basic. destruct t; simpl.
  - apply wp_exec. intros r st' Hb. by eapply basic_weaken; [|exact Hb].
  - apply wp_notify_all. intros r st' Hb. by eapply basic_weaken; [|exact Hb].
  - apply wp_flushSubscribers. intros r st' Hb. by eapply basic_weaken; [|exact Hb].
  - apply wp_recompute. intros r st' Hb. by eapply basic_weaken; [|exact Hb].
  - apply wp_execute. intros r st' Hb. by eapply basic_weaken; [|exact Hb].
Qed.
End BasicStep.

Lemma run_basic E fuel : rec_ok (run E fuel) Post_basic.
Proof. apply run_wp. intros rec Hrec t st. by apply dispatch_basic. Qed.

(** ** untrack *)

Lemma run_mono_fuel_read_all E ss : ∀ fuel st,
  length ss < fuel →
  run E fuel (TProg (read_all ss)) st
  = Done (Normal VUndef) (foldl (λ st s, trackDependency (DSig s) st) st ss).
Proof.
  induction ss as [|s ss IH]; intros fuel st Hfuel.
  - destruct fuel; [simpl in Hfuel; lia|]. done.
  - destruct fuel; [simpl in Hfuel; lia|]. simpl in Hfuel.
    rewrite run_S. cbn [read_all foldr dispatch exec]. unfold SignalSource_get.
    cbn [bind ret]. fold (read_all ss). rewrite IH by lia. done.
Qed.

Lemma track_all_no_collector ss : ∀ st,
  collectorStack st = [] →
  foldl (λ st s, trackDependency (DSig s) st) st ss = st.
Proof.
  induction ss as [|s ss IH]; intros st Hst; [done|]. simpl.
  unfold trackDependency at 2, currentCollector. rewrite Hst. simpl. by apply IH.
Qed.

Lemma track_all_collector ss o rest : ∀ st,
  collectorStack st = rest ++ [o] →
  foldl (λ st s, trackDependency (DSig s) st) st ss = upd (add_reads o ss) st.
Proof.
  induction ss as [|s ss IH]; intros st Hst.
  - by destruct st.
  - simpl. unfold trackDependency at 2, currentCollector. rewrite Hst, last_snoc.
    rewrite IH by done. done.
Qed.

(** C10.  [untrack(fn)] pops the collector on top of the stack, runs [fn]
    and pushes the collector back.  When that collector was the only one,
    the signals read by [fn] are registered nowhere: the state after the
    call is the state before it.  When collectors are nested, the reads are
    registered with the next one down the stack ([outer]), not with the
    popped one, and the stack is as before. *)
Theorem untrack_pops_only_the_top (E : env) (fuel : nat) (ss : list nat)
    (st : state) (top : owner) :
  length ss + 2 < fuel →
  (collectorStack st = [top] →
     run E fuel (TProg (Untrack (read_all ss) Ret)) st = Done (Normal VUndef) st)
  ∧ (∀ rest outer,
       collectorStack st = rest ++ [outer; top] →
       run E fuel (TProg (Untrack (read_all ss) Ret)) st
       = Done (Normal VUndef) (upd (add_reads outer ss) st)).
Proof.
  intros Hfuel.
  destruct fuel as [|[|fuel]]; [lia|lia|].
  split.
  - intros Hst. rewrite run_S. cbn [dispatch exec]. unfold untrack.
    rewrite run_mono_fuel_read_all by lia.
    rewrite track_all_no_collector by (cbn; by rewrite Hst).
    rewrite Hst. cbn. destruct st; simpl in *; by subst.
  - intros rest outer Hst.
    assert (collectorStack st = (rest ++ [outer]) ++ [top]) as Hst'
      by (by rewrite Hst, <- app_assoc).
    rewrite run_S. cbn [dispatch exec]. unfold untrack.
    rewrite run_mono_fuel_read_all by lia.
    rewrite (track_all_collector _ outer rest)
      by (cbn; by rewrite Hst', removelast_last).
    rewrite Hst', last_snoc.
    cbn. f_equal. unfold pushCollector, popCollector, upd, set_collectorStack.
    cbn. rewrite Hst', removelast_last. by rewrite <- Hst'.
Qed.

(** ** Signals: notification on change *)

Lemma wp_done o (Q : result → state → Prop) r st : wp o Q → o = Done r st → Q r st.
Proof. by intros Hwp ->. Qed.

Lemma notifySubscriber_batching rec cb st :
  (0 < batchDepth st)%Z → notifySubscriber rec cb st = ret VUndef (enqueue cb st).
Proof. intros Hb. unfold notifySubscriber. cbn. by rewrite bool_decide_eq_true_2. Qed.

Lemma enqueue_all_fields cbs : ∀ st,
  nodes (foldl (λ st cb, enqueue cb st) st cbs) = nodes st
  ∧ batchDepth (foldl (λ st cb, enqueue cb st) st cbs) = batchDepth st
  ∧ collectorStack (foldl (λ st cb, enqueue cb st) st cbs) = collectorStack st
  ∧ trace (foldl (λ st cb, enqueue cb st) st cbs) = trace st ++ (EvNotify <$> cbs)
  ∧ pendingSubscribers (foldl (λ st cb, enqueue cb st) st cbs)
    = foldl (λ l cb, set_add cb l) (pendingSubscribers st) cbs.
Proof.
  induction cbs as [|cb cbs IH]; intros st; simpl.
  { by rewrite app_nil_r. }
  destruct (IH (enqueue cb st)) as (-> & -> & -> & -> & ->). cbn.
  by rewrite <- app_assoc.
Qed.

(** While a batch is open, the loop over the subscribers of [d] queues every
    subscriber and calls none. *)
Lemma notify_all_batching E d : ∀ n i fuel st,
  (0 < batchDepth st)%Z →
  length (subscribers_of (nodes st) d) - i ≤ n → n < fuel →
  run E fuel (TNotifyAll d i) st
  = Done (Normal VUndef)
         (foldl (λ st cb, enqueue cb st) st
                (jsset_live (drop i (subscribers_of (nodes st) d)))).
Proof.
  induction n as [|n IH]; intros i fuel st Hb Hlen Hfuel.
  - destruct fuel; [lia|]. rewrite run_S. cbn [dispatch]. unfold notify_all.
    rewrite lookup_ge_None_2 by lia. rewrite drop_ge by lia. done.
  - destruct fuel; [lia|]. rewrite run_S. cbn [dispatch]. unfold notify_all.
    destruct (subscribers_of (nodes st) d !! i) as [slot|] eqn:Hslot.
    2:{ apply lookup_ge_None in Hslot. rewrite drop_ge by lia. done. }
    rewrite (drop_S _ _ _ Hslot).
    destruct slot as [cb|].
    + rewrite notifySubscriber_batching by done. cbn [bind ret].
      apply lookup_lt_Some in Hslot.
      rewrite IH; [reflexivity|done|change (nodes (enqueue cb st)) with (nodes st); lia|lia].
    + apply lookup_lt_Some in Hslot. rewrite IH; [reflexivity|done|lia|lia].
Qed.

(** With no subscriber left from index [i] on, the loop does nothing. *)
Lemma notify_all_no_subscriber E d : ∀ fuel i st r st',
  jsset_live (drop i (subscribers_of (nodes st) d)) = [] →
  run E fuel (TNotifyAll d i) st = Done r st' →
  r = Normal VUndef ∧ st' = st.
Proof.
  induction fuel as [|fuel IH]; intros i st r st' Hlive Hrun; [done|].
  rewrite run_S in Hrun. cbn [dispatch] in Hrun. unfold notify_all in Hrun.
  destruct (subscribers_of (nodes st) d !! i) as [slot|] eqn:Hslot.
  2:{ by injection Hrun as <- <-. }
  rewrite (drop_S _ _ _ Hslot) in Hlive. destruct slot as [cb|]; [by cbn in Hlive|].
  cbn in Hlive. by eapply IH.
Qed.

(** Otherwise the first subscriber from index [i] on is notified. *)
Lemma notify_all_first E d : ∀ fuel i st r st' cb cbs,
  jsset_live (drop i (subscribers_of (nodes st) d)) = cb :: cbs →
  run E fuel (TNotifyAll d i) st = Done r st' →
  ∃ l, trace st' = trace st ++ EvNotify cb :: l.
Proof.
  induction fuel as [|fuel IH]; intros i st r st' cb cbs Hlive Hrun; [done|].
  rewrite run_S in Hrun. cbn [dispatch] in Hrun. unfold notify_all in Hrun.
  destruct (subscribers_of (nodes st) d !! i) as [slot|] eqn:Hslot.
  2:{ apply lookup_ge_None in Hslot. by rewrite drop_ge in Hlive by lia. }
  rewrite (drop_S _ _ _ Hslot) in Hlive. destruct slot as [cb'|]; cbn in Hlive.
  - injection Hlive as -> Hcbs.
    assert (∀ r1 st1, notifySubscriber (run E fuel) cb st = Done r1 st1 →
              ∃ l, trace st1 = trace st ++ EvNotify cb :: l) as Hfirst.
    { intros r1 st1. unfold notifySubscriber. cbn zeta. case_bool_decide.
      - intros [= <- <-]. by exists [].
      - intros Hcall.
        pose proof (wp_call_subscriber (run E fuel) (run_basic E fuel) cb
                      (emit (EvNotify cb) st) (λ _ st1, basic False (emit (EvNotify cb) st) st1)
                      (λ _ _ H, H)) as Hwp.
        apply (wp_done _ _ _ _ Hwp) in Hcall. destruct Hcall as [_ _ _ (l & Hl & _)].
        exists l. rewrite Hl. cbn. by rewrite <- app_assoc. }
    destruct (notifySubscriber (run E fuel) cb st) as [|[v|err] st1] eqn:Hn; [done| |].
    + destruct (Hfirst _ _ eq_refl) as (l & Hl). cbn in Hrun.
      pose proof (run_basic E fuel (TNotifyAll d (S i)) st1) as Hwp.
      apply (wp_done _ _ _ _ Hwp) in Hrun. destruct Hrun as [_ _ _ (l' & Hl' & _)].
      exists (l ++ l'). rewrite Hl', Hl. by rewrite <- app_assoc.
    + cbn in Hrun. injection Hrun as <- <-. by apply (Hfirst _ _ eq_refl).
  - by eapply IH.
Qed.

Lemma filter_notify_notify (cbs : list owner) :
  filter is_notify (EvNotify <$> cbs) = EvNotify <$> cbs.
Proof.
  induction cbs as [|cb cbs IH]; [done|].
  rewrite fmap_cons, filter_cons_True by exact I. by rewrite IH.
Qed.

Lemma filter_invoke_notify (cbs : list owner) :
  filter is_invoke (EvNotify <$> cbs) = [].
Proof.
  induction cbs as [|cb cbs IH]; [done|].
  rewrite fmap_cons, filter_cons_False by (intros []). by rewrite IH.
Qed.

Lemma notify_all_batching_done E d : ∀ fuel i st r st',
  (0 < batchDepth st)%Z →
  run E fuel (TNotifyAll d i) st = Done r st' →
  r = Normal VUndef
  ∧ st' = foldl (λ st cb, enqueue cb st) st
                (jsset_live (drop i (subscribers_of (nodes st) d))).
Proof.
  induction fuel as [|fuel IH]; intros i st r st' Hb Hrun; [done|].
  rewrite run_S in Hrun. cbn [dispatch] in Hrun. unfold notify_all in Hrun.
  destruct (subscribers_of (nodes st) d !! i) as [slot|] eqn:Hslot.
  2:{ apply lookup_ge_None in Hslot. rewrite drop_ge by lia. by injection Hrun as <- <-. }
  rewrite (drop_S _ _ _ Hslot). destruct slot as [cb|].
  - rewrite notifySubscriber_batching in Hrun by done. cbn [bind ret] in Hrun.
    apply IH in Hrun; [|done]. done.
  - apply IH in Hrun; [|done]. done.
Qed.


(** ** Batches *)

Lemma batched_write_fields s v st :
  subscribers_of (nodes (batched_write s v st)) (DSig s) = subscribers_of (nodes st) (DSig s)
  ∧ batchDepth (batched_write s v st) = batchDepth st
  ∧ sig_value (signal_of (nodes (batched_write s v st)) s) = v.
Proof.
  unfold batched_write. cbn zeta.
  set (st2 := upd (set_sig_value s v) st).
  assert (sig_value (signal_of (nodes st2) s) = v) as Hv.
  { unfold st2, set_sig_value. cbn. rewrite signal_of_set_signal. by rewrite decide_True. }
  pose proof (subscribers_of_set_sig_value s v (nodes st) (DSig s)) as Hs.
  destruct (object_is _ v); [done|].
  destruct (enqueue_all_fields (jsset_live (subscribers_of (nodes st2) (DSig s))) st2)
    as (-> & -> & _). done.
Qed.

Lemma run_writes_batching E s vs : ∀ fuel st,
  (0 < batchDepth st)%Z →
  Forall (λ v, is_function v = false) vs →
  length vs + length (subscribers_of (nodes st) (DSig s)) + 1 < fuel →
  run E fuel (TProg (writes s vs)) st
  = Done (Normal VUndef) (foldl (λ st v, batched_write s v st) st vs).
Proof.
  induction vs as [|v vs IH]; intros fuel st Hb Hvs Hfuel.
  - destruct fuel; [lia|]. done.
  - destruct fuel as [|fuel]; [lia|]. cbn [length] in Hfuel.
    apply Forall_cons in Hvs as [Hv Hvs].
    destruct (batched_write_fields s v st) as (Hsubs & Hd & _).
    rewrite run_S. cbn [writes foldr dispatch exec]. fold (writes s vs).
    unfold SignalSource_set.
    replace (match v with
             | VFun f => run E fuel (TProg (fn_body E f (sig_value (signal_of (nodes st) s)))) st
             | _ => ret v st
             end) with (ret v st) by (by destruct v).
    cbn [bind ret]. cbn [foldl]. unfold batched_write at 2. cbn zeta.
    destruct (object_is _ v).
    + cbn [bind ret]. rewrite IH; [done|done|done|].
      rewrite nodes_upd, subscribers_of_set_sig_value. lia.
    + rewrite (notify_all_batching E (DSig s)
                 (length (subscribers_of (nodes st) (DSig s)))); [|done| |lia].
      2:{ rewrite nodes_upd, subscribers_of_set_sig_value. lia. }
      cbn [bind ret]. rewrite drop_0.
      rewrite IH; [done| |done|].
      * unfold batched_write in Hd. cbn zeta in Hd.
        destruct (enqueue_all_fields
                    (jsset_live (subscribers_of (nodes (upd (set_sig_value s v) st)) (DSig s)))
                    (upd (set_sig_value s v) st)) as (_ & -> & _). done.
      * destruct (enqueue_all_fields
                    (jsset_live (subscribers_of (nodes (upd (set_sig_value s v) st)) (DSig s)))
                    (upd (set_sig_value s v) st)) as (-> & _).
        rewrite nodes_upd, subscribers_of_set_sig_value. lia.
Qed.

Lemma add_all_elem (cbs : list owner) : ∀ l x,
  x ∈ foldl (λ l cb, set_add cb l) l cbs ↔ x ∈ l ∨ x ∈ cbs.
Proof.
  induction cbs as [|cb cbs IH]; intros l x; simpl.
  - rewrite elem_of_nil. tauto.
  - rewrite IH, set_add_elem, elem_of_cons. tauto.
Qed.

Lemma add_all_NoDup (cbs : list owner) : ∀ l,
  NoDup l → NoDup (foldl (λ l cb, set_add cb l) l cbs).
Proof.
  induction cbs as [|cb cbs IH]; intros l Hl; simpl; [done|].
  by apply IH, set_add_NoDup.
Qed.

Lemma batched_write_pending s v st :
  invocations (batched_write s v st) = invocations st
  ∧ (NoDup (pendingSubscribers st) → NoDup (pendingSubscribers (batched_write s v st)))
  ∧ (∀ cb, cb ∈ pendingSubscribers (batched_write s v st) ↔
           cb ∈ pendingSubscribers st
           ∨ (sig_value (signal_of (nodes st) s) ≠ v
              ∧ cb ∈ jsset_live (subscribers_of (nodes st) (DSig s)))).
Proof.
  unfold batched_write. cbn zeta.
  rewrite nodes_upd, subscribers_of_set_sig_value.
  unfold object_is. case_bool_decide as Hv.
  - split_and!; [done|done|]. intros cb. cbn. tauto.
  - destruct (enqueue_all_fields (jsset_live (subscribers_of (nodes st) (DSig s)))
                (upd (set_sig_value s v) st)) as (_ & _ & _ & Htr & Hp).
    unfold invocations. rewrite Htr, Hp. cbn [trace pendingSubscribers upd].
    split_and!.
    + by rewrite filter_app, filter_invoke_notify, app_nil_r.
    + apply add_all_NoDup.
    + intros cb. rewrite add_all_elem. tauto.
Qed.

Lemma batched_writes_pending s vs : ∀ st,
  let st1 := foldl (λ st v, batched_write s v st) st vs in
  invocations st1 = invocations st
  ∧ batchDepth st1 = batchDepth st
  ∧ subscribers_of (nodes st1) (DSig s) = subscribers_of (nodes st) (DSig s)
  ∧ sig_value (signal_of (nodes st1) s) = default (sig_value (signal_of (nodes st) s)) (last vs)
  ∧ (NoDup (pendingSubscribers st) → NoDup (pendingSubscribers st1))
  ∧ (vs ≠ [] → all_changing (sig_value (signal_of (nodes st) s)) vs →
     ∀ cb, cb ∈ pendingSubscribers st1 ↔
           cb ∈ pendingSubscribers st ∨ cb ∈ jsset_live (subscribers_of (nodes st) (DSig s))).
Proof.
  induction vs as [|v vs IH]; intros st; cbn zeta.
  { split_and!; done. }
  cbn [foldl].
  destruct (IH (batched_write s v st)) as (Hi & Hd & Hs & Hv & Hn & Hp).
  destruct (batched_write_fields s v st) as (Hs1 & Hd1 & Hv1).
  destruct (batched_write_pending s v st) as (Hi1 & Hn1 & Hp1).
  split_and!.
  - congruence.
  - congruence.
  - congruence.
  - rewrite Hv, Hv1. by destruct vs as [|v' vs] using rev_ind; [|rewrite last_cons, last_snoc].
  - auto.
  - intros _ [Hne Hch] cb. destruct vs as [|v' vs].
    + cbn. rewrite Hp1. tauto.
    + rewrite Hp; [|done|by rewrite Hv1]. rewrite Hp1, Hs1. tauto.
Qed.

Lemma set_batchDepth_idemp x y st : set_batchDepth x (set_batchDepth y st) = set_batchDepth x st.
Proof. done. Qed.

Lemma set_batchDepth_same st : set_batchDepth (batchDepth st) st = st.
Proof. by destruct st. Qed.

Lemma run_nested_batch E p v fuel : ∀ m st st1,
  (0 < batchDepth st)%Z →
  run E fuel (TProg p) (set_batchDepth (batchDepth st + Z.of_nat m) st) = Done (Normal v) st1 →
  run E (fuel + m) (TProg (nested_batch m p)) st
  = Done (Normal v) (set_batchDepth (batchDepth st) st1).
Proof.
  induction m as [|m IH]; intros st st1 Hb Hrun.
  - rewrite Z.add_0_r in Hrun. rewrite set_batchDepth_same in Hrun.
    rewrite Nat.add_0_r. cbn [nested_batch]. rewrite Hrun. f_equal.
    pose proof (run_basic E fuel (TProg p) st) as Hwp.
    apply (wp_done _ _ _ _ Hwp) in Hrun. destruct Hrun as [_ Hd _ _].
    rewrite <- Hd. by rewrite set_batchDepth_same.
  - rewrite Nat.add_succ_r, run_S. cbn [nested_batch dispatch exec]. unfold batch.
    rewrite (IH (set_batchDepth (batchDepth st + 1) st) st1).
    + cbn [finally batchDepth set_batchDepth]. rewrite bool_decide_eq_false_2 by lia.
      cbn [ret bind]. destruct fuel; [done|]. cbn.
      replace (batchDepth st + 1 - 1)%Z with (batchDepth st) by lia. done.
    + cbn. lia.
    + rewrite set_batchDepth_idemp. cbn [batchDepth set_batchDepth].
      rewrite <- Hrun. do 2 f_equal. lia.
Qed.

Lemma invocations_quiet st st' l :
  trace st' = trace st ++ l → quiet l → invocations st' = invocations st.
Proof.
  intros Ht Hq. unfold invocations. rewrite Ht, filter_app.
  assert (filter is_invoke l = []) as ->; [|by rewrite app_nil_r].
  clear Ht. induction Hq as [|ev l Hev _ IH]; [done|].
  rewrite filter_cons_False by (rewrite Hev; intros []). exact IH.
Qed.

(** While a batch is open, running user code calls no subscriber. *)
Lemma run_in_batch_calls_nothing E fuel fn st r st' :
  (0 < batchDepth st)%Z →
  run E fuel (TProg fn) st = Done r st' →
  invocations st' = invocations st ∧ batchDepth st' = batchDepth st.
Proof.
  intros Hb Hrun. pose proof (run_basic E fuel (TProg fn) st) as Hwp.
  apply (wp_done _ _ _ _ Hwp) in Hrun. destruct Hrun as [_ Hd _ (l & Hl & Hq)].
  split; [|done]. eapply invocations_quiet; [done|]. by apply Hq.
Qed.

(** When [flushSubscribers] returns, the pending set is empty. *)
Lemma flush_until_empty E : ∀ fuel st v st',
  run E fuel TFlush st = Done (Normal v) st' → pendingSubscribers st' = [].
Proof.
  induction fuel as [|fuel IH]; intros st v st' Hrun; [done|].
  rewrite run_S in Hrun. cbn [dispatch] in Hrun. unfold flushSubscribers in Hrun.
  destruct (pendingSubscribers st) as [|cb queued] eqn:Hp.
  - by injection Hrun as <- <-.
  - destruct (for_each _ _ _) as [|[v1|err] st1]; [done| |done].
    cbn [bind] in Hrun. by eapply IH.
Qed.


(** ** Memos *)

Lemma notify_all_holes E d : ∀ n i fuel st,
  jsset_live (drop i (subscribers_of (nodes st) d)) = [] →
  length (subscribers_of (nodes st) d) - i ≤ n → n < fuel →
  run E fuel (TNotifyAll d i) st = Done (Normal VUndef) st.
Proof.
  induction n as [|n IH]; intros i fuel st Hlive Hlen Hfuel.
  - destruct fuel; [lia|]. rewrite run_S. cbn [dispatch]. unfold notify_all.
    by rewrite lookup_ge_None_2 by lia.
  - destruct fuel; [lia|]. rewrite run_S. cbn [dispatch]. unfold notify_all.
    destruct (subscribers_of (nodes st) d !! i) as [slot|] eqn:Hslot; [|done].
    rewrite (drop_S _ _ _ Hslot) in Hlive. apply lookup_lt_Some in Hslot.
    destruct slot as [cb|]; [by cbn in Hlive|]. cbn in Hlive.
    apply IH; [done|lia|lia].
Qed.

Lemma memo_of_trackDependency_flags d st m :
  hasValue (memo_of (nodes (trackDependency d st)) m) = hasValue (memo_of (nodes st) m)
  ∧ memo_value (memo_of (nodes (trackDependency d st)) m) = memo_value (memo_of (nodes st) m)
  ∧ computing (memo_of (nodes (trackDependency d st)) m) = computing (memo_of (nodes st) m)
  ∧ memo_subscribers (memo_of (nodes (trackDependency d st)) m)
    = memo_subscribers (memo_of (nodes st) m).
Proof.
  unfold trackDependency. destruct (currentCollector st) as [o|]; [|done].
  rewrite nodes_upd. unfold addDependency. destruct o as [m'|e|c]; cbn [set_tracker]; [|done|done].
  rewrite memo_of_set_memo. by case_decide; subst.
Qed.

(** C6 (as amended).  [get()] on a memo registers the memo with the current
    collector.  With a cached value it returns the cache and computes
    nothing.  Without one it recomputes first: for a memo that is not being
    computed and has no subscriber, it returns what the compute function
    returns and caches it.  The cache is only refreshed by the notification
    of a dependency, and notifications are held back while a batch is open:
    a read inside a batch, after a write to any signal, still returns the
    value cached before the write. *)
Theorem memo_get_returns_cache (E : env) (fuel : nat) (m : nat) (st : state) :
  let tracked := trackDependency (DMemo m) st in
  (hasValue (memo_of (nodes st) m) = true →
     MemoSource_get (run E fuel) m st
     = Done (Normal (memo_value (memo_of (nodes st) m))) tracked)
  ∧ (∀ v st2,
       hasValue (memo_of (nodes st) m) = false →
       computing (memo_of (nodes st) m) = false →
       collect (run E fuel) (OMemo m) (memo_compute E m) (upd (set_computing m true) tracked)
       = Done (Normal v) st2 →
       jsset_live (memo_subscribers (memo_of (nodes st2) m)) = [] →
       length (memo_subscribers (memo_of (nodes st2) m)) < fuel →
       ∃ st3, MemoSource_get (run E (S fuel)) m st = Done (Normal v) st3
              ∧ hasValue (memo_of (nodes st3) m) = true
              ∧ memo_value (memo_of (nodes st3) m) = v)
  ∧ (∀ s w,
       hasValue (memo_of (nodes st) m) = true →
       (0 < batchDepth st)%Z → is_function w = false →
       length (subscribers_of (nodes st) (DSig s)) + 3 < fuel →
       ∃ st3, run E fuel (TProg (SigSet s w (λ _, MemoGet m Ret))) st
              = Done (Normal (memo_value (memo_of (nodes st) m))) st3).
Proof.
  intros tracked.
  destruct (memo_of_trackDependency_flags (DMemo m) st m) as (Hh & Hv & Hc & Hs).
  fold tracked in Hh, Hv, Hc, Hs.
  split_and!.
  - intros Hhas. unfold MemoSource_get. fold tracked. rewrite Hh, Hhas. cbn [bind ret].
    by rewrite Hv.
  - intros v st2 Hhas Hcomp Hcollect Hlive Hlen.
    unfold MemoSource_get. fold tracked. rewrite Hh, Hhas.
    rewrite run_S. cbn [dispatch]. unfold MemoSource_recompute.
    rewrite Hc, Hcomp, Hcollect. cbn [bind].
    set (st2' := upd (set_memo_result m v) st2).
    assert (memo_of (nodes st2') m
            = Memo (memo_tracker (memo_of (nodes st2) m))
                   (memo_subscribers (memo_of (nodes st2) m)) true v
                   (computing (memo_of (nodes st2) m))) as Hm2.
    { unfold st2', set_memo_result. rewrite nodes_upd, memo_of_set_memo.
      by rewrite decide_True. }
    assert (run E fuel (TNotifyAll (DMemo m) 0) st2' = Done (Normal VUndef) st2') as Hloop.
    { apply (notify_all_holes E (DMemo m) (length (memo_subscribers (memo_of (nodes st2) m)))).
      - rewrite drop_0. cbn [subscribers_of]. by rewrite Hm2.
      - cbn [subscribers_of]. rewrite Hm2. cbn. lia.
      - done. }
    assert (memo_of (nodes (upd (set_computing m false) st2')) m
            = Memo (memo_tracker (memo_of (nodes st2) m))
                   (memo_subscribers (memo_of (nodes st2) m)) true v false) as Hm3.
    { unfold set_computing. rewrite nodes_upd, memo_of_set_memo, decide_True by done.
      by rewrite Hm2. }
    exists (upd (set_computing m false) st2'). rewrite Hm3. split; [|done].
    destruct (negb _ || negb _).
    + rewrite Hloop. cbn [finally ret bind]. by rewrite Hm3.
    + cbn [finally ret bind]. by rewrite Hm3.
  - intros s w Hhas Hb Hw Hfuel.
    destruct fuel as [|fuel]; [lia|]. rewrite run_S. cbn [dispatch exec].
    unfold SignalSource_set.
    replace (match w with
             | VFun f => run E fuel (TProg (fn_body E f (sig_value (signal_of (nodes st) s)))) st
             | _ => ret w st
             end) with (ret w st) by (by destruct w).
    cbn [bind ret].
    set (st1 := upd (set_sig_value s w) st).
    assert (∀ cbs, memo_of (nodes (foldl (λ st cb, enqueue cb st) st1 cbs)) m
                   = memo_of (nodes st) m) as Hmemo.
    { intros cbs. destruct (enqueue_all_fields cbs st1) as (-> & _). done. }
    assert (∀ st2, memo_of (nodes st2) m = memo_of (nodes st) m →
              ∃ st3, run E fuel (TProg (MemoGet m Ret)) st2
                     = Done (Normal (memo_value (memo_of (nodes st) m))) st3) as Hget.
    { intros st2 Hm. destruct fuel as [|fuel]; [lia|]. rewrite run_S. cbn [dispatch exec].
      unfold MemoSource_get.
      destruct (memo_of_trackDependency_flags (DMemo m) st2 m) as (Hh2 & Hv2 & _).
      rewrite Hh2, Hm, Hhas. cbn [bind ret]. rewrite Hv2, Hm.
      destruct fuel; [lia|]. eexists. reflexivity. }
    destruct (object_is _ w).
    + cbn [bind ret]. apply Hget. done.
    + rewrite (notify_all_batching E (DSig s) (length (subscribers_of (nodes st) (DSig s))));
        [|done| |lia].
      2:{ unfold st1. rewrite nodes_upd, subscribers_of_set_sig_value. lia. }
      cbn [bind ret]. apply Hget. apply Hmemo.
Qed.

(** ** Effects: what happens to a running effect *)

Lemma flags_set_effect_ne e e' x g : e' ≠ e → flags e (set_effect e' x g) = flags e g.
Proof. intros Hne. unfold flags. rewrite effect_of_set_effect. by rewrite decide_False. Qed.

Lemma flags_set_effect_same e x g :
  (scheduled x, running x, disposed x) = flags e g → flags e (set_effect e x g) = flags e g.
Proof. intros Hx. unfold flags at 1. rewrite effect_of_set_effect. by rewrite decide_True. Qed.

Lemma flags_set_tracker e o t g : flags e (set_tracker o t g) = flags e g.
Proof.
  destruct o as [m|e'|c]; cbn [set_tracker]; [done| |done].
  destruct (decide (e' = e)) as [->|Hne].
  - by apply flags_set_effect_same.
  - by apply flags_set_effect_ne.
Qed.

Lemma flags_set_subscribers e d subs g : flags e (set_subscribers d subs g) = flags e g.
Proof. by destruct d. Qed.

Lemma flags_add_subscriber e d cb g : flags e (add_subscriber d cb g) = flags e g.
Proof. apply flags_set_subscribers. Qed.

Lemma flags_unsubscribe e d cb g : flags e (unsubscribe d cb g) = flags e g.
Proof. apply flags_set_subscribers. Qed.

Lemma flags_add_subscription e o d g : flags e (add_subscription o d g) = flags e g.
Proof. apply flags_set_tracker. Qed.

Lemma flags_reset_collecting e o g : flags e (reset_collecting o g) = flags e g.
Proof. apply flags_set_tracker. Qed.

Lemma flags_addDependency e o d g : flags e (addDependency o d g) = flags e g.
Proof. apply flags_set_tracker. Qed.

Lemma flags_drop_stale e o nextDeps g : flags e (drop_stale o nextDeps g) = flags e g.
Proof.
  unfold drop_stale. generalize (subscriptions (tracker_of g o)) as ds.
  intros ds. revert g. induction ds as [|d ds IH]; intros g; [done|]. cbn [foldl].
  rewrite IH. case_bool_decide; [done|].
  by rewrite flags_set_tracker, flags_unsubscribe.
Qed.

Lemma flags_set_cleanups e e' cs g : flags e (set_cleanups e' cs g) = flags e g.
Proof.
  unfold set_cleanups. destruct (decide (e' = e)) as [->|Hne].
  - by apply flags_set_effect_same.
  - by apply flags_set_effect_ne.
Qed.

Lemma flags_trackDependency e d st :
  flags e (nodes (trackDependency d st)) = flags e (nodes st).
Proof.
  unfold trackDependency. destruct (currentCollector st); [|done].
  apply flags_addDependency.
Qed.

Lemma held_busy e st st' : held e st st' → busy e st'.
Proof. intros [? ? _ _ _]. by split. Qed.

Lemma held_refl e st : busy e st → held e st st.
Proof.
  intros [Hr Hd]. split; try done.
  rewrite bool_decide_eq_false_2 by lia. by rewrite orb_false_r.
Qed.

Lemma held_trans e st1 st2 st3 : held e st1 st2 → held e st2 st3 → held e st1 st3.
Proof.
  intros [Hr1 Hd1 Hn1 Ha1 Hs1] [Hr2 Hd2 Hn2 Ha2 Hs2]. split; try done; try congruence; try lia.
  rewrite Hs2, Hs1, <- orb_assoc. f_equal.
  repeat case_bool_decide; try done; lia.
Qed.

(** A step that keeps the flags of [e] and adds to the trace neither a run
    nor a call of [e]. *)
Lemma held_step e st st' l :
  busy e st →
  flags e (nodes st') = flags e (nodes st) →
  trace st' = trace st ++ l →
  Forall (λ ev, ev ≠ EvRun (OEffect e) ∧ ev ≠ EvInvoke (OEffect e)) l →
  held e st st'.
Proof.
  intros [Hr Hd] Hf Ht Hl. unfold flags in Hf. injection Hf as Hs Hr' Hd'.
  assert (filter (λ ev, ev = EvRun (OEffect e)) l = []) as Hruns.
  { clear Ht. induction Hl as [|ev l [Hev _] _ IH]; [done|]. by rewrite filter_cons_False. }
  assert (filter (λ ev, ev = EvInvoke (OEffect e)) l = []) as Harr.
  { clear Ht Hruns. induction Hl as [|ev l [_ Hev] _ IH]; [done|]. by rewrite filter_cons_False. }
  assert (arrivals e st' = arrivals e st) as Ha.
  { unfold arrivals. by rewrite Ht, filter_app, Harr, app_nil_r. }
  split.
  - congruence.
  - congruence.
  - unfold run_count. by rewrite Ht, filter_app, Hruns, app_nil_r.
  - lia.
  - rewrite Hs, Ha, bool_decide_eq_false_2 by lia. by rewrite orb_false_r.
Qed.

Lemma held_upd e f st :
  busy e st → flags e (f (nodes st)) = flags e (nodes st) → held e st (upd f st).
Proof.
  intros Hb Hf. apply (held_step e st _ []); [done|done|by rewrite app_nil_r|constructor].
Qed.

Lemma held_same_graph e st st' :
  busy e st → nodes st' = nodes st → trace st' = trace st → held e st st'.
Proof.
  intros Hb Hn Ht.
  apply (held_step e st _ []); [done|by rewrite Hn|by rewrite app_nil_r|constructor].
Qed.

Lemma held_emit e ev st :
  busy e st → ev ≠ EvRun (OEffect e) → ev ≠ EvInvoke (OEffect e) → held e st (emit ev st).
Proof.
  intros Hb H1 H2. apply (held_step e st _ [ev]); [done|done|done|].
  constructor; [done|constructor].
Qed.

Lemma flags_set_scheduled_ne e e' b g : e' ≠ e → flags e (set_scheduled e' b g) = flags e g.
Proof. intros. by apply flags_set_effect_ne. Qed.

Lemma flags_set_running_ne e e' b g : e' ≠ e → flags e (set_running e' b g) = flags e g.
Proof. intros. by apply flags_set_effect_ne. Qed.

Create HintDb flags.
#[local] Hint Resolve flags_set_tracker flags_set_subscribers flags_add_subscriber
  flags_unsubscribe flags_add_subscription flags_reset_collecting flags_addDependency
  flags_drop_stale flags_set_cleanups flags_trackDependency flags_set_scheduled_ne
  flags_set_running_ne : flags.

Section HeldStep.
Variable E : env.
Variable rec : task → state → outcome.
Variable e : nat.
Hypothesis Hrec : rec_ok rec (Post_held e).

Lemma wp_rec_held t st (Q : result → state → Prop) :
  t ≠ TExecute e → busy e st →
  (∀ r st', held e st st' → Q r st') → wp (rec t st) Q.
Proof using Hrec.
  intros Ht Hb HQ. eapply wp_rec; [exact Hrec|]. intros r st' Hp. apply HQ. by apply Hp.
Qed.

Local Ltac held_pure :=
  first [ by apply held_refl
        | by (apply held_upd; [done|auto with flags])
        | by (apply held_same_graph) ].

Local Ltac held_chain H :=
  eapply held_trans; [|exact H]; held_pure.

Lemma held_wp_subscribe d cb st (Q : result → state → Prop) :
  busy e st → (∀ r st', held e st st' → Q r st') → wp (subscribe rec d cb st) Q.
Proof using Hrec.
  intros Hb HQ. unfold subscribe.
  assert (held e st (upd (add_subscriber d cb) st)) as H0 by held_pure.
  destruct d as [s|m].
  - by apply wp_ret, HQ.
  - destruct (hasValue _); [by apply wp_ret, HQ|].
    apply wp_rec_held; [done|by eapply held_busy|].
    intros r st' H1. apply HQ. by eapply held_trans.
Qed.

Lemma held_wp_reconcile o nextDeps st (Q : result → state → Prop) :
  busy e st → (∀ r st', held e st st' → Q r st') →
  wp (reconcileSubscriptions rec o nextDeps st) Q.
Proof using Hrec.
  intros Hb HQ. unfold reconcileSubscriptions, add_new.
  apply (wp_for_each _ (λ st', held e st st')).
  - held_pure.
  - intros d st1 _ H1. case_bool_decide; [by apply wp_ret|].
    apply wp_bind, held_wp_subscribe; [by eapply held_busy|].
    intros [v|err] st2 H2.
    + apply wp_ret. eapply held_trans; [exact H1|]. eapply held_trans; [exact H2|].
      apply held_upd; [by eapply held_busy|auto with flags].
    + apply HQ. by eapply held_trans.
  - intros st' H1. by apply HQ.
Qed.

Lemma held_wp_collect o fn st (Q : result → state → Prop) :
  o ≠ OEffect e → busy e st →
  (∀ r st', held e st st' → Q r st') → wp (collect rec o fn st) Q.
Proof using Hrec.
  intros Ho Hb HQ. unfold collect.
  set (st0 := pushCollector o (upd (reset_collecting o) (emit (EvRun o) st))).
  assert (held e st st0) as H0.
  { apply (held_step e st _ [EvRun o]); [done|apply flags_reset_collecting|done|].
    constructor; [|constructor]. split; [congruence|done]. }
  apply wp_finally, wp_rec_held; [done|by eapply held_busy|].
  intros r st1 H1.
  assert (held e st (popCollector st1)) as H1'.
  { eapply held_trans; [exact H0|]. eapply held_trans; [exact H1|].
    apply held_same_graph; [by eapply held_busy|done|done]. }
  apply held_wp_reconcile; [by eapply held_busy|].
  intros r' st2 H2.
  assert (held e st st2) as H by (by eapply held_trans).
  destruct r'; by apply HQ.
Qed.

Lemma held_wp_schedule e' st (Q : result → state → Prop) :
  e' ≠ e → busy e st →
  (∀ r st', held e st st' → Q r st') → wp (EffectComputation_schedule rec e' st) Q.
Proof using Hrec.
  intros He Hb HQ. unfold EffectComputation_schedule.
  destruct (disposed _); [apply wp_ret, HQ; held_pure|].
  destruct (running _); [apply wp_ret, HQ; held_pure|].
  apply wp_rec_held; [congruence|done|done].
Qed.

Lemma held_wp_runCleanups e' st (Q : result → state → Prop) :
  busy e st → (∀ r st', held e st st' → Q r st') → wp (runCleanups E rec e' st) Q.
Proof using Hrec.
  intros Hb HQ. unfold runCleanups.
  apply (wp_for_each _ (λ st', held e st st')).
  - held_pure.
  - intros f st1 _ H1. apply wp_rec_held; [done|by eapply held_busy|].
    intros [v|err] st2 H2; [by eapply held_trans|]. apply HQ. by eapply held_trans.
  - intros st' H1. by apply HQ.
Qed.

Lemma held_wp_execute e' st (Q : result → state → Prop) :
  e' ≠ e → busy e st →
  (∀ r st', held e st st' → Q r st') → wp (EffectComputation_execute E rec e' st) Q.
Proof using Hrec.
  intros He Hb HQ. unfold EffectComputation_execute.
  destruct (disposed _); [apply wp_ret, HQ; held_pure|].
  set (st0 := upd (set_scheduled e' false) (upd (set_running e' true) st)).
  assert (held e st st0) as H0.
  { eapply held_trans; [apply (held_upd e (set_running e' true)); [done|auto with flags]|].
    apply held_upd; [|auto with flags]. split; cbn [nodes upd].
    - destruct Hb as [Hr _]. unfold set_running.
      rewrite effect_of_set_effect, decide_False by done. exact Hr.
    - destruct Hb as [_ Hd]. unfold set_running.
      rewrite effect_of_set_effect, decide_False by done. exact Hd. }
  apply wp_bind, held_wp_runCleanups; [by eapply held_busy|].
  intros [v|err] st1 H1; [|apply HQ; by eapply held_trans].
  assert (held e st st1) as H1' by (by eapply held_trans). clear H0 H1.
  assert (held e st (set_activeEffect (Some e') st1)) as H1''.
  { eapply held_trans; [exact H1'|]. apply held_same_graph; [by eapply held_busy|done|done]. }
  apply wp_bind, wp_finally, wp_bind, held_wp_collect; [congruence|by eapply held_busy|].
  intros r st2 H2.
  assert (∀ r' st3, held e st st3 →
    wp (ret VUndef (upd (set_running e' false) (set_activeEffect (activeEffect st1) st3)))
       (λ r'' st4,
          match r'' with
          | Normal _ =>
              match r' with
              | Normal v0 =>
                  wp (if scheduled (effect_of (nodes st4) e')
                      then rec (TExecute e') st4 else ret VUndef st4) Q
              | Thrown e0 => Q (Thrown e0) st4
              end
          | Thrown e0 => Q (Thrown e0) st4
          end)) as Hfin.
  { intros r' st3 H3. apply wp_ret.
    assert (held e st (upd (set_running e' false)
                         (set_activeEffect (activeEffect st1) st3))) as H4.
    { eapply held_trans; [exact H3|].
      eapply held_trans;
        [apply (held_same_graph e st3 (set_activeEffect (activeEffect st1) st3));
           [by eapply held_busy|done|done]|].
      apply held_upd; [|auto with flags]. apply held_busy in H3. exact H3. }
    destruct r' as [v0|e0]; [|by apply HQ].
    destruct (scheduled _); [|by apply wp_ret, HQ].
    apply wp_rec_held; [congruence|by eapply held_busy|].
    intros r'' st5 H5. apply HQ. by eapply held_trans. }
  assert (held e st st2) as H2' by (by eapply held_trans).
  destruct r as [maybeCleanup|err].
  - destruct maybeCleanup; apply wp_ret; apply (Hfin (Normal VUndef)); try done.
    eapply held_trans; [exact H2'|]. apply held_upd; [by eapply held_busy|auto with flags].
  - by apply (Hfin (Thrown err)).
Qed.

Lemma held_wp_recompute m st (Q : result → state → Prop) :
  busy e st → (∀ r st', held e st st' → Q r st') → wp (MemoSource_recompute E rec m st) Q.
Proof using Hrec.
  intros Hb HQ. unfold MemoSource_recompute.
  destruct (computing _); [apply wp_ret, HQ; held_pure|].
  assert (held e st (upd (set_computing m true) st)) as H0 by held_pure.
  apply wp_finally, wp_bind, held_wp_collect; [done|by eapply held_busy|].
  intros r st1 H1.
  assert (held e st st1) as H1' by (by eapply held_trans).
  assert (∀ r' st2, held e st st2 →
    wp (ret VUndef (upd (set_computing m false) st2))
       (λ r'' st3, match r'' with
                   | Normal _ => Q r' st3
                   | Thrown e0 => Q (Thrown e0) st3
                   end)) as Hfin.
  { intros r' st2 H2. apply wp_ret. apply HQ.
    eapply held_trans; [exact H2|]. apply held_upd; [by eapply held_busy|done]. }
  destruct r as [nextValue|err]; [|by apply (Hfin (Thrown err))].
  assert (held e st (upd (set_memo_result m nextValue) st1)) as H2.
  { eapply held_trans; [exact H1'|]. apply held_upd; [by eapply held_busy|done]. }
  destruct (negb _ || negb _).
  - apply wp_rec_held; [done|by eapply held_busy|]. intros r' st2 H3.
    apply Hfin. by eapply held_trans.
  - by apply wp_ret, (Hfin (Normal VUndef)).
Qed.

Lemma held_wp_MemoSource_get m st (Q : result → state → Prop) :
  busy e st → (∀ r st', held e st st' → Q r st') → wp (MemoSource_get rec m st) Q.
Proof using Hrec.
  intros Hb HQ. unfold MemoSource_get.
  assert (held e st (trackDependency (DMemo m) st)) as H0.
  { apply (held_step e st _ []); [done|apply flags_trackDependency| |constructor].
    rewrite app_nil_r. unfold trackDependency. by destruct (currentCollector st). }
  apply wp_bind. destruct (hasValue _).
  - by apply wp_ret, wp_ret, HQ.
  - apply wp_rec_held; [done|by eapply held_busy|]. intros [v|err] st1 H1.
    + apply wp_ret, HQ. by eapply held_trans.
    + apply HQ. by eapply held_trans.
Qed.

Lemma held_wp_call_subscriber cb st (Q : result → state → Prop) :
  busy e st → (∀ r st', held e st st' → Q r st') → wp (call_subscriber rec cb st) Q.
Proof using Hrec.
  intros Hb HQ. unfold call_subscriber.
  destruct (decide (cb = OEffect e)) as [->|Hcb].
  - unfold EffectComputation_schedule. cbn [nodes emit].
    destruct Hb as [Hr Hd]. rewrite Hd, Hr. apply wp_ret, HQ.
    assert (arrivals e (upd (set_scheduled e true) (emit (EvInvoke (OEffect e)) st))
            = S (arrivals e st)) as Ha.
    { unfold arrivals. cbn [trace upd emit]. rewrite filter_app, length_app.
      rewrite filter_cons_True by done. cbn. lia. }
    split.
    + unfold set_scheduled. cbn [nodes upd emit].
      rewrite effect_of_set_effect, decide_True by done. exact Hr.
    + unfold set_scheduled. cbn [nodes upd emit].
      rewrite effect_of_set_effect, decide_True by done. exact Hd.
    + unfold run_count. cbn [trace upd emit]. rewrite filter_app.
      rewrite filter_cons_False by done. by rewrite app_nil_r.
    + lia.
    + rewrite Ha, bool_decide_eq_true_2 by lia. rewrite orb_true_r.
      unfold set_scheduled. cbn [nodes upd emit].
      by rewrite effect_of_set_effect, decide_True by done.
  - assert (held e st (emit (EvInvoke cb) st)) as H0.
    { apply held_emit; [done|done|congruence]. }
    destruct cb as [m|e'|c].
    + apply wp_rec_held; [done|by eapply held_busy|]. intros r st1 H1.
      apply HQ. by eapply held_trans.
    + apply held_wp_schedule; [congruence|by eapply held_busy|]. intros r st1 H1.
      apply HQ. by eapply held_trans.
    + destruct (suppressRenderInvalidation _); apply wp_ret, HQ; [done|].
      eapply held_trans; [exact H0|]. apply held_upd; [by eapply held_busy|done].
Qed.

Lemma held_wp_notifySubscriber cb st (Q : result → state → Prop) :
  busy e st → (∀ r st', held e st st' → Q r st') → wp (notifySubscriber rec cb st) Q.
Proof using Hrec.
  intros Hb HQ. unfold notifySubscriber.
  assert (held e st (emit (EvNotify cb) st)) as H0 by (by apply held_emit).
  cbn zeta. case_bool_decide.
  - apply wp_ret, HQ. eapply held_trans; [exact H0|].
    apply held_same_graph; [by eapply held_busy|done|done].
  - apply held_wp_call_subscriber; [by eapply held_busy|]. intros r st1 H1.
    apply HQ. by eapply held_trans.
Qed.

Lemma held_wp_flushSubscribers st (Q : result → state → Prop) :
  busy e st → (∀ r st', held e st st' → Q r st') → wp (flushSubscribers rec st) Q.
Proof using Hrec.
  intros Hb HQ. unfold flushSubscribers.
  destruct (pendingSubscribers st) as [|cb queued] eqn:Hp; [apply wp_ret, HQ; held_pure|].
  apply wp_bind.
  apply (wp_for_each _ (λ st', held e st st')).
  - by apply held_same_graph.
  - intros cb' st1 _ H1. apply held_wp_call_subscriber; [by eapply held_busy|].
    intros [v|err] st2 H2; [by eapply held_trans|]. apply HQ. by eapply held_trans.
  - intros st1 H1. apply wp_rec_held; [done|by eapply held_busy|].
    intros r st2 H2. apply HQ. by eapply held_trans.
Qed.

Lemma held_wp_notify_all d i st (Q : result → state → Prop) :
  busy e st → (∀ r st', held e st st' → Q r st') → wp (notify_all rec d i st) Q.
Proof using Hrec.
  intros Hb HQ. unfold notify_all.
  destruct (subscribers_of (nodes st) d !! i) as [[cb|]|].
  - apply wp_bind, held_wp_notifySubscriber; [done|].
    intros [v|err] st1 H1; [|by apply HQ].
    apply wp_rec_held; [done|by eapply held_busy|]. intros r st2 H2.
    apply HQ. by eapply held_trans.
  - by apply wp_rec_held.
  - apply wp_ret, HQ. held_pure.
Qed.

Lemma held_wp_SignalSource_set s v st (Q : result → state → Prop) :
  busy e st → (∀ r st', held e st st' → Q r st') → wp (SignalSource_set E rec s v st) Q.
Proof using Hrec.
  intros Hb HQ. unfold SignalSource_set. apply wp_bind.
  assert (∀ resolved st1, held e st st1 →
    wp (let st2 := upd (set_sig_value s resolved) st1 in
        bind (if object_is (sig_value (signal_of (nodes st) s)) resolved
              then ret VUndef st2 else rec (TNotifyAll (DSig s) 0) st2)
             (λ _ st3, ret resolved st3)) Q) as Hk.
  { intros resolved st1 H1. cbn zeta.
    assert (held e st (upd (set_sig_value s resolved) st1)) as H2.
    { eapply held_trans; [exact H1|]. apply held_upd; [by eapply held_busy|done]. }
    apply wp_bind. destruct (object_is _ _).
    - by apply wp_ret, wp_ret, HQ.
    - apply wp_rec_held; [done|by eapply held_busy|]. intros [v'|err] st2 H3.
      + apply wp_ret, HQ. by eapply held_trans.
      + apply HQ. by eapply held_trans. }
  destruct v; try (apply wp_ret, Hk; held_pure).
  apply wp_rec_held; [done|done|]. intros [v'|err] st1 H1; [by apply Hk|by apply HQ].
Qed.

Lemma held_wp_batch fn st (Q : result → state → Prop) :
  busy e st → (∀ r st', held e st st' → Q r st') → wp (batch rec fn st) Q.
Proof using Hrec.
  intros Hb HQ. unfold batch.
  assert (held e st (set_batchDepth (batchDepth st + 1) st)) as H0
    by (by apply held_same_graph).
  apply wp_finally, wp_rec_held; [done|by eapply held_busy|].
  intros r st1 H1. cbn zeta.
  assert (held e st (set_batchDepth (batchDepth st1 - 1) st1)) as H2.
  { eapply held_trans; [exact H0|]. eapply held_trans; [exact H1|].
    apply held_same_graph; [by eapply held_busy|done|done]. }
  case_bool_decide as Hz.
  - apply wp_rec_held; [done|by eapply held_busy|]. intros r' st2 H3.
    assert (held e st st2) as H4 by (by eapply held_trans).
    destruct r'; by apply HQ.
  - apply wp_ret. by apply HQ.
Qed.

Lemma held_wp_untrack fn st (Q : result → state → Prop) :
  busy e st → (∀ r st', held e st st' → Q r st') → wp (untrack rec fn st) Q.
Proof using Hrec.
  intros Hb HQ. unfold untrack.
  assert (held e st (popCollector st)) as H0 by (by apply held_same_graph).
  apply wp_finally, wp_rec_held; [done|by eapply held_busy|].
  intros r st1 H1.
  assert (held e st st1) as H1' by (by eapply held_trans).
  destruct (last (collectorStack st)); apply wp_ret; apply HQ; [|done].
  eapply held_trans; [exact H1'|]. apply held_same_graph; [by eapply held_busy|done|done].
Qed.

Lemma held_wp_exec p st (Q : result → state → Prop) :
  busy e st → (∀ r st', held e st st' → Q r st') → wp (exec E rec p st) Q.
Proof using Hrec.
  intros Hb HQ.
  assert (∀ p' st1, held e st st1 → wp (rec (TProg p') st1) Q) as Hk.
  { intros p' st1 H1. apply wp_rec_held; [done|by eapply held_busy|].
    intros r st2 H2. apply HQ. by eapply held_trans. }
  destruct p; cbn [exec].
  - apply HQ. held_pure.
  - apply HQ. held_pure.
  - unfold SignalSource_get. apply wp_bind, wp_ret, Hk.
    apply (held_step e st _ []); [done|apply flags_trackDependency| |constructor].
    rewrite app_nil_r. unfold trackDependency. by destruct (currentCollector st).
  - apply wp_bind, held_wp_SignalSource_set; [done|].
    intros [v'|err] st1 H1; [by apply Hk|by apply HQ].
  - apply wp_bind, held_wp_MemoSource_get; [done|].
    intros [v'|err] st1 H1; [by apply Hk|by apply HQ].
  - apply wp_bind, held_wp_untrack; [done|].
    intros [v'|err] st1 H1; [by apply Hk|by apply HQ].
  - apply wp_bind, held_wp_batch; [done|].
    intros [v'|err] st1 H1; [by apply Hk|by apply HQ].
  - pose proof (wp_rec_held (TProg p) st (λ r st1, held e st st1)) as Hp.
    destruct (rec (TProg p) st) as [|[v'|err] st1]; [done| |].
    + apply Hk. apply Hp; [done|done|auto].
    + assert (held e st st1) as H1 by (apply Hp; [done|done|auto]).
      apply wp_bind. apply wp_rec_held; [done|by eapply held_busy|].
      intros [v'|err'] st2 H2.
      * apply Hk. by eapply held_trans.
      * apply HQ. by eapply held_trans.
  - apply Hk. by apply held_same_graph.
  - apply Hk. by apply held_same_graph.
  - apply Hk. held_pure.
Qed.

Lemma dispatch_held t st : wp (dispatch E rec t st) (Post_held e t st).
Proof using Hrec.
  unfold Post_held. destruct t as [p|d i| |m|e']; cbn [dispatch].
  - destruct (exec E rec p st) as [|r st'] eqn:Hx; [done|]. cbn. intros _ Hb.
    pose proof (held_wp_exec p st (λ _ st', held e st st') Hb (λ _ _ H, H)) as Hwp.
    by rewrite Hx in Hwp.
  - destruct (notify_all rec d i st) as [|r st'] eqn:Hx; [done|]. cbn. intros _ Hb.
    pose proof (held_wp_notify_all d i st (λ _ st', held e st st') Hb (λ _ _ H, H)) as Hwp.
    by rewrite Hx in Hwp.
  - destruct (flushSubscribers rec st) as [|r st'] eqn:Hx; [done|]. cbn. intros _ Hb.
    pose proof (held_wp_flushSubscribers st (λ _ st', held e st st') Hb (λ _ _ H, H)) as Hwp.
    by rewrite Hx in Hwp.
  - destruct (MemoSource_recompute E rec m st) as [|r st'] eqn:Hx; [done|]. cbn. intros _ Hb.
    pose proof (held_wp_recompute m st (λ _ st', held e st st') Hb (λ _ _ H, H)) as Hwp.
    by rewrite Hx in Hwp.
  - destruct (EffectComputation_execute E rec e' st) as [|r st'] eqn:Hx; [done|]. cbn.
    intros Hne Hb.
    assert (e' ≠ e) as He by congruence.
    pose proof (held_wp_execute e' st (λ _ st', held e st st') He Hb (λ _ _ H, H)) as Hwp.
    by rewrite Hx in Hwp.
Qed.
End HeldStep.

Lemma run_held E e fuel : rec_ok (run E fuel) (Post_held e).
Proof. apply run_wp. intros rec Hrec t st. by apply dispatch_held. Qed.

(** *** One run of an effect *)

Lemma collect_own_run E fuel e fn st :
  busy e st →
  wp (collect (run E fuel) (OEffect e) fn st)
     (λ _ st2, held e (emit (EvRun (OEffect e)) st) st2).
Proof.
  intros Hb. unfold collect.
  set (st0 := emit (EvRun (OEffect e)) st).
  assert (busy e st0) as Hb0 by done.
  set (st1 := pushCollector (OEffect e) (upd (reset_collecting (OEffect e)) st0)).
  assert (held e st0 st1) as H1.
  { apply (held_step e st0 _ []); [done|apply flags_reset_collecting|
                                   by rewrite app_nil_r|constructor]. }
  apply wp_finally. apply (wp_rec_held (run E fuel) e (run_held E e fuel));
    [done|by eapply held_busy|].
  intros r st2 H2.
  assert (held e st0 (popCollector st2)) as H3.
  { eapply held_trans; [exact H1|]. eapply held_trans; [exact H2|].
    apply held_same_graph; [by eapply held_busy|done|done]. }
  apply (held_wp_reconcile (run E fuel) e (run_held E e fuel)); [by eapply held_busy|].
  intros r' st3 H4.
  assert (held e st0 st3) as H5 by (by eapply held_trans).
  by destruct r'.
Qed.

Lemma arrivals_emit_run e o st : arrivals e (emit (EvRun o) st) = arrivals e st.
Proof.
  unfold arrivals. cbn [trace emit]. rewrite filter_app.
  rewrite filter_cons_False by done. by rewrite app_nil_r.
Qed.

Lemma run_count_emit_run o st : run_count o (emit (EvRun o) st) = S (run_count o st).
Proof.
  unfold run_count. cbn [trace emit]. rewrite filter_app, length_app.
  rewrite filter_cons_True by done. cbn. lia.
Qed.

(** One run of the body of an idle effect: the cleanups complete, the body
    returns [v].  The subscriber of the effect was called [k] times
    meanwhile.  The body was started once, and [execute] goes on with one
    more [execute] if [k] is positive and returns otherwise. *)
Lemma execute_one_run E fuel e st u st0 v st2 :
  disposed (effect_of (nodes st) e) = false →
  runCleanups E (run E fuel) e (begin_run e st) = Done (Normal u) st0 →
  collect (run E fuel) (OEffect e) (effect_body E e) (set_activeEffect (Some e) st0)
  = Done (Normal v) st2 →
  let k := arrivals e st2 - arrivals e st in
  let st3 := end_run e (activeEffect st0) v st2 in
  run_count (OEffect e) st3 = S (run_count (OEffect e) st)
  ∧ arrivals e st3 = arrivals e st2
  ∧ disposed (effect_of (nodes st3) e) = false
  ∧ running (effect_of (nodes st3) e) = false
  ∧ EffectComputation_execute E (run E fuel) e st
    = if bool_decide (0 < k) then run E fuel (TExecute e) st3 else Done (Normal VUndef) st3.
Proof.
  intros Hd Hclean Hcollect k st3.
  assert (busy e (begin_run e st)) as Hb.
  { unfold begin_run, busy, set_scheduled, set_running. cbn [nodes upd].
    rewrite !effect_of_set_effect, !decide_True by done. cbn. by rewrite Hd. }
  assert (scheduled (effect_of (nodes (begin_run e st)) e) = false) as Hs.
  { unfold begin_run, set_scheduled. cbn [nodes upd].
    by rewrite effect_of_set_effect, decide_True by done. }
  pose proof (held_wp_runCleanups E (run E fuel) e (run_held E e fuel) e (begin_run e st)
                (λ _ st', held e (begin_run e st) st') Hb (λ _ _ H, H)) as H0.
  apply (wp_done _ _ _ _ H0) in Hclean as H0'. clear H0.
  assert (busy e (set_activeEffect (Some e) st0)) as Hb1 by exact (held_busy _ _ _ H0').
  pose proof (collect_own_run E fuel e (effect_body E e) _ Hb1) as H1.
  apply (wp_done _ _ _ _ H1) in Hcollect as H1'. clear H1.
  destruct H0' as [_ _ Hn0 Ha0 Hs0]. destruct H1' as [Hr2 Hd2 Hn2 Ha2 Hs2].
  rewrite arrivals_emit_run in Ha2, Hs2. rewrite run_count_emit_run in Hn2.
  change (arrivals e (set_activeEffect (Some e) st0)) with (arrivals e st0) in *.
  change (run_count (OEffect e) (set_activeEffect (Some e) st0))
    with (run_count (OEffect e) st0) in *.
  change (nodes (emit (EvRun (OEffect e)) (set_activeEffect (Some e) st0)))
    with (nodes st0) in *.
  change (arrivals e (begin_run e st)) with (arrivals e st) in *.
  change (run_count (OEffect e) (begin_run e st)) with (run_count (OEffect e) st) in *.
  assert (scheduled (effect_of (nodes st2) e) = bool_decide (0 < k)) as Hsched.
  { rewrite Hs2, Hs0, Hs. cbn [orb]. unfold k.
    repeat case_bool_decide; try done; lia. }
  assert (flags e (nodes (keep_cleanup e v st2)) = flags e (nodes st2)) as Hfk.
  { unfold keep_cleanup. destruct v; try done. apply flags_set_cleanups. }
  assert (trace st3 = trace st2) as Htr.
  { unfold st3, end_run, keep_cleanup. by destruct v. }
  assert (effect_of (nodes st3) e
          = Effect (eff_tracker (effect_of (nodes (keep_cleanup e v st2)) e))
                   (scheduled (effect_of (nodes st2) e)) false
                   (disposed (effect_of (nodes st2) e))
                   (cleanups (effect_of (nodes (keep_cleanup e v st2)) e))) as He3.
  { unfold st3, end_run, set_running. cbn [nodes upd set_activeEffect].
    rewrite effect_of_set_effect, decide_True by done.
    unfold flags in Hfk. injection Hfk as -> _ ->. done. }
  split_and!.
  - unfold run_count in *. rewrite Htr. lia.
  - unfold arrivals. by rewrite Htr.
  - rewrite He3. cbn. done.
  - by rewrite He3.
  - unfold EffectComputation_execute. rewrite Hd. fold (begin_run e st).
    rewrite Hclean. cbn [bind]. rewrite Hcollect. cbn [bind].
    replace (match v with
             | VFun f => ret VUndef (upd (set_cleanups e (cleanups (effect_of (nodes st2) e) ++ [f])) st2)
             | _ => ret VUndef st2
             end) with (ret VUndef (keep_cleanup e v st2)) by (by destruct v).
    cbn [finally ret bind]. fold (end_run e (activeEffect st0) v st2). fold st3.
    rewrite He3. cbn [scheduled]. rewrite Hsched. done.
Qed.


(** * Dependency precision *)

(** ** Trackers and subscriber sets *)

Lemma tracker_of_set_tracker o t g : tracker_of (set_tracker o t g) o = t.
Proof.
  destruct o; cbn [tracker_of set_tracker].
  - by rewrite memo_of_set_memo, decide_True.
  - by rewrite effect_of_set_effect, decide_True.
  - by rewrite component_of_set_component, decide_True.
Qed.

Lemma subscribers_of_set_tracker o t g d :
  subscribers_of (set_tracker o t g) d = subscribers_of g d.
Proof.
  destruct o as [m|e|c], d as [s|m']; try reflexivity.
  cbn [subscribers_of set_tracker]. rewrite memo_of_set_memo. by case_decide; subst.
Qed.

Lemma tracker_of_set_subscribers d subs g o :
  tracker_of (set_subscribers d subs g) o = tracker_of g o.
Proof.
  destruct d as [s|m], o as [m'|e|c]; try reflexivity.
  cbn [tracker_of set_subscribers]. rewrite memo_of_set_memo. by case_decide; subst.
Qed.

Lemma subscribers_of_set_subscribers d subs g d' :
  subscribers_of (set_subscribers d subs g) d'
  = if decide (d = d') then subs else subscribers_of g d'.
Proof.
  destruct d as [s|m], d' as [s'|m']; cbn [subscribers_of set_subscribers].
  - rewrite signal_of_set_signal. by repeat case_decide; simplify_eq.
  - by rewrite decide_False.
  - by rewrite decide_False.
  - rewrite memo_of_set_memo. by repeat case_decide; simplify_eq.
Qed.

Lemma rest_of_set_tracker o t g e :
  rest_of (effect_of (set_tracker o t g) e) = rest_of (effect_of g e).
Proof.
  destruct o as [m|e'|c]; try reflexivity.
  cbn [set_tracker]. rewrite effect_of_set_effect. by case_decide; subst.
Qed.

Lemma rest_of_set_subscribers d subs g e :
  rest_of (effect_of (set_subscribers d subs g) e) = rest_of (effect_of g e).
Proof. by destruct d. Qed.

Lemma signals_set_tracker o t g : signals (set_tracker o t g) = signals g.
Proof. by destruct o. Qed.

(** *** The Set of subscribers *)

Lemma elem_of_jsset_add {A} `{EqDecision A} (x y : A) (s : jsset A) :
  Some y ∈ jsset_add x s ↔ Some y ∈ s ∨ y = x.
Proof.
  unfold jsset_add, jsset_has. case_bool_decide as Hx.
  - split; [by left|]. by intros [?| ->].
  - rewrite elem_of_app, list_elem_of_singleton. split; intros [?|?]; simplify_eq; auto.
Qed.

Lemma elem_of_jsset_delete {A} `{EqDecision A} (x y : A) (s : jsset A) :
  Some y ∈ jsset_delete x s ↔ Some y ∈ s ∧ y ≠ x.
Proof.
  unfold jsset_delete. rewrite list_elem_of_fmap. split.
  - intros (slot & Hy & Hslot). case_decide; simplify_eq. split; [done|]. by intros ->.
  - intros [Hy Hne]. exists (Some y). split; [|done]. rewrite decide_False; [done|].
    by intros [= ->].
Qed.

Lemma jsset_add_present {A} `{EqDecision A} (x : A) (s : jsset A) :
  Some x ∈ s → jsset_add x s = s.
Proof. intros Hx. unfold jsset_add, jsset_has. by rewrite bool_decide_eq_true_2. Qed.

Lemma jsset_delete_absent {A} `{EqDecision A} (x : A) (s : jsset A) :
  Some x ∉ s → jsset_delete x s = s.
Proof.
  intros Hx. unfold jsset_delete. induction s as [|slot s IH]; [done|].
  apply not_elem_of_cons in Hx as [Hne Hx]. cbn. rewrite decide_False by done.
  f_equal. by apply IH.
Qed.

Lemma jsset_delete_idemp {A} `{EqDecision A} (x : A) (s : jsset A) :
  jsset_delete x (jsset_delete x s) = jsset_delete x s.
Proof.
  apply jsset_delete_absent. rewrite elem_of_jsset_delete. by intros [_ ?].
Qed.

Lemma length_jsset_delete {A} `{EqDecision A} (x : A) (s : jsset A) :
  length (jsset_delete x s) = length s.
Proof. unfold jsset_delete. apply length_fmap. Qed.

Lemma drop_jsset_delete {A} `{EqDecision A} (x : A) (s : jsset A) i :
  drop i (jsset_delete x s) = jsset_delete x (drop i s).
Proof. unfold jsset_delete. by rewrite fmap_drop. Qed.

(** *** The two loops of [reconcileSubscriptions] *)

Lemma drop_stale_fold o (nextDeps l : list dep) : ∀ g,
  let g' := foldl (λ g d,
                     if bool_decide (d ∈ nextDeps) then g
                     else
                       let g := unsubscribe d o g in
                       let t := tracker_of g o in
                       set_tracker o (Tracker (filter (λ d', d' ≠ d) (subscriptions t))
                                              (collecting t)) g) g l in
  (∀ d, subscribers_of g' d
        = if bool_decide (d ∈ l ∧ d ∉ nextDeps) then jsset_delete o (subscribers_of g d)
          else subscribers_of g d)
  ∧ (∀ d, d ∈ subscriptions (tracker_of g' o)
          ↔ d ∈ subscriptions (tracker_of g o) ∧ ¬ (d ∈ l ∧ d ∉ nextDeps))
  ∧ collecting (tracker_of g' o) = collecting (tracker_of g o)
  ∧ (∀ e, rest_of (effect_of g' e) = rest_of (effect_of g e)).
Proof.
  induction l as [|d0 l IH]; intros g; cbn zeta.
  { split_and!; [|intros d; rewrite elem_of_nil; tauto|done|done].
    intros d. rewrite bool_decide_eq_false_2; [done|]. rewrite elem_of_nil. tauto. }
  cbn [foldl]. case_bool_decide as Hd0.
  - destruct (IH g) as (Hsubs & Hkeys & Hcoll & Hrest). split_and!; [| |done|done].
    + intros d. rewrite Hsubs. apply (f_equal (λ b : bool, if b then _ else _)).
      apply bool_decide_ext. rewrite elem_of_cons. split; [tauto|].
      intros [[ ->|?] ?]; tauto.
    + intros d. rewrite Hkeys, elem_of_cons. split; [|tauto].
      intros [? Hn]. split; [done|]. intros [[ ->|?] ?]; tauto.
  - set (g1 := set_tracker o _ (unsubscribe d0 o g)).
    destruct (IH g1) as (Hsubs & Hkeys & Hcoll & Hrest).
    assert (∀ d, subscribers_of g1 d
                 = if decide (d0 = d) then jsset_delete o (subscribers_of g d)
                   else subscribers_of g d) as Hsubs1.
    { intros d. unfold g1, unsubscribe.
      rewrite subscribers_of_set_tracker, subscribers_of_set_subscribers.
      by case_decide; subst. }
    assert (tracker_of g1 o
            = Tracker (filter (λ d', d' ≠ d0) (subscriptions (tracker_of g o)))
                      (collecting (tracker_of g o))) as Ht1.
    { unfold g1, unsubscribe. by rewrite tracker_of_set_tracker, tracker_of_set_subscribers. }
    split_and!.
    + intros d. rewrite Hsubs, Hsubs1. destruct (decide (d0 = d)) as [<-|Hne].
      * rewrite jsset_delete_idemp.
        rewrite (bool_decide_eq_true_2 (d0 ∈ d0 :: l ∧ _)); [|split; [left|done]].
        by case_bool_decide.
      * apply (f_equal (λ b : bool, if b then _ else _)).
        apply bool_decide_ext. rewrite elem_of_cons. split; [tauto|].
        intros [[ ->|?] ?]; tauto.
    + intros d. rewrite Hkeys, Ht1. cbn [subscriptions].
      rewrite list_elem_of_filter, elem_of_cons. split.
      * intros [[Hne ?] Hn]. split; [done|]. intros [[ ->|?] ?]; tauto.
      * intros [? Hn]. split_and!; [|done|tauto]. intros ->. apply Hn. split; [by left|done].
    + etrans; [exact Hcoll|]. by rewrite Ht1.
    + intros e. etrans; [apply Hrest|]. unfold g1, unsubscribe.
      by rewrite rest_of_set_tracker, rest_of_set_subscribers.
Qed.

Lemma drop_stale_spec o (nextDeps : list dep) g :
  (∀ d, subscribers_of (drop_stale o nextDeps g) d
        = if bool_decide (d ∈ subscriptions (tracker_of g o) ∧ d ∉ nextDeps)
          then jsset_delete o (subscribers_of g d)
          else subscribers_of g d)
  ∧ (∀ d, d ∈ subscriptions (tracker_of (drop_stale o nextDeps g) o)
          ↔ d ∈ subscriptions (tracker_of g o) ∧ d ∈ nextDeps)
  ∧ collecting (tracker_of (drop_stale o nextDeps g) o) = collecting (tracker_of g o)
  ∧ (∀ e, rest_of (effect_of (drop_stale o nextDeps g) e) = rest_of (effect_of g e)).
Proof.
  destruct (drop_stale_fold o nextDeps (subscriptions (tracker_of g o)) g)
    as (Hsubs & Hkeys & Hcoll & Hrest).
  split_and!; [done| |done|done].
  intros d. unfold drop_stale. rewrite Hkeys. split; [|tauto].
  intros [Hd Hn]. split; [done|]. destruct (decide (d ∈ nextDeps)); tauto.
Qed.

Lemma upd_id st : upd (λ g, g) st = st.
Proof. by destruct st. Qed.

Lemma add_new_signals rec o nextDeps : ∀ st,
  Forall is_signal nextDeps →
  add_new rec o nextDeps st = Done (Normal VUndef) (upd (subscribe_new o nextDeps) st).
Proof.
  unfold add_new. induction nextDeps as [|d nextDeps IH]; intros st Hsig.
  { cbn. by rewrite upd_id. }
  apply Forall_cons in Hsig as [Hd Hsig]. cbn [for_each].
  case_bool_decide as Hin.
  - cbn [bind ret]. rewrite IH by done. unfold upd. do 2 f_equal.
    unfold subscribe_new. cbn [foldl]. by rewrite bool_decide_eq_true_2.
  - destruct d as [s|m]; [|done]. unfold subscribe. cbn [bind ret].
    rewrite IH by done. unfold upd. cbn [nodes]. do 2 f_equal.
    unfold subscribe_new. cbn [foldl]. by rewrite bool_decide_eq_false_2.
Qed.

Lemma subscribe_new_spec o (nextDeps : list dep) : ∀ g,
  (∀ d, subscribers_of (subscribe_new o nextDeps g) d
        = if bool_decide (d ∈ nextDeps ∧ d ∉ subscriptions (tracker_of g o))
          then jsset_add o (subscribers_of g d)
          else subscribers_of g d)
  ∧ (∀ d, d ∈ subscriptions (tracker_of (subscribe_new o nextDeps g) o)
          ↔ d ∈ subscriptions (tracker_of g o) ∨ d ∈ nextDeps)
  ∧ collecting (tracker_of (subscribe_new o nextDeps g) o) = collecting (tracker_of g o)
  ∧ (∀ e, rest_of (effect_of (subscribe_new o nextDeps g) e) = rest_of (effect_of g e)).
Proof.
  induction nextDeps as [|d0 l IH]; intros g.
  { split_and!; [|intros d; rewrite elem_of_nil; tauto|done|done].
    intros d. rewrite bool_decide_eq_false_2; [done|]. rewrite elem_of_nil. tauto. }
  unfold subscribe_new. cbn [foldl]. case_bool_decide as Hd0.
  - destruct (IH g) as (Hsubs & Hkeys & Hcoll & Hrest). split_and!; [| |done|done].
    + intros d. fold (subscribe_new o l g). rewrite Hsubs.
      apply (f_equal (λ b : bool, if b then _ else _)).
      apply bool_decide_ext. rewrite elem_of_cons. split; [tauto|].
      intros [[ ->|?] ?]; tauto.
    + intros d. fold (subscribe_new o l g). rewrite Hkeys, elem_of_cons.
      split; [tauto|]. intros [?|[->|?]]; tauto.
  - set (g1 := add_subscription o d0 (add_subscriber d0 o g)).
    fold (subscribe_new o l g1).
    destruct (IH g1) as (Hsubs & Hkeys & Hcoll & Hrest).
    assert (∀ d, subscribers_of g1 d
                 = if decide (d0 = d) then jsset_add o (subscribers_of g d)
                   else subscribers_of g d) as Hsubs1.
    { intros d. unfold g1, add_subscription, add_subscriber.
      rewrite subscribers_of_set_tracker, subscribers_of_set_subscribers.
      by case_decide; subst. }
    assert (tracker_of g1 o
            = Tracker (subscriptions (tracker_of g o) ++ [d0])
                      (collecting (tracker_of g o))) as Ht1.
    { unfold g1, add_subscription, add_subscriber.
      by rewrite tracker_of_set_tracker, tracker_of_set_subscribers. }
    split_and!.
    + intros d. rewrite Hsubs, Hsubs1, Ht1. cbn [subscriptions].
      destruct (decide (d0 = d)) as [<-|Hne].
      * rewrite (bool_decide_eq_false_2 (d0 ∈ l ∧ _)).
        2:{ rewrite elem_of_app, list_elem_of_singleton. tauto. }
        rewrite (bool_decide_eq_true_2 (d0 ∈ d0 :: l ∧ _)); [done|]. split; [by left|done].
      * apply (f_equal (λ b : bool, if b then _ else _)).
        apply bool_decide_ext. rewrite elem_of_cons, elem_of_app, list_elem_of_singleton.
        split; [tauto|]. intros [[ ->|?] ?]; [done|]. split; [done|]. intros [?| ->]; tauto.
    + intros d. rewrite Hkeys, Ht1. cbn [subscriptions].
      rewrite elem_of_cons, elem_of_app, list_elem_of_singleton. tauto.
    + etrans; [exact Hcoll|]. by rewrite Ht1.
    + intros e. etrans; [apply Hrest|]. unfold g1, add_subscription, add_subscriber.
      by rewrite rest_of_set_tracker, rest_of_set_subscribers.
Qed.

(** ** User code that only reads signals *)

Lemma reads_of_signals g g' p :
  signals g' = signals g →
  reads_of g' p = reads_of g p ∧ result_of g' p = result_of g p ∧ logs_of g' p = logs_of g p.
Proof.
  intros Hsig.
  assert (∀ s, signal_of g' s = signal_of g s) as Hs
    by (intros s; unfold signal_of; by rewrite Hsig).
  induction p as [| |s k IH| | | | | |v k IH| |]; cbn; try done.
  - rewrite Hs. destruct (IH (sig_value (signal_of g s))) as (-> & -> & ->). done.
  - destruct IH as (-> & -> & ->). done.
Qed.

Lemma result_of_returns n p g :
  reads_only false n p → ∃ v, result_of g p = Normal v ∧ is_function v = false.
Proof. induction 1; cbn; eauto; done. Qed.

Lemma add_reads_spec o ss : ∀ g,
  tracker_of (add_reads o ss g) o
  = Tracker (subscriptions (tracker_of g o))
            (foldl (λ c s, set_add (DSig s) c) (collecting (tracker_of g o)) ss)
  ∧ (∀ d, subscribers_of (add_reads o ss g) d = subscribers_of g d)
  ∧ (∀ e, rest_of (effect_of (add_reads o ss g) e) = rest_of (effect_of g e))
  ∧ signals (add_reads o ss g) = signals g.
Proof.
  induction ss as [|s ss IH]; intros g.
  { cbn. split_and!; try done. by destruct (tracker_of g o). }
  unfold add_reads. cbn [foldl]. fold (add_reads o ss (addDependency o (DSig s) g)).
  destruct (IH (addDependency o (DSig s) g)) as (Ht & Hsubs & Hrest & Hsig).
  unfold addDependency in *. rewrite tracker_of_set_tracker in Ht. cbn in Ht.
  split_and!.
  - done.
  - intros d. by rewrite Hsubs, subscribers_of_set_tracker.
  - intros e. by rewrite Hrest, rest_of_set_tracker.
  - by rewrite Hsig, signals_set_tracker.
Qed.

Lemma collecting_reads ss : ∀ c,
  (Forall is_signal c → Forall is_signal (foldl (λ c s, set_add (DSig s) c) c ss))
  ∧ (∀ d, d ∈ foldl (λ c s, set_add (DSig s) c) c ss ↔ d ∈ c ∨ d ∈ DSig <$> ss).
Proof.
  induction ss as [|s ss IH]; intros c; cbn.
  { split; [done|]. intros d. rewrite elem_of_nil. tauto. }
  destruct (IH (set_add (DSig s) c)) as [Hsig Hin]. split.
  - intros Hc. apply Hsig. unfold set_add. case_bool_decide; [done|].
    apply Forall_app. split; [done|]. by repeat constructor.
  - intros d. rewrite Hin, set_add_elem, elem_of_cons. tauto.
Qed.

Lemma run_reads_only E t n p : reads_only t n p → ∀ fuel st o rest,
  collectorStack st = rest ++ [o] → n < fuel →
  run E fuel (TProg p) st
  = Done (result_of (nodes st) p)
         (set_console (console st ++ logs_of (nodes st) p)
                      (upd (add_reads o (reads_of (nodes st) p)) st)).
Proof.
  induction 1 as [n v Hv|n err Ht|n s k Hk IH|n v k Hk IH]; intros fuel st o rest Hstack Hfuel;
    (destruct fuel as [|fuel]; [lia|]); rewrite run_S; cbn [dispatch exec].
  - cbn. rewrite app_nil_r. by destruct st.
  - cbn. rewrite app_nil_r. by destruct st.
  - unfold SignalSource_get, trackDependency, currentCollector.
    rewrite Hstack, last_snoc. cbn [bind ret].
    set (st1 := upd (addDependency o (DSig s)) st).
    assert (signals (nodes st1) = signals (nodes st)) as Hsig
      by apply signals_set_tracker.
    assert (signal_of (nodes st1) s = signal_of (nodes st) s) as ->
      by (unfold signal_of; by rewrite Hsig).
    rewrite (IH _ fuel st1 o rest) by (done || lia).
    destruct (reads_of_signals (nodes st) (nodes st1)
                (k (sig_value (signal_of (nodes st) s))) Hsig) as (-> & -> & ->).
    done.
  - rewrite (IH fuel _ o rest) by (done || lia). cbn.
    by rewrite <- app_assoc.
Qed.

(** ** A collection whose function only reads signals *)

Lemma state_eq st st' :
  nodes st = nodes st' → collectorStack st = collectorStack st' →
  batchDepth st = batchDepth st' → pendingSubscribers st = pendingSubscribers st' →
  activeEffect st = activeEffect st' → heap st = heap st' →
  console st = console st' → trace st = trace st' → st = st'.
Proof. destruct st, st'; cbn; intros; by subst. Qed.

Lemma collect_reads_only E t n fuel o fn st :
  reads_only t n fn → n < fuel →
  collect (run E fuel) o fn st = Done (result_of (nodes st) fn) (collected o fn st).
Proof.
  intros Hfn Hfuel. unfold collect.
  set (st1 := pushCollector o (upd (reset_collecting o) (emit (EvRun o) st))).
  assert (signals (nodes st1) = signals (nodes st)) as Hsig by apply signals_set_tracker.
  rewrite (run_reads_only E t n fn Hfn fuel st1 o (collectorStack st)) by done.
  destruct (reads_of_signals (nodes st) (nodes st1) fn Hsig) as (-> & -> & ->).
  cbn [finally]. unfold reconcileSubscriptions.
  destruct (add_reads_spec o (reads_of (nodes st) fn) (reset_collecting o (nodes st)))
    as (Ht & _).
  unfold reset_collecting in Ht at 2 3. rewrite tracker_of_set_tracker in Ht. cbn in Ht.
  rewrite add_new_signals.
  2:{ cbn. rewrite Ht. cbn. by apply collecting_reads. }
  f_equal. apply state_eq; try reflexivity.
  cbn. apply removelast_last.
Qed.

Lemma collected_spec o fn st :
  let reads : list dep := DSig <$> reads_of (nodes st) fn in
  let keys := subscriptions (tracker_of (nodes st) o) in
  let g' := nodes (collected o fn st) in
  (∀ d, subscribers_of g' d
        = if bool_decide (d ∈ reads)
          then (if bool_decide (d ∈ keys) then subscribers_of (nodes st) d
                else jsset_add o (subscribers_of (nodes st) d))
          else (if bool_decide (d ∈ keys) then jsset_delete o (subscribers_of (nodes st) d)
                else subscribers_of (nodes st) d))
  ∧ (∀ d, d ∈ subscriptions (tracker_of g' o) ↔ d ∈ reads)
  ∧ (∀ d, d ∈ collecting (tracker_of g' o) ↔ d ∈ reads)
  ∧ (∀ e, rest_of (effect_of g' e) = rest_of (effect_of (nodes st) e)).
Proof.
  intros reads keys g'. unfold g', collected, reconciled. cbn [nodes].
  set (g0 := reset_collecting o (nodes st)).
  set (g1 := add_reads o (reads_of (nodes st) fn) g0).
  destruct (add_reads_spec o (reads_of (nodes st) fn) g0) as (Ht1 & Hsubs1 & Hrest1 & _).
  fold g1 in Ht1, Hsubs1, Hrest1.
  assert (tracker_of g0 o = Tracker keys []) as Ht0 by apply tracker_of_set_tracker.
  rewrite Ht0 in Ht1. cbn [subscriptions collecting] in Ht1.
  set (nextDeps := collecting (tracker_of g1 o)).
  assert (∀ d, d ∈ nextDeps ↔ d ∈ reads) as Hnext.
  { intros d. unfold nextDeps. rewrite Ht1. cbn [collecting].
    rewrite (proj2 (collecting_reads _ _)), elem_of_nil. fold reads. tauto. }
  assert (∀ d, subscribers_of g1 d = subscribers_of (nodes st) d) as Hsubs0.
  { intros d. rewrite Hsubs1. apply subscribers_of_set_tracker. }
  assert (∀ e, rest_of (effect_of g1 e) = rest_of (effect_of (nodes st) e)) as Hrest0.
  { intros e. rewrite Hrest1. apply rest_of_set_tracker. }
  destruct (drop_stale_spec o nextDeps g1) as (Hsubs2 & Hkeys2 & Hcoll2 & Hrest2).
  destruct (subscribe_new_spec o nextDeps (drop_stale o nextDeps g1))
    as (Hsubs3 & Hkeys3 & Hcoll3 & Hrest3).
  assert (subscriptions (tracker_of g1 o) = keys) as Hk1 by (by rewrite Ht1).
  rewrite Hk1 in Hsubs2, Hkeys2.
  split_and!.
  - intros d. rewrite Hsubs3, Hsubs2, Hsubs0.
    repeat case_bool_decide; try done; exfalso;
      rewrite ?Hkeys2, ?Hnext in *; tauto.
  - intros d. rewrite Hkeys3, Hkeys2, Hnext. tauto.
  - intros d. rewrite Hcoll3, Hcoll2. apply Hnext.
  - intros e. by rewrite Hrest3, Hrest2.
Qed.

(** ** Effects whose bodies only read signals *)

(** After a collection the computation is subscribed to exactly the signals
    the function has read, if its subscriptions were consistent before. *)
Lemma collected_tracks_reads o fn st :
  consistent o (nodes st) →
  consistent o (nodes (collected o fn st))
  ∧ ∀ d, o ∈ jsset_live (subscribers_of (nodes (collected o fn st)) d)
         ↔ d ∈ DSig <$> reads_of (nodes st) fn.
Proof.
  intros Hcons. destruct (collected_spec o fn st) as (Hsubs & Hkeys & _).
  cbn zeta in *.
  assert (∀ d, o ∈ jsset_live (subscribers_of (nodes (collected o fn st)) d)
               ↔ d ∈ DSig <$> reads_of (nodes st) fn) as Hin.
  { intros d. rewrite Hsubs. specialize (Hcons d). rewrite elem_of_jsset_live in *.
    repeat case_bool_decide.
    - tauto.
    - rewrite elem_of_jsset_add. tauto.
    - rewrite elem_of_jsset_delete. tauto.
    - tauto. }
  split; [|done]. intros d. by rewrite Hkeys, Hin.
Qed.

Lemma rest_of_fields x s r d c :
  rest_of x = (s, r, d, c) →
  scheduled x = s ∧ running x = r ∧ disposed x = d ∧ cleanups x = c.
Proof. by intros [= -> -> -> ->]. Qed.

Lemma begin_run_spec e st :
  let g0 := nodes (upd (set_cleanups e []) (begin_run e st)) in
  signals g0 = signals (nodes st)
  ∧ (∀ d, subscribers_of g0 d = subscribers_of (nodes st) d)
  ∧ tracker_of g0 (OEffect e) = tracker_of (nodes st) (OEffect e)
  ∧ (∀ e', rest_of (effect_of g0 e')
           = if decide (e = e') then (false, true, disposed (effect_of (nodes st) e), [])
             else rest_of (effect_of (nodes st) e')).
Proof.
  cbn zeta. unfold begin_run, set_cleanups, set_scheduled, set_running.
  cbn [nodes upd]. split_and!.
  - done.
  - by intros [].
  - cbn [tracker_of]. by rewrite !effect_of_set_effect, !decide_True.
  - intros e'. rewrite !effect_of_set_effect. case_decide; [|done]. subst.
    by rewrite !decide_True.
Qed.

Lemma execute_reads_only E n fuel e st :
  idle e (nodes st) → reads_only false n (effect_body E e) → n < fuel →
  EffectComputation_execute E (run E fuel) e st = Done (Normal VUndef) (rerun E e st).
Proof.
  intros Hidle Hbody Hfuel. unfold idle, rest_of in Hidle.
  injection Hidle as Hs Hr Hd Hc.
  unfold EffectComputation_execute. rewrite Hd. fold (begin_run e st).
  destruct (begin_run_spec e st) as (_ & _ & _ & Hrest0). cbn zeta in Hrest0.
  unfold runCleanups.
  assert (cleanups (effect_of (nodes (begin_run e st)) e) = []) as ->.
  { unfold begin_run, set_scheduled, set_running. cbn [nodes upd].
    by rewrite !effect_of_set_effect, !decide_True. }
  cbn [for_each ret bind].
  set (st0 := set_activeEffect (Some e) (upd (set_cleanups e []) (begin_run e st))).
  rewrite (collect_reads_only E false n fuel (OEffect e) (effect_body E e) st0 Hbody Hfuel).
  destruct (result_of_returns n (effect_body E e) (nodes st0) Hbody) as (v & -> & Hv).
  cbn [bind].
  replace (match v with
           | VFun f =>
               ret VUndef
                 (upd (set_cleanups e
                         (cleanups (effect_of (nodes (collected (OEffect e) (effect_body E e) st0)) e)
                          ++ [f]))
                    (collected (OEffect e) (effect_body E e) st0))
           | _ => ret VUndef (collected (OEffect e) (effect_body E e) st0)
           end)
    with (ret VUndef (collected (OEffect e) (effect_body E e) st0))
    by (by destruct v).
  cbn [finally ret bind].
  change (activeEffect (upd (set_cleanups e []) (begin_run e st))) with (activeEffect st).
  change (upd (set_running e false)
            (set_activeEffect (activeEffect st)
               (collected (OEffect e) (effect_body E e) st0))) with (rerun E e st).
  assert (scheduled (effect_of (nodes (rerun E e st)) e) = false) as ->; [|done].
  unfold rerun. fold st0. unfold set_running. cbn [nodes upd set_activeEffect].
  rewrite effect_of_set_effect, decide_True by done. cbn [scheduled].
  destruct (collected_spec (OEffect e) (effect_body E e) st0) as (_ & _ & _ & Hrest).
  specialize (Hrest e). cbn zeta in Hrest.
  change (nodes st0) with (nodes (upd (set_cleanups e []) (begin_run e st))) in Hrest.
  rewrite Hrest0, decide_True in Hrest by done.
  by destruct (rest_of_fields _ _ _ _ _ Hrest) as (-> & _).
Qed.

Lemma rerun_spec E e st :
  idle e (nodes st) →
  let st' := rerun E e st in
  let reads : list dep := DSig <$> reads_of (nodes st) (effect_body E e) in
  let keys := subscriptions (tracker_of (nodes st) (OEffect e)) in
  trace st' = trace st ++ [EvRun (OEffect e)]
  ∧ batchDepth st' = batchDepth st
  ∧ pendingSubscribers st' = pendingSubscribers st
  ∧ collectorStack st' = collectorStack st
  ∧ activeEffect st' = activeEffect st
  ∧ (∀ e', idle e' (nodes st) → idle e' (nodes st'))
  ∧ (∀ d, subscribers_of (nodes st') d
          = if bool_decide (d ∈ reads)
            then (if bool_decide (d ∈ keys) then subscribers_of (nodes st) d
                  else jsset_add (OEffect e) (subscribers_of (nodes st) d))
            else (if bool_decide (d ∈ keys)
                  then jsset_delete (OEffect e) (subscribers_of (nodes st) d)
                  else subscribers_of (nodes st) d))
  ∧ (∀ d, d ∈ subscriptions (tracker_of (nodes st') (OEffect e)) ↔ d ∈ reads)
  ∧ (∀ d, d ∈ collecting (tracker_of (nodes st') (OEffect e)) ↔ d ∈ reads).
Proof.
  intros Hidle st' reads keys.
  set (st0 := set_activeEffect (Some e) (upd (set_cleanups e []) (begin_run e st))).
  destruct (begin_run_spec e st) as (Hsig0 & Hsubs0 & Ht0 & Hrest0). cbn zeta in *.
  change (nodes (upd (set_cleanups e []) (begin_run e st))) with (nodes st0) in *.
  destruct (collected_spec (OEffect e) (effect_body E e) st0)
    as (Hsubs & Hkeys & Hcoll & Hrest). cbn zeta in *.
  destruct (reads_of_signals (nodes st) (nodes st0) (effect_body E e) Hsig0) as (Hreads & _).
  rewrite Hreads, Ht0 in Hsubs. rewrite Hreads in Hkeys, Hcoll.
  fold reads keys in Hsubs, Hkeys, Hcoll.
  assert (tracker_of (nodes st') (OEffect e)
          = tracker_of (nodes (collected (OEffect e) (effect_body E e) st0)) (OEffect e))
    as Ht'.
  { unfold st', rerun. fold st0. unfold set_running. cbn [nodes upd set_activeEffect tracker_of].
    by rewrite effect_of_set_effect, decide_True. }
  split_and!; try reflexivity.
  - intros e' He'. unfold idle in *. unfold st', rerun. fold st0.
    unfold set_running. cbn [nodes upd set_activeEffect].
    rewrite effect_of_set_effect. specialize (Hrest e'). rewrite Hrest0 in Hrest.
    case_decide as Hee.
    + subst e'. destruct (rest_of_fields _ _ _ _ _ Hrest) as (Hs & _ & Hd & Hc).
      destruct (rest_of_fields _ _ _ _ _ Hidle) as (_ & _ & Hd0 & _).
      unfold rest_of. cbn [scheduled running disposed cleanups].
      by rewrite Hs, Hd, Hc, Hd0.
    + by rewrite Hrest.
  - intros d. specialize (Hsubs d). rewrite !Hsubs0 in Hsubs. rewrite <- Hsubs.
    by destruct d.
  - intros d. by rewrite Ht'.
  - intros d. by rewrite Ht'.
Qed.

(** After a run the effect is subscribed to exactly the signals the run
    read, if its subscriptions were consistent before. *)
Lemma rerun_tracks_reads E e st :
  idle e (nodes st) → consistent (OEffect e) (nodes st) →
  consistent (OEffect e) (nodes (rerun E e st))
  ∧ ∀ d, OEffect e ∈ jsset_live (subscribers_of (nodes (rerun E e st)) d)
         ↔ d ∈ DSig <$> reads_of (nodes st) (effect_body E e).
Proof.
  intros Hidle Hcons.
  destruct (rerun_spec E e st Hidle) as (_ & _ & _ & _ & _ & _ & Hsubs & Hkeys & _).
  cbn zeta in *.
  assert (∀ d, OEffect e ∈ jsset_live (subscribers_of (nodes (rerun E e st)) d)
               ↔ d ∈ DSig <$> reads_of (nodes st) (effect_body E e)) as Hin.
  { intros d. rewrite Hsubs. specialize (Hcons d). rewrite elem_of_jsset_live in *.
    repeat case_bool_decide.
    - tauto.
    - rewrite elem_of_jsset_add. tauto.
    - rewrite elem_of_jsset_delete. tauto.
    - tauto. }
  split; [|done]. intros d. by rewrite Hkeys, Hin.
Qed.

(** *** Counting runs *)

Lemma run_count_emit o ev st :
  run_count o (emit ev st) = run_count o st + (if bool_decide (ev = EvRun o) then 1 else 0).
Proof.
  unfold run_count. cbn [trace emit]. rewrite filter_app, length_app. f_equal.
  case_bool_decide.
  - by rewrite filter_cons_True.
  - by rewrite filter_cons_False.
Qed.

Lemma run_count_rerun E e st o :
  idle e (nodes st) →
  run_count o (rerun E e st) = run_count o st + (if bool_decide (o = OEffect e) then 1 else 0).
Proof.
  intros Hidle. destruct (rerun_spec E e st Hidle) as (Htr & _). cbn zeta in Htr.
  unfold run_count. rewrite Htr, filter_app, length_app. f_equal.
  repeat case_bool_decide; simplify_eq.
  - by rewrite filter_cons_True.
  - by rewrite filter_cons_False by congruence.
Qed.

Lemma count_cons (o cb : owner) (l : list owner) :
  cb ∉ l →
  (if bool_decide (o = cb) then 1 else 0) + (if bool_decide (o ∈ l) then 1 else 0)
  = if bool_decide (o ∈ cb :: l) then 1 else 0.
Proof.
  intros Hfresh. destruct (decide (o = cb)) as [->|Hne].
  - rewrite bool_decide_eq_true_2 by done.
    rewrite (bool_decide_eq_false_2 (cb ∈ l)) by done.
    by rewrite bool_decide_eq_true_2 by (by left).
  - rewrite bool_decide_eq_false_2 by done. cbn.
    apply (f_equal (λ b : bool, if b then 1 else 0)), bool_decide_ext.
    rewrite elem_of_cons. tauto.
Qed.

(** Calling the subscriber of such an effect runs the body once. *)
Lemma call_ready_subscriber E n fuel e st :
  idle e (nodes st) → reads_only false n (effect_body E e) → n + 1 < fuel →
  call_subscriber (run E fuel) (OEffect e) st
  = Done (Normal VUndef) (rerun E e (emit (EvInvoke (OEffect e)) st)).
Proof.
  intros Hidle Hbody Hfuel. unfold call_subscriber, EffectComputation_schedule.
  change (nodes (emit (EvInvoke (OEffect e)) st)) with (nodes st).
  pose proof Hidle as Hidle'. unfold idle, rest_of in Hidle'.
  injection Hidle' as _ -> -> _.
  destruct fuel as [|fuel]; [lia|]. rewrite run_S. cbn [dispatch].
  apply (execute_reads_only E n); [done|done|lia].
Qed.

(** ** Memos whose compute functions only read signals *)

Lemma computing_set_tracker o t g m :
  computing (memo_of (set_tracker o t g) m) = computing (memo_of g m).
Proof.
  destruct o as [m'|e|c]; try reflexivity.
  cbn [set_tracker]. rewrite memo_of_set_memo. by case_decide; subst.
Qed.

Lemma computing_set_subscribers d subs g m :
  computing (memo_of (set_subscribers d subs g) m) = computing (memo_of g m).
Proof.
  destruct d as [s|m']; try reflexivity.
  cbn [set_subscribers]. rewrite memo_of_set_memo. by case_decide; subst.
Qed.

Lemma computing_drop_stale o nextDeps g m :
  computing (memo_of (drop_stale o nextDeps g) m) = computing (memo_of g m).
Proof.
  unfold drop_stale. generalize (subscriptions (tracker_of g o)) as ds.
  intros ds. revert g. induction ds as [|d ds IH]; intros g; [done|]. cbn [foldl].
  rewrite IH. case_bool_decide; [done|]. unfold unsubscribe.
  by rewrite computing_set_tracker, computing_set_subscribers.
Qed.

Lemma computing_subscribe_new o nextDeps : ∀ g m,
  computing (memo_of (subscribe_new o nextDeps g) m) = computing (memo_of g m).
Proof.
  unfold subscribe_new. induction nextDeps as [|d ds IH]; intros g m; [done|]. cbn [foldl].
  rewrite IH. case_bool_decide; [done|]. unfold add_subscription, add_subscriber.
  by rewrite computing_set_tracker, computing_set_subscribers.
Qed.

Lemma computing_add_reads o ss : ∀ g m,
  computing (memo_of (add_reads o ss g) m) = computing (memo_of g m).
Proof.
  unfold add_reads. induction ss as [|s ss IH]; intros g m; [done|]. cbn [foldl].
  rewrite IH. unfold addDependency. apply computing_set_tracker.
Qed.

Lemma computing_collected o fn st m :
  computing (memo_of (nodes (collected o fn st)) m) = computing (memo_of (nodes st) m).
Proof.
  unfold collected, reconciled. cbn [nodes].
  rewrite computing_subscribe_new, computing_drop_stale, computing_add_reads.
  unfold reset_collecting. apply computing_set_tracker.
Qed.

Lemma jsset_live_delete_nil {A} `{EqDecision A} (x : A) (s : jsset A) :
  jsset_live s = [] → jsset_live (jsset_delete x s) = [].
Proof.
  intros Hs. destruct (jsset_live (jsset_delete x s)) as [|y l] eqn:Hl; [done|].
  assert (y ∈ jsset_live (jsset_delete x s)) as Hy by (rewrite Hl; by left).
  apply elem_of_jsset_live, elem_of_jsset_delete in Hy as [Hy _].
  apply elem_of_jsset_live in Hy. rewrite Hs in Hy. by apply elem_of_nil in Hy.
Qed.

Lemma memo_not_read (m : nat) (ss : list nat) : DMemo m ∉ DSig <$> ss.
Proof. rewrite list_elem_of_fmap. by intros (s & [=] & _). Qed.

Lemma collected_memo_subscribers o fn st m :
  jsset_live (memo_subscribers (memo_of (nodes st) m)) = [] →
  jsset_live (memo_subscribers (memo_of (nodes (collected o fn st)) m)) = []
  ∧ length (memo_subscribers (memo_of (nodes (collected o fn st)) m))
    = length (memo_subscribers (memo_of (nodes st) m)).
Proof.
  intros Hlive. destruct (collected_spec o fn st) as (Hsubs & _). cbn zeta in Hsubs.
  specialize (Hsubs (DMemo m)). cbn [subscribers_of] in Hsubs. rewrite Hsubs. clear Hsubs.
  rewrite bool_decide_eq_false_2 by apply memo_not_read.
  case_bool_decide; [|by split]. split.
  - by apply jsset_live_delete_nil.
  - apply length_jsset_delete.
Qed.

Lemma collected_signal_subscribers o fn st s :
  Some o ∈ subscribers_of (nodes st) (DSig s) →
  subscribers_of (nodes (collected o fn st)) (DSig s) = subscribers_of (nodes st) (DSig s)
  ∨ subscribers_of (nodes (collected o fn st)) (DSig s)
    = jsset_delete o (subscribers_of (nodes st) (DSig s)).
Proof.
  intros Hin. destruct (collected_spec o fn st) as (Hsubs & _). cbn zeta in Hsubs.
  rewrite Hsubs. repeat case_bool_decide; auto. left. by apply jsset_add_present.
Qed.

(** [recompute] on a memo without subscribers computes once and notifies
    nobody. *)
Lemma recompute_reads_only E n fuel m st :
  leaf n m (nodes st) → reads_only false n (memo_compute E m) → n < fuel →
  MemoSource_recompute E (run E fuel) m st = Done (Normal VUndef) (recomputed E m st).
Proof.
  intros (Hc & Hlive & Hlen) Hbody Hfuel. unfold MemoSource_recompute, recomputed.
  rewrite Hc. cbn zeta.
  set (st0 := upd (set_computing m true) st).
  rewrite (collect_reads_only E false n fuel (OMemo m) (memo_compute E m) st0 Hbody Hfuel).
  destruct (reads_of_signals (nodes st) (nodes st0) (memo_compute E m) eq_refl)
    as (_ & -> & _).
  destruct (result_of_returns n (memo_compute E m) (nodes st) Hbody) as (v & -> & Hv).
  cbn [bind].
  set (st1 := collected (OMemo m) (memo_compute E m) st0).
  set (st2 := upd (set_memo_result m v) st1).
  assert (memo_subscribers (memo_of (nodes st0) m) = memo_subscribers (memo_of (nodes st) m))
    as Hsubs0.
  { unfold st0, set_computing. cbn [nodes upd].
    by rewrite memo_of_set_memo, decide_True. }
  destruct (collected_memo_subscribers (OMemo m) (memo_compute E m) st0 m) as [Hlive1 Hlen1];
    [by rewrite Hsubs0|]. fold st1 in Hlive1, Hlen1.
  assert (subscribers_of (nodes st2) (DMemo m) = memo_subscribers (memo_of (nodes st1) m))
    as Hsubs2.
  { unfold st2, set_memo_result. cbn [nodes upd subscribers_of].
    by rewrite memo_of_set_memo, decide_True. }
  assert (run E fuel (TNotifyAll (DMemo m) 0) st2 = Done (Normal VUndef) st2) as Hloop.
  { apply (notify_all_holes E (DMemo m) n); [by rewrite drop_0, Hsubs2| |done].
    rewrite Hsubs2, Hlen1, Hsubs0. lia. }
  rewrite Hloop. by destruct (negb _ || negb _).
Qed.

Lemma run_count_recomputed E m st o :
  run_count o (recomputed E m st) = run_count o st + (if bool_decide (o = OMemo m) then 1 else 0).
Proof.
  assert (trace (recomputed E m st) = trace st ++ [EvRun (OMemo m)]) as Htr.
  { unfold recomputed. cbn zeta. by destruct (result_of _ _). }
  unfold run_count. rewrite Htr, filter_app, length_app. f_equal.
  repeat case_bool_decide; simplify_eq.
  - by rewrite filter_cons_True.
  - by rewrite filter_cons_False by congruence.
Qed.

Lemma at_rest_collected n o fn st cb :
  at_rest n (nodes st) cb → at_rest n (nodes (collected o fn st)) cb.
Proof.
  destruct cb as [m|e|c]; cbn [at_rest]; [| |done].
  - intros (Hc & Hlive & Hlen).
    destruct (collected_memo_subscribers o fn st m Hlive) as [Hlive1 Hlen1].
    split_and!; [by rewrite computing_collected|done|lia].
  - unfold idle. destruct (collected_spec o fn st) as (_ & _ & _ & Hrest).
    cbn zeta in Hrest. by rewrite Hrest.
Qed.

(** What a call of a subscriber changes: one more run of the subscriber,
    and in the Set of a signal at most the deletion of the subscriber
    itself. *)
Lemma restarted_spec E n cb st :
  ready E n (nodes st) cb →
  let st' := restarted E cb st in
  (∀ o, run_count o st' = run_count o st + (if bool_decide (o = cb) then 1 else 0))
  ∧ batchDepth st' = batchDepth st
  ∧ pendingSubscribers st' = pendingSubscribers st
  ∧ (∀ cb', at_rest n (nodes st) cb' → at_rest n (nodes st') cb')
  ∧ (∀ s, Some cb ∈ subscribers_of (nodes st) (DSig s) →
          subscribers_of (nodes st') (DSig s) = subscribers_of (nodes st) (DSig s)
          ∨ subscribers_of (nodes st') (DSig s)
            = jsset_delete cb (subscribers_of (nodes st) (DSig s))).
Proof.
  intros [Hrest Hbody]. destruct cb as [m|e|c]; cbn [at_rest restarted body_of] in *; [| |done].
  - (* a memo *)
    destruct (result_of_returns n (memo_compute E m) (nodes st) Hbody) as (v & Hres & Hv).
    set (st0 := upd (set_computing m true) st).
    set (st1 := collected (OMemo m) (memo_compute E m) st0).
    assert (recomputed E m st = upd (set_computing m false) (upd (set_memo_result m v) st1))
      as Hst' by (unfold recomputed; cbn zeta; by rewrite Hres).
    cbn zeta. split_and!.
    + intros o. apply run_count_recomputed.
    + by rewrite Hst'.
    + by rewrite Hst'.
    + intros cb' Hcb'. rewrite Hst'.
      assert (at_rest n (nodes st1) cb' ∨ cb' = OMemo m) as [Hcb1|Hcb1].
      { destruct (decide (cb' = OMemo m)) as [->|Hne]; [by right|left].
        apply at_rest_collected. destruct cb' as [m'|e'|c']; cbn [at_rest] in *; [|done|done].
        destruct Hcb' as (Hc & Hlive & Hlen). unfold st0, set_computing, leaf.
        cbn [nodes upd]. rewrite memo_of_set_memo, decide_False by congruence. done. }
      * destruct cb' as [m'|e'|c']; cbn [at_rest] in *; [|done|done].
        destruct Hcb1 as (Hc & Hlive & Hlen). unfold leaf, set_computing, set_memo_result.
        cbn [nodes upd]. rewrite !memo_of_set_memo.
        repeat case_decide; subst; cbn [computing memo_subscribers]; done.
      * subst cb'. cbn [at_rest] in *. destruct Hcb' as (Hc & Hlive & Hlen).
        assert (memo_subscribers (memo_of (nodes st0) m)
                = memo_subscribers (memo_of (nodes st) m)) as Hsubs0.
        { unfold st0, set_computing. cbn [nodes upd].
          by rewrite memo_of_set_memo, decide_True. }
        destruct (collected_memo_subscribers (OMemo m) (memo_compute E m) st0 m)
          as [Hlive1 Hlen1]; [by rewrite Hsubs0|]. fold st1 in Hlive1, Hlen1.
        unfold leaf, set_computing, set_memo_result. cbn [nodes upd].
        rewrite !memo_of_set_memo, !decide_True by done.
        cbn [computing memo_subscribers].
        split_and!; [done|done|]. rewrite Hlen1, Hsubs0. done.
    + intros s Hin. rewrite Hst'.
      change (subscribers_of (nodes (upd (set_computing m false)
                                       (upd (set_memo_result m v) st1))) (DSig s))
        with (subscribers_of (nodes st1) (DSig s)).
      by apply (collected_signal_subscribers (OMemo m) (memo_compute E m) st0 s).
  - (* an effect *)
    destruct (rerun_spec E e st Hrest) as (_ & Hb & Hp & _ & _ & Hidle & Hsubs & _).
    cbn zeta in *. split_and!.
    + intros o. by apply run_count_rerun.
    + done.
    + done.
    + intros cb' Hcb'. destruct cb' as [m'|e'|c']; cbn [at_rest] in *; [|by apply Hidle|done].
      destruct Hcb' as (Hc & Hlive & Hlen).
      set (st0 := set_activeEffect (Some e) (upd (set_cleanups e []) (begin_run e st))).
      assert (leaf n m' (nodes (collected (OEffect e) (effect_body E e) st0))) as Hleaf.
      { apply (at_rest_collected n (OEffect e) (effect_body E e) st0 (OMemo m')).
        split_and!; done. }
      exact Hleaf.
    + intros s Hin. rewrite Hsubs. repeat case_bool_decide; auto.
      left. by apply jsset_add_present.
Qed.

Lemma call_ready E n fuel cb st :
  ready E n (nodes st) cb → n + 1 < fuel →
  call_subscriber (run E fuel) cb st
  = Done (Normal VUndef) (restarted E cb (emit (EvInvoke cb) st)).
Proof.
  intros [Hrest Hbody] Hfuel. destruct cb as [m|e|c]; cbn [at_rest body_of] in *; [| |done].
  - unfold call_subscriber. destruct fuel as [|fuel]; [lia|]. rewrite run_S. cbn [dispatch].
    apply (recompute_reads_only E n); [done|done|lia].
  - by apply (call_ready_subscriber E n).
Qed.

Lemma filter_run_notify (o : owner) (cbs : list owner) :
  filter (λ ev, ev = EvRun o) (EvNotify <$> cbs) = [].
Proof.
  induction cbs as [|cb cbs IH]; [done|].
  by rewrite fmap_cons, filter_cons_False by done.
Qed.

Lemma batched_writes_frame s vs : ∀ st,
  (∀ e, effect_of (nodes (foldl (λ st v, batched_write s v st) st vs)) e
        = effect_of (nodes st) e)
  ∧ (∀ o, run_count o (foldl (λ st v, batched_write s v st) st vs) = run_count o st).
Proof.
  induction vs as [|v vs IH]; intros st; [done|]. cbn [foldl].
  destruct (IH (batched_write s v st)) as [He Hc].
  assert ((∀ e, effect_of (nodes (batched_write s v st)) e = effect_of (nodes st) e)
          ∧ (∀ o, run_count o (batched_write s v st) = run_count o st)) as [He1 Hc1].
  { unfold batched_write. cbn zeta. destruct (object_is _ v); [done|].
    destruct (enqueue_all_fields
                (jsset_live (subscribers_of (nodes (upd (set_sig_value s v) st)) (DSig s)))
                (upd (set_sig_value s v) st)) as (Hn & _ & _ & Htr & _).
    split.
    - intros e. by rewrite Hn.
    - intros o. unfold run_count. rewrite Htr. cbn [trace upd].
      by rewrite filter_app, filter_run_notify, app_nil_r. }
  split.
  - intros e. by rewrite He, He1.
  - intros o. by rewrite Hc, Hc1.
Qed.

Lemma tracker_subscribers_set_memo m x g o d :
  memo_tracker x = memo_tracker (memo_of g m) →
  memo_subscribers x = memo_subscribers (memo_of g m) →
  tracker_of (set_memo m x g) o = tracker_of g o
  ∧ subscribers_of (set_memo m x g) d = subscribers_of g d.
Proof.
  intros Ht Hs. split.
  - destruct o as [m'|e|c]; try reflexivity. cbn [tracker_of].
    rewrite memo_of_set_memo. by case_decide; subst.
  - destruct d as [s|m']; try reflexivity. cbn [subscribers_of].
    rewrite memo_of_set_memo. by case_decide; subst.
Qed.

Lemma consistent_set_memo m x g o :
  memo_tracker x = memo_tracker (memo_of g m) →
  memo_subscribers x = memo_subscribers (memo_of g m) →
  consistent o (set_memo m x g) ↔ consistent o g.
Proof.
  intros Ht Hs. unfold consistent.
  destruct (tracker_subscribers_set_memo m x g o (DSig 0) Ht Hs) as [-> _].
  split; intros H d; specialize (H d);
    destruct (tracker_subscribers_set_memo m x g o d Ht Hs) as [_ Hd];
    by rewrite Hd in *.
Qed.

(** After it was called, a subscriber is subscribed to exactly the signals
    its function has read, if its subscriptions were consistent before. *)
Lemma restarted_tracks_reads E n cb st :
  ready E n (nodes st) cb → consistent cb (nodes st) →
  consistent cb (nodes (restarted E cb st))
  ∧ ∀ d, cb ∈ jsset_live (subscribers_of (nodes (restarted E cb st)) d)
         ↔ d ∈ DSig <$> reads_of (nodes st) (body_of E cb).
Proof.
  intros [Hrest Hbody] Hcons.
  destruct cb as [m|e|c]; cbn [at_rest restarted body_of] in *; [| |done].
  - destruct (result_of_returns n (memo_compute E m) (nodes st) Hbody) as (v & Hres & Hv).
    set (st0 := upd (set_computing m true) st).
    set (st1 := collected (OMemo m) (memo_compute E m) st0).
    assert (recomputed E m st = upd (set_computing m false) (upd (set_memo_result m v) st1))
      as -> by (unfold recomputed; cbn zeta; by rewrite Hres).
    assert (consistent (OMemo m) (nodes st0)) as Hcons0.
    { unfold st0, set_computing. cbn [nodes upd]. by apply consistent_set_memo. }
    destruct (collected_tracks_reads (OMemo m) (memo_compute E m) st0 Hcons0) as [Hcons1 Hin1].
    fold st1 in Hcons1, Hin1.
    destruct (reads_of_signals (nodes st) (nodes st0) (memo_compute E m) eq_refl)
      as (Hreads & _).
    rewrite Hreads in Hin1.
    set (g2 := set_memo_result m v (nodes st1)).
    assert (consistent (OMemo m) g2) as Hcons2
      by (unfold g2, set_memo_result; by apply consistent_set_memo).
    split.
    + unfold set_computing. cbn [nodes upd]. fold g2. by apply consistent_set_memo.
    + intros d. rewrite <- Hin1. unfold set_computing. cbn [nodes upd]. fold g2.
      destruct (tracker_subscribers_set_memo m
                  (Memo (memo_tracker (memo_of g2 m)) (memo_subscribers (memo_of g2 m))
                        (hasValue (memo_of g2 m)) (memo_value (memo_of g2 m)) false)
                  g2 (OMemo m) d eq_refl eq_refl) as [_ ->].
      unfold g2, set_memo_result.
      destruct (tracker_subscribers_set_memo m
                  (Memo (memo_tracker (memo_of (nodes st1) m))
                        (memo_subscribers (memo_of (nodes st1) m)) true v
                        (computing (memo_of (nodes st1) m)))
                  (nodes st1) (OMemo m) d eq_refl eq_refl) as [_ ->].
      done.
  - by apply rerun_tracks_reads.
Qed.

(** ** The subscribers of a signal, called one after the other *)

(** The loop of [set] over the live Set, from the iterator position [i]. *)
Lemma notify_each_once E n s : ∀ k i fuel st,
  batchDepth st = 0%Z →
  NoDup (jsset_live (drop i (subscribers_of (nodes st) (DSig s)))) →
  (∀ cb, cb ∈ jsset_live (drop i (subscribers_of (nodes st) (DSig s))) →
         ready E n (nodes st) cb) →
  length (subscribers_of (nodes st) (DSig s)) - i ≤ k → k + n + 2 < fuel →
  ∃ st', run E fuel (TNotifyAll (DSig s) i) st = Done (Normal VUndef) st'
         ∧ (∀ o, run_count o st'
                 = run_count o st
                   + (if bool_decide
                           (o ∈ jsset_live (drop i (subscribers_of (nodes st) (DSig s))))
                      then 1 else 0))
         ∧ batchDepth st' = 0%Z
         ∧ pendingSubscribers st' = pendingSubscribers st
         ∧ (∀ cb, at_rest n (nodes st) cb → at_rest n (nodes st') cb).
Proof.
  induction k as [|k IH]; intros i fuel st Hb Hnd Hready Hlen Hfuel.
  { destruct fuel; [lia|]. rewrite run_S. cbn [dispatch]. unfold notify_all.
    rewrite lookup_ge_None_2 by lia. rewrite drop_ge by lia.
    exists st. split_and!; try done.
    all: intros o; cbn; rewrite bool_decide_eq_false_2 by apply not_elem_of_nil; lia. }
  destruct fuel as [|fuel]; [lia|]. rewrite run_S. cbn [dispatch]. unfold notify_all.
  destruct (subscribers_of (nodes st) (DSig s) !! i) as [slot|] eqn:Hslot.
  2:{ apply lookup_ge_None in Hslot. rewrite drop_ge by lia.
      exists st. split_and!; try done.
      all: intros o; cbn; rewrite bool_decide_eq_false_2 by apply not_elem_of_nil; lia. }
  rewrite (drop_S _ _ _ Hslot) in Hnd, Hready |- *.
  apply lookup_lt_Some in Hslot as Hi.
  destruct slot as [cb|].
  2:{ cbn [jsset_live omap] in *. apply IH; [done|done|done|lia|lia]. }
  change (jsset_live (Some cb :: ?l)) with (cb :: jsset_live l) in *.
  assert (ready E n (nodes st) cb) as Hcb by (apply Hready; by left).
  apply NoDup_cons in Hnd as [Hfresh Hnd].
  unfold notifySubscriber. cbn zeta. change (batchDepth (emit _ st)) with (batchDepth st).
  rewrite Hb, bool_decide_eq_false_2 by lia.
  set (st1 := emit (EvNotify cb) st).
  rewrite (call_ready E n fuel cb st1) by (done || lia). cbn [bind].
  set (st2 := emit (EvInvoke cb) st1).
  destruct (restarted_spec E n cb st2 Hcb) as (Hcount3 & Hb3 & Hp3 & Hrest3 & Hsubs3).
  cbn zeta in *.
  set (st3 := restarted E cb st2) in *.
  set (subs := subscribers_of (nodes st) (DSig s)) in *.
  assert (Some cb ∈ subs) as Hin.
  { apply list_elem_of_lookup. by exists i. }
  assert (drop (S i) (subscribers_of (nodes st3) (DSig s)) = drop (S i) subs
          ∧ length (subscribers_of (nodes st3) (DSig s)) = length subs) as [Hdrop Hlen3].
  { destruct (Hsubs3 s Hin) as [-> | ->]; [done|].
    rewrite drop_jsset_delete, length_jsset_delete. split; [|done].
    apply jsset_delete_absent. by rewrite <- elem_of_jsset_live. }
  destruct (IH (S i) fuel st3) as (st' & Hrun & Hcount & Hb' & Hp' & Hrest').
  - by rewrite Hb3.
  - by rewrite Hdrop.
  - rewrite Hdrop. intros cb' Hcb'.
    destruct (Hready cb') as [Hr' Hbody']; [by right|].
    split; [|done]. by apply Hrest3.
  - rewrite Hlen3. lia.
  - lia.
  - exists st'. split_and!; [done| |done| |].
    + intros o. rewrite Hcount, Hdrop, Hcount3.
      unfold st2, st1. rewrite !run_count_emit.
      rewrite !(bool_decide_eq_false_2 (_ = EvRun o)) by done.
      rewrite <- (count_cons o cb) by done. lia.
    + by rewrite Hp', Hp3.
    + intros cb' Hcb'. by apply Hrest', Hrest3.
Qed.

(** One pass of [flushSubscribers] over the snapshot [queued]. *)
Lemma call_each_once E n : ∀ queued fuel st,
  NoDup queued →
  (∀ cb, cb ∈ queued → ready E n (nodes st) cb) →
  n + 1 < fuel →
  ∃ st', for_each (call_subscriber (run E fuel)) queued st = Done (Normal VUndef) st'
         ∧ (∀ o, run_count o st'
                 = run_count o st + (if bool_decide (o ∈ queued) then 1 else 0))
         ∧ batchDepth st' = batchDepth st
         ∧ pendingSubscribers st' = pendingSubscribers st
         ∧ (∀ cb, at_rest n (nodes st) cb → at_rest n (nodes st') cb).
Proof.
  induction queued as [|cb queued IH]; intros fuel st Hnd Hready Hfuel.
  { exists st. split_and!; try done.
    all: intros o; rewrite bool_decide_eq_false_2 by apply not_elem_of_nil; lia. }
  assert (ready E n (nodes st) cb) as Hcb by (apply Hready; by left).
  apply NoDup_cons in Hnd as [Hfresh Hnd].
  cbn [for_each]. rewrite (call_ready E n fuel cb st) by done. cbn [bind].
  set (st1 := emit (EvInvoke cb) st).
  destruct (restarted_spec E n cb st1 Hcb) as (Hcount2 & Hb2 & Hp2 & Hrest2 & _).
  cbn zeta in *.
  destruct (IH fuel (restarted E cb st1)) as (st' & Hrun & Hcount & Hb' & Hp' & Hrest');
    [done| |done|].
  { intros cb' Hcb'. destruct (Hready cb') as [Hr' Hbody']; [by right|].
    split; [|done]. by apply Hrest2. }
  exists st'. split_and!; [done| | | |].
  - intros o. rewrite Hcount, Hcount2. unfold st1.
    rewrite run_count_emit. rewrite (bool_decide_eq_false_2 (_ = EvRun o)) by done.
    rewrite <- (count_cons o cb) by done. lia.
  - by rewrite Hb', Hb2.
  - by rewrite Hp', Hp2.
  - intros cb' Hcb'. by apply Hrest', Hrest2.
Qed.

Lemma at_rest_effects n g g' cb :
  (∀ e, effect_of g' e = effect_of g e) → (∀ m, memo_of g' m = memo_of g m) →
  at_rest n g cb → at_rest n g' cb.
Proof.
  intros He Hm. destruct cb as [m|e|c]; cbn [at_rest]; [| |done].
  - unfold leaf. by rewrite Hm.
  - unfold idle. by rewrite He.
Qed.

Lemma batched_writes_memos s vs : ∀ st m,
  memo_of (nodes (foldl (λ st v, batched_write s v st) st vs)) m = memo_of (nodes st) m.
Proof.
  induction vs as [|v vs IH]; intros st m; [done|]. cbn [foldl]. rewrite IH.
  unfold batched_write. cbn zeta. destruct (object_is _ v); [done|].
  destruct (enqueue_all_fields
              (jsset_live (subscribers_of (nodes (upd (set_sig_value s v) st)) (DSig s)))
              (upd (set_sig_value s v) st)) as (Hn & _).
  by rewrite Hn.
Qed.

(** C1, amended.  Computations over signals.  The subscribers of the signal
    [s] are effects at rest and memos at rest that nobody subscribes to,
    whose functions only read signals.  Outside a batch, a [set] of [s] that
    changes the value starts the function of every subscriber of [s] exactly
    once and starts no other computation ([run_count] counts the starts of
    every effect, memo and render).  One or more value-changing writes to
    [s] inside one outermost batch start every subscriber exactly once as
    well, when the batch exits.  And a subscriber that is called is
    afterwards subscribed to exactly the signals its function has read, when
    its subscriptions agreed with the subscriber sets before: "subscribed to
    [s]" means "the last run read [s]". *)
Theorem set_reruns_each_subscriber_once (E : env) (n fuel : nat) (s : nat) (st : state) :
  let subscribers := jsset_live (subscribers_of (nodes st) (DSig s)) in
  let once (o : owner) := if bool_decide (o ∈ subscribers) then 1 else 0 in
  batchDepth st = 0%Z →
  pendingSubscribers st = [] →
  NoDup subscribers →
  (∀ cb, cb ∈ subscribers → ready E n (nodes st) cb) →
  (∀ w, is_function w = false →
        sig_value (signal_of (nodes st) s) ≠ w →
        length (subscribers_of (nodes st) (DSig s)) + n + 4 < fuel →
        ∃ st', run E fuel (TProg (SigSet s w Ret)) st = Done (Normal w) st'
               ∧ ∀ o, run_count o st' = run_count o st + once o)
  ∧ (∀ vs, vs ≠ [] →
           Forall (λ v, is_function v = false) vs →
           all_changing (sig_value (signal_of (nodes st) s)) vs →
           length vs + length (subscribers_of (nodes st) (DSig s)) + n + 6 < fuel →
           ∃ st', run E fuel (TProg (Batch (writes s vs) Ret)) st = Done (Normal VUndef) st'
                  ∧ ∀ o, run_count o st' = run_count o st + once o)
  ∧ (∀ cb st0,
       ready E n (nodes st0) cb → consistent cb (nodes st0) → n + 1 < fuel →
       ∃ st', call_subscriber (run E fuel) cb st0 = Done (Normal VUndef) st'
              ∧ run_count cb st' = S (run_count cb st0)
              ∧ consistent cb (nodes st')
              ∧ ∀ d, cb ∈ jsset_live (subscribers_of (nodes st') d)
                     ↔ d ∈ DSig <$> reads_of (nodes st0) (body_of E cb)).
Proof.
  intros subscribers once Hb Hp Hnd Hready. split_and!.
  - intros w Hw Hne Hfuel.
    destruct fuel as [|fuel]; [lia|]. rewrite run_S. cbn [dispatch exec].
    unfold SignalSource_set.
    replace (match w with
             | VFun f => run E fuel (TProg (fn_body E f (sig_value (signal_of (nodes st) s)))) st
             | _ => ret w st
             end) with (ret w st) by (by destruct w).
    cbn [bind ret]. rewrite object_is_ne by done.
    set (st2 := upd (set_sig_value s w) st).
    assert (subscribers_of (nodes st2) (DSig s) = subscribers_of (nodes st) (DSig s)) as Hsubs
      by apply subscribers_of_set_sig_value.
    destruct (notify_each_once E n s (length (subscribers_of (nodes st) (DSig s))) 0 fuel st2)
      as (st' & Hrun & Hcount & _).
    + done.
    + by rewrite drop_0, Hsubs.
    + rewrite drop_0, Hsubs. intros cb Hcb.
      destruct (Hready cb Hcb) as [Hrest Hbody]. split; [|done].
      by apply (at_rest_effects n (nodes st)).
    + rewrite Hsubs. lia.
    + lia.
    + rewrite Hrun. cbn [bind ret]. destruct fuel as [|fuel]; [lia|].
      exists st'. split; [done|]. intros o. rewrite Hcount, drop_0, Hsubs. done.
  - intros vs Hvs Hfun Hch Hfuel.
    destruct fuel as [|fuel]; [lia|]. rewrite run_S. cbn [dispatch exec]. unfold batch.
    rewrite Hb. change (0 + 1)%Z with 1%Z.
    set (st0 := set_batchDepth 1 st).
    rewrite (run_writes_batching E s vs fuel st0); [|done|done|].
    2:{ change (nodes st0) with (nodes st). lia. }
    destruct (batched_writes_pending s vs st0) as (_ & Hd1 & _ & _ & Hn1 & Hq1).
    destruct (batched_writes_frame s vs st0) as [He1 Hc1].
    pose proof (batched_writes_memos s vs st0) as Hm1.
    set (st1 := foldl (λ st v, batched_write s v st) st0 vs) in *.
    cbn [finally]. rewrite Hd1. change (batchDepth st0 - 1)%Z with 0%Z.
    cbn [batchDepth set_batchDepth]. rewrite bool_decide_eq_true_2 by done.
    set (st2 := set_batchDepth 0 st1).
    assert (∀ cb, cb ∈ pendingSubscribers st1 ↔ cb ∈ subscribers) as Hq.
    { intros cb. rewrite Hq1 by done. change (pendingSubscribers st0) with (pendingSubscribers st).
      rewrite Hp, elem_of_nil. change (nodes st0) with (nodes st). fold subscribers. tauto. }
    assert (NoDup (pendingSubscribers st1)) as Hn.
    { apply Hn1. change (pendingSubscribers st0) with (pendingSubscribers st).
      rewrite Hp. constructor. }
    destruct fuel as [|fuel]; [lia|]. rewrite run_S. cbn [dispatch]. unfold flushSubscribers.
    change (pendingSubscribers st2) with (pendingSubscribers st1).
    destruct (pendingSubscribers st1) as [|cb queued] eqn:Hqueue.
    { cbn [ret]. cbn [bind]. rewrite run_S. cbn [dispatch exec].
      exists st2. split; [done|]. intros o.
      change (run_count o st2) with (run_count o st1). rewrite Hc1.
      change (run_count o st0) with (run_count o st). unfold once.
      rewrite bool_decide_eq_false_2; [lia|]. rewrite <- Hq. apply not_elem_of_nil. }
    destruct (call_each_once E n (cb :: queued) fuel (set_pendingSubscribers [] st2))
      as (st3 & Hrun & Hcount & _ & Hp3 & _).
    + done.
    + intros cb' Hcb'. apply Hq in Hcb'.
      destruct (Hready cb' Hcb') as [Hrest Hbody]. split; [|done].
      by apply (at_rest_effects n (nodes st)).
    + lia.
    + rewrite Hrun. cbn [bind].
      destruct fuel as [|fuel]; [lia|]. rewrite run_S. cbn [dispatch]. unfold flushSubscribers.
      rewrite Hp3. cbn [pendingSubscribers set_pendingSubscribers ret bind].
      rewrite run_S. cbn [dispatch exec].
      exists st3. split; [done|]. intros o. rewrite Hcount.
      change (run_count o (set_pendingSubscribers [] st2)) with (run_count o st1).
      rewrite Hc1. change (run_count o st0) with (run_count o st). f_equal. unfold once.
      apply (f_equal (λ b : bool, if b then 1 else 0)), bool_decide_ext, Hq.
  - intros cb st0 Hcb Hcons Hfuel.
    rewrite (call_ready E n fuel cb st0) by done.
    set (st1 := emit (EvInvoke cb) st0).
    destruct (restarted_tracks_reads E n cb st1 Hcb Hcons) as [Hcons' Hin].
    destruct (restarted_spec E n cb st1 Hcb) as (Hcount & _).
    exists (restarted E cb st1). split_and!; [done| |done|done].
    cbn zeta in Hcount. rewrite Hcount. unfold st1. rewrite run_count_emit.
    rewrite bool_decide_eq_false_2 by done. rewrite bool_decide_eq_true_2 by done. lia.
Qed.

(** * Scenarios *)

(** ** A signal, a memo over it and an effect reading both *)

(** C1, counterexample.  The last run of the effect read [count] (and
    [doubled], which reads [count]).  One value-changing [set] of [count],
    outside any batch, runs the effect twice: once for the notification of
    the memo and once for the notification of the signal. *)
Lemma dependency_precision_counterexample :
  DSig 0 ∈ collecting (tracker_of (nodes counter_started) (OEffect 0))
  ∧ run_count (OEffect 0) counter_started = 1
  ∧ batchDepth counter_started = 0%Z
  ∧ sig_value (signal_of (nodes counter_started) 0) ≠ VNum 2
  ∧ ∃ st', run_prog counter_env 20 (SigSet 0 (VNum 2) Ret) counter_started
           = Done (Normal (VNum 2)) st'
           ∧ run_count (OEffect 0) st' = 3
           ∧ console st' = [VNum 1; VNum 2; VNum 2; VNum 4; VNum 2; VNum 4].
Proof.
  split_and!.
  - vm_compute. apply list_elem_of_here.
  - vm_compute. reflexivity.
  - vm_compute. reflexivity.
  - vm_compute. discriminate.
  - eexists. split_and!; [vm_compute; reflexivity|vm_compute; reflexivity|vm_compute; reflexivity].
Qed.

(** C6, counterexample.  [doubled] holds 2, cached for [count = 1].  Inside
    a batch [count] is set to 5 and [doubled] is read: the read returns the
    cached 2, while the compute function over the current value gives 10. *)
Lemma memo_fresh_read_counterexample :
  hasValue (memo_of (nodes counter_started) 0) = true
  ∧ ∃ st', run_prog counter_env 20
             (Batch (SigSet 0 (VNum 5)
                       (λ _, MemoGet 0 (λ read, SigGet 0 (λ c, Ret (VBool (object_is read (twice c)))))))
                    Ret)
             counter_started
           = Done (Normal (VBool false)) st'.
Proof.
  split; [vm_compute; reflexivity|]. eexists. vm_compute. reflexivity.
Qed.

(** ** Three effects and a memo over two signals *)

(** One [set] of signal 0, or three writes to it in a batch, run effects 0
    and 2 and the memo once more and leave effect 1 alone. *)
Lemma set_reruns_each_subscriber_once_witness :
  jsset_live (subscribers_of (nodes watchers_started) (DSig 0))
  = [OEffect 0; OEffect 2; OMemo 0]
  ∧ (∃ st', run watchers_env 20 (TProg (SigSet 0 (VNum 2) Ret)) watchers_started
            = Done (Normal (VNum 2)) st'
            ∧ run_count (OEffect 0) st' = 2
            ∧ run_count (OEffect 1) st' = 1
            ∧ run_count (OEffect 2) st' = 2
            ∧ run_count (OMemo 0) st' = 2)
  ∧ (∃ st', run watchers_env 20
              (TProg (Batch (writes 0 [VNum 2; VNum 3; VNum 4]) Ret)) watchers_started
            = Done (Normal VUndef) st'
            ∧ run_count (OEffect 0) st' = 2
            ∧ run_count (OEffect 1) st' = 1
            ∧ run_count (OEffect 2) st' = 2
            ∧ run_count (OMemo 0) st' = 2).
Proof.
  assert (jsset_live (subscribers_of (nodes watchers_started) (DSig 0))
          = [OEffect 0; OEffect 2; OMemo 0]) as Hsubs by (vm_compute; reflexivity).
  assert (∀ cb, cb ∈ jsset_live (subscribers_of (nodes watchers_started) (DSig 0)) →
                ready watchers_env 2 (nodes watchers_started) cb) as Hready.
  { rewrite Hsubs. intros cb Hcb.
    apply elem_of_cons in Hcb as [->|Hcb]; [|apply elem_of_cons in Hcb as [->|Hcb];
      [|apply list_elem_of_singleton in Hcb as ->]].
    - split; [vm_compute; reflexivity|repeat constructor].
    - split; [vm_compute; reflexivity|repeat constructor].
    - split; [|constructor; intros v; constructor; by destruct v].
      split_and!; [vm_compute; reflexivity|vm_compute; reflexivity|vm_compute; lia]. }
  assert (NoDup (jsset_live (subscribers_of (nodes watchers_started) (DSig 0)))) as Hnd.
  { rewrite Hsubs. apply (NoDup_fmap_1 (λ cb, match cb with
                                               | OEffect e => e | OMemo m => 10 + m
                                               | ORender c => 20 + c
                                               end)).
    vm_compute. repeat constructor; rewrite ?elem_of_cons, ?elem_of_nil; lia. }
  destruct (set_reruns_each_subscriber_once watchers_env 2 20 0 watchers_started
              ltac:(vm_compute; reflexivity) ltac:(vm_compute; reflexivity) Hnd Hready)
    as (Hset & Hbatch & _).
  split_and!; [exact Hsubs| |].
  - destruct (Hset (VNum 2)) as (st' & Hrun & Hcount);
      [reflexivity|vm_compute; intros [=]|vm_compute; lia|].
    exists st'. split; [exact Hrun|].
    rewrite !Hcount. split_and!; vm_compute; reflexivity.
  - assert (all_changing (sig_value (signal_of (nodes watchers_started) 0))
              [VNum 2; VNum 3; VNum 4]) as Hch.
    { assert (sig_value (signal_of (nodes watchers_started) 0) = VNum 1) as ->
        by (vm_compute; reflexivity).
      cbn. split_and!; [intros [=]|intros [=]|intros [=]|exact I]. }
    assert (Forall (λ v, is_function v = false) [VNum 2; VNum 3; VNum 4]) as Hfun
      by (repeat constructor).
    destruct (Hbatch [VNum 2; VNum 3; VNum 4]) as (st' & Hrun & Hcount);
      [intros [=]|exact Hfun|exact Hch|vm_compute; lia|].
    exists st'. split; [exact Hrun|].
    rewrite !Hcount. split_and!; vm_compute; reflexivity.
Defined.

(** ** Reconciliation *)

(** C2.  A collection whose function only reads signals, and then returns
    or throws: [collect] completes with the result of the function, and the
    subscription map of the tracker then holds exactly the signals read by
    this run; where the map agreed with the subscriber sets before, the
    tracker's callback is afterwards subscribed to exactly those signals
    (the others were unsubscribed, the new ones subscribed).  The
    reconciliation itself can fail, though: subscribing to a memo without a
    value computes the memo.  Effect 0 of [throwing_env] reads such a memo,
    whose compute function throws: the working set holds the memo, the
    subscription map stays empty, and the memo keeps the subscriber.  For
    effect 1, whose body catches the exception and then reads signal 1, the
    body returns normally, [collect] throws, and signal 1, read during the
    run, is never subscribed. *)
Theorem collect_reconciles_unless_subscribe_throws :
  (∀ (E : env) (t : bool) (n fuel : nat) (o : owner) (fn : prog) (st : state),
     reads_only t n fn → n < fuel →
     ∃ st', collect (run E fuel) o fn st = Done (result_of (nodes st) fn) st'
            ∧ (∀ d, d ∈ subscriptions (tracker_of (nodes st') o)
                    ↔ d ∈ DSig <$> reads_of (nodes st) fn)
            ∧ (consistent o (nodes st) →
               ∀ d, o ∈ jsset_live (subscribers_of (nodes st') d)
                    ↔ d ∈ DSig <$> reads_of (nodes st) fn))
  ∧ (∃ st', collect (run throwing_env 20) (OEffect 0) (effect_body throwing_env 0) initial_state
            = Done (Thrown (VError "boom")) st'
            ∧ collecting (tracker_of (nodes st') (OEffect 0)) = [DMemo 0]
            ∧ subscriptions (tracker_of (nodes st') (OEffect 0)) = []
            ∧ memo_subscribers (memo_of (nodes st') 0) = [Some (OEffect 0)])
  ∧ (∃ st1 st', run throwing_env 20 (TProg (effect_body throwing_env 1))
                  (pushCollector (OEffect 1) initial_state)
                = Done (Normal VUndef) st1
                ∧ collect (run throwing_env 20) (OEffect 1) (effect_body throwing_env 1)
                    initial_state
                  = Done (Thrown (VError "boom")) st'
                ∧ collecting (tracker_of (nodes st') (OEffect 1)) = [DMemo 0; DSig 1]
                ∧ subscriptions (tracker_of (nodes st') (OEffect 1)) = []
                ∧ sig_subscribers (signal_of (nodes st') 1) = []).
Proof.
  split_and!.
  - intros E t n fuel o fn st Hfn Hfuel. exists (collected o fn st).
    destruct (collected_spec o fn st) as (_ & Hkeys & _).
    split_and!.
    + by apply (collect_reads_only E t n).
    + exact Hkeys.
    + intros Hcons. by apply collected_tracks_reads.
  - eexists. split_and!; vm_compute; reflexivity.
  - eexists. eexists. split_and!; vm_compute; reflexivity.
Qed.

(** Effect 0 of the watchers runs a function that reads signal 1 and then
    throws: it ends up subscribed to signal 1 and to nothing else. *)
Lemma collect_reconciles_unless_subscribe_throws_witness :
  ∃ st', collect (run watchers_env 5) (OEffect 0)
           (SigGet 1 (λ _, Throw (VError "late"))) watchers_started
         = Done (Thrown (VError "late")) st'
         ∧ (∀ d, d ∈ subscriptions (tracker_of (nodes st') (OEffect 0)) ↔ d ∈ [DSig 1]).
Proof.
  destruct (proj1 collect_reconciles_unless_subscribe_throws watchers_env true 1 5 (OEffect 0)
              (SigGet 1 (λ _, Throw (VError "late"))) watchers_started)
    as (st' & Hrun & Hkeys & _).
  - constructor. intros v. by constructor.
  - lia.
  - exists st'. split; [exact Hrun|exact Hkeys].
Defined.

(** ** Instances of the theorems on the counter *)




(** Reading [doubled]: with its cache, for the first time, and inside a
    batch after a write to [count]. *)
Lemma memo_get_returns_cache_witness :
  hasValue (memo_of (nodes counter_started) 0) = true
  ∧ MemoSource_get (run counter_env 20) 0 counter_started
    = Done (Normal (memo_value (memo_of (nodes counter_started) 0)))
           (trackDependency (DMemo 0) counter_started)
  ∧ (∃ st3, MemoSource_get (run counter_env 21) 0 counter_created = Done (Normal (VNum 2)) st3
            ∧ hasValue (memo_of (nodes st3) 0) = true
            ∧ memo_value (memo_of (nodes st3) 0) = VNum 2)
  ∧ (∃ st3, run counter_env 20 (TProg (SigSet 0 (VNum 5) (λ _, MemoGet 0 Ret)))
              (set_batchDepth 1 counter_started)
            = Done (Normal (memo_value (memo_of (nodes (set_batchDepth 1 counter_started)) 0)))
                   st3).
Proof.
  assert (hasValue (memo_of (nodes counter_started) 0) = true) as Hh
    by (vm_compute; reflexivity).
  split_and!; [exact Hh| | |].
  - exact (proj1 (memo_get_returns_cache counter_env 20 0 counter_started) Hh).
  - apply (proj1 (proj2 (memo_get_returns_cache counter_env 20 0 counter_created))
             (VNum 2)
             (state_of (collect (run counter_env 20) (OMemo 0) (memo_compute counter_env 0)
                          (upd (set_computing 0 true)
                               (trackDependency (DMemo 0) counter_created)))));
      [vm_compute; reflexivity|vm_compute; reflexivity|vm_compute; reflexivity
      |vm_compute; reflexivity|vm_compute; lia].
  - apply (proj2 (proj2 (memo_get_returns_cache counter_env 20 0
                           (set_batchDepth 1 counter_started))) 0 (VNum 5));
      [vm_compute; reflexivity|vm_compute; reflexivity|reflexivity|vm_compute; lia].
Defined.

(** The read of signal 1 inside [untrack] is registered with the effect,
    not with the memo. *)
Lemma untrack_pops_only_the_top_witness :
  collectorStack nested_collectors = [] ++ [OEffect 0; OMemo 0]
  ∧ run counter_env 5 (TProg (Untrack (read_all [1]) Ret)) nested_collectors
    = Done (Normal VUndef) (upd (add_reads (OEffect 0) [1]) nested_collectors)
  ∧ collecting (tracker_of (nodes (upd (add_reads (OEffect 0) [1]) nested_collectors))
                  (OEffect 0)) = [DSig 1]
  ∧ collecting (tracker_of (nodes (upd (add_reads (OEffect 0) [1]) nested_collectors))
                  (OMemo 0)) = [].
Proof.
  split_and!; [reflexivity| |vm_compute; reflexivity|vm_compute; reflexivity].
  apply (proj2 (untrack_pops_only_the_top counter_env 5 [1] nested_collectors (OMemo 0)
                  ltac:(simpl; lia)) [] (OEffect 0)).
  reflexivity.
Defined.

(** ** An immutable store *)

(** [store.nested.enabled = false] and [delete store.nested.enabled] throw
    and change nothing. *)
Lemma immutable_store_rejects_mutation_witness :
  store_view 0 false nested_view
  ∧ view_set counter_env (run counter_env 5) nested_view (KStr "enabled") (VBool false)
      store_created
    = Done (Thrown immutable_error) store_created
  ∧ view_delete counter_env (run counter_env 5) nested_view (KStr "enabled") store_created
    = Done (Thrown immutable_error) store_created.
Proof.
  assert (store_view 0 false nested_view) as Hview.
  { apply (store_view_get 0 false (View 0 false []) (KStr "nested") store_created
             nested_view store_created); [constructor|vm_compute; reflexivity]. }
  split; [exact Hview|].
  exact (immutable_store_rejects_mutation counter_env (run counter_env 5) 0 nested_view
           (KStr "enabled") (VBool false) store_created Hview).
Defined.

(** [setStore({ count: 2 })]: the new root has the new [count] and the old
    [nested]. *)
Lemma setStore_shallow_merge_witness :
  sig_value (signal_of (nodes store_created) 0) = VObj 1
  ∧ resolves counter_env (run counter_env 5) (VObj 2) (VObj 1) store_created (VObj 2)
      store_created
  ∧ 1 < length (heap store_created)
  ∧ object_is (VObj 1) (VObj (length (heap store_created))) = false
  ∧ own_props (object_at (heap store_created) 2) ∪ own_props (object_at (heap store_created) 1)
    = <[ KStr "count" := VNum 2 ]> {[ KStr "nested" := VObj 0 ]}.
Proof.
  assert (sig_value (signal_of (nodes store_created) 0) = VObj 1) as Hprev
    by (vm_compute; reflexivity).
  assert (resolves counter_env (run counter_env 5) (VObj 2) (VObj 1) store_created (VObj 2)
            store_created) as Hres by (split; reflexivity).
  assert (1 < length (heap store_created)) as Hlive by (vm_compute; lia).
  split_and!; [exact Hprev|exact Hres|exact Hlive| |vm_compute; reflexivity].
  exact (proj1 (setStore_shallow_merge counter_env (run counter_env 5) 0 (VObj 2)
                  store_created store_created 1 2 Hprev Hres Hprev Hlive)).
Defined.

(** ** A keyed array projection *)

(** Without [update] the reorder moves the three objects. *)
Lemma keyed_reorder_reuses_items_witness :
  target_is rows_projected [VObj 0; VObj 1; VObj 2]
  ∧ update_writes_nothing rows_options
  ∧ ∃ s', mutate rows_options [VObj 4; VObj 5; VObj 6] rows_projected = Some s'
          ∧ target_elems s' = [VObj 2; VObj 0; VObj 1]
          ∧ keys s' = [VStr "c"; VStr "a"; VStr "b"]
          ∧ map_calls s' = map_calls rows_projected.
Proof.
  assert (target_is rows_projected [VObj 0; VObj 1; VObj 2]) as Hl
    by (exists 3; split; reflexivity).
  split_and!; [exact Hl|exact I|].
  apply (keyed_reorder_reuses_items rows_options rows_projected
           (VStr "a") (VStr "b") (VStr "c") (VObj 0) (VObj 1) (VObj 2)
           (VObj 5) (VObj 6) (VObj 4));
    [exact Hl|reflexivity|discriminate|discriminate
    |vm_compute; reflexivity|vm_compute; reflexivity|vm_compute; reflexivity|exact I].
Defined.

(** C7, counterexample.  With the [update] callback of the repository's
    test the reorder calls [map] zero times, but the projected array does
    not hold the references 2, 0 and 1 any more: each assignment through the
    view of an item replaced the item by a copy. *)
Lemma keyed_reorder_counterexample :
  target_is rows_projected [VObj 0; VObj 1; VObj 2]
  ∧ keys rows_projected = [VStr "a"; VStr "b"; VStr "c"]
  ∧ map_calls <$> mutate rows_options_update rows_source rows_projected = Some []
  ∧ keys <$> mutate rows_options_update rows_source rows_projected
    = Some [VStr "c"; VStr "a"; VStr "b"]
  ∧ target_elems <$> mutate rows_options_update rows_source rows_projected
    = Some [VObj 12; VObj 14; VObj 16]
  ∧ target_elems <$> mutate rows_options_update rows_source rows_projected
    ≠ Some [VObj 2; VObj 0; VObj 1]
  ∧ (λ s', (λ v, read_prop (pheap s') v (KStr "label")) <$> target_elems s')
      <$> mutate rows_options_update rows_source rows_projected
    = Some [VStr "C2"; VStr "A2"; VStr "B2"].
Proof.
  split_and!.
  - exists 3; split; reflexivity.
  - reflexivity.
  - vm_compute; reflexivity.
  - vm_compute; reflexivity.
  - vm_compute; reflexivity.
  - vm_compute; discriminate.
  - vm_compute; reflexivity.
Qed.

(** * Further properties *)

(** ** The path functions of the store *)

Lemma closed_val_app h new v : closed_val h v → closed_val (h ++ new) v.
Proof. destruct v; cbn; try done. rewrite length_app. lia. Qed.

Lemma object_at_app h new a : a < length h → object_at (h ++ new) a = object_at h a.
Proof. intros Ha. unfold object_at. by rewrite lookup_app_l. Qed.

Lemma object_get_closed h o k :
  closed_object h o → closed_val h (object_get o k).
Proof.
  destruct o as [p|l]; cbn.
  - intros Hp. destruct (p !! k) as [v|] eqn:Hk; cbn; [|done]. by eapply Hp.
  - intros Hl. destruct k as [k|i]; cbn.
    + by case_decide.
    + destruct (l !! i) as [v|] eqn:Hi; cbn; [|done].
      eapply Forall_lookup_1; eauto.
Qed.

Lemma read_prop_closed h v k : closed h → closed_val h v → closed_val h (read_prop h v k).
Proof.
  intros Hh Hv. destruct v; cbn; try done. cbn in Hv.
  apply object_get_closed. unfold object_at.
  destruct (lookup_lt_is_Some_2 h a Hv) as [o Ho]. rewrite Ho. cbn.
  eapply Forall_lookup_1; eauto.
Qed.

Lemma read_prop_app h new v k :
  closed_val h v → read_prop (h ++ new) v k = read_prop h v k.
Proof. destruct v; cbn; try done. intros Ha. by rewrite object_at_app. Qed.

(** Reading from a value of a well-formed heap does not depend on what is
    allocated later. *)
Lemma getAtPath_app_heap h new : ∀ path v,
  closed h → closed_val h v → getAtPath (h ++ new) v path = getAtPath h v path.
Proof.
  induction path as [|s path IH]; intros v Hh Hv; [done|]. cbn.
  destruct (isObjectLike v); [|done].
  rewrite read_prop_app by done. apply IH; [done|]. by apply read_prop_closed.
Qed.

Lemma in_range_app_heap h new : ∀ path v,
  closed h → closed_val h v → in_range (h ++ new) v path ↔ in_range h v path.
Proof.
  induction path as [|s path IH]; intros v Hh Hv; [done|]. cbn [in_range].
  destruct v; try done. rewrite read_prop_app by done.
  cbn in Hv. rewrite object_at_app by done.
  rewrite IH; [done|done|]. by apply read_prop_closed.
Qed.

(** [getAtPath] composes along the path. *)
Lemma getAtPath_app h : ∀ p q v,
  getAtPath h v (p ++ q) = getAtPath h (getAtPath h v p) q.
Proof.
  induction p as [|s p IH]; intros q v; [done|]. cbn.
  destruct (isObjectLike v); [apply IH|]. by destruct q.
Qed.

Lemma shallowClone_obj h a :
  shallowClone h (VObj a) = (VObj (length h), h ++ [object_at h a]).
Proof. unfold shallowClone, alloc. by destruct (object_at h a). Qed.

Lemma insert_fresh (h : heap_t) (o o' : object) (new : heap_t) :
  <[length h := o']> (h ++ o :: new) = h ++ o' :: new.
Proof.
  rewrite insert_app_r_alt by lia. by rewrite Nat.sub_diag.
Qed.

(** [setAtPath] on an object: the result, by cases. *)
Lemma setAtPath_obj h a head tail value :
  setAtPath h (VObj a) (head :: tail) value
  = let h1 := h ++ [object_at h a] in
    let currentValue := object_get (object_at h a) (seg_key head) in
    match tail with
    | [] => Some (VObj (length h), h ++ [object_set (object_at h a) (seg_key head) value])
    | next :: _ =>
        let '(child, h2) :=
          if isObjectLike currentValue then (currentValue, h1)
          else alloc (if seg_number next then OArray [] else OPlain ∅) h1 in
        '(child', h3) ← setAtPath h2 child tail value;
        Some (VObj (length h),
              <[length h := object_set (object_at h3 (length h)) (seg_key head) child']> h3)
    end.
Proof.
  cbn [setAtPath]. rewrite shallowClone_obj. cbn [read_prop].
  assert (object_at (h ++ [object_at h a]) (length h) = object_at h a) as Hc.
  { unfold object_at at 1. by rewrite lookup_app_r, Nat.sub_diag by lia. }
  rewrite Hc. destruct tail as [|next tail]; [|done].
  cbn zeta. f_equal. f_equal. apply (insert_fresh h _ _ []).
Qed.

(** [setAtPath] only allocates: the heap it returns extends the heap it
    received, and the root it returns for a non-empty path is new. *)
Lemma setAtPath_extends : ∀ path h root value root' h',
  setAtPath h root path value = Some (root', h') →
  (∃ new, h' = h ++ new)
  ∧ (path ≠ [] → root' = VObj (length h) ∧ length h < length h'
                  ∧ ∃ a, root = VObj a).
Proof.
  induction path as [|head tail IH]; intros h root value root' h' Hset.
  { cbn in Hset. injection Hset as <- <-. split; [|done]. exists []. by rewrite app_nil_r. }
  destruct root as [| | | | |a| |]; try by (cbn in Hset).
  rewrite setAtPath_obj in Hset. cbn zeta in Hset.
  destruct tail as [|next tail'].
  { injection Hset as <- <-. split; [by eexists|]. intros _.
    rewrite length_app. cbn. split_and!; [done|lia|by eexists]. }
  set (h1 := h ++ [object_at h a]) in *.
  destruct (isObjectLike (object_get (object_at h a) (seg_key head))) eqn:Hobj.
  - destruct (setAtPath h1 _ (next :: tail') value) as [[child' h3]|] eqn:Hin; [|done].
    cbn in Hset. injection Hset as <- <-.
    apply IH in Hin as [(new & ->) _]. unfold h1.
    rewrite <- app_assoc. cbn [app]. rewrite insert_fresh.
    split; [by eexists|]. intros _. rewrite length_app. cbn.
    split_and!; [done|lia|by eexists].
  - unfold alloc in Hset.
    destruct (setAtPath (h1 ++ _) _ (next :: tail') value) as [[child' h3]|] eqn:Hin; [|done].
    cbn in Hset. injection Hset as <- <-.
    apply IH in Hin as [(new & ->) _]. unfold h1.
    rewrite <- !app_assoc. cbn [app]. rewrite insert_fresh.
    split; [by eexists|]. intros _. rewrite length_app. cbn.
    split_and!; [done|lia|by eexists].
Qed.

(** On an object, [setAtPath] succeeds whatever the path. *)
Lemma setAtPath_total : ∀ path h a value,
  is_Some (setAtPath h (VObj a) path value).
Proof.
  induction path as [|head tail IH]; intros h a value; [by eexists|].
  rewrite setAtPath_obj. cbn zeta. destruct tail as [|next tail']; [by eexists|].
  destruct (isObjectLike _) eqn:Hobj.
  - destruct (object_get _ _) as [| | | | |c| |] eqn:Hc; try done.
    destruct (IH (h ++ [object_at h a]) c value) as [[child' h3] ->]. by eexists.
  - unfold alloc.
    destruct (IH ((h ++ [object_at h a]) ++
                    [if seg_number next then OArray [] else OPlain ∅])
                 (length (h ++ [object_at h a])) value) as [[child' h3] ->].
    by eexists.
Qed.

(** *** Reading what was written *)

Lemma object_at_agree (h h' : heap_t) a : h' !! a = h !! a → object_at h' a = object_at h a.
Proof. unfold object_at. by intros ->. Qed.

Lemma closed_lookup h a :
  closed h → a < length h → closed_object h (object_at h a).
Proof.
  intros Hh Ha. unfold object_at.
  destruct (lookup_lt_is_Some_2 h a Ha) as [o Ho]. rewrite Ho. cbn.
  eapply Forall_lookup_1; eauto.
Qed.

(** A value of a well-formed heap [h] reads the same in every heap that
    agrees with [h] on the objects of [h]. *)
Lemma getAtPath_agree (h h' : heap_t) : ∀ path v,
  closed h → closed_val h v → (∀ b, b < length h → h' !! b = h !! b) →
  getAtPath h' v path = getAtPath h v path.
Proof.
  induction path as [|s path IH]; intros v Hh Hv Hag; [done|]. cbn [getAtPath].
  destruct v as [| | | | |a| |]; try done. cbn [isObjectLike read_prop]. cbn in Hv.
  rewrite (object_at_agree h h') by auto.
  apply IH; [done| |done]. by apply object_get_closed, closed_lookup.
Qed.

Lemma in_range_agree (h h' : heap_t) : ∀ path v,
  closed h → closed_val h v → (∀ b, b < length h → h' !! b = h !! b) →
  in_range h' v path ↔ in_range h v path.
Proof.
  induction path as [|s path IH]; intros v Hh Hv Hag; [done|]. cbn [in_range].
  destruct v as [| | | | |a| |]; try done. cbn [read_prop]. cbn in Hv.
  rewrite (object_at_agree h h') by auto.
  rewrite IH; [done|done| |done]. by apply object_get_closed, closed_lookup.
Qed.

Lemma getAtPath_undefined h path : getAtPath h VUndef path = VUndef.
Proof. by destruct path. Qed.

Lemma getAtPath_not_object h v path :
  isObjectLike v = false → path ≠ [] → getAtPath h v path = VUndef.
Proof. intros Hv Hp. destruct path; [done|]. cbn. by rewrite Hv. Qed.

(** Reading the key that was written, for a write the model covers. *)
Lemma object_get_set o k x :
  match o with
  | OArray l => ∃ i, k = KIdx i ∧ i ≤ length l
  | OPlain _ => True
  end →
  object_get (object_set o k x) k = x.
Proof.
  destruct o as [p|l]; cbn.
  - intros _. by rewrite lookup_insert_eq.
  - intros (i & -> & Hi). case_decide as Hlt.
    + cbn. by rewrite list_lookup_insert_eq.
    + rewrite decide_True by lia. cbn.
      assert (i = length l) as -> by lia. by rewrite lookup_app_r, Nat.sub_diag.
Qed.

(** Reading another key. *)
Lemma object_get_set_ne o k k' x :
  k' ≠ k →
  match o with
  | OArray _ => ∃ j, k' = KIdx j
  | OPlain _ => True
  end →
  object_get (object_set o k x) k' = object_get o k'.
Proof.
  intros Hne. destruct o as [p|l]; cbn.
  - intros _. by rewrite lookup_insert_ne.
  - intros (j & ->). destruct k as [k|i]; [done|].
    case_decide as Hlt.
    + cbn. rewrite list_lookup_insert_ne; [done|]. by intros ->.
    + case_decide as Heq; [|done]. cbn. subst i.
      destruct (decide (j < length l)) as [Hj|Hj].
      * by rewrite lookup_app_l.
      * rewrite lookup_app_r by lia. rewrite (lookup_ge_None_2 l) by lia.
        destruct (j - length l) as [|n] eqn:Hn; [|done].
        exfalso. apply Hne. f_equal. lia.
Qed.

Lemma lookup_insert_fresh (h : heap_t) (c : nat) (o : object) :
  c < length h → object_at (<[c := o]> h) c = o.
Proof. intros Hc. unfold object_at. by rewrite list_lookup_insert_eq. Qed.

Lemma setAtPath_cons h a head next tail value :
  setAtPath h (VObj a) (head :: next :: tail) value
  = '(child', h3) ← setAtPath (descend h a head next).2 (descend h a head next).1
                       (next :: tail) value;
    Some (VObj (length h),
          <[length h := object_set (object_at h3 (length h)) (seg_key head) child']> h3).
Proof.
  rewrite setAtPath_obj. cbn zeta. unfold descend. by destruct (isObjectLike _).
Qed.

Lemma setAtPath_cons_inv h a head next tail value root' h' :
  setAtPath h (VObj a) (head :: next :: tail) value = Some (root', h') →
  ∃ child' new,
    setAtPath (descend h a head next).2 (descend h a head next).1 (next :: tail) value
    = Some (child', (descend h a head next).2 ++ new)
    ∧ child' = VObj (length (descend h a head next).2)
    ∧ root' = VObj (length h)
    ∧ h' = <[length h := object_set (object_at h a) (seg_key head) child']>
             ((descend h a head next).2 ++ new).
Proof.
  rewrite setAtPath_cons. intros Hset.
  destruct (setAtPath _ _ (next :: tail) value) as [[child' h3]|] eqn:Hin; [|done].
  cbn in Hset. injection Hset as <- <-.
  destruct (setAtPath_extends _ _ _ _ _ _ Hin) as [(new & ->) Hroot].
  destruct Hroot as (-> & _ & _); [done|].
  exists (VObj (length (descend h a head next).2)), new. split_and!; try done.
  do 2 f_equal.
  assert (∃ rest, (descend h a head next).2 = h ++ object_at h a :: rest) as (rest & ->).
  { unfold descend. cbn zeta. destruct (isObjectLike _); cbn.
    - by exists [].
    - eexists. by rewrite <- app_assoc. }
  unfold object_at at 1. rewrite <- app_assoc. cbn [app].
  by rewrite lookup_app_r, Nat.sub_diag by lia.
Qed.

Lemma descend_shape h a head next :
  ∃ rest, (descend h a head next).2 = h ++ object_at h a :: rest.
Proof.
  unfold descend. cbn zeta. destruct (isObjectLike _); cbn.
  - by exists [].
  - eexists. by rewrite <- app_assoc.
Qed.

Lemma fresh_child (h h1 : heap_t) next tail :
  closed_object h (object_at (h1 ++ [OPlain ∅]) (length h1))
  ∧ in_range (h1 ++ [OPlain ∅]) (VObj (length h1)) (next :: tail).
Proof.
  assert (object_at (h1 ++ [OPlain ∅]) (length h1) = OPlain ∅) as Hfresh.
  { unfold object_at. by rewrite lookup_app_r, Nat.sub_diag by lia. }
  cbn [in_range read_prop]. rewrite Hfresh. split; [apply map_Forall_empty|].
  split; [done|]. cbn. rewrite lookup_empty. cbn. by destruct tail.
Qed.

Lemma getAtPath_closed h : ∀ path v,
  closed h → closed_val h v → closed_val h (getAtPath h v path).
Proof.
  induction path as [|s path IH]; intros v Hh Hv; [done|]. cbn [getAtPath].
  destruct (isObjectLike v); [|done]. apply IH; [done|]. by apply read_prop_closed.
Qed.

Lemma isArray_agree (h h' : heap_t) v :
  closed_val h v → (∀ b, b < length h → h' !! b = h !! b) → isArray h' v = isArray h v.
Proof.
  intros Hv Hag. destruct v; try done. cbn in *. by rewrite (object_at_agree h h') by auto.
Qed.

(** Where [setAtPath] continues: at the property, when it holds an object
    of the heap, or at a new empty object. *)
Lemma descend_spec h mid a head next tail :
  closed h → closed_object h (object_at (h ++ mid) a) → seg_number next = false →
  in_range (h ++ mid) (object_get (object_at (h ++ mid) a) (seg_key head)) (next :: tail) →
  ∃ c mid',
    descend (h ++ mid) a head next = (VObj c, h ++ mid')
    ∧ (∀ b, length (h ++ mid') ≤ b → length (h ++ mid) < b)
    ∧ closed_object h (object_at (h ++ mid') c)
    ∧ in_range (h ++ mid') (VObj c) (next :: tail)
    ∧ ((object_get (object_at (h ++ mid) a) (seg_key head) = VObj c ∧ c < length h)
       ∨ (isObjectLike (object_get (object_at (h ++ mid) a) (seg_key head)) = false
          ∧ object_at (h ++ mid') c = OPlain ∅)).
Proof.
  intros Hh Ha Hnum Hin. unfold descend. cbn zeta. set (h0 := h ++ mid) in *.
  pose proof (object_get_closed h _ (seg_key head) Ha) as Hcv.
  destruct (object_get (object_at h0 a) (seg_key head)) as [| | | | |c| |] eqn:Hcur;
    cbn [isObjectLike alloc].
  6:{ exists c, (mid ++ [object_at h0 a]). cbn in Hcv.
      assert (∀ b, b < length h → (h ++ mid ++ [object_at h0 a]) !! b = h !! b) as Hlow.
      { intros b Hb. by rewrite lookup_app_l. }
      split_and!.
      - unfold h0. by rewrite <- app_assoc.
      - intros b. unfold h0. rewrite !length_app. cbn. lia.
      - rewrite (object_at_agree h) by auto. by apply closed_lookup.
      - apply (in_range_agree h); [done|done|done|].
        apply (in_range_agree h h0) in Hin; [done|done|done|].
        intros b Hb. unfold h0. by rewrite lookup_app_l.
      - by left. }
  all: rewrite Hnum;
    exists (length (h0 ++ [object_at h0 a])), (mid ++ [object_at h0 a] ++ [OPlain ∅]);
    (assert (h ++ mid ++ [object_at h0 a] ++ [OPlain ∅]
             = (h0 ++ [object_at h0 a]) ++ [OPlain ∅]) as ->
       by (unfold h0; by rewrite <- !app_assoc));
    destruct (fresh_child h (h0 ++ [object_at h0 a]) next tail) as [Hobj Hrange];
    (split_and!; [done| |done|done|right]);
    [intros x; rewrite !length_app; cbn; lia|];
    (split; [done|]); unfold object_at; by rewrite lookup_app_r, Nat.sub_diag by lia.
Qed.

(** The root [setAtPath] returns for a path that is not empty. *)
Lemma setAtPath_root h a head tail value root' h' :
  setAtPath h (VObj a) (head :: tail) value = Some (root', h') →
  root' = VObj (length h)
  ∧ ∃ x, object_at h' (length h) = object_set (object_at h a) (seg_key head) x.
Proof.
  destruct tail as [|next tail'].
  - rewrite setAtPath_obj. cbn zeta. intros [= <- <-]. split; [done|]. eexists.
    unfold object_at at 1. by rewrite lookup_app_r, Nat.sub_diag by lia.
  - intros (child' & new & _ & _ & -> & ->)%setAtPath_cons_inv. split; [done|].
    exists child'. apply lookup_insert_fresh.
    destruct (descend_shape h a head next) as (rest & ->). rewrite !length_app. cbn. lia.
Qed.

Lemma setAtPath_get_aux : ∀ path h mid a value root' h' h'',
  closed h → closed_object h (object_at (h ++ mid) a) →
  proxy_path path → in_range (h ++ mid) (VObj a) path → path ≠ [] →
  setAtPath (h ++ mid) (VObj a) path value = Some (root', h') →
  (∀ b, length (h ++ mid) ≤ b → h'' !! b = h' !! b) →
  getAtPath h'' root' path = value.
Proof.
  induction path as [|head tail IH];
    intros h mid a value root' h' h'' Hh Ha Hpp Hin Hne Hset Hag; [done|].
  apply Forall_cons in Hpp as [Hhead Hpp]. cbn [in_range read_prop] in Hin.
  destruct Hin as [Hkey Hin].
  destruct tail as [|next tail'].
  { rewrite setAtPath_obj in Hset. cbn zeta in Hset. injection Hset as <- <-.
    cbn [getAtPath isObjectLike read_prop].
    rewrite (object_at_agree _ h'' _ (Hag _ (Nat.le_refl _))).
    unfold object_at at 1. rewrite lookup_app_r, Nat.sub_diag by lia. cbn.
    by apply object_get_set. }
  pose proof (Forall_inv Hpp) as Hnum.
  destruct (descend_spec h mid a head next tail' Hh Ha Hnum Hin)
    as (c & mid' & Hd & Hfresh & Hcobj & Hcin & _).
  apply setAtPath_cons_inv in Hset as (child' & new & Hinner & _ & -> & ->).
  rewrite Hd in Hinner. cbn [fst snd] in Hinner. rewrite Hd in Hag. cbn [fst snd] in Hag.
  set (h0 := h ++ mid) in *.
  change (getAtPath h'' (VObj (length h0)) (head :: next :: tail'))
    with (getAtPath h'' (object_get (object_at h'' (length h0)) (seg_key head)) (next :: tail')).
  rewrite (object_at_agree _ h'' _ (Hag _ (Nat.le_refl _))).
  rewrite lookup_insert_fresh.
  2:{ rewrite length_app. pose proof (Hfresh (length (h ++ mid')) (Nat.le_refl _)). lia. }
  rewrite object_get_set by done.
  eapply (IH h mid' c value); try done.
  intros b Hb. rewrite Hag by (apply Hfresh in Hb; lia).
  rewrite list_lookup_insert_ne; [done|]. apply Hfresh in Hb. lia.
Qed.

Lemma getAtPath_empty_object h c path :
  object_at h c = OPlain ∅ → path ≠ [] → getAtPath h (VObj c) path = VUndef.
Proof.
  intros Hc Hp. destruct path as [|s path]; [done|]. cbn. rewrite Hc. cbn.
  rewrite lookup_empty. apply getAtPath_undefined.
Qed.

Lemma setAtPath_frame_aux : ∀ common h mid a s rest s' rest' value root' h' h'',
  closed h → closed_object h (object_at (h ++ mid) a) →
  proxy_path (common ++ s :: rest) →
  in_range (h ++ mid) (VObj a) (common ++ s :: rest) →
  seg_key s' ≠ seg_key s →
  (isArray (h ++ mid) (getAtPath (h ++ mid) (VObj a) common) = true →
   ∃ j, seg_key s' = KIdx j) →
  setAtPath (h ++ mid) (VObj a) (common ++ s :: rest) value = Some (root', h') →
  (∀ b, b < length h → h'' !! b = h !! b) →
  (∀ b, length (h ++ mid) ≤ b → h'' !! b = h' !! b) →
  getAtPath h'' root' (common ++ s' :: rest')
  = getAtPath (h ++ mid) (VObj a) (common ++ s' :: rest').
Proof.
  induction common as [|c0 common IH];
    intros h mid a s rest s' rest' value root' h' h'' Hh Ha Hpp Hin Hne Harr Hset Hlow Hag.
  - cbn [app] in *. apply setAtPath_root in Hset as [-> (x & Hx)].
    cbn [getAtPath isObjectLike read_prop].
    rewrite (object_at_agree _ h'' _ (Hag _ (Nat.le_refl _))), Hx.
    rewrite object_get_set_ne; [|done|].
    2:{ cbn in Harr. destruct (object_at (h ++ mid) a); [done|]. by apply Harr. }
    pose proof (object_get_closed h _ (seg_key s') Ha) as Hcv.
    rewrite (getAtPath_agree h h'') by done.
    symmetry. apply getAtPath_agree; [done|done|].
    intros b Hb. by rewrite lookup_app_l.
  - cbn [app] in *. apply Forall_cons in Hpp as [Hhead Hpp].
    cbn [in_range read_prop] in Hin. destruct Hin as [Hkey Hin].
    destruct (common ++ s :: rest) as [|next tail'] eqn:Htail; [by destruct common|].
    pose proof (Forall_inv Hpp) as Hnum.
    destruct (descend_spec h mid a c0 next tail' Hh Ha Hnum Hin)
      as (c & mid' & Hd & Hfresh & Hcobj & Hcin & Hcase).
    apply setAtPath_cons_inv in Hset as (child' & new & Hinner & _ & -> & ->).
    rewrite Hd in Hinner. cbn [fst snd] in Hinner. rewrite Hd in Hag. cbn [fst snd] in Hag.
    set (h0 := h ++ mid) in *.
    change (getAtPath h'' (VObj (length h0)) (c0 :: common ++ s' :: rest'))
      with (getAtPath h'' (object_get (object_at h'' (length h0)) (seg_key c0))
                      (common ++ s' :: rest')).
    rewrite (object_at_agree _ h'' _ (Hag _ (Nat.le_refl _))).
    rewrite lookup_insert_fresh.
    2:{ rewrite length_app. pose proof (Hfresh (length (h ++ mid')) (Nat.le_refl _)). lia. }
    rewrite object_get_set by done.
    change (getAtPath h0 (VObj a) (c0 :: common ++ s' :: rest'))
      with (getAtPath h0 (object_get (object_at h0 a) (seg_key c0)) (common ++ s' :: rest')).
    change (getAtPath h0 (VObj a) (c0 :: common))
      with (getAtPath h0 (object_get (object_at h0 a) (seg_key c0)) common) in Harr.
    assert (∀ b, b < length h → h0 !! b = h !! b) as Hlow0.
    { intros b Hb. unfold h0. by rewrite lookup_app_l. }
    assert (∀ b, b < length h → (h ++ mid') !! b = h !! b) as Hlow1.
    { intros b Hb. by rewrite lookup_app_l. }
    rewrite <- Htail in Hinner, Hcin, Hpp.
    erewrite (IH h mid' c s rest s' rest' value); [|done|done|done|done|done| |exact Hinner|done|].
    + destruct Hcase as [[Hcur Hc]|[Hcur Hempty]].
      * rewrite Hcur. rewrite (getAtPath_agree h (h ++ mid')) by done.
        symmetry. by apply getAtPath_agree.
      * rewrite getAtPath_empty_object; [|done|by destruct common].
        symmetry. apply getAtPath_not_object; [done|by destruct common].
    + destruct Hcase as [[Hcur Hc]|[Hcur Hempty]].
      * rewrite Hcur in Harr. intros Hisarr. apply Harr.
        assert (closed_val h (getAtPath h (VObj c) common)) as Hcl
          by (by apply getAtPath_closed).
        rewrite (getAtPath_agree h h0) by done.
        rewrite (getAtPath_agree h (h ++ mid')) in Hisarr by done.
        rewrite (isArray_agree h) in Hisarr by done. by rewrite (isArray_agree h).
      * intros Hisarr. exfalso. destruct common as [|c1 common].
        -- cbn in Hisarr. by rewrite Hempty in Hisarr.
        -- by rewrite getAtPath_empty_object in Hisarr.
    + intros b Hb. rewrite Hag by (apply Hfresh in Hb; lia).
      rewrite list_lookup_insert_ne; [done|]. apply Hfresh in Hb. lia.
Qed.

(** *** Well-formedness is kept *)

Lemma closed_object_mono h new o : closed_object h o → closed_object (h ++ new) o.
Proof.
  destruct o as [p|l]; cbn.
  - intros Hp k v Hk. apply closed_val_app. by eapply Hp.
  - intros Hl. eapply Forall_impl; [exact Hl|]. intros v. apply closed_val_app.
Qed.

Lemma closed_app h new :
  closed h → Forall (closed_object (h ++ new)) new → closed (h ++ new).
Proof.
  intros Hh Hnew. apply Forall_app. split; [|done].
  eapply Forall_impl; [exact Hh|]. intros o. apply closed_object_mono.
Qed.

Lemma closed_object_set h o k x :
  closed_object h o → closed_val h x → closed_object h (object_set o k x).
Proof.
  destruct o as [p|l]; cbn; intros Ho Hx.
  - by apply map_Forall_insert_2.
  - destruct k as [k|i]; [done|]. repeat case_decide; cbn; try done.
    + by apply Forall_insert.
    + apply Forall_app. split; [done|]. by constructor.
Qed.

Lemma closed_insert h c o :
  closed h → closed_object h o → closed (<[c := o]> h).
Proof.
  intros Hh Ho. unfold closed.
  assert (∀ o', closed_object h o' → closed_object (<[c := o]> h) o') as Hmono.
  { intros [p|l]; cbn.
    - intros Hp k v Hk. specialize (Hp k v Hk). destruct v; try done. cbn in *.
      by rewrite length_insert.
    - intros Hl. eapply Forall_impl; [exact Hl|].
      intros v. destruct v; try done. cbn. by rewrite length_insert. }
  apply Forall_insert; [|by apply Hmono].
  eapply Forall_impl; [exact Hh|]. exact Hmono.
Qed.

Lemma setAtPath_closed : ∀ path h root value root' h',
  closed h → closed_val h root → closed_val h value →
  setAtPath h root path value = Some (root', h') →
  closed h' ∧ closed_val h' root'.
Proof.
  induction path as [|head tail IH]; intros h root value root' h' Hh Hroot Hvalue Hset.
  { cbn in Hset. by injection Hset as <- <-. }
  destruct root as [| | | | |a| |]; try by (cbn in Hset). cbn in Hroot.
  pose proof (closed_lookup h a Hh Hroot) as Ha.
  destruct tail as [|next tail'].
  { rewrite setAtPath_obj in Hset. cbn zeta in Hset. injection Hset as <- <-. split.
    - apply closed_app; [done|]. constructor; [|done].
      apply closed_object_mono. by apply closed_object_set.
    - cbn. rewrite length_app. cbn. lia. }
  apply setAtPath_cons_inv in Hset as (child' & new & Hinner & _ & -> & ->).
  assert (closed (descend h a head next).2 ∧ closed_val (descend h a head next).2
                                                (descend h a head next).1) as [Hh2 Hchild].
  { unfold descend. cbn zeta.
    assert (closed (h ++ [object_at h a])) as Hh1.
    { apply closed_app; [done|]. constructor; [|done]. by apply closed_object_mono. }
    pose proof (object_get_closed h _ (seg_key head) Ha) as Hcv.
    destruct (isObjectLike _); cbn [fst snd alloc].
    - split; [done|]. by apply closed_val_app.
    - split.
      + apply closed_app; [done|]. constructor; [|done].
        destruct (seg_number next); cbn; [done|apply map_Forall_empty].
      + cbn. rewrite !length_app. cbn. lia. }
  assert (closed_val (descend h a head next).2 value) as Hvalue2.
  { destruct (descend_shape h a head next) as (rest & ->). by apply closed_val_app. }
  destruct (IH _ _ _ _ _ Hh2 Hchild Hvalue2 Hinner) as [Hh3 Hchild'].
  split.
  - apply closed_insert; [done|]. apply closed_object_set; [|done].
    destruct (descend_shape h a head next) as (rest & Hshape).
    rewrite Hshape. rewrite <- app_assoc. apply closed_object_mono. done.
  - cbn. rewrite length_insert, length_app.
    destruct (descend_shape h a head next) as (rest & ->). rewrite length_app. cbn. lia.
Qed.

Lemma setAtPath_allocates (h : heap_t) (a : nat) (path : list seg) (value : val) :
  closed h → a < length h → closed_val h value →
  ∃ root' new,
    setAtPath h (VObj a) path value = Some (root', h ++ new)
    ∧ (path ≠ [] → root' = VObj (length h) ∧ new ≠ [])
    ∧ (∀ v q, closed_val h v → getAtPath (h ++ new) v q = getAtPath h v q)
    ∧ closed (h ++ new) ∧ closed_val (h ++ new) root'.
Proof.
  intros Hh Ha Hvalue.
  destruct (setAtPath_total path h a value) as [[root' h'] Hset].
  destruct (setAtPath_extends _ _ _ _ _ _ Hset) as [(new & ->) Hroot].
  exists root', new. split; [done|]. split; [|split].
  - intros Hne. destruct (Hroot Hne) as (-> & Hlen & _). split; [done|].
    intros ->. rewrite app_nil_r in Hlen. lia.
  - intros v q Hv. apply getAtPath_agree; [done|done|].
    intros b Hb. by rewrite lookup_app_l.
  - by apply (setAtPath_closed path h (VObj a) value).
Qed.

Lemma setAtPath_reads_back (h : heap_t) (root : val) (path : list seg)
    (value root' : val) (h' : heap_t) :
  closed h → closed_val h root → proxy_path path → in_range h root path →
  setAtPath h root path value = Some (root', h') →
  getAtPath h' root' path = value.
Proof.
  intros Hh Hroot Hpp Hin Hset.
  destruct path as [|head tail]; [cbn in Hset; by injection Hset as <- <-|].
  destruct root as [| | | | |a| |]; try by (cbn in Hset). cbn in Hroot.
  apply (setAtPath_get_aux (head :: tail) h [] a value root' h'); try done.
  - rewrite app_nil_r. by apply closed_lookup.
  - by rewrite app_nil_r.
  - by rewrite app_nil_r.
Qed.




(** *** The node a write replaces *)

Lemma getAtPath_cons_object h a head tail n :
  getAtPath h (VObj a) (head :: tail) = VObj n →
  ∃ c, object_get (object_at h a) (seg_key head) = VObj c
       ∧ getAtPath h (VObj c) tail = VObj n.
Proof.
  cbn [getAtPath isObjectLike read_prop]. intros Hget.
  destruct (object_get (object_at h a) (seg_key head)) as [| | | | |c| |] eqn:Hc;
    try (by destruct tail).
  by exists c.
Qed.

Lemma object_get_object_assignable o k c :
  object_get o k = VObj c →
  match o with
  | OArray l => ∃ i, k = KIdx i ∧ i ≤ length l
  | OPlain _ => True
  end.
Proof.
  destruct o as [p|l]; [done|]. destruct k as [k|i]; cbn.
  - by case_decide.
  - intros Hi. exists i. split; [done|].
    destruct (l !! i) eqn:Hl; [|done]. apply lookup_lt_Some in Hl. lia.
Qed.

Lemma setAtPath_node_aux : ∀ path h mid a s value root' h' h'' n,
  closed h → closed_object h (object_at (h ++ mid) a) →
  proxy_path (path ++ [s]) →
  getAtPath (h ++ mid) (VObj a) path = VObj n →
  setAtPath (h ++ mid) (VObj a) (path ++ [s]) value = Some (root', h') →
  (∀ b, length (h ++ mid) ≤ b → h'' !! b = h' !! b) →
  ∃ c, getAtPath h'' root' path = VObj c
       ∧ length (h ++ mid) ≤ c
       ∧ object_at h'' c = object_set (object_at (h ++ mid) n) (seg_key s) value.
Proof.
  induction path as [|head tail IH];
    intros h mid a s value root' h' h'' n Hh Ha Hpp Hn Hset Hag.
  { cbn in Hn. injection Hn as <-. cbn [app] in Hset.
    rewrite setAtPath_obj in Hset. cbn zeta in Hset. injection Hset as <- <-.
    exists (length (h ++ mid)). split_and!; [done|done|].
    rewrite (object_at_agree _ h'' _ (Hag _ (Nat.le_refl _))).
    unfold object_at at 1. by rewrite lookup_app_r, Nat.sub_diag by lia. }
  cbn [app] in Hset, Hpp. apply Forall_cons in Hpp as [Hhead Hpp].
  apply getAtPath_cons_object in Hn as (c0 & Hc0 & Hn).
  destruct (tail ++ [s]) as [|next tail'] eqn:Htail; [by destruct tail|].
  assert (c0 < length h) as Hc.
  { pose proof (object_get_closed h _ (seg_key head) Ha) as Hcv. by rewrite Hc0 in Hcv. }
  set (mid' := mid ++ [object_at (h ++ mid) a]).
  assert (descend (h ++ mid) a head next = (VObj c0, h ++ mid')) as Hd.
  { unfold descend. cbn zeta. rewrite Hc0. cbn [isObjectLike]. unfold mid'.
    by rewrite app_assoc. }
  assert (∀ b, length (h ++ mid') ≤ b → length (h ++ mid) < b) as Hfresh.
  { intros b. unfold mid'. rewrite !length_app. cbn. lia. }
  assert (closed_object h (object_at (h ++ mid') c0)) as Hcobj.
  { rewrite (object_at_agree h); [by apply closed_lookup|]. by rewrite lookup_app_l. }
  apply setAtPath_cons_inv in Hset as (child' & new & Hinner & _ & -> & ->).
  rewrite Hd in Hinner. cbn [fst snd] in Hinner. rewrite Hd in Hag. cbn [fst snd] in Hag.
  set (h0 := h ++ mid) in *.
  assert (∀ b, b < length h → h0 !! b = h !! b) as Hlow0.
  { intros b Hb. unfold h0. by rewrite lookup_app_l. }
  assert (∀ b, b < length h → (h ++ mid') !! b = h !! b) as Hlow1.
  { intros b Hb. by rewrite lookup_app_l. }
  assert (getAtPath (h ++ mid') (VObj c0) tail = VObj n) as Hn1.
  { rewrite (getAtPath_agree h (h ++ mid')) by done.
    by rewrite <- (getAtPath_agree h h0). }
  assert (n < length h) as Hnlt.
  { pose proof (getAtPath_closed h tail (VObj c0) Hh Hc) as Hcl.
    rewrite <- (getAtPath_agree h h0), Hn in Hcl by done. done. }
  rewrite <- Htail in Hinner, Hpp.
  destruct (IH h mid' c0 s value child' _ h'' n Hh Hcobj Hpp Hn1 Hinner) as (c & Hc' & Hge & Hobj).
  { intros b Hb. rewrite Hag by (apply Hfresh in Hb; lia).
    rewrite list_lookup_insert_ne; [done|]. apply Hfresh in Hb. lia. }
  exists c. split_and!.
  - change (getAtPath h'' (VObj (length h0)) (head :: tail))
      with (getAtPath h'' (object_get (object_at h'' (length h0)) (seg_key head)) tail).
    rewrite (object_at_agree _ h'' _ (Hag _ (Nat.le_refl _))).
    rewrite lookup_insert_fresh.
    2:{ rewrite length_app. pose proof (Hfresh (length (h ++ mid')) (Nat.le_refl _)). lia. }
    rewrite object_get_set; [done|]. by eapply object_get_object_assignable.
  - pose proof (Hfresh (length (h ++ mid')) (Nat.le_refl _)). lia.
  - rewrite Hobj. f_equal. rewrite (object_at_agree h (h ++ mid')) by auto.
    symmetry. apply object_at_agree. auto.
Qed.

(** The node at [path] after a write to its property [s]: a new object,
    the previous node with the property assigned. *)
Lemma setAtPath_node h a path s value root' h' n :
  closed h → a < length h → proxy_path (path ++ [s]) →
  getAtPath h (VObj a) path = VObj n →
  setAtPath h (VObj a) (path ++ [s]) value = Some (root', h') →
  ∃ c, getAtPath h' root' path = VObj c
       ∧ length h ≤ c
       ∧ object_at h' c = object_set (object_at h n) (seg_key s) value.
Proof.
  intros Hh Ha Hpp Hn Hset.
  pose proof (setAtPath_node_aux path h [] a s value root' h' h' n) as Haux.
  rewrite !app_nil_r in Haux. apply Haux; try done. by apply closed_lookup.
Qed.

(** *** On the store of the scenario *)

Lemma store_heap_closed : closed store_heap.
Proof. unfold closed. refine (bool_decide_unpack _ _). vm_compute. exact I. Qed.


Lemma store_heap_in_range : in_range store_heap (VObj 1) nested_enabled.
Proof. vm_compute. tauto. Qed.



(** ** Mutable stores *)

Lemma store_view_path source mutable w :
  store_view source mutable w → proxy_path (view_path w).
Proof.
  induction 1 as [|w prop st w' st' _ IH Hget]; [constructor|].
  unfold proxy_get in Hget.
  repeat case_match; simplify_eq/=; apply Forall_app; (split; [done|by constructor]).
Qed.

(** [source.set(nextRoot)] for a root that is a new object: the value is
    never identical to the previous one, the loop over the subscribers
    starts. *)
Lemma set_fresh_root E rec source c st0 st :
  sig_value (signal_of (nodes st0) source) ≠ VObj c →
  nodes st = nodes st0 →
  SignalSource_set E rec source (VObj c) st
  = bind (rec (TNotifyAll (DSig source) 0) (upd (set_sig_value source (VObj c)) st))
         (λ _ st, ret (VObj c) st).
Proof.
  intros Hne Hnodes. unfold SignalSource_set. cbn [bind ret]. rewrite Hnodes.
  by rewrite object_is_ne.
Qed.

Lemma notify_loop_notifies E fuel d st r st' :
  run E fuel (TNotifyAll d 0) st = Done r st' →
  (notifications st' ≠ notifications st ↔ jsset_live (subscribers_of (nodes st) d) ≠ []).
Proof.
  intros Hloop. destruct (jsset_live (subscribers_of (nodes st) d)) as [|cb cbs] eqn:Hlive.
  - apply notify_all_no_subscriber in Hloop as [-> ->]; [|by rewrite drop_0]. done.
  - eapply notify_all_first in Hloop as (l & Hl); [|by rewrite drop_0].
    split; [done|]. intros _. unfold notifications. rewrite Hl.
    rewrite filter_app, filter_cons_True by done.
    intros Heq. apply (f_equal length) in Heq. rewrite length_app in Heq.
    cbn in Heq. lia.
Qed.


(** A path that leads to an object stays in range. *)
Lemma getAtPath_object_inv h v head tail n :
  getAtPath h v (head :: tail) = VObj n →
  ∃ a c, v = VObj a ∧ object_get (object_at h a) (seg_key head) = VObj c
         ∧ getAtPath h (VObj c) tail = VObj n.
Proof.
  cbn [getAtPath]. destruct v as [| | | | |a| |]; try done. cbn [isObjectLike read_prop].
  intros Hget. exists a.
  destruct (object_get (object_at h a) (seg_key head)) as [| | | | |c| |] eqn:Hc;
    try (by destruct tail).
  by exists c.
Qed.

Lemma object_get_array_object l k c :
  object_get (OArray l) k = VObj c → ∃ i, k = KIdx i ∧ i < length l.
Proof.
  destruct k as [k|i]; cbn.
  - by case_decide.
  - intros Hi. exists i. split; [done|].
    destruct (l !! i) eqn:Hl; [|done]. by eapply lookup_lt_Some.
Qed.

Lemma in_range_of_object h : ∀ path v n,
  getAtPath h v path = VObj n → in_range h v path.
Proof.
  induction path as [|head tail IH]; intros v n Hget; [done|].
  apply getAtPath_object_inv in Hget as (a & c & -> & Hc & Hget).
  cbn [in_range read_prop]. rewrite Hc. split; [|by eapply IH].
  destruct (object_at h a) as [p|l]; [done|].
  apply object_get_array_object in Hc as (i & -> & Hi). exists i. split; [done|lia].
Qed.

Lemma in_range_snoc h : ∀ path v n s,
  getAtPath h v path = VObj n →
  match object_at h n with
  | OArray l => ∃ i, seg_key s = KIdx i ∧ i ≤ length l
  | OPlain _ => True
  end →
  in_range h v (path ++ [s]).
Proof.
  induction path as [|head tail IH]; intros v n s Hget Hs.
  - cbn in Hget. subst v. cbn [app in_range]. by split.
  - apply getAtPath_object_inv in Hget as (a & c & -> & Hc & Hget).
    cbn [app in_range read_prop]. rewrite Hc. split; [|by eapply IH].
    destruct (object_at h a) as [p|l]; [done|].
    apply object_get_array_object in Hc as (i & -> & Hi). exists i. split; [done|lia].
Qed.

Lemma getAtPath_snoc h v path s :
  getAtPath h v (path ++ [s]) = read_prop h (getAtPath h v path) (seg_key s).
Proof.
  rewrite getAtPath_app. cbn. by destruct (getAtPath h v path).
Qed.

Lemma signal_of_trackDependency d st s :
  signal_of (nodes (trackDependency d st)) s = signal_of (nodes st) s.
Proof.
  unfold trackDependency. destruct (currentCollector st) as [o|]; [|done].
  unfold signal_of, addDependency. cbn [nodes upd]. by rewrite signals_set_tracker.
Qed.

Lemma heap_trackDependency d st : heap (trackDependency d st) = heap st.
Proof. unfold trackDependency. by destruct (currentCollector st). Qed.

Lemma isArray_object_set (h' : heap_t) c o k x :
  object_at h' c = object_set o k x →
  isArray h' (VObj c) = match o with OArray _ => true | OPlain _ => false end.
Proof.
  intros Hc. cbn. rewrite Hc. destruct o as [p|l]; [done|].
  destruct k as [k|i]; cbn; [done|]. by repeat case_decide.
Qed.


(** *** delete *)

Lemma closed_object_delete h o k :
  closed_object h o → closed_object h (object_delete o k).
Proof.
  destruct o as [p|l]; cbn; intros Ho.
  - by apply map_Forall_delete.
  - destruct k as [k|i]; [done|]. by apply Forall_insert.
Qed.

(** Reading a property that was deleted, and another one. *)
Lemma object_get_delete o k :
  match o with OArray _ => ∃ i, k = KIdx i | OPlain _ => True end →
  object_get (object_delete o k) k = VUndef.
Proof.
  destruct o as [p|l]; cbn [object_get object_delete].
  - intros _. by rewrite lookup_delete_eq.
  - intros (i & ->). cbn [object_get object_delete].
    destruct (decide (i < length l)) as [Hi|Hi].
    + by rewrite list_lookup_insert_eq.
    + rewrite list_insert_ge by lia. by rewrite lookup_ge_None_2 by lia.
Qed.

Lemma object_get_delete_ne o k k' :
  k' ≠ k → object_get (object_delete o k) k' = object_get o k'.
Proof.
  intros Hne. destruct o as [p|l]; cbn [object_get object_delete].
  - by rewrite lookup_delete_ne.
  - destruct k as [k|i]; [done|]. destruct k' as [k'|j]; cbn [object_get].
    + by rewrite length_insert.
    + rewrite list_lookup_insert_ne; [done|]. by intros ->.
Qed.


(** *** The mutating array methods *)

Lemma Forall_removelast {A} (P : A → Prop) (l : list A) :
  Forall P l → Forall P (removelast l).
Proof.
  induction 1 as [|x l Hx Hl IH]; [constructor|]. cbn.
  destruct l; [constructor|]. by constructor.
Qed.

Lemma native_elems_closed h call l :
  Forall (closed_val h) l → Forall (closed_val h) (call_items call) →
  Forall (closed_val h) (native_elems call l).
Proof.
  intros Hl Hitems. destruct call as [start deleteCount items| |items]; cbn in *.
  - apply Forall_app. split; [by apply Forall_take|].
    apply Forall_app. split; [done|by apply Forall_drop].
  - by apply Forall_removelast.
  - apply Forall_app. by split.
Qed.

Lemma method_root_array h root path call n l :
  getAtPath h root path = VObj n → object_at h n = OArray l →
  method_root h root path call
  = '(nextRoot, h') ← setAtPath (h ++ after_native call l) root path (VObj (length h));
    Some (native_result call l (length h), nextRoot, h').
Proof.
  intros Hn Hl. unfold method_root. rewrite Hn, Hl. cbn [alloc].
  destruct call as [start deleteCount items| |items];
    cbn [apply_native alloc after_native native_elems native_result].
  - rewrite length_app. cbn [length]. rewrite Nat.add_1_r.
    rewrite <- app_assoc. cbn [app]. by rewrite insert_fresh.
  - by rewrite (insert_fresh h _ _ []).
  - by rewrite (insert_fresh h _ _ []).
Qed.

(** X7.  The wrapper a mutable store returns for a mutating array method
    ([push], [pop], [splice]).  On a node that is not an array the call
    returns [undefined] and changes nothing.  On an array it installs a new
    root and runs the loop over the subscribers; in the new root the path of
    the view leads to a new array that holds what the native method leaves
    of the previous elements; the call returns what the native method
    returns ([push] the new length, [pop] the last element or [undefined],
    [splice] a new array of the removed elements); and every value of the
    previous heap, the previous array among them, reads as before. *)
Theorem mutable_store_array_method (E : env) (rec : task → state → outcome)
    (source : nat) (w : view) (call : array_call) (st : state) (a : nat) :
  store_view source true w →
  sig_value (signal_of (nodes st) source) = VObj a → a < length (heap st) →
  closed (heap st) → Forall (closed_val (heap st)) (call_items call) →
  let node := getAtPath (heap st) (VObj a) (view_path w) in
  (isArray (heap st) node = false →
   proxy_array_method E rec source (view_path w) call st = ret VUndef st)
  ∧ (∀ n l, node = VObj n → object_at (heap st) n = OArray l →
       ∃ nextRoot result new,
         let h := heap st ++ new in
         proxy_array_method E rec source (view_path w) call st
         = bind (rec (TNotifyAll (DSig source) 0) (installed source nextRoot h st))
                (λ _ st, ret result st)
         ∧ (∃ c, getAtPath h nextRoot (view_path w) = VObj c
                 ∧ length (heap st) ≤ c
                 ∧ object_at h c = OArray (native_elems call l))
         ∧ match call with
           | Push items => result = VNum (Z.of_nat (length l + length items))
           | Pop => result = default VUndef (last l)
           | Splice start deleteCount _ =>
               ∃ r, result = VObj r ∧ length (heap st) ≤ r
                    ∧ object_at h r = OArray (take deleteCount (drop start l))
           end
         ∧ (∀ v q, closed_val (heap st) v → getAtPath h v q = getAtPath (heap st) v q)
         ∧ closed h).
Proof.
  intros Hw Hroot Ha Hh Hitems node.
  pose proof (store_view_path _ _ _ Hw) as Hpp.
  apply store_view_mutable in Hw as [Hs Hm].
  set (h0 := heap st) in *.
  split.
  { intros Hnode. unfold proxy_array_method. rewrite Hroot. fold h0 node. rewrite Hnode.
    unfold method_root. fold node. destruct node as [| | | | |n| |]; try done.
    cbn in Hnode. by destruct (object_at h0 n). }
  intros n l Hn Hl.
  assert (n < length h0) as Hlt.
  { pose proof (getAtPath_closed h0 (view_path w) (VObj a) Hh Ha) as Hc.
    fold node in Hc. by rewrite Hn in Hc. }
  assert (Forall (closed_val h0) l) as Hlc.
  { pose proof (closed_lookup h0 n Hh Hlt) as Hc. by rewrite Hl in Hc. }
  set (h1 := h0 ++ after_native call l).
  assert (closed h1) as Hh1.
  { apply closed_app; [done|]. unfold after_native. constructor.
    - cbn. eapply Forall_impl; [by apply native_elems_closed|].
      intros v. apply closed_val_app.
    - destruct call as [start deleteCount items| |items]; [|done|done].
      constructor; [|done]. cbn. eapply Forall_impl; [|intros v; apply closed_val_app].
      by apply Forall_take, Forall_drop. }
  assert (length h0 < length h1) as Hlen1.
  { unfold h1, after_native. rewrite length_app. cbn. lia. }
  assert (∀ b, b < length h0 → h1 !! b = h0 !! b) as Hlow.
  { intros b Hb. unfold h1. by rewrite lookup_app_l. }
  destruct (setAtPath_allocates h1 a (view_path w) (VObj (length h0)))
    as (root' & new & Hpath & Hfresh & Hold & Hclosed & _); [done|lia|done|].
  assert (getAtPath (h1 ++ new) root' (view_path w) = VObj (length h0)) as Hclone.
  { eapply (setAtPath_reads_back h1 (VObj a)); [done| |done| |exact Hpath].
    - cbn. lia.
    - apply (in_range_agree h0); [done|done|done|].
      eapply in_range_of_object. exact Hn. }
  assert (root' ≠ VObj a) as Hne.
  { destruct (view_path w) as [|s p] eqn:Hp.
    - cbn in Hpath. injection Hpath as <- _. intros [=]. lia.
    - destruct Hfresh as [-> _]; [done|]. intros [=]. lia. }
  exists root', (native_result call l (length h0)), (after_native call l ++ new).
  cbn zeta. rewrite app_assoc. fold h1. split_and!.
  - unfold proxy_array_method. rewrite Hroot. fold h0.
    rewrite (method_root_array h0 _ _ call n l Hn Hl). fold h1. rewrite Hpath.
    cbn [mbind option_bind].
    destruct root' as [| | | | |c| |];
      try (destruct (view_path w); [cbn in Hpath; by injection Hpath|
                                    by destruct Hfresh as [? _]]).
    rewrite (set_fresh_root E _ source _ st); [|rewrite Hroot; congruence|done].
    unfold installed. by destruct (rec _ _) as [|[]].
  - exists (length h0). split_and!; [done|done|].
    unfold object_at, h1, after_native. rewrite <- app_assoc. cbn [app].
    by rewrite lookup_app_r, Nat.sub_diag by lia.
  - destruct call as [start deleteCount items| |items]; cbn [native_result].
    + exists (S (length h0)). split_and!; [done|lia|].
      unfold object_at, h1, after_native. rewrite <- app_assoc. cbn [app].
      rewrite lookup_app_r by lia. by replace (S (length h0) - length h0) with 1 by lia.
    + done.
    + by rewrite length_app.
  - intros v q Hv. rewrite Hold by (by apply closed_val_app).
    apply getAtPath_agree; done.
  - done.
Qed.

(** *** On the stores of the scenarios *)

Lemma nested_mutable_view_store_view : store_view 0 true nested_mutable_view.
Proof.
  apply (store_view_get 0 true (View 0 true []) (KStr "nested") store_created
           nested_mutable_view store_created); [constructor|vm_compute; reflexivity].
Qed.

Lemma rows_heap_closed : closed rows_heap.
Proof. unfold closed. refine (bool_decide_unpack _ _). vm_compute. exact I. Qed.




(** [rows.push(row)] on the mutable store of the three rows. *)
Lemma mutable_store_array_method_witness :
  store_view 0 true (View 0 true [])
  ∧ sig_value (signal_of (nodes rows_store) 0) = VObj 3
  ∧ 3 < length (heap rows_store)
  ∧ closed (heap rows_store)
  ∧ Forall (closed_val (heap rows_store)) (call_items (Push [VObj 4]))
  ∧ ∃ nextRoot new c,
      proxy_array_method counter_env (run counter_env 5) 0 [] (Push [VObj 4]) rows_store
      = bind (run counter_env 5 (TNotifyAll (DSig 0) 0)
                (installed 0 nextRoot (rows_heap ++ new) rows_store))
             (λ _ st, ret (VNum 4) st)
      ∧ getAtPath (rows_heap ++ new) nextRoot [] = VObj c
      ∧ object_at (rows_heap ++ new) c = OArray [VObj 0; VObj 1; VObj 2; VObj 4]
      ∧ object_at (rows_heap ++ new) 3 = OArray [VObj 0; VObj 1; VObj 2].
Proof.
  assert (store_view 0 true (View 0 true [])) as Hview by constructor.
  assert (sig_value (signal_of (nodes rows_store) 0) = VObj 3) as Hroot
    by (vm_compute; reflexivity).
  assert (3 < length (heap rows_store)) as Ha by (vm_compute; lia).
  assert (Forall (closed_val (heap rows_store)) (call_items (Push [VObj 4]))) as Hitems
    by (repeat constructor; vm_compute; lia).
  split_and!; [exact Hview|exact Hroot|exact Ha|exact rows_heap_closed|exact Hitems|].
  destruct (proj2 (mutable_store_array_method counter_env (run counter_env 5) 0
                     (View 0 true []) (Push [VObj 4]) rows_store 3
                     Hview Hroot Ha rows_heap_closed Hitems) 3 [VObj 0; VObj 1; VObj 2])
    as (nextRoot & result & new & Hcall & (c & Hc & _ & Hnew) & Hres & Hold & _).
  - reflexivity.
  - reflexivity.
  - cbn in Hres. subst result.
    exists nextRoot, new, c. split_and!; [exact Hcall|exact Hc|exact Hnew|].
    unfold object_at. by rewrite lookup_app_l by (cbn; lia).
Defined.

(** ** Computations that are switched off *)

Lemma tracker_of_set_tracker_ne o o' t g :
  o' ≠ o → tracker_of (set_tracker o' t g) o = tracker_of g o.
Proof.
  intros Hne. destruct o' as [m'|e'|c'], o as [m|e|c]; try reflexivity;
    cbn [tracker_of set_tracker].
  - rewrite memo_of_set_memo. case_decide; [congruence|done].
  - rewrite effect_of_set_effect. case_decide; [congruence|done].
  - rewrite component_of_set_component. case_decide; [congruence|done].
Qed.

Lemma same_for_refl o g : same_for o g g.
Proof. by split. Qed.

Lemma same_for_trans o g1 g2 g3 : same_for o g1 g2 → same_for o g2 g3 → same_for o g1 g3.
Proof.
  intros [H1 H2 H3 H4] [H1' H2' H3' H4']. split; try congruence.
  intros d. by rewrite H4', H4.
Qed.

Lemma off_set_tracker o o' t g : off o (set_tracker o' t g) = off o g.
Proof.
  destruct o' as [m'|e'|c'], o as [m|e|c]; try reflexivity; cbn [off set_tracker].
  - rewrite effect_of_set_effect. by case_decide; subst.
  - rewrite component_of_set_component. by case_decide; subst.
Qed.

Lemma updates_set_tracker o o' t g : updates o (set_tracker o' t g) = updates o g.
Proof.
  destruct o' as [m'|e'|c'], o as [m|e|c]; try reflexivity; cbn [updates set_tracker].
  rewrite component_of_set_component. by case_decide; subst.
Qed.

(** A tracker written with the subscriptions it had. *)
Lemma same_for_set_tracker o o' t g :
  (o' = o → subscriptions t = subscriptions (tracker_of g o)) →
  same_for o g (set_tracker o' t g).
Proof.
  intros Ht. split.
  - apply off_set_tracker.
  - apply updates_set_tracker.
  - destruct (decide (o' = o)) as [->|Hne].
    + rewrite tracker_of_set_tracker. by apply Ht.
    + by rewrite tracker_of_set_tracker_ne.
  - intros d. unfold subscribed. by rewrite subscribers_of_set_tracker.
Qed.

Lemma off_set_subscribers o d subs g : off o (set_subscribers d subs g) = off o g.
Proof. by destruct d, o. Qed.

Lemma updates_set_subscribers o d subs g : updates o (set_subscribers d subs g) = updates o g.
Proof. by destruct d, o. Qed.

(** A subscriber set written with [o] where it was. *)
Lemma same_for_set_subscribers o d subs g :
  (o ∈ jsset_live subs ↔ o ∈ jsset_live (subscribers_of g d)) →
  same_for o g (set_subscribers d subs g).
Proof.
  intros Hsubs. split.
  - apply off_set_subscribers.
  - apply updates_set_subscribers.
  - by rewrite tracker_of_set_subscribers.
  - intros d'. unfold subscribed. rewrite subscribers_of_set_subscribers.
    case_decide; [by subst|done].
Qed.

Lemma same_for_add_subscriber o d cb g : cb ≠ o → same_for o g (add_subscriber d cb g).
Proof.
  intros Hne. apply same_for_set_subscribers.
  rewrite !elem_of_jsset_live, elem_of_jsset_add. split; [|by left].
  by intros [?|?].
Qed.

Lemma same_for_unsubscribe o d cb g : cb ≠ o → same_for o g (unsubscribe d cb g).
Proof.
  intros Hne. apply same_for_set_subscribers.
  rewrite !elem_of_jsset_live, elem_of_jsset_delete. split; [by intros [? _]|].
  intros ?. split; [done|]. by intros ->.
Qed.

Lemma same_for_addDependency o o' d g : same_for o g (addDependency o' d g).
Proof. apply same_for_set_tracker. by intros ->. Qed.

Lemma same_for_reset_collecting o o' g : same_for o g (reset_collecting o' g).
Proof. apply same_for_set_tracker. by intros ->. Qed.

Lemma same_for_add_subscription o o' d g : o' ≠ o → same_for o g (add_subscription o' d g).
Proof. intros Hne. by apply same_for_set_tracker. Qed.

Lemma same_for_drop_stale o o' nextDeps g : o' ≠ o → same_for o g (drop_stale o' nextDeps g).
Proof.
  intros Hne. unfold drop_stale. generalize (subscriptions (tracker_of g o')) as ds.
  intros ds. revert g. induction ds as [|d ds IH]; intros g; [apply same_for_refl|].
  cbn [foldl]. eapply same_for_trans; [|apply IH].
  case_bool_decide; [apply same_for_refl|].
  eapply same_for_trans; [by apply same_for_unsubscribe|]. by apply same_for_set_tracker.
Qed.

Lemma same_for_set_sig_value o s v g : same_for o g (set_sig_value s v g).
Proof.
  split; try by destruct o.
  intros d. unfold subscribed. by rewrite subscribers_of_set_sig_value.
Qed.

Lemma subscribers_of_set_effect e x g d :
  subscribers_of (set_effect e x g) d = subscribers_of g d.
Proof. by destruct d. Qed.

Lemma subscribers_of_set_component c x g d :
  subscribers_of (set_component c x g) d = subscribers_of g d.
Proof. by destruct d. Qed.

(** An effect written with the tracker and the [disposed] flag it had. *)
Lemma same_for_set_effect o e x g :
  eff_tracker x = eff_tracker (effect_of g e) →
  disposed x = disposed (effect_of g e) →
  same_for o g (set_effect e x g).
Proof.
  intros Ht Hd. split.
  - destruct o as [m|e'|c]; try reflexivity. cbn [off].
    rewrite effect_of_set_effect. case_decide; [by subst|done].
  - by destruct o.
  - destruct o as [m|e'|c]; try reflexivity. cbn [tracker_of].
    rewrite effect_of_set_effect. case_decide; [subst; by rewrite Ht|done].
  - intros d. unfold subscribed. by rewrite subscribers_of_set_effect.
Qed.

Lemma same_for_set_scheduled o e b g : same_for o g (set_scheduled e b g).
Proof. by apply same_for_set_effect. Qed.

Lemma same_for_set_running o e b g : same_for o g (set_running e b g).
Proof. by apply same_for_set_effect. Qed.

Lemma same_for_set_cleanups o e cs g : same_for o g (set_cleanups e cs g).
Proof. by apply same_for_set_effect. Qed.

(** A memo written with the tracker and the subscribers it had. *)
Lemma same_for_set_memo o m x g :
  memo_tracker x = memo_tracker (memo_of g m) →
  memo_subscribers x = memo_subscribers (memo_of g m) →
  same_for o g (set_memo m x g).
Proof.
  intros Ht Hs. split.
  - by destruct o.
  - by destruct o.
  - destruct o as [m'|e|c]; try reflexivity. cbn [tracker_of].
    rewrite memo_of_set_memo. case_decide; [subst; by rewrite Ht|done].
  - intros d. unfold subscribed. destruct d as [s|m']; [done|]. cbn [subscribers_of].
    rewrite memo_of_set_memo. case_decide; [subst; by rewrite Hs|done].
Qed.

Lemma same_for_set_computing o m b g : same_for o g (set_computing m b g).
Proof. by apply same_for_set_memo. Qed.

Lemma same_for_set_memo_result o m v g : same_for o g (set_memo_result m v g).
Proof. by apply same_for_set_memo. Qed.

Lemma same_for_force_update o c g : o ≠ ORender c → same_for o g (force_update c g).
Proof.
  intros Hne. unfold force_update. split.
  - destruct o as [m|e|c']; try reflexivity. cbn [off].
    rewrite component_of_set_component. case_decide; [by subst|done].
  - destruct o as [m|e|c']; try reflexivity. cbn [updates].
    rewrite component_of_set_component. case_decide; [congruence|done].
  - destruct o as [m|e|c']; try reflexivity. cbn [tracker_of].
    rewrite component_of_set_component. case_decide; [by subst|done].
  - intros d. unfold subscribed. by rewrite subscribers_of_set_component.
Qed.

(** *** Steps of the state *)

Lemma still_refl o st : off o (nodes st) = true → still o st st.
Proof. intros Hoff. split; [done|done|apply same_for_refl]. Qed.

Lemma still_trans o st1 st2 st3 : still o st1 st2 → still o st2 st3 → still o st1 st3.
Proof.
  intros [H1 H2 H3] [H1' H2' H3']. split; [done|congruence|by eapply same_for_trans].
Qed.

Lemma still_upd o f st :
  off o (nodes st) = true → same_for o (nodes st) (f (nodes st)) → still o st (upd f st).
Proof.
  intros Hoff Hsame. split; [|done|done]. cbn [nodes upd].
  by rewrite (same_off _ _ _ Hsame).
Qed.

Lemma still_fields o st st' :
  off o (nodes st) = true → nodes st' = nodes st → trace st' = trace st → still o st st'.
Proof.
  intros Hoff Hn Ht. split.
  - by rewrite Hn.
  - unfold run_count. by rewrite Ht.
  - rewrite Hn. apply same_for_refl.
Qed.

Lemma still_emit o ev st :
  off o (nodes st) = true → ev ≠ EvRun o → still o st (emit ev st).
Proof.
  intros Hoff Hev. split; [done| |apply same_for_refl].
  unfold run_count. cbn [trace emit]. rewrite filter_app, length_app.
  rewrite (filter_cons_False _ ev) by done. cbn. lia.
Qed.

Lemma still_trackDependency o d st :
  off o (nodes st) = true → still o st (trackDependency d st).
Proof.
  intros Hoff. unfold trackDependency. destruct (currentCollector st) as [o'|].
  - apply still_upd; [done|]. apply same_for_addDependency.
  - by apply still_refl.
Qed.

(** A memo is never switched off. *)
Lemma off_not_memo o g m : off o g = true → OMemo m ≠ o.
Proof. by intros Hoff <-. Qed.

Lemma off_not_live_effect o g e :
  off o g = true → disposed (effect_of g e) = false → OEffect e ≠ o.
Proof. intros Hoff Hd <-. cbn in Hoff. congruence. Qed.

Lemma off_not_live_render o g c :
  off o g = true → suppressRenderInvalidation (component_of g c) = false → ORender c ≠ o.
Proof. intros Hoff Hd <-. cbn in Hoff. congruence. Qed.

Lemma wp_always o (Q : result → state → Prop) : (∀ r st, Q r st) → wp o Q.
Proof. destruct o; simpl; auto. Qed.

Section StillStep.
Variable E : env.
Variable rec : task → state → outcome.
Variable o : owner.
Hypothesis Hrec : rec_ok rec (Post_still o).

Lemma wp_rec_still t st (Q : result → state → Prop) :
  off o (nodes st) = true →
  (∀ r st', still o st st' → Q r st') → wp (rec t st) Q.
Proof using Hrec.
  intros Hoff HQ. eapply wp_rec; [exact Hrec|]. intros r st' Hp. apply HQ. by apply Hp.
Qed.

(** Continue after a step [st → st1] that kept [o] still. *)
Lemma still_then st st1 (Q : result → state → Prop) :
  still o st st1 →
  (∀ r st', still o st st' → Q r st') → (∀ r st', still o st1 st' → Q r st').
Proof using Type. intros H1 HQ r st' H2. apply HQ. by eapply still_trans. Qed.

Lemma still_wp_subscribe d cb st (Q : result → state → Prop) :
  off o (nodes st) = true → cb ≠ o →
  (∀ r st', still o st st' → Q r st') → wp (subscribe rec d cb st) Q.
Proof using Hrec.
  intros Hoff Hne HQ. unfold subscribe.
  assert (still o st (upd (add_subscriber d cb) st)) as H1.
  { apply still_upd; [done|]. by apply same_for_add_subscriber. }
  destruct d as [s|m].
  - by apply wp_ret, HQ.
  - destruct (hasValue _).
    + by apply wp_ret, HQ.
    + apply wp_rec_still; [apply H1|]. by apply (still_then st).
Qed.

Lemma still_wp_reconcile o' nextDeps st (Q : result → state → Prop) :
  off o (nodes st) = true → o' ≠ o →
  (∀ r st', still o st st' → Q r st') →
  wp (reconcileSubscriptions rec o' nextDeps st) Q.
Proof using Hrec.
  intros Hoff Hne HQ. unfold reconcileSubscriptions, add_new.
  apply (wp_for_each _ (λ st', still o st st')).
  - apply still_upd; [done|]. by apply same_for_drop_stale.
  - intros d st1 _ H1. case_bool_decide.
    + by apply wp_ret.
    + apply wp_bind, still_wp_subscribe; [apply H1|done|]. intros [v|err] st2 H2.
      * apply wp_ret. eapply still_trans; [exact H1|].
        eapply still_trans; [exact H2|]. apply still_upd; [apply H2|].
        by apply same_for_add_subscription.
      * apply HQ. by eapply still_trans.
  - intros st' H1. by apply HQ.
Qed.

Lemma still_wp_collect o' fn st (Q : result → state → Prop) :
  off o (nodes st) = true → o' ≠ o →
  (∀ r st', still o st st' → Q r st') → wp (collect rec o' fn st) Q.
Proof using Hrec.
  intros Hoff Hne HQ. unfold collect.
  assert (still o st (pushCollector o' (upd (reset_collecting o') (emit (EvRun o') st))))
    as H0.
  { apply (still_trans _ _ (emit (EvRun o') st));
      [apply still_emit; [done|by intros [= ->]]|].
    apply (still_trans _ _ (upd (reset_collecting o') (emit (EvRun o') st)));
      [apply still_upd; [done|apply same_for_reset_collecting]|].
    apply still_fields; [|done|done].
    cbn [nodes upd emit]. unfold reset_collecting. by rewrite off_set_tracker. }
  apply wp_finally, wp_rec_still; [apply H0|]. intros r st1 H1.
  assert (still o st (popCollector st1)) as H1'.
  { eapply still_trans; [exact H0|]. eapply still_trans; [exact H1|].
    apply still_fields; [apply H1|done|done]. }
  apply still_wp_reconcile; [apply H1'|done|]. intros r' st2 H2.
  assert (still o st st2) as H by (by eapply still_trans).
  destruct r'; by apply HQ.
Qed.

Lemma still_wp_schedule e st (Q : result → state → Prop) :
  off o (nodes st) = true →
  (∀ r st', still o st st' → Q r st') → wp (EffectComputation_schedule rec e st) Q.
Proof using Hrec.
  intros Hoff HQ. unfold EffectComputation_schedule.
  destruct (disposed _); [by apply wp_ret, HQ, still_refl|].
  destruct (running _).
  - apply wp_ret, HQ. apply still_upd; [done|]. apply same_for_set_scheduled.
  - by apply wp_rec_still.
Qed.

Lemma still_wp_runCleanups e st (Q : result → state → Prop) :
  off o (nodes st) = true →
  (∀ r st', still o st st' → Q r st') → wp (runCleanups E rec e st) Q.
Proof using Hrec.
  intros Hoff HQ. unfold runCleanups.
  apply (wp_for_each _ (λ st', still o st st')).
  - apply still_upd; [done|]. apply same_for_set_cleanups.
  - intros f st1 _ H1. apply wp_rec_still; [apply H1|]. intros [v|err] st2 H2.
    + by eapply still_trans.
    + apply HQ. by eapply still_trans.
  - intros st' H1. by apply HQ.
Qed.

Lemma still_wp_execute e st (Q : result → state → Prop) :
  off o (nodes st) = true →
  (∀ r st', still o st st' → Q r st') → wp (EffectComputation_execute E rec e st) Q.
Proof using Hrec.
  intros Hoff HQ. unfold EffectComputation_execute.
  destruct (disposed (effect_of (nodes st) e)) eqn:Hd; [by apply wp_ret, HQ, still_refl|].
  pose proof (off_not_live_effect _ _ _ Hoff Hd) as Hne.
  assert (still o st (upd (set_scheduled e false) (upd (set_running e true) st))) as H0.
  { eapply still_trans; [apply still_upd; [done|apply same_for_set_running]|].
    apply still_upd; [|apply same_for_set_scheduled].
    cbn [nodes upd]. by rewrite (same_off _ _ _ (same_for_set_running o e true (nodes st))). }
  apply wp_bind, still_wp_runCleanups; [apply H0|].
  intros [v|err] st1 H1; [|apply HQ; by eapply still_trans].
  assert (still o st st1) as H1' by (by eapply still_trans). clear H0 H1.
  assert (still o st (set_activeEffect (Some e) st1)) as H1''.
  { eapply still_trans; [exact H1'|]. apply still_fields; [apply H1'|done|done]. }
  apply wp_bind, wp_finally, wp_bind, still_wp_collect; [apply H1''|done|].
  intros r st2 H2.
  assert (still o st st2) as H2'.
  { eapply still_trans; [exact H1''|exact H2]. }
  assert (∀ r' st3, still o st st3 →
    wp (ret VUndef (upd (set_running e false) (set_activeEffect (activeEffect st1) st3)))
       (λ r'' st4,
          match r'' with
          | Normal _ =>
              match r' with
              | Normal v0 =>
                  wp (if scheduled (effect_of (nodes st4) e)
                      then rec (TExecute e) st4 else ret VUndef st4) Q
              | Thrown e0 => Q (Thrown e0) st4
              end
          | Thrown e0 => Q (Thrown e0) st4
          end)) as Hfin.
  { intros r' st3 H3. apply wp_ret.
    assert (still o st (upd (set_running e false)
                          (set_activeEffect (activeEffect st1) st3))) as H4.
    { eapply still_trans; [exact H3|].
      eapply still_trans; [apply (still_fields o st3 (set_activeEffect (activeEffect st1) st3));
                           [apply H3|done|done]|].
      apply still_upd; [apply H3|apply same_for_set_running]. }
    destruct r' as [v0|e0]; [|by apply HQ].
    destruct (scheduled _); [|by apply wp_ret, HQ].
    apply wp_rec_still; [apply H4|]. by apply (still_then st). }
  destruct r as [maybeCleanup|err].
  - destruct maybeCleanup; apply wp_ret; apply (Hfin (Normal VUndef)); try done.
    eapply still_trans; [exact H2'|]. apply still_upd; [apply H2'|apply same_for_set_cleanups].
  - by apply (Hfin (Thrown err)).
Qed.

Lemma still_wp_recompute m st (Q : result → state → Prop) :
  off o (nodes st) = true →
  (∀ r st', still o st st' → Q r st') → wp (MemoSource_recompute E rec m st) Q.
Proof using Hrec.
  intros Hoff HQ. unfold MemoSource_recompute.
  destruct (computing _); [by apply wp_ret, HQ, still_refl|].
  pose proof (off_not_memo _ _ m Hoff) as Hne.
  assert (still o st (upd (set_computing m true) st)) as H0.
  { apply still_upd; [done|apply same_for_set_computing]. }
  apply wp_finally, wp_bind, still_wp_collect; [apply H0|done|]. intros r st1 H1.
  assert (still o st st1) as H1' by (by eapply still_trans).
  assert (∀ r' st2, still o st st2 →
    wp (ret VUndef (upd (set_computing m false) st2))
       (λ r'' st3, match r'' with
                   | Normal _ => Q r' st3
                   | Thrown e0 => Q (Thrown e0) st3
                   end)) as Hfin.
  { intros r' st2 H2. apply wp_ret. apply HQ.
    eapply still_trans; [exact H2|]. apply still_upd; [apply H2|apply same_for_set_computing]. }
  destruct r as [nextValue|err]; [|by apply Hfin].
  assert (still o st (upd (set_memo_result m nextValue) st1)) as H2.
  { eapply still_trans; [exact H1'|].
    apply still_upd; [apply H1'|apply same_for_set_memo_result]. }
  destruct (negb _ || negb _).
  - apply wp_rec_still; [apply H2|]. intros r' st2 H3. apply Hfin. by eapply still_trans.
  - by apply wp_ret, Hfin.
Qed.

Lemma still_wp_MemoSource_get m st (Q : result → state → Prop) :
  off o (nodes st) = true →
  (∀ r st', still o st st' → Q r st') → wp (MemoSource_get rec m st) Q.
Proof using Hrec.
  intros Hoff HQ. unfold MemoSource_get. apply wp_bind.
  pose proof (still_trackDependency o (DMemo m) st Hoff) as H0.
  destruct (hasValue _).
  - by apply wp_ret, wp_ret, HQ.
  - apply wp_rec_still; [apply H0|]. intros [v|err] st1 H1.
    + apply wp_ret, HQ. by eapply still_trans.
    + apply HQ. by eapply still_trans.
Qed.

Lemma still_wp_call_subscriber cb st (Q : result → state → Prop) :
  off o (nodes st) = true →
  (∀ r st', still o st st' → Q r st') → wp (call_subscriber rec cb st) Q.
Proof using Hrec.
  intros Hoff HQ. unfold call_subscriber.
  assert (still o st (emit (EvInvoke cb) st)) as H0 by (by apply still_emit).
  destruct cb as [m|e|c].
  - apply wp_rec_still; [apply H0|]. by apply (still_then st).
  - apply still_wp_schedule; [apply H0|]. by apply (still_then st).
  - destruct (suppressRenderInvalidation _) eqn:Hs; apply wp_ret, HQ; [done|].
    eapply still_trans; [exact H0|]. apply still_upd; [apply H0|].
    apply same_for_force_update. intros ->. cbn in Hoff. cbn in Hs. congruence.
Qed.

Lemma still_wp_notifySubscriber cb st (Q : result → state → Prop) :
  off o (nodes st) = true →
  (∀ r st', still o st st' → Q r st') → wp (notifySubscriber rec cb st) Q.
Proof using Hrec.
  intros Hoff HQ. unfold notifySubscriber.
  assert (still o st (emit (EvNotify cb) st)) as H0 by (by apply still_emit).
  case_bool_decide as Hd.
  - apply wp_ret, HQ. eapply still_trans; [exact H0|]. apply still_fields; [apply H0|done|done].
  - apply still_wp_call_subscriber; [apply H0|]. by apply (still_then st).
Qed.

Lemma still_wp_flushSubscribers st (Q : result → state → Prop) :
  off o (nodes st) = true →
  (∀ r st', still o st st' → Q r st') → wp (flushSubscribers rec st) Q.
Proof using Hrec.
  intros Hoff HQ. unfold flushSubscribers.
  destruct (pendingSubscribers st) as [|cb queued] eqn:Hp; [by apply wp_ret, HQ, still_refl|].
  apply wp_bind.
  apply (wp_for_each _ (λ st', still o st st')).
  - by apply still_fields.
  - intros cb' st1 _ H1. apply still_wp_call_subscriber; [apply H1|]. intros [v|err] st2 H2.
    + by eapply still_trans.
    + apply HQ. by eapply still_trans.
  - intros st1 H1. apply wp_rec_still; [apply H1|]. by apply (still_then st).
Qed.

Lemma still_wp_notify_all d i st (Q : result → state → Prop) :
  off o (nodes st) = true →
  (∀ r st', still o st st' → Q r st') → wp (notify_all rec d i st) Q.
Proof using Hrec.
  intros Hoff HQ. unfold notify_all.
  destruct (subscribers_of (nodes st) d !! i) as [[cb|]|].
  - apply wp_bind, still_wp_notifySubscriber; [done|]. intros [v|err] st1 H1; [|by apply HQ].
    apply wp_rec_still; [apply H1|]. by apply (still_then st).
  - by apply wp_rec_still.
  - by apply wp_ret, HQ, still_refl.
Qed.

Lemma still_wp_SignalSource_set s v st (Q : result → state → Prop) :
  off o (nodes st) = true →
  (∀ r st', still o st st' → Q r st') → wp (SignalSource_set E rec s v st) Q.
Proof using Hrec.
  intros Hoff HQ. unfold SignalSource_set. apply wp_bind.
  assert (∀ resolved st1, still o st st1 →
    wp (let st2 := upd (set_sig_value s resolved) st1 in
        bind (if object_is (sig_value (signal_of (nodes st) s)) resolved
              then ret VUndef st2 else rec (TNotifyAll (DSig s) 0) st2)
             (λ _ st3, ret resolved st3)) Q) as Hk.
  { intros resolved st1 H1. cbn zeta. apply wp_bind.
    assert (still o st (upd (set_sig_value s resolved) st1)) as H2.
    { eapply still_trans; [exact H1|]. apply still_upd; [apply H1|apply same_for_set_sig_value]. }
    destruct (object_is _ _).
    - by apply wp_ret, wp_ret, HQ.
    - apply wp_rec_still; [apply H2|]. intros [v'|err] st2 H3.
      + apply wp_ret, HQ. by eapply still_trans.
      + apply HQ. by eapply still_trans. }
  destruct v; try (by apply wp_ret, Hk, still_refl).
  apply wp_rec_still; [done|]. intros [v'|err] st1 H1; [by apply Hk|by apply HQ].
Qed.

Lemma still_wp_batch fn st (Q : result → state → Prop) :
  off o (nodes st) = true →
  (∀ r st', still o st st' → Q r st') → wp (batch rec fn st) Q.
Proof using Hrec.
  intros Hoff HQ. unfold batch.
  assert (still o st (set_batchDepth (batchDepth st + 1) st)) as H0 by (by apply still_fields).
  apply wp_finally, wp_rec_still; [apply H0|]. intros r st1 H1. cbn zeta.
  assert (still o st (set_batchDepth (batchDepth st1 - 1) st1)) as H2.
  { eapply still_trans; [exact H0|]. eapply still_trans; [exact H1|].
    apply still_fields; [apply H1|done|done]. }
  case_bool_decide as Hz.
  - apply wp_rec_still; [apply H2|]. intros r' st2 H3.
    assert (still o st st2) as H by (by eapply still_trans).
    destruct r'; by apply HQ.
  - apply wp_ret. by apply HQ.
Qed.

Lemma still_wp_untrack fn st (Q : result → state → Prop) :
  off o (nodes st) = true →
  (∀ r st', still o st st' → Q r st') → wp (untrack rec fn st) Q.
Proof using Hrec.
  intros Hoff HQ. unfold untrack.
  assert (still o st (popCollector st)) as H0 by (by apply still_fields).
  apply wp_finally, wp_rec_still; [apply H0|]. intros r st1 H1.
  assert (still o st st1) as H1' by (by eapply still_trans).
  destruct (last (collectorStack st)); apply wp_ret; apply HQ; [|done].
  eapply still_trans; [exact H1'|]. apply still_fields; [apply H1'|done|done].
Qed.

Lemma still_wp_exec p st (Q : result → state → Prop) :
  off o (nodes st) = true →
  (∀ r st', still o st st' → Q r st') → wp (exec E rec p st) Q.
Proof using Hrec.
  intros Hoff HQ.
  assert (∀ p' st1, still o st st1 → wp (rec (TProg p') st1) Q) as Hk.
  { intros p' st1 H1. apply wp_rec_still; [apply H1|]. by apply (still_then st). }
  destruct p; cbn [exec].
  - by apply HQ, still_refl.
  - by apply HQ, still_refl.
  - unfold SignalSource_get. apply wp_bind, wp_ret, Hk. by apply still_trackDependency.
  - apply wp_bind, still_wp_SignalSource_set; [done|].
    intros [v'|err] st1 H1; [by apply Hk|by apply HQ].
  - apply wp_bind, still_wp_MemoSource_get; [done|].
    intros [v'|err] st1 H1; [by apply Hk|by apply HQ].
  - apply wp_bind, still_wp_untrack; [done|].
    intros [v'|err] st1 H1; [by apply Hk|by apply HQ].
  - apply wp_bind, still_wp_batch; [done|].
    intros [v'|err] st1 H1; [by apply Hk|by apply HQ].
  - pose proof (wp_rec_still (TProg p) st (λ r st1, still o st st1) Hoff) as Hp.
    destruct (rec (TProg p) st) as [|[v'|err] st1]; [done| |].
    + apply Hk. by apply Hp.
    + assert (still o st st1) as H1 by (by apply Hp).
      apply wp_bind. apply wp_rec_still; [apply H1|]. intros [v'|err'] st2 H2.
      * apply Hk. by eapply still_trans.
      * apply HQ. by eapply still_trans.
  - apply Hk. by apply still_fields.
  - apply Hk. by apply still_fields.
  - apply Hk. by apply still_refl.
Qed.

Lemma dispatch_still t st : wp (dispatch E rec t st) (Post_still o t st).
Proof using Hrec.
  unfold Post_still. destruct t; simpl.
  - destruct (off o (nodes st)) eqn:Hoff.
    + apply still_wp_exec; [done|]. by intros.
    + apply wp_always. intros r st' Hoff'. congruence.
  - destruct (off o (nodes st)) eqn:Hoff.
    + apply still_wp_notify_all; [done|]. by intros.
    + apply wp_always. intros r st' Hoff'. congruence.
  - destruct (off o (nodes st)) eqn:Hoff.
    + apply still_wp_flushSubscribers; [done|]. by intros.
    + apply wp_always. intros r st' Hoff'. congruence.
  - destruct (off o (nodes st)) eqn:Hoff.
    + apply still_wp_recompute; [done|]. by intros.
    + apply wp_always. intros r st' Hoff'. congruence.
  - destruct (off o (nodes st)) eqn:Hoff.
    + apply still_wp_execute; [done|]. by intros.
    + apply wp_always. intros r st' Hoff'. congruence.
Qed.
End StillStep.

Lemma run_still E o fuel : rec_ok (run E fuel) (Post_still o).
Proof. apply run_wp. intros rec Hrec t st. by apply dispatch_still. Qed.

(** ** Disposed effects and [updateProps] *)

(** X8.  Whatever a library call or user code does leaves the scheduler's
    bookkeeping as it found it, also when it throws: the collector stack,
    the batch depth and the active effect are the same after the call as
    before. *)
Theorem calls_restore_the_scheduler (E : env) (fuel : nat) (t : task) (st : state)
    (r : result) (st' : state) :
  run E fuel t st = Done r st' →
  collectorStack st' = collectorStack st
  ∧ batchDepth st' = batchDepth st
  ∧ activeEffect st' = activeEffect st
  ∧ ∃ l, trace st' = trace st ++ l.
Proof.
  intros Hrun. pose proof (run_basic E fuel t st) as Hwp.
  rewrite Hrun in Hwp. destruct Hwp as [Hs Hd Ha (l & Hl & _)].
  split_and!; try done. by exists l.
Qed.

(** X9.  Disposal is final.  Once an effect is disposed nothing starts its
    body again: whatever runs afterwards (user code, a notification loop, a
    flush, [execute] of the effect itself), the effect is still disposed,
    its body was not started, and its subscriptions and its places in
    subscriber sets are as they were. *)
Theorem disposed_effect_never_runs (E : env) (fuel : nat) (t : task) (e : nat)
    (st : state) (r : result) (st' : state) :
  disposed (effect_of (nodes st) e) = true →
  run E fuel t st = Done r st' →
  disposed (effect_of (nodes st') e) = true
  ∧ run_count (OEffect e) st' = run_count (OEffect e) st
  ∧ subscriptions (eff_tracker (effect_of (nodes st') e))
    = subscriptions (eff_tracker (effect_of (nodes st) e))
  ∧ ∀ d, OEffect e ∈ jsset_live (subscribers_of (nodes st') d)
         ↔ OEffect e ∈ jsset_live (subscribers_of (nodes st) d).
Proof.
  intros Hd Hrun. pose proof (run_still E (OEffect e) fuel t st) as Hwp.
  rewrite Hrun in Hwp. destruct (Hwp Hd) as [Hoff Hruns [_ _ Hsubs Hin]].
  split_and!; done.
Qed.

(** *** dispose *)

Lemma tracker_dispose_fold o (l : list dep) : ∀ g,
  let g' := foldl (λ g d, unsubscribe d o g) g l in
  (∀ d, subscribers_of g' d
        = if bool_decide (d ∈ l) then jsset_delete o (subscribers_of g d)
          else subscribers_of g d)
  ∧ tracker_of g' o = tracker_of g o
  ∧ off o g' = off o g.
Proof.
  induction l as [|d0 l IH]; intros g; cbn zeta.
  { split_and!; try done;
      intros d; by rewrite bool_decide_eq_false_2 by apply not_elem_of_nil. }
  cbn [foldl]. destruct (IH (unsubscribe d0 o g)) as (Hsubs & Ht & Hoff). split_and!.
  - intros d. rewrite Hsubs.
    assert (subscribers_of (unsubscribe d0 o g) d
            = if decide (d0 = d) then jsset_delete o (subscribers_of g d0)
              else subscribers_of g d) as ->.
    { unfold unsubscribe. by rewrite subscribers_of_set_subscribers. }
    destruct (decide (d0 = d)) as [<-|Hne].
    + rewrite jsset_delete_idemp. rewrite (bool_decide_eq_true_2 (d0 ∈ d0 :: l)) by left.
      by case_bool_decide.
    + apply (f_equal (λ b : bool, if b then _ else _)). apply bool_decide_ext.
      rewrite elem_of_cons. split; [by right|]. by intros [->|?].
  - rewrite Ht. unfold unsubscribe. by rewrite tracker_of_set_subscribers.
  - rewrite Hoff. unfold unsubscribe. by rewrite off_set_subscribers.
Qed.

Lemma tracker_dispose_spec o g :
  (∀ d, subscribers_of (tracker_dispose o g) d
        = if bool_decide (d ∈ subscriptions (tracker_of g o))
          then jsset_delete o (subscribers_of g d)
          else subscribers_of g d)
  ∧ subscriptions (tracker_of (tracker_dispose o g) o) = []
  ∧ off o (tracker_dispose o g) = off o g.
Proof.
  destruct (tracker_dispose_fold o (subscriptions (tracker_of g o)) g) as (Hsubs & Ht & Hoff).
  unfold tracker_dispose. split_and!.
  - intros d. by rewrite subscribers_of_set_tracker, Hsubs.
  - by rewrite tracker_of_set_tracker.
  - by rewrite off_set_tracker.
Qed.

Lemma same_for_set_disposed o e b g :
  subscriptions (tracker_of (set_disposed e b g) o) = subscriptions (tracker_of g o)
  ∧ ∀ d, subscribers_of (set_disposed e b g) d = subscribers_of g d.
Proof.
  split.
  - destruct o as [m|e'|c]; try reflexivity. unfold set_disposed. cbn [tracker_of].
    rewrite effect_of_set_effect. case_decide; [by subst|done].
  - intros d. unfold set_disposed. by rewrite subscribers_of_set_effect.
Qed.

(** X10.  [dispose] of an effect.  The effect is disposed afterwards, on
    every exit, and its body was not started by the call (the cleanups may
    run anything).  When the call returns normally on an effect that was
    not disposed, the effect has no subscription left and, if its
    subscriptions agreed with the subscriber sets before, it is in no
    subscriber set any more.  A second [dispose] does nothing. *)
Theorem effect_dispose_unsubscribes (E : env) (fuel : nat) (e : nat) (st : state)
    (r : result) (st' : state) :
  EffectComputation_dispose E (run E fuel) e st = Done r st' →
  disposed (effect_of (nodes st') e) = true
  ∧ run_count (OEffect e) st' = run_count (OEffect e) st
  ∧ (disposed (effect_of (nodes st) e) = false → (∃ v, r = Normal v) →
       subscriptions (eff_tracker (effect_of (nodes st') e)) = []
       ∧ (consistent (OEffect e) (nodes st) →
          ∀ d, OEffect e ∉ jsset_live (subscribers_of (nodes st') d)))
  ∧ EffectComputation_dispose E (run E fuel) e st' = ret VUndef st'.
Proof.
  intros Hdispose.
  assert (disposed (effect_of (nodes st') e) = true → 
          EffectComputation_dispose E (run E fuel) e st' = ret VUndef st') as Hagain.
  { intros Hd. unfold EffectComputation_dispose. by rewrite Hd. }
  unfold EffectComputation_dispose in Hdispose.
  destruct (disposed (effect_of (nodes st) e)) eqn:Hd.
  { injection Hdispose as <- <-. split_and!; [done|done|by intros|by apply Hagain]. }
  set (st0 := upd (set_disposed e true) st) in *.
  assert (off (OEffect e) (nodes st0) = true) as Hoff0.
  { unfold st0, set_disposed. cbn [off nodes upd].
    by rewrite effect_of_set_effect, decide_True. }
  destruct (same_for_set_disposed (OEffect e) e true (nodes st)) as [Ht0 Hs0].
  pose proof (still_wp_runCleanups E (run E fuel) (OEffect e) (run_still E (OEffect e) fuel)
                e st0 (λ _ st1, still (OEffect e) st0 st1) Hoff0 (λ _ _ H, H)) as Hwp.
  destruct (runCleanups E (run E fuel) e st0) as [|[v|err] st1] eqn:Hclean; [done| |].
  - cbn [bind ret] in Hdispose. injection Hdispose as <- <-.
    destruct Hwp as [Hoff1 Hruns1 [_ _ Hsubs1 Hin1]].
    destruct (tracker_dispose_spec (OEffect e) (nodes st1)) as (Hsubs & Hempty & Hoff).
    assert (disposed (effect_of (nodes (upd (tracker_dispose (OEffect e)) st1)) e) = true) as Hd'.
    { cbn [nodes upd]. change (off (OEffect e) (tracker_dispose (OEffect e) (nodes st1)) = true).
      by rewrite Hoff. }
    split_and!; [done|exact Hruns1| |by apply Hagain].
    intros _ _. split; [exact Hempty|].
    intros Hcons d. cbn [nodes upd]. rewrite Hsubs.
    rewrite elem_of_jsset_live. case_bool_decide as Hin.
    + rewrite elem_of_jsset_delete. by intros [_ ?].
    + rewrite <- elem_of_jsset_live. intros Hlive. apply Hin.
      apply Hin1 in Hlive. unfold subscribed in Hlive.
      change (nodes st0) with (set_disposed e true (nodes st)) in Hlive, Hsubs1.
      rewrite Hs0 in Hlive. apply Hcons in Hlive.
      rewrite Hsubs1, Ht0. exact Hlive.
  - cbn [bind] in Hdispose. injection Hdispose as <- <-.
    destruct Hwp as [Hoff1 Hruns1 _].
    split_and!; [exact Hoff1|exact Hruns1| |by apply Hagain].
    intros _ (v & [=]).
Qed.

(** *** updateProps *)

Lemma same_for_set_suppress o c b g :
  o ≠ ORender c → same_for o g (set_suppress c b g).
Proof.
  intros Hne. unfold set_suppress. split.
  - destruct o as [m|e|c']; try reflexivity. cbn [off].
    rewrite component_of_set_component. case_decide; [congruence|done].
  - destruct o as [m|e|c']; try reflexivity. cbn [updates].
    rewrite component_of_set_component. case_decide; [congruence|done].
  - destruct o as [m|e|c']; try reflexivity. cbn [tracker_of].
    rewrite component_of_set_component. case_decide; [by subst|done].
  - intros d. unfold subscribed. by rewrite subscribers_of_set_component.
Qed.

(** X11.  [updateProps] never invalidates the component's own render.  While
    it installs the next props the component's render subscriber is muted:
    whatever the subscribers of the props do, [forceUpdate] of the component
    is not called by the call, on either exit, and the flag is down again
    afterwards. *)
Theorem updateProps_keeps_own_render (E : env) (fuel : nat) (c propsSource : nat)
    (nextProps : val) (st : state) (r : result) (st' : state) :
  ComponentInstance_updateProps E (run E fuel) c propsSource nextProps st = Done r st' →
  forceUpdates (component_of (nodes st') c) = forceUpdates (component_of (nodes st) c)
  ∧ suppressRenderInvalidation (component_of (nodes st') c) = false
  ∧ run_count (ORender c) st' = run_count (ORender c) st.
Proof.
  intros Hupdate. unfold ComponentInstance_updateProps in Hupdate.
  set (st0 := upd (set_suppress c true) st) in *.
  assert (off (ORender c) (nodes st0) = true) as Hoff0.
  { unfold st0, set_suppress. cbn [off nodes upd].
    by rewrite component_of_set_component, decide_True. }
  assert (forceUpdates (component_of (nodes st0) c) = forceUpdates (component_of (nodes st) c))
    as Hf0.
  { unfold st0, set_suppress. cbn [nodes upd].
    by rewrite component_of_set_component, decide_True. }
  pose proof (still_wp_SignalSource_set E (run E fuel) (ORender c) (run_still E (ORender c) fuel)
                propsSource nextProps st0 (λ _ st1, still (ORender c) st0 st1) Hoff0
                (λ _ _ H, H)) as Hwp.
  destruct (SignalSource_set E (run E fuel) propsSource nextProps st0) as [|r1 st1] eqn:Hset;
    [done|].
  cbn [finally ret] in Hupdate. injection Hupdate as <- <-.
  destruct Hwp as [_ Hruns [_ Hupd _ _]]. cbn [updates] in Hupd.
  unfold set_suppress. cbn [nodes upd]. rewrite component_of_set_component, decide_True by done.
  cbn [forceUpdates suppressRenderInvalidation]. split_and!; [congruence|done|exact Hruns].
Qed.

(** *** On the counter *)

(** [setCount(5)] with the effect and the memo subscribed. *)
Lemma calls_restore_the_scheduler_witness :
  ∃ r st',
    run counter_env 20 (TProg (SigSet 0 (VNum 5) Ret)) counter_started = Done r st'
    ∧ collectorStack st' = collectorStack counter_started
    ∧ batchDepth st' = batchDepth counter_started
    ∧ activeEffect st' = activeEffect counter_started
    ∧ ∃ l, trace st' = trace counter_started ++ l.
Proof.
  eexists _, _. split; [vm_compute; reflexivity|].
  eapply (calls_restore_the_scheduler counter_env 20 (TProg (SigSet 0 (VNum 5) Ret))
            counter_started).
  vm_compute. reflexivity.
Defined.

(** [setCount(5)] after the effect was disposed while still subscribed. *)
Lemma disposed_effect_never_runs_witness :
  disposed (effect_of (nodes counter_disposed) 0) = true
  ∧ OEffect 0 ∈ jsset_live (subscribers_of (nodes counter_disposed) (DSig 0))
  ∧ ∃ r st',
      run counter_env 20 (TProg (SigSet 0 (VNum 5) Ret)) counter_disposed = Done r st'
      ∧ disposed (effect_of (nodes st') 0) = true
      ∧ run_count (OEffect 0) st' = run_count (OEffect 0) counter_disposed
      ∧ subscriptions (eff_tracker (effect_of (nodes st') 0))
        = subscriptions (eff_tracker (effect_of (nodes counter_disposed) 0))
      ∧ ∀ d, OEffect 0 ∈ jsset_live (subscribers_of (nodes st') d)
             ↔ OEffect 0 ∈ jsset_live (subscribers_of (nodes counter_disposed) d).
Proof.
  assert (disposed (effect_of (nodes counter_disposed) 0) = true) as Hd
    by (vm_compute; reflexivity).
  split; [exact Hd|]. split; [apply list_elem_of_In; vm_compute; auto|].
  eexists _, _. split; [vm_compute; reflexivity|].
  eapply (disposed_effect_never_runs counter_env 20 (TProg (SigSet 0 (VNum 5) Ret)) 0
            counter_disposed); [exact Hd|].
  vm_compute. reflexivity.
Defined.

Lemma effect_dispose_unsubscribes_witness :
  disposed (effect_of (nodes counter_started) 0) = false
  ∧ ∃ r st',
      EffectComputation_dispose counter_env (run counter_env 20) 0 counter_started = Done r st'
      ∧ disposed (effect_of (nodes st') 0) = true
      ∧ run_count (OEffect 0) st' = run_count (OEffect 0) counter_started
      ∧ (disposed (effect_of (nodes counter_started) 0) = false → (∃ v, r = Normal v) →
           subscriptions (eff_tracker (effect_of (nodes st') 0)) = []
           ∧ (consistent (OEffect 0) (nodes counter_started) →
              ∀ d, OEffect 0 ∉ jsset_live (subscribers_of (nodes st') d)))
      ∧ EffectComputation_dispose counter_env (run counter_env 20) 0 st' = ret VUndef st'.
Proof.
  split; [vm_compute; reflexivity|].
  eexists _, _. split; [vm_compute; reflexivity|].
  eapply (effect_dispose_unsubscribes counter_env 20 0 counter_started).
  vm_compute. reflexivity.
Defined.

(** The props change while the component's render is subscribed to them. *)
Lemma updateProps_keeps_own_render_witness :
  ORender 0 ∈ jsset_live (subscribers_of (nodes counter_rendered) (DSig 0))
  ∧ ∃ r st',
      ComponentInstance_updateProps counter_env (run counter_env 20) 0 0 (VNum 7)
        counter_rendered = Done r st'
      ∧ forceUpdates (component_of (nodes st') 0)
        = forceUpdates (component_of (nodes counter_rendered) 0)
      ∧ suppressRenderInvalidation (component_of (nodes st') 0) = false
      ∧ run_count (ORender 0) st' = run_count (ORender 0) counter_rendered.
Proof.
  split; [apply list_elem_of_In; vm_compute; auto|].
  eexists _, _. split; [vm_compute; reflexivity|].
  eapply (updateProps_keeps_own_render counter_env 20 0 0 (VNum 7) counter_rendered).
  vm_compute. reflexivity.
Defined.

(** ** The keyed array projection: any update *)

Lemma find_from_found (done : list val) (ks1 ks2 : list val) (k0 k : val) :
  k0 ≠ k → k ∉ ks1 →
  find_from (done ++ k0 :: ks1 ++ k :: ks2) (length done) k
  = Some (length done + S (length ks1)).
Proof.
  intros Hk0 Hk1. unfold find_from.
  rewrite <- (Nat.add_1_r (length done)), <- drop_drop, drop_app_length.
  cbn [drop]. rewrite drop_0.
  assert (list_find (λ k', object_is k' k = true) (ks1 ++ k :: ks2)
          = Some (length ks1, k)) as ->.
  { apply list_find_Some. split_and!.
    - by rewrite lookup_app_r, Nat.sub_diag.
    - apply object_is_refl.
    - intros j y Hy Hj. rewrite lookup_app_l in Hy by done.
      apply list_elem_of_lookup_2 in Hy. rewrite object_is_ne; [done|]. by intros ->. }
  cbn. f_equal. lia.
Qed.

Lemma find_from_none (done ks : list val) (k : val) :
  k ∉ ks → find_from (done ++ ks) (length done) k = None.
Proof.
  intros Hk. unfold find_from.
  assert (list_find (λ k', object_is k' k = true) (drop (S (length done)) (done ++ ks)) = None)
    as ->; [|done].
  apply list_find_None. apply Forall_forall. intros y Hy.
  rewrite object_is_ne; [done|]. intros ->. apply Hk.
  rewrite <- (Nat.add_1_r (length done)), <- drop_drop in Hy.
  rewrite drop_app_length in Hy. by apply (subseteq_drop 1 ks).
Qed.

Lemma move_formula {A} (a b c : list A) (x d : A) :
  let l := a ++ b ++ x :: c in
  let f := length a + length b in
  let l' := take f l ++ drop (S f) l in
  take (length a) l' ++ [default d (l !! f)] ++ drop (length a) l' = a ++ [x] ++ b ++ c.
Proof.
  cbn zeta.
  assert (take (length a + length b) (a ++ b ++ x :: c) = a ++ b) as ->.
  { rewrite app_assoc. rewrite <- length_app. by rewrite take_app_length. }
  assert (drop (S (length a + length b)) (a ++ b ++ x :: c) = c) as ->.
  { rewrite app_assoc. rewrite <- length_app.
    rewrite <- (Nat.add_1_r (length (a ++ b))), <- drop_drop, drop_app_length. done. }
  assert ((a ++ b ++ x :: c) !! (length a + length b) = Some x) as ->.
  { rewrite app_assoc. rewrite <- length_app. by rewrite lookup_app_r, Nat.sub_diag. }
  rewrite <- app_assoc. rewrite take_app_length, drop_app_length. done.
Qed.

Lemma filter_ext_in {A} (P Q : A → Prop) `{∀ x, Decision (P x)} `{∀ x, Decision (Q x)}
    (l : list A) :
  (∀ x, x ∈ l → (P x ↔ Q x)) → filter P l = filter Q l.
Proof.
  induction l as [|x l IH]; intros Hl; [done|].
  rewrite !filter_cons. rewrite IH by (intros y Hy; apply Hl; by right).
  destruct (decide (P x)) as [HP|HP], (decide (Q x)) as [HQ|HQ]; try done.
  - exfalso. apply HQ, Hl; [by left|done].
  - exfalso. apply HP, Hl; [by left|done].
Qed.

Lemma filter_all {A} (P : A → Prop) `{∀ x, Decision (P x)} (l : list A) :
  (∀ x, x ∈ l → P x) → filter P l = l.
Proof.
  induction l as [|x l IH]; intros Hl; [done|].
  rewrite filter_cons_True by (apply Hl; by left). f_equal. apply IH.
  intros y Hy. apply Hl. by right.
Qed.

Lemma new_calls_ext ks ks' items : ∀ index,
  (∀ k, k ∈ items.*2 → (k ∈ ks ↔ k ∈ ks')) →
  new_calls ks items index = new_calls ks' items index.
Proof.
  induction items as [|[item k] items IH]; intros index Hks; [done|]. cbn [new_calls].
  rewrite IH by (intros k' Hk'; apply Hks; by right). f_equal.
  apply (f_equal (λ b : bool, if b then _ else _)). apply bool_decide_ext.
  apply Hks. by left.
Qed.

(** The first pair with the key [k]. *)
Lemma first_with_key (P : list (val * val)) (k : val) :
  k ∈ P.*1 → ∃ P1 x P2, P = P1 ++ (k, x) :: P2 ∧ k ∉ P1.*1.
Proof.
  induction P as [|[k0 x0] P IH]; [by intros ?%elem_of_nil|].
  cbn [fmap list_fmap fst]. intros Hk. destruct (decide (k0 = k)) as [->|Hne].
  - exists [], x0, P. split; [done|]. apply not_elem_of_nil.
  - apply elem_of_cons in Hk as [->|Hk]; [done|].
    destruct (IH Hk) as (P1 & x & P2 & -> & Hfresh).
    exists ((k0, x0) :: P1), x, P2. split; [done|]. cbn. apply not_elem_of_cons. by split.
Qed.

Lemma target_is_extend s l new map_calls' ks :
  target_is s l →
  target_is (Projection (target_root s) ks (pheap s ++ new) map_calls') l.
Proof.
  intros (t & Hr & Ht). exists t. cbn. split; [done|].
  rewrite lookup_app_l; [done|]. by eapply lookup_lt_Some.
Qed.

Lemma target_call_extends call s l :
  target_is s l → ∃ new, pheap (target_call call s).2 = pheap s ++ new.
Proof.
  destruct s as [root ks h calls]. intros (t & Hr & Ht). simpl in Hr, Ht. subst root.
  rewrite (target_call_root _ _ _ _ _ _ Ht).
  destruct call as [start deleteCount items| |items]; cbn [apply_native alloc fst snd pheap].
  - eexists. rewrite <- app_assoc. cbn [app].
    rewrite insert_app_r_alt by lia. rewrite Nat.sub_diag. cbn. reflexivity.
  - eexists. rewrite insert_app_r_alt by lia. rewrite Nat.sub_diag. cbn. reflexivity.
  - eexists. rewrite insert_app_r_alt by lia. rewrite Nat.sub_diag. cbn. reflexivity.
Qed.

(** A source item whose key is new: [map] is called and its result
    inserted. *)
Lemma mutate_step_new o item nextKey index s l :
  map_allocates o →
  target_is s l →
  (bool_decide (index < length (keys s))
   && object_is (default VUndef (keys s !! index)) nextKey) = false →
  find_from (keys s) index nextKey = None →
  ∃ s', mutate_step o item nextKey index s = Some s'
    ∧ target_is s' (take index l ++ [(opt_map o (pheap s) item index).1] ++ drop index l)
    ∧ keys s' = take index (keys s) ++ [nextKey] ++ drop index (keys s)
    ∧ map_calls s' = map_calls s ++ [(item, index)]
    ∧ ∃ new, pheap s' = pheap s ++ new.
Proof.
  intros Hm Hl Htest Hfind. unfold mutate_step. rewrite Htest, Hfind.
  destruct (Hm (pheap s) item index) as (new & Hnew).
  destruct (opt_map o (pheap s) item index) as [projected h]. cbn [fst snd] in *. subst h.
  set (s1 := Projection (target_root s) (keys s) (pheap s ++ new)
                        (map_calls s ++ [(item, index)])).
  assert (target_is s1 l) as Hl1 by (by apply target_is_extend).
  destruct (target_call_spec (Splice index 0 [projected]) s1 l Hl1) as (Hl2 & Hk2 & Hc2 & _).
  destruct (target_call_extends (Splice index 0 [projected]) s1 l Hl1) as (new2 & Hh2).
  destruct (target_call (Splice index 0 [projected]) s1) as [ignored s2]. cbn [fst snd] in *.
  eexists. split; [done|]. cbn [target_root pheap keys map_calls]. split_and!.
  - destruct Hl2 as (t & Hr & Ht). exists t. cbn [target_root pheap]. split; [done|].
    rewrite Ht. cbn [native_elems]. by rewrite Nat.add_0_r.
  - by rewrite Hk2.
  - by rewrite Hc2.
  - exists (new ++ new2). rewrite Hh2. cbn [pheap s1]. by rewrite app_assoc.
Qed.

Lemma mutate_step_extends o item nextKey index s l s' :
  update_writes_nothing o → map_allocates o → target_is s l →
  mutate_step o item nextKey index s = Some s' →
  ∃ new, pheap s' = pheap s ++ new.
Proof.
  intros Hu Hm Hl. unfold mutate_step.
  destruct (_ && _).
  { rewrite call_update_nothing by done. intros [= <-]. exists []. by rewrite app_nil_r. }
  destruct (find_from (keys s) index nextKey) as [foundIndex|].
  - destruct (target_call_spec (Splice foundIndex 1 []) s l Hl) as (Hl1 & _).
    destruct (target_call_extends (Splice foundIndex 1 []) s l Hl) as (new1 & Hh1).
    destruct (target_call (Splice foundIndex 1 []) s) as [removed s1]. cbn [fst snd] in *.
    set (moved := first_of (pheap s1) removed) in *.
    destruct (target_call_extends (Splice index 0 [moved]) s1 _ Hl1) as (new2 & Hh2).
    destruct (target_call (Splice index 0 [moved]) s1) as [ignored s2]. cbn [fst snd] in *.
    rewrite call_update_nothing by done. intros [= <-]. cbn [pheap].
    exists (new1 ++ new2). by rewrite Hh2, Hh1, app_assoc.
  - destruct (Hm (pheap s) item index) as (new & Hnew).
    destruct (opt_map o (pheap s) item index) as [projected h]. cbn [fst snd] in *. subst h.
    set (s1 := Projection (target_root s) (keys s) (pheap s ++ new)
                          (map_calls s ++ [(item, index)])).
    assert (target_is s1 l) as Hl1 by (by apply target_is_extend).
    destruct (target_call_extends (Splice index 0 [projected]) s1 l Hl1) as (new2 & Hh2).
    destruct (target_call (Splice index 0 [projected]) s1) as [ignored s2]. cbn [fst snd] in *.
    intros [= <-]. cbn [pheap]. exists (new ++ new2). rewrite Hh2. cbn. by rewrite app_assoc.
Qed.

(** The loop over the source.  [done] are the keys already placed, [A]
    the items under them, and [P] the pairs of key and item still to the
    right of the cursor; [items] are the remaining source items with their
    keys. *)
Lemma mutate_loop_spec o :
  update_writes_nothing o → map_allocates o →
  ∀ items done A P s,
    length A = length done →
    keys s = done ++ P.*1 → target_is s (A ++ P.*2) →
    NoDup (P.*1) → NoDup (items.*2) →
    let P' := filter (λ p, p.1 ∉ items.*2) P in
    ∃ s' A',
      mutate_loop o items (length done) s = Some s'
      ∧ keys s' = done ++ items.*2 ++ P'.*1
      ∧ target_is s' (A ++ A' ++ P'.*2)
      ∧ length A' = length items
      ∧ (∀ i k x, items.*2 !! i = Some k → (k, x) ∈ P → A' !! i = Some x)
      ∧ map_calls s' = map_calls s ++ new_calls (P.*1) items (length done)
      ∧ ∃ new, pheap s' = pheap s ++ new.
Proof.
  intros Hu Hm. induction items as [|[item k] items IH];
    intros done A P s HA Hkeys Hl HP Hitems; cbn zeta.
  { exists s, []. cbn [mutate_loop fmap list_fmap new_calls].
    rewrite filter_all by (intros p _; apply not_elem_of_nil).
    rewrite !app_nil_r. split_and!; try done.
    all: try (intros i k x Hi; by rewrite lookup_nil in Hi).
    all: try (exists []; by rewrite app_nil_r). }
  cbn [fmap list_fmap snd] in Hitems |- *. apply NoDup_cons in Hitems as [Hk Hitems].
  cbn [mutate_loop new_calls].
  assert (∀ (P0 : list (val * val)), k ∉ P0.*1 →
            filter (λ p, p.1 ∉ k :: items.*2) P0 = filter (λ p, p.1 ∉ items.*2) P0) as Hfilter.
  { intros P0 HP0. apply filter_ext_in. intros p Hp. rewrite not_elem_of_cons.
    split; [by intros [_ ?]|]. intros ?. split; [|done].
    intros Heq. apply HP0. rewrite <- Heq. apply list_elem_of_fmap. by exists p. }
  destruct (decide (k ∈ P.*1)) as [Hin|Hnew].
  - destruct (first_with_key P k Hin) as (P1 & x & P2 & -> & HP1).
    rewrite fmap_app, fmap_cons in HP, Hkeys, Hl. cbn [fst snd] in HP, Hkeys, Hl.
    apply NoDup_app in HP as (HnP1 & HP12 & HnP2). apply NoDup_cons in HnP2 as [HP2 HnP2].
    assert (NoDup ((P1 ++ P2).*1)) as HnP.
    { rewrite fmap_app. apply NoDup_app. split_and!; [done| |done].
      intros y Hy Hy2. apply (HP12 y Hy). by right. }
    assert (k ∉ (P1 ++ P2).*1) as HkP.
    { rewrite fmap_app. apply not_elem_of_app. by split. }
    assert (∃ s1, mutate_step o item k (length done) s = Some s1
                  ∧ keys s1 = (done ++ [k]) ++ (P1 ++ P2).*1
                  ∧ target_is s1 ((A ++ [x]) ++ (P1 ++ P2).*2)
                  ∧ map_calls s1 = map_calls s
                  ∧ ∃ new, pheap s1 = pheap s ++ new)
      as (s1 & Hstep & Hkeys1 & Hl1 & Hc1 & Hh1).
    { destruct P1 as [|[k0 x0] P1].
      - exists s. cbn [app fmap list_fmap] in *. split_and!.
        + apply (mutate_step_keep o item k (length done) s k Hu); [|apply object_is_refl].
          rewrite Hkeys. by rewrite lookup_app_r, Nat.sub_diag.
        + by rewrite Hkeys, <- app_assoc.
        + by rewrite <- app_assoc.
        + done.
        + exists []. by rewrite app_nil_r.
      - cbn [app fmap list_fmap fst snd] in *.
        apply not_elem_of_cons in HP1 as [Hk0 HP1].
        destruct (mutate_step_move o item k (length done) s _ (length done + S (length P1.*1))
                    Hu Hl) as (s1 & Hstep & Hl1 & Hkeys1 & Hc1).
        { rewrite Hkeys. rewrite lookup_app_r, Nat.sub_diag by done. cbn.
          apply object_is_ne. congruence. }
        { rewrite Hkeys. by apply find_from_found. }
        exists s1. split; [done|]. split_and!.
        + rewrite Hkeys1, Hkeys.
          pose proof (move_formula done (k0 :: P1.*1) (P2.*1) k VUndef) as Hmove.
          cbn zeta in Hmove |- *. etrans; [exact Hmove|].
          rewrite fmap_app. cbn [app]. by rewrite <- !app_assoc.
        + destruct Hl1 as (t & Hr & Ht). exists t. split; [done|]. rewrite Ht. f_equal. f_equal.
          pose proof (move_formula A (x0 :: P1.*2) (P2.*2) x VUndef) as Hmove.
          cbn zeta in Hmove |- *. cbn [length] in Hmove.
          rewrite !length_fmap in Hmove |- *. rewrite <- HA.
          etrans; [exact Hmove|].
          rewrite fmap_app. cbn [app]. by rewrite <- !app_assoc.
        + done.
        + by eapply mutate_step_extends. }
    rewrite Hstep. cbn [mbind option_bind].
    destruct (IH (done ++ [k]) (A ++ [x]) (P1 ++ P2) s1) as
      (s' & A' & Hloop & Hkeys' & Hl' & HA' & Hreuse & Hcalls & Hh'); try done.
    { rewrite !length_app. cbn. lia. }
    rewrite length_app, Nat.add_1_r in Hloop, Hcalls. cbn [length] in Hloop, Hcalls.
    exists s', (x :: A'). split; [done|].
    assert (filter (λ p, p.1 ∉ k :: items.*2) (P1 ++ (k, x) :: P2)
            = filter (λ p, p.1 ∉ items.*2) (P1 ++ P2)) as ->.
    { rewrite !filter_app, filter_cons_False by (cbn; intros Hf; apply Hf; by left).
      rewrite <- !filter_app. by apply Hfilter. }
    split_and!.
    + rewrite Hkeys'. by rewrite <- !app_assoc.
    + destruct Hl' as (t & Hr & Ht). exists t. split; [done|]. rewrite Ht.
      by rewrite <- !app_assoc.
    + cbn. by rewrite HA'.
    + intros i k' x' Hi Hx'. destruct i as [|i].
      * cbn in Hi. injection Hi as <-. cbn. f_equal.
        apply elem_of_app in Hx' as [Hx'|Hx'].
        -- exfalso. apply HP1. apply list_elem_of_fmap. by exists (k, x').
        -- apply elem_of_cons in Hx' as [[= ->]|Hx']; [done|].
           exfalso. apply HP2. apply list_elem_of_fmap. by exists (k, x').
      * cbn in Hi. cbn. apply (Hreuse i k' x' Hi).
        assert (k' ≠ k) as Hne.
        { intros ->. apply Hk. by eapply list_elem_of_lookup_2. }
        apply elem_of_app in Hx' as [Hx'|Hx']; apply elem_of_app; [by left|right].
        apply elem_of_cons in Hx' as [[= ? ?]|Hx']; [done|done].
    + rewrite Hcalls, Hc1. rewrite bool_decide_eq_true_2 by done. cbn [app]. f_equal.
      apply new_calls_ext. intros k' Hk'. rewrite !fmap_app, fmap_cons. cbn [fst].
      rewrite !elem_of_app, elem_of_cons. split; [tauto|].
      intros [?|[->|?]]; [tauto|done|tauto].
    + destruct Hh1 as (new1 & Hh1), Hh' as (new' & Hh'). exists (new1 ++ new').
      by rewrite Hh', Hh1, app_assoc.
  - destruct (mutate_step_new o item k (length done) s _ Hm Hl)
      as (s1 & Hstep & Hl1 & Hkeys1 & Hc1 & Hh1).
    { rewrite Hkeys. destruct P as [|[k0 x0] P].
      - rewrite app_nil_r. rewrite bool_decide_eq_false_2 by lia. done.
      - rewrite lookup_app_r, Nat.sub_diag by done. cbn.
        rewrite object_is_ne; [by rewrite andb_false_r|].
        intros ->. apply Hnew. by left. }
    { rewrite Hkeys. by apply find_from_none. }
    rewrite Hstep. cbn [mbind option_bind].
    set (projected := (opt_map o (pheap s) item (length done)).1) in *.
    rewrite Hkeys in Hkeys1. rewrite take_app_length, drop_app_length in Hkeys1.
    rewrite <- HA in Hl1. rewrite take_app_length, drop_app_length in Hl1.
    destruct (IH (done ++ [k]) (A ++ [projected]) P s1) as
      (s' & A' & Hloop & Hkeys' & Hl' & HA' & Hreuse & Hcalls & Hh'); try done.
    { rewrite !length_app. cbn. lia. }
    { rewrite Hkeys1. by rewrite <- !app_assoc. }
    { destruct Hl1 as (t & Hr & Ht). exists t. split; [done|]. rewrite Ht.
      by rewrite <- !app_assoc. }
    rewrite length_app, Nat.add_1_r in Hloop, Hcalls. cbn [length] in Hloop, Hcalls.
    exists s', (projected :: A'). split; [done|].
    rewrite (Hfilter P Hnew). split_and!.
    + rewrite Hkeys'. by rewrite <- !app_assoc.
    + destruct Hl' as (t & Hr & Ht). exists t. split; [done|]. rewrite Ht.
      by rewrite <- !app_assoc.
    + cbn. by rewrite HA'.
    + intros i k' x' Hi Hx'. destruct i as [|i].
      * cbn in Hi. injection Hi as <-. exfalso. apply Hnew.
        apply list_elem_of_fmap. by exists (k, x').
      * cbn in Hi. cbn. by apply (Hreuse i k' x' Hi).
    + rewrite Hcalls, Hc1. rewrite bool_decide_eq_false_2 by done. by rewrite <- app_assoc.
    + destruct Hh1 as (new1 & Hh1), Hh' as (new' & Hh'). exists (new1 ++ new').
      by rewrite Hh', Hh1, app_assoc.
Qed.

(** [while (target.length > list.length) target.pop()] *)
Lemma pop_target_spec : ∀ n rest l s,
  target_is s (l ++ rest) → length rest ≤ n →
  let s' := pop_target n (length l) s in
  target_is s' l ∧ keys s' = keys s ∧ map_calls s' = map_calls s
  ∧ ∃ new, pheap s' = pheap s ++ new.
Proof.
  assert (∀ l s, target_is s l → ∃ new : heap_t, pheap s = pheap s ++ new) as Hnil.
  { intros. exists []. by rewrite app_nil_r. }
  induction n as [|n IH]; intros rest l s Hl Hn; cbn zeta.
  { destruct rest; [|cbn in Hn; lia]. rewrite app_nil_r in Hl. cbn. eauto. }
  cbn [pop_target]. rewrite (target_is_elems _ _ Hl), length_app.
  destruct (exists_last_or_nil rest) as [->|(rest' & x & ->)].
  { rewrite app_nil_r in Hl. cbn [length]. rewrite bool_decide_eq_false_2 by lia. eauto. }
  rewrite bool_decide_eq_true_2 by (rewrite length_app; cbn; lia).
  destruct (target_call_spec Pop s _ Hl) as (Hl1 & Hk1 & Hc1 & _).
  destruct (target_call_extends Pop s _ Hl) as (new1 & Hh1).
  cbn [native_elems] in Hl1. rewrite app_assoc, removelast_last in Hl1.
  destruct (IH rest' l _ Hl1) as (Hl2 & Hk2 & Hc2 & new2 & Hh2).
  { rewrite length_app in Hn. cbn in Hn. lia. }
  split_and!; [done|congruence|congruence|].
  exists (new1 ++ new2). by rewrite Hh2, Hh1, app_assoc.
Qed.

Lemma mutate_reuses_by_key (o : ArrayProjectionOptions) (s : projection)
    (L source : list val) :
  update_writes_nothing o → map_allocates o →
  target_is s L → length L = length (keys s) →
  NoDup (keys s) → NoDup (source_keys o (pheap s) source) →
  ∃ s' L',
    mutate o source s = Some s'
    ∧ keys s' = source_keys o (pheap s) source
    ∧ target_is s' L' ∧ length L' = length source
    ∧ (∀ i j k, source_keys o (pheap s) source !! i = Some k →
                keys s !! j = Some k → L' !! i = L !! j)
    ∧ map_calls s'
      = map_calls s ++ new_calls (keys s) (zip source (source_keys o (pheap s) source)) 0
    ∧ ∃ new, pheap s' = pheap s ++ new.
Proof.
  intros Hu Hm Hl Hlen HK HN. unfold mutate. cbn zeta.
  fold (source_keys o (pheap s) source). set (N := source_keys o (pheap s) source) in *.
  assert (length N = length source) as HlenN by apply length_imap.
  set (P := zip (keys s) L).
  assert (P.*1 = keys s) as HP1 by (apply fst_zip; lia).
  assert (P.*2 = L) as HP2 by (apply snd_zip; lia).
  assert ((zip source N).*2 = N) as Hitems by (apply snd_zip; lia).
  destruct (mutate_loop_spec o Hu Hm (zip source N) [] [] P s)
    as (s1 & A' & Hloop & Hkeys1 & Hl1 & HA' & Hreuse & Hcalls & new1 & Hh1).
  { done. }
  { by rewrite HP1. }
  { by rewrite HP2. }
  { by rewrite HP1. }
  { by rewrite Hitems. }
  cbn [length app] in *. rewrite Hloop. cbn [mbind option_bind].
  rewrite Hitems in Hkeys1, Hreuse. rewrite HP1 in Hcalls.
  set (P' := filter (λ p, p.1 ∉ (zip source N).*2) P) in *.
  assert (length A' = length source) as HA''.
  { rewrite HA', length_zip. lia. }
  rewrite (target_is_elems _ _ Hl1).
  destruct (pop_target_spec (length (A' ++ P'.*2)) (P'.*2) A' s1 Hl1)
    as (Hl2 & Hk2 & Hc2 & new2 & Hh2).
  { rewrite length_app. lia. }
  rewrite HA'' in Hl2, Hk2, Hc2, Hh2.
  eexists _, A'. split; [done|]. cbn [keys target_root pheap map_calls]. split_and!.
  - rewrite Hk2, Hkeys1, <- HlenN. by rewrite take_app_length.
  - destruct Hl2 as (t & Hr & Ht). by exists t.
  - done.
  - intros i j k Hi Hj.
    destruct (lookup_lt_is_Some_2 L j) as [x Hx].
    { rewrite Hlen. by eapply lookup_lt_Some. }
    rewrite Hx. apply (Hreuse i k x Hi).
    apply list_elem_of_lookup. exists j. unfold P.
    apply lookup_zip_with_Some. by exists k, x.
  - by rewrite Hc2, Hcalls.
  - exists (new1 ++ new2). by rewrite Hh2, Hh1, app_assoc.
Qed.

(** X12.  The contract of a keyed projection.  The previous keys are
    distinct and so are the keys of the new source; [update] is absent or
    assigns nothing, and [map] only allocates.  Then an update succeeds; the
    keys become the keys of the source and the projected array has the
    length of the source; under every key that was present before, the
    array holds the very item it held under that key; [map] is called
    exactly for the source items whose key is new, in the order of the
    source; and no object of the previous heap is touched. *)
Theorem keyed_projection_reuses_by_key (o : ArrayProjectionOptions) (s : projection)
    (L source : list val) :
  update_writes_nothing o → map_allocates o →
  target_is s L → length L = length (keys s) →
  NoDup (keys s) → NoDup (source_keys o (pheap s) source) →
  ∃ s' L',
    mutate o source s = Some s'
    ∧ keys s' = source_keys o (pheap s) source
    ∧ target_is s' L' ∧ length L' = length source
    ∧ (∀ i j k, source_keys o (pheap s) source !! i = Some k →
                keys s !! j = Some k → L' !! i = L !! j)
    ∧ map_calls s'
      = map_calls s ++ new_calls (keys s) (zip source (source_keys o (pheap s) source)) 0
    ∧ ∃ new, pheap s' = pheap s ++ new.
Proof. apply mutate_reuses_by_key. Qed.

(** *** Without a key function *)

Lemma source_keys_unkeyed o h source :
  opt_key o = None → source_keys o h source = index_keys 0 (length source).
Proof.
  intros Hkey. unfold source_keys, index_keys, keyFn. rewrite Hkey.
  assert (∀ (f : nat → nat) i, (∀ j, f j = i + j) →
            imap (λ index _, VNum (Z.of_nat (f index))) source
            = (λ j, VNum (Z.of_nat j)) <$> seq i (length source)) as Hgen.
  { induction source as [|item source IH]; intros f i Hf; [done|].
    cbn [imap length seq fmap list_fmap]. rewrite Hf, Nat.add_0_r. f_equal.
    apply (IH (f ∘ S) (S i)). intros j. unfold compose. rewrite Hf. lia. }
  by apply (Hgen (λ j, j) 0).
Qed.

Lemma elem_of_index_keys i n p :
  VNum (Z.of_nat p) ∈ index_keys i n ↔ i ≤ p < i + n.
Proof.
  unfold index_keys. rewrite list_elem_of_fmap. split.
  - intros (j & [= Hj] & Hin). apply elem_of_seq in Hin. lia.
  - intros Hp. exists p. split; [done|]. apply elem_of_seq. lia.
Qed.

Lemma NoDup_index_keys i n : NoDup (index_keys i n).
Proof.
  unfold index_keys. apply NoDup_fmap_2; [|apply NoDup_seq].
  intros j1 j2 [= Hj]. lia.
Qed.

Lemma lookup_index_keys i n p : p < n → index_keys i n !! p = Some (VNum (Z.of_nat (i + p))).
Proof.
  intros Hp. unfold index_keys. rewrite list_lookup_fmap, lookup_seq_lt by done. done.
Qed.

(** The calls of [map] when the keys are indices: one for every position
    from [m] on. *)
Lemma new_calls_index m : ∀ source i,
  new_calls (index_keys 0 m) (zip source (index_keys i (length source))) i
  = imap (λ j item, (item, Nat.max i m + j)) (drop (m - i) source).
Proof.
  induction source as [|item source IH]; intros i; [by rewrite drop_nil|].
  cbn [length]. unfold index_keys at 2. cbn [seq fmap list_fmap zip zip_with new_calls].
  fold (index_keys (S i) (length source)). rewrite IH.
  case_bool_decide as Hin; apply elem_of_index_keys in Hin || rewrite elem_of_index_keys in Hin.
  - cbn [app]. replace (m - i) with (S (m - S i)) by lia. cbn [drop].
    by replace (Nat.max i m) with (Nat.max (S i) m) by lia.
  - replace (m - i) with 0 by lia. replace (m - S i) with 0 by lia. rewrite !drop_0.
    cbn [imap app]. f_equal; [f_equal; lia|].
    apply imap_ext. intros j x _. unfold compose. f_equal. lia.
Qed.


(** *** On the rows of the scenario *)

Lemma copy_row_allocates key update : map_allocates (Options key copy_row update).
Proof. intros h item index. by eexists. Qed.

(** The key ["c"] is new: [map] is called for it, at index 0; the items
    of ["a"] and ["b"] move to the positions 1 and 2. *)
Lemma keyed_projection_reuses_by_key_witness :
  update_writes_nothing rows_options ∧ map_allocates rows_options
  ∧ target_is rows_projected_two [VObj 0; VObj 1]
  ∧ NoDup (keys rows_projected_two)
  ∧ NoDup (source_keys rows_options (pheap rows_projected_two) rows_source)
  ∧ ∃ s' L',
      mutate rows_options rows_source rows_projected_two = Some s'
      ∧ keys s' = [VStr "c"; VStr "a"; VStr "b"]
      ∧ target_is s' L' ∧ length L' = 3
      ∧ L' !! 1 = Some (VObj 0) ∧ L' !! 2 = Some (VObj 1)
      ∧ map_calls s' = [(VObj 4, 0)].
Proof.
  assert (update_writes_nothing rows_options) as Hu by exact I.
  assert (target_is rows_projected_two [VObj 0; VObj 1]) as Hl
    by (exists 7; split; reflexivity).
  assert (NoDup (keys rows_projected_two)) as HK
    by (refine (bool_decide_unpack _ _); vm_compute; exact I).
  assert (NoDup (source_keys rows_options (pheap rows_projected_two) rows_source)) as HN
    by (refine (bool_decide_unpack _ _); vm_compute; exact I).
  split_and!; [exact Hu|apply copy_row_allocates|exact Hl|exact HK|exact HN|].
  destruct (keyed_projection_reuses_by_key rows_options rows_projected_two [VObj 0; VObj 1]
              rows_source Hu (copy_row_allocates _ _) Hl eq_refl HK HN)
    as (s' & L' & Hmut & Hkeys & Hl' & Hlen & Hreuse & Hcalls & _).
  exists s', L'. split_and!; [exact Hmut|exact Hkeys|exact Hl'|exact Hlen| | |exact Hcalls].
  - exact (Hreuse 1 0 (VStr "a") eq_refl eq_refl).
  - exact (Hreuse 2 1 (VStr "b") eq_refl eq_refl).
Defined.


(** ** Batches over several signals *)

Lemma batched_write_frame s v st :
  (∀ d, subscribers_of (nodes (batched_write s v st)) d = subscribers_of (nodes st) d)
  ∧ (∀ e, effect_of (nodes (batched_write s v st)) e = effect_of (nodes st) e)
  ∧ (∀ m, memo_of (nodes (batched_write s v st)) m = memo_of (nodes st) m)
  ∧ (∀ o, run_count o (batched_write s v st) = run_count o st)
  ∧ batchDepth (batched_write s v st) = batchDepth st
  ∧ nodes (batched_write s v st) = set_sig_value s v (nodes st).
Proof.
  destruct (batched_writes_frame s [v] st) as [He Hc].
  pose proof (batched_writes_memos s [v] st) as Hm.
  destruct (batched_write_fields s v st) as (_ & Hd & _).
  cbn [foldl] in He, Hc, Hm.
  assert (nodes (batched_write s v st) = set_sig_value s v (nodes st)) as Hn.
  { unfold batched_write. cbn zeta. destruct (object_is _ v); [done|].
    destruct (enqueue_all_fields
                (jsset_live (subscribers_of (nodes (upd (set_sig_value s v) st)) (DSig s)))
                (upd (set_sig_value s v) st)) as (-> & _). done. }
  split_and!; try done.
  intros d. rewrite Hn. apply subscribers_of_set_sig_value.
Qed.

Lemma run_writes_to_batching E m ws : ∀ fuel st,
  (0 < batchDepth st)%Z →
  Forall (λ w, is_function w.2 = false) ws →
  (∀ s, s ∈ ws.*1 → length (subscribers_of (nodes st) (DSig s)) ≤ m) →
  length ws + m + 1 < fuel →
  run E fuel (TProg (writes_to ws)) st = Done (Normal VUndef) (batched_writes ws st).
Proof.
  induction ws as [|[s v] ws IH]; intros fuel st Hb Hws Hm Hfuel.
  - destruct fuel; [lia|]. done.
  - destruct fuel as [|fuel]; [lia|]. cbn [length] in Hfuel.
    apply Forall_cons in Hws as [Hv Hws]. cbn [fst snd] in Hv.
    destruct (batched_write_frame s v st) as (Hsubs & _ & _ & _ & Hd & _).
    assert (length (subscribers_of (nodes st) (DSig s)) ≤ m) as Hs.
    { apply Hm. cbn. by left. }
    rewrite run_S. cbn [writes_to foldr dispatch exec fst snd]. fold (writes_to ws).
    unfold SignalSource_set.
    replace (match v with
             | VFun f => run E fuel (TProg (fn_body E f (sig_value (signal_of (nodes st) s)))) st
             | _ => ret v st
             end) with (ret v st) by (by destruct v).
    cbn [bind ret].
    change (batched_writes ((s, v) :: ws) st) with (batched_writes ws (batched_write s v st)).
    assert (run E fuel (TProg (writes_to ws)) (batched_write s v st)
            = Done (Normal VUndef) (batched_writes ws (batched_write s v st))) as Hrest.
    { apply IH; [by rewrite Hd|done| |lia].
      intros s' Hs'. rewrite Hsubs. apply Hm. cbn. by right. }
    rewrite <- Hrest. unfold batched_write. cbn zeta.
    destruct (object_is _ v).
    + cbn [bind ret]. done.
    + rewrite (notify_all_batching E (DSig s) m); [|done| |lia].
      2:{ rewrite nodes_upd, subscribers_of_set_sig_value. lia. }
      cbn [bind ret]. by rewrite drop_0.
Qed.

Lemma batched_writes_spec ws : ∀ st,
  let st1 := batched_writes ws st in
  (∀ d, subscribers_of (nodes st1) d = subscribers_of (nodes st) d)
  ∧ (∀ e, effect_of (nodes st1) e = effect_of (nodes st) e)
  ∧ (∀ m, memo_of (nodes st1) m = memo_of (nodes st) m)
  ∧ (∀ o, run_count o st1 = run_count o st)
  ∧ batchDepth st1 = batchDepth st
  ∧ (NoDup (pendingSubscribers st) → NoDup (pendingSubscribers st1))
  ∧ (∀ cb, cb ∈ pendingSubscribers st1 ↔
           cb ∈ pendingSubscribers st
           ∨ ∃ s, s ∈ changed (nodes st) ws
                  ∧ cb ∈ jsset_live (subscribers_of (nodes st) (DSig s))).
Proof.
  induction ws as [|[s v] ws IH]; intros st; cbn zeta.
  { split_and!; try done. intros cb. split; [by left|].
    intros [?|(s & Hs & _)]; [done|]. by apply elem_of_nil in Hs. }
  change (batched_writes ((s, v) :: ws) st) with (batched_writes ws (batched_write s v st)).
  destruct (IH (batched_write s v st)) as (Hsubs & He & Hm & Hc & Hd & Hn & Hp).
  destruct (batched_write_frame s v st) as (Hsubs1 & He1 & Hm1 & Hc1 & Hd1 & Hg1).
  destruct (batched_write_pending s v st) as (_ & Hn1 & Hp1).
  split_and!.
  - intros d. by rewrite Hsubs, Hsubs1.
  - intros e. by rewrite He, He1.
  - intros m. by rewrite Hm, Hm1.
  - intros o. by rewrite Hc, Hc1.
  - by rewrite Hd, Hd1.
  - auto.
  - intros cb. rewrite Hp, Hp1, Hg1. cbn [changed fst snd].
    unfold object_is. split.
    + intros [[?|[Hne Hcb]]|(s' & Hs' & Hcb)].
      * by left.
      * right. exists s. split; [|done]. rewrite bool_decide_eq_false_2 by done. by left.
      * right. exists s'. split; [apply elem_of_app; by right|].
        by rewrite <- (subscribers_of_set_sig_value s v).
    + intros [?|(s' & Hs' & Hcb)]; [by left; left|].
      apply elem_of_app in Hs' as [Hs'|Hs'].
      * case_bool_decide as Hv; [by apply elem_of_nil in Hs'|].
        apply list_elem_of_singleton in Hs' as ->. left. by right.
      * right. exists s'. split; [done|]. by rewrite subscribers_of_set_sig_value.
Qed.

(** X14.  A batch coalesces notifications across signals.  The computations
    subscribed to the signals written are effects at rest and memos at rest
    without subscribers, whose functions only read signals.  Then
    [batch(() => { setA(a); setB(b); ... })], called outside any batch,
    starts the function of every computation that is subscribed to at least
    one signal whose value a write changed exactly once, when the batch
    exits, and starts no other computation: a computation subscribed to
    several of the signals runs once, not once per signal. *)
Theorem batch_coalesces_across_signals (E : env) (n m fuel : nat)
    (ws : list (nat * val)) (st : state) :
  let notified (o : owner) :=
    ∃ s, s ∈ changed (nodes st) ws ∧ o ∈ jsset_live (subscribers_of (nodes st) (DSig s)) in
  batchDepth st = 0%Z →
  pendingSubscribers st = [] →
  Forall (λ w, is_function w.2 = false) ws →
  (∀ s, s ∈ ws.*1 → length (subscribers_of (nodes st) (DSig s)) ≤ m) →
  (∀ cb, notified cb → ready E n (nodes st) cb) →
  length ws + m + n + 6 < fuel →
  ∃ st' queued,
    run E fuel (TProg (Batch (writes_to ws) Ret)) st = Done (Normal VUndef) st'
    ∧ NoDup queued ∧ (∀ o, o ∈ queued ↔ notified o)
    ∧ ∀ o, run_count o st'
           = run_count o st + (if bool_decide (o ∈ queued) then 1 else 0).
Proof.
  intros notified Hb Hp Hws Hm Hready Hfuel.
  destruct fuel as [|fuel]; [lia|]. rewrite run_S. cbn [dispatch exec]. unfold batch.
  rewrite Hb. change (0 + 1)%Z with 1%Z.
  set (st0 := set_batchDepth 1 st).
  rewrite (run_writes_to_batching E m ws fuel st0); [|done|done|done|lia].
  destruct (batched_writes_spec ws st0) as (Hsubs1 & He1 & Hm1 & Hc1 & Hd1 & Hn1 & Hq1).
  set (st1 := batched_writes ws st0) in *.
  cbn [finally]. rewrite Hd1. change (batchDepth st0 - 1)%Z with 0%Z.
  cbn [batchDepth set_batchDepth]. rewrite bool_decide_eq_true_2 by done.
  set (st2 := set_batchDepth 0 st1).
  assert (∀ cb, cb ∈ pendingSubscribers st1 ↔ notified cb) as Hq.
  { intros cb. rewrite Hq1. change (pendingSubscribers st0) with (pendingSubscribers st).
    rewrite Hp, elem_of_nil. change (nodes st0) with (nodes st). unfold notified. tauto. }
  assert (NoDup (pendingSubscribers st1)) as Hn.
  { apply Hn1. change (pendingSubscribers st0) with (pendingSubscribers st).
    rewrite Hp. constructor. }
  destruct fuel as [|fuel]; [lia|]. rewrite run_S. cbn [dispatch]. unfold flushSubscribers.
  change (pendingSubscribers st2) with (pendingSubscribers st1).
  destruct (pendingSubscribers st1) as [|cb queued] eqn:Hqueue.
  { cbn [ret]. cbn [bind]. rewrite run_S. cbn [dispatch exec].
    exists st2, []. split_and!; [done|constructor|done|]. intros o.
    change (run_count o st2) with (run_count o st1). rewrite Hc1.
    change (run_count o st0) with (run_count o st).
    rewrite bool_decide_eq_false_2; [lia|]. apply not_elem_of_nil. }
  destruct (call_each_once E n (cb :: queued) fuel (set_pendingSubscribers [] st2))
    as (st3 & Hrun & Hcount & _ & Hp3 & _).
  + done.
  + intros cb' Hcb'. apply Hq in Hcb'.
    destruct (Hready cb' Hcb') as [Hrest Hbody]. split; [|done].
    by apply (at_rest_effects n (nodes st)).
  + lia.
  + rewrite Hrun. cbn [bind].
    destruct fuel as [|fuel]; [lia|]. rewrite run_S. cbn [dispatch]. unfold flushSubscribers.
    rewrite Hp3. cbn [pendingSubscribers set_pendingSubscribers ret bind].
    rewrite run_S. cbn [dispatch exec].
    exists st3, (cb :: queued). split_and!; [done|done|done|]. intros o. rewrite Hcount.
    change (run_count o (set_pendingSubscribers [] st2)) with (run_count o st1).
    rewrite Hc1. by change (run_count o st0) with (run_count o st).
Qed.

(** *** One effect over two signals *)

(** [batch(() => { setA(2); setB(20) })]: effect 0, which reads both
    signals, runs once more, and so does effect 1. *)
Lemma batch_coalesces_across_signals_witness :
  jsset_live (subscribers_of (nodes pair_started) (DSig 0)) = [OEffect 0]
  ∧ jsset_live (subscribers_of (nodes pair_started) (DSig 1)) = [OEffect 0; OEffect 1]
  ∧ changed (nodes pair_started) [(0, VNum 2); (1, VNum 20)] = [0; 1]
  ∧ ∃ st',
      run pair_env 20 (TProg (Batch (writes_to [(0, VNum 2); (1, VNum 20)]) Ret)) pair_started
      = Done (Normal VUndef) st'
      ∧ run_count (OEffect 0) st' = run_count (OEffect 0) pair_started + 1
      ∧ run_count (OEffect 1) st' = run_count (OEffect 1) pair_started + 1
      ∧ run_count (OEffect 2) st' = run_count (OEffect 2) pair_started.
Proof.
  assert (jsset_live (subscribers_of (nodes pair_started) (DSig 0)) = [OEffect 0]) as H0
    by (vm_compute; reflexivity).
  assert (jsset_live (subscribers_of (nodes pair_started) (DSig 1)) = [OEffect 0; OEffect 1])
    as H1 by (vm_compute; reflexivity).
  assert (changed (nodes pair_started) [(0, VNum 2); (1, VNum 20)] = [0; 1]) as Hch
    by (vm_compute; reflexivity).
  split_and!; [exact H0|exact H1|exact Hch|].
  assert (batchDepth pair_started = 0%Z) as Hb by (vm_compute; reflexivity).
  assert (pendingSubscribers pair_started = []) as Hp by (vm_compute; reflexivity).
  assert (Forall (λ w : nat * val, is_function w.2 = false) [(0, VNum 2); (1, VNum 20)])
    as Hf by (repeat constructor).
  assert (∀ s, s ∈ [(0, VNum 2); (1, VNum 20)].*1 →
               length (subscribers_of (nodes pair_started) (DSig s)) ≤ 2) as Hm.
  { intros s Hs. cbn in Hs.
    apply elem_of_cons in Hs as [->|Hs]; [vm_compute; lia|].
    apply list_elem_of_singleton in Hs as ->. vm_compute; lia. }
  assert (∀ cb, (∃ s, s ∈ changed (nodes pair_started) [(0, VNum 2); (1, VNum 20)]
                      ∧ cb ∈ jsset_live (subscribers_of (nodes pair_started) (DSig s))) →
                ready pair_env 4 (nodes pair_started) cb) as Hr.
  { intros cb (s & Hs & Hcb). rewrite Hch in Hs.
    assert (cb = OEffect 0 ∨ cb = OEffect 1) as Hcases.
    { apply elem_of_cons in Hs as [->|Hs].
      - rewrite H0 in Hcb. apply list_elem_of_singleton in Hcb. by left.
      - apply list_elem_of_singleton in Hs as ->. rewrite H1 in Hcb.
        apply elem_of_cons in Hcb as [->|Hcb]; [by left|].
        apply list_elem_of_singleton in Hcb. by right. }
    destruct Hcases as [-> | ->].
    + split; [vm_compute; reflexivity|repeat constructor].
    + split; [vm_compute; reflexivity|repeat constructor]. }
  assert (2 + 2 + 4 + 6 < 20) as Hfuel by lia.
  destruct (batch_coalesces_across_signals pair_env 4 2 20 [(0, VNum 2); (1, VNum 20)]
              pair_started Hb Hp Hf Hm Hr Hfuel) as (st' & queued & Hrun & _ & Hq & Hcount).
  assert (OEffect 0 ∈ queued) as Hq0.
  { apply Hq. exists 0. rewrite Hch, H0. split; apply list_elem_of_here. }
  assert (OEffect 1 ∈ queued) as Hq1.
  { apply Hq. exists 1. rewrite Hch, H1. split; apply list_elem_of_In; cbn; auto. }
  assert (OEffect 2 ∉ queued) as Hq2.
  { intros Hin. apply Hq in Hin as (s & Hs & Hcb). rewrite Hch in Hs.
    apply elem_of_cons in Hs as [->|Hs].
    - rewrite H0 in Hcb. by apply list_elem_of_singleton in Hcb.
    - apply list_elem_of_singleton in Hs as ->. rewrite H1 in Hcb.
      apply elem_of_cons in Hcb as [[=]|Hcb]. by apply list_elem_of_singleton in Hcb. }
  exists st'. split; [exact Hrun|]. rewrite !Hcount.
  rewrite (bool_decide_eq_true_2 _ Hq0), (bool_decide_eq_true_2 _ Hq1),
    (bool_decide_eq_false_2 _ Hq2).
  split_and!; [reflexivity|reflexivity|lia].
Defined.

(** ** Scopes *)

Lemma start_ready E n fuel e st :
  idle e (nodes st) → reads_only false n (effect_body E e) → n + 1 < fuel →
  EffectComputation_start (run E fuel) e st = Done (Normal VUndef) (rerun E e st).
Proof.
  intros Hidle Hbody Hfuel. unfold EffectComputation_start, EffectComputation_schedule.
  pose proof Hidle as Hidle'. unfold idle, rest_of in Hidle'.
  injection Hidle' as _ -> -> _.
  destruct fuel as [|fuel]; [lia|]. rewrite run_S. cbn [dispatch].
  apply (execute_reads_only E n); [done|done|lia].
Qed.

(** The starters of effects at rest with bodies that read signals: each
    runs once, in order. *)
Lemma start_each_once E n fuel : ∀ es st,
  (∀ e, e ∈ es → idle e (nodes st) ∧ reads_only false n (effect_body E e)) →
  n + 1 < fuel →
  ∃ st', for_each (EffectComputation_start (run E fuel)) es st = Done (Normal VUndef) st'
         ∧ trace st' = trace st ++ ((λ e, EvRun (OEffect e)) <$> es)
         ∧ (∀ e, idle e (nodes st) → idle e (nodes st')).
Proof.
  induction es as [|e es IH]; intros st Hes Hfuel.
  { exists st. cbn. by rewrite app_nil_r. }
  destruct (Hes e) as [Hidle Hbody]; [by left|].
  cbn [for_each]. rewrite (start_ready E n fuel e st) by done. cbn [bind].
  destruct (rerun_spec E e st Hidle) as (Htr & _ & _ & _ & _ & Hrest & _). cbn zeta in *.
  destruct (IH (rerun E e st)) as (st' & Hrun & Htr' & Hrest'); [|done|].
  { intros e' He'. destruct (Hes e') as [Hidle' Hbody']; [by right|]. split; [|done].
    by apply Hrest. }
  exists st'. split_and!; [done| |].
  - rewrite Htr', Htr. cbn. by rewrite <- app_assoc.
  - intros e' He'. by apply Hrest', Hrest.
Qed.

(** X15.  Effects wait for the mount.  [createEffect] in a scope that has not
    started its effects registers the effect and runs nothing.
    [startEffects] then runs the bodies of the registered effects, each
    once, in the order of their creation, and empties the list; a second
    [startEffects] does nothing; and an effect created afterwards runs at
    once.  (The effects are at rest and their bodies only read signals.) *)
Theorem scope_starts_effects_in_order (E : env) (n fuel : nat) (sc : Scope) (st : state) :
  effectsStarted sc = false →
  (∀ e, e ∈ effectStarters sc → idle e (nodes st) ∧ reads_only false n (effect_body E e)) →
  n + 1 < fuel →
  (∀ e rec, createEffect rec e sc st
            = (set_effectStarters (effectStarters sc ++ [e]) (Scope_register (OEffect e) sc),
               ret VUndef st))
  ∧ ∃ st',
      let sc' := set_effectStarters [] (set_effectsStarted true sc) in
      Scope_startEffects (run E fuel) sc st = (sc', Done (Normal VUndef) st')
      ∧ trace st' = trace st ++ ((λ e, EvRun (OEffect e)) <$> effectStarters sc)
      ∧ (∀ st'', Scope_startEffects (run E fuel) sc' st'' = (sc', ret VUndef st''))
      ∧ (∀ e st'', idle e (nodes st'') → reads_only false n (effect_body E e) →
           createEffect (run E fuel) e sc' st''
           = (Scope_register (OEffect e) sc', Done (Normal VUndef) (rerun E e st''))).
Proof.
  intros Hstarted Hes Hfuel. split.
  { intros e rec. unfold createEffect, Scope_registerEffectStarter. cbn. by rewrite Hstarted. }
  destruct (start_each_once E n fuel (effectStarters sc) st Hes Hfuel) as (st' & Hrun & Htr & _).
  exists st'. cbn zeta. split_and!.
  - unfold Scope_startEffects. rewrite Hstarted. cbn. by rewrite Hrun.
  - done.
  - intros st''. done.
  - intros e st'' Hidle Hbody. unfold createEffect, Scope_registerEffectStarter. cbn.
    by rewrite (start_ready E n fuel e st'').
Qed.

(** An effect at rest whose body throws after reading signals. *)
Lemma start_throwing E n fuel e st err :
  idle e (nodes st) → reads_only true n (effect_body E e) →
  (∀ g, result_of g (effect_body E e) = Thrown err) → n + 1 < fuel →
  EffectComputation_start (run E fuel) e st = Done (Thrown err) (rerun E e st).
Proof.
  intros Hidle Hbody Hthrows Hfuel. unfold EffectComputation_start, EffectComputation_schedule.
  pose proof Hidle as Hidle'. unfold idle, rest_of in Hidle'.
  injection Hidle' as Hs Hr Hd Hc. rewrite Hd, Hr.
  destruct fuel as [|fuel]; [lia|]. rewrite run_S. cbn [dispatch].
  unfold EffectComputation_execute. rewrite Hd. fold (begin_run e st).
  unfold runCleanups.
  assert (cleanups (effect_of (nodes (begin_run e st)) e) = []) as ->.
  { unfold begin_run, set_scheduled, set_running. cbn [nodes upd].
    by rewrite !effect_of_set_effect, !decide_True. }
  cbn [for_each ret bind].
  set (st0 := set_activeEffect (Some e) (upd (set_cleanups e []) (begin_run e st))).
  rewrite (collect_reads_only E true n fuel (OEffect e) (effect_body E e) st0 Hbody)
    by lia.
  rewrite Hthrows. cbn [bind finally ret]. done.
Qed.

(** X16.  One throwing effect stops the start of the effects created after
    it.  When the body of a registered effect throws during [startEffects],
    the call throws; the effects registered after it have not run; and since
    the flag was raised before the loop and the list is only emptied after
    it, a later [startEffects] does nothing: the scope never starts them. *)
Theorem scope_start_stops_at_throw (E : env) (n fuel : nat) (sc : Scope) (st : state)
    (before : list nat) (e : nat) (after : list nat) (err : val) :
  effectsStarted sc = false →
  effectStarters sc = before ++ e :: after →
  (∀ e', e' ∈ before → idle e' (nodes st) ∧ reads_only false n (effect_body E e')) →
  idle e (nodes st) → reads_only true n (effect_body E e) →
  (∀ g, result_of g (effect_body E e) = Thrown err) →
  n + 1 < fuel →
  ∃ st',
    let sc' := set_effectsStarted true sc in
    Scope_startEffects (run E fuel) sc st = (sc', Done (Thrown err) st')
    ∧ effectStarters sc' = before ++ e :: after
    ∧ trace st' = trace st ++ ((λ e, EvRun (OEffect e)) <$> before ++ [e])
    ∧ ∀ st'', Scope_startEffects (run E fuel) sc' st'' = (sc', ret VUndef st'').
Proof.
  intros Hstarted Hes Hbefore Hidle Hbody Hthrows Hfuel.
  destruct (start_each_once E n fuel before st Hbefore Hfuel) as (st1 & Hrun & Htr & Hrest).
  assert (∀ (es1 es2 : list nat) st0 st1,
            for_each (EffectComputation_start (run E fuel)) es1 st0 = Done (Normal VUndef) st1 →
            for_each (EffectComputation_start (run E fuel)) (es1 ++ es2) st0
            = for_each (EffectComputation_start (run E fuel)) es2 st1) as Happ.
  { induction es1 as [|x es1 IH]; intros es2 st0 st2 H1.
    - cbn in H1. by injection H1 as <-.
    - cbn [for_each app] in *.
      destruct (EffectComputation_start (run E fuel) x st0) as [|[v|err'] st3]; try done.
      cbn [bind] in *. by apply IH. }
  exists (rerun E e st1). cbn zeta. split_and!.
  - unfold Scope_startEffects. rewrite Hstarted. cbn [effectStarters set_effectsStarted].
    rewrite Hes, (Happ _ _ _ _ Hrun). cbn [for_each].
    rewrite (start_throwing E n fuel e st1 err); [done|by apply Hrest|done|done|done].
  - done.
  - destruct (rerun_spec E e st1 (Hrest e Hidle)) as (Htr' & _). cbn zeta in Htr'.
    rewrite Htr', Htr, fmap_app. by rewrite <- app_assoc.
  - intros st''. done.
Qed.

(** X17.  Layout effects and effects start separately.  [createLayoutEffect]
    before the layout phase registers the effect and runs nothing.
    [startLayoutEffects] runs the layout effects, each once, in the order of
    their creation, and leaves the effects created with [createEffect]
    waiting; [startEffects] then runs those, in the order of their creation.
    (The effects are at rest and their bodies only read signals.) *)
Theorem scope_starts_layout_effects_first (E : env) (n fuel : nat) (sc : Scope)
    (st : state) :
  layoutStarted sc = false → effectsStarted sc = false →
  (∀ e, e ∈ layoutStarters sc ++ effectStarters sc →
        idle e (nodes st) ∧ reads_only false n (effect_body E e)) →
  n + 1 < fuel →
  (∀ e rec, createLayoutEffect rec e sc st
            = (set_layoutStarters (layoutStarters sc ++ [e]) (Scope_register (OEffect e) sc),
               ret VUndef st))
  ∧ ∃ st1 st2,
      let sc1 := set_layoutStarters [] (set_layoutStarted true sc) in
      let sc2 := set_effectStarters [] (set_effectsStarted true sc1) in
      Scope_startLayoutEffects (run E fuel) sc st = (sc1, Done (Normal VUndef) st1)
      ∧ trace st1 = trace st ++ ((λ e, EvRun (OEffect e)) <$> layoutStarters sc)
      ∧ Scope_startEffects (run E fuel) sc1 st1 = (sc2, Done (Normal VUndef) st2)
      ∧ trace st2 = trace st1 ++ ((λ e, EvRun (OEffect e)) <$> effectStarters sc).
Proof.
  intros Hlayout Hstarted Hes Hfuel. split.
  { intros e rec. unfold createLayoutEffect, Scope_registerLayoutStarter. cbn.
    by rewrite Hlayout. }
  destruct (start_each_once E n fuel (layoutStarters sc) st) as (st1 & Hrun1 & Htr1 & Hrest1);
    [|done|].
  { intros e He. apply Hes, elem_of_app. by left. }
  destruct (start_each_once E n fuel (effectStarters sc) st1) as (st2 & Hrun2 & Htr2 & _);
    [|done|].
  { intros e He. destruct (Hes e) as [Hidle Hbody]; [apply elem_of_app; by right|].
    split; [by apply Hrest1|done]. }
  exists st1, st2. cbn zeta. split_and!.
  - unfold Scope_startLayoutEffects. rewrite Hlayout. cbn. by rewrite Hrun1.
  - done.
  - unfold Scope_startEffects. cbn. rewrite Hstarted. cbn. by rewrite Hrun2.
  - done.
Qed.

(** *** Three effects created during setup *)

Lemma scope_starts_effects_in_order_witness :
  effectsStarted (mounting_scope watchers_env) = false
  ∧ effectStarters (mounting_scope watchers_env) = [0; 1; 2]
  ∧ ∃ st',
      Scope_startEffects (run watchers_env 20) (mounting_scope watchers_env) watchers_created
      = (set_effectStarters [] (set_effectsStarted true (mounting_scope watchers_env)),
         Done (Normal VUndef) st')
      ∧ trace st' = trace watchers_created
                    ++ [EvRun (OEffect 0); EvRun (OEffect 1); EvRun (OEffect 2)].
Proof.
  assert (effectsStarted (mounting_scope watchers_env) = false) as Hstarted by reflexivity.
  assert (∀ e, e ∈ effectStarters (mounting_scope watchers_env) →
               idle e (nodes watchers_created)
               ∧ reads_only false 2 (effect_body watchers_env e)) as Hes.
  { intros e _. split; [reflexivity|].
    destruct e as [|[|e]]; repeat constructor. }
  assert (2 + 1 < 20) as Hfuel by lia.
  destruct (scope_starts_effects_in_order watchers_env 2 20 (mounting_scope watchers_env)
              watchers_created Hstarted Hes Hfuel) as (_ & st' & Hstart & Htrace & _).
  split_and!; [exact Hstarted|reflexivity|].
  exists st'. split; [exact Hstart|exact Htrace].
Defined.

Lemma scope_start_stops_at_throw_witness :
  effectsStarted (mounting_scope failing_env) = false
  ∧ effectStarters (mounting_scope failing_env) = [0] ++ 1 :: [2]
  ∧ ∃ st',
      Scope_startEffects (run failing_env 20) (mounting_scope failing_env) watchers_created
      = (set_effectsStarted true (mounting_scope failing_env),
         Done (Thrown (VError "boom")) st')
      ∧ effectStarters (set_effectsStarted true (mounting_scope failing_env)) = [0; 1; 2]
      ∧ trace st' = trace watchers_created ++ [EvRun (OEffect 0); EvRun (OEffect 1)]
      ∧ ∀ st'', Scope_startEffects (run failing_env 20)
                  (set_effectsStarted true (mounting_scope failing_env)) st''
                = (set_effectsStarted true (mounting_scope failing_env), ret VUndef st'').
Proof.
  assert (effectsStarted (mounting_scope failing_env) = false) as Hstarted by reflexivity.
  assert (effectStarters (mounting_scope failing_env) = [0] ++ 1 :: [2]) as Hes
    by reflexivity.
  assert (∀ e', e' ∈ [0] → idle e' (nodes watchers_created)
                           ∧ reads_only false 2 (effect_body failing_env e')) as Hbefore.
  { intros e' ->%list_elem_of_singleton. split; [reflexivity|repeat constructor]. }
  assert (idle 1 (nodes watchers_created)) as Hidle by reflexivity.
  assert (reads_only true 2 (effect_body failing_env 1)) as Hbody by (repeat constructor).
  assert (∀ g, result_of g (effect_body failing_env 1) = Thrown (VError "boom")) as Hthrows
    by (intros g; reflexivity).
  assert (2 + 1 < 20) as Hfuel by lia.
  split_and!; [exact Hstarted|exact Hes|].
  exact (scope_start_stops_at_throw failing_env 2 20 (mounting_scope failing_env)
           watchers_created [0] 1 [2] (VError "boom")
           Hstarted Hes Hbefore Hidle Hbody Hthrows Hfuel).
Defined.

(** The layout effect, created second, runs first. *)
Lemma scope_starts_layout_effects_first_witness :
  layoutStarters (layout_scope watchers_env) = [1]
  ∧ effectStarters (layout_scope watchers_env) = [0; 2]
  ∧ ∃ sc1 sc2 st1 st2,
      Scope_startLayoutEffects (run watchers_env 20) (layout_scope watchers_env)
        watchers_created = (sc1, Done (Normal VUndef) st1)
      ∧ trace st1 = trace watchers_created ++ [EvRun (OEffect 1)]
      ∧ Scope_startEffects (run watchers_env 20) sc1 st1 = (sc2, Done (Normal VUndef) st2)
      ∧ trace st2 = trace st1 ++ [EvRun (OEffect 0); EvRun (OEffect 2)].
Proof.
  assert (layoutStarted (layout_scope watchers_env) = false) as Hlayout by reflexivity.
  assert (effectsStarted (layout_scope watchers_env) = false) as Hstarted by reflexivity.
  assert (∀ e, e ∈ layoutStarters (layout_scope watchers_env)
                   ++ effectStarters (layout_scope watchers_env) →
               idle e (nodes watchers_created)
               ∧ reads_only false 2 (effect_body watchers_env e)) as Hes.
  { intros e _. split; [reflexivity|].
    destruct e as [|[|e]]; repeat constructor. }
  assert (2 + 1 < 20) as Hfuel by lia.
  destruct (scope_starts_layout_effects_first watchers_env 2 20 (layout_scope watchers_env)
              watchers_created Hlayout Hstarted Hes Hfuel)
    as (_ & st1 & st2 & Hstart1 & Htrace1 & Hstart2 & Htrace2).
  split_and!; [reflexivity|reflexivity|].
  eexists _, _, st1, st2. split_and!; [exact Hstart1|exact Htrace1|exact Hstart2|exact Htrace2].
Defined.

(** ** Disposal of a scope *)

Lemma disposed_set_subscribers d subs g e :
  disposed (effect_of (set_subscribers d subs g) e) = disposed (effect_of g e).
Proof. by destruct d. Qed.

Lemma disposed_tracker_dispose o g e :
  disposed (effect_of (tracker_dispose o g) e) = disposed (effect_of g e).
Proof.
  change (off (OEffect e) (tracker_dispose o g) = off (OEffect e) g).
  unfold tracker_dispose. rewrite off_set_tracker.
  generalize (subscriptions (tracker_of g o)) as ds. intros ds. revert g.
  induction ds as [|d ds IH]; intros g; [done|]. cbn [foldl]. rewrite IH.
  unfold unsubscribe. by rewrite off_set_subscribers.
Qed.

(** [dispose] of an effect leaves it disposed, on every exit, and keeps
    disposed what was. *)
Lemma dispose_disposes E fuel e st r st' :
  EffectComputation_dispose E (run E fuel) e st = Done r st' →
  disposed (effect_of (nodes st') e) = true
  ∧ ∀ e', disposed (effect_of (nodes st) e') = true →
          disposed (effect_of (nodes st') e') = true.
Proof.
  intros Hdispose. unfold EffectComputation_dispose in Hdispose.
  destruct (disposed (effect_of (nodes st) e)) eqn:Hd.
  { injection Hdispose as <- <-. done. }
  set (st0 := upd (set_disposed e true) st) in *.
  assert (∀ e', e' = e ∨ disposed (effect_of (nodes st) e') = true →
                disposed (effect_of (nodes st0) e') = true) as Hd0.
  { intros e' He'. unfold st0, set_disposed. cbn [nodes upd].
    rewrite effect_of_set_effect. case_decide; [done|]. destruct He'; [congruence|done]. }
  assert (∀ e', disposed (effect_of (nodes st0) e') = true →
                ∀ r1 st1, runCleanups E (run E fuel) e st0 = Done r1 st1 →
                          disposed (effect_of (nodes st1) e') = true) as Hkeep.
  { intros e' He' r1 st1 Hclean.
    pose proof (still_wp_runCleanups E (run E fuel) (OEffect e') (run_still E (OEffect e') fuel)
                  e st0 (λ _ st1, still (OEffect e') st0 st1) He' (λ _ _ H, H)) as Hwp.
    rewrite Hclean in Hwp. apply Hwp. }
  destruct (runCleanups E (run E fuel) e st0) as [|[v|err] st1] eqn:Hclean; [done| |].
  - cbn [bind ret] in Hdispose. injection Hdispose as <- <-. cbn [nodes upd].
    split; [|intros e' He'];
      rewrite disposed_tracker_dispose; eapply Hkeep; eauto.
  - cbn [bind] in Hdispose. injection Hdispose as <- <-.
    split; [|intros e' He']; eapply Hkeep; eauto.
Qed.

Lemma dispose_one_disposes E fuel d st r st' :
  dispose_one E (run E fuel) d st = Done r st' →
  (∀ e, d = OEffect e → disposed (effect_of (nodes st') e) = true)
  ∧ ∀ e', disposed (effect_of (nodes st) e') = true →
          disposed (effect_of (nodes st') e') = true.
Proof.
  destruct d as [m|e|c]; cbn [dispose_one].
  - intros [= <- <-]. split; [done|]. intros e' He'. cbn [nodes upd].
    unfold MemoSource_dispose. by rewrite disposed_set_subscribers, disposed_tracker_dispose.
  - intros Hdispose. apply dispose_disposes in Hdispose as [Hd Hkeep]. split; [|done].
    intros e0 Heq. assert (e0 = e) as -> by congruence. done.
  - intros [= <- <-]. split; [done|]. intros e' He'. cbn [nodes upd].
    by rewrite disposed_tracker_dispose.
Qed.

Lemma dispose_all_disposes E fuel : ∀ ds st st',
  for_each (dispose_one E (run E fuel)) ds st = Done (Normal VUndef) st' →
  (∀ e, OEffect e ∈ ds → disposed (effect_of (nodes st') e) = true)
  ∧ ∀ e', disposed (effect_of (nodes st) e') = true →
          disposed (effect_of (nodes st') e') = true.
Proof.
  induction ds as [|d ds IH]; intros st st' Hall.
  { cbn in Hall. injection Hall as <-. split; [|done]. by intros e ?%elem_of_nil. }
  cbn [for_each] in Hall.
  destruct (dispose_one E (run E fuel) d st) as [|[v|err] st1] eqn:Hone; try done.
  cbn [bind] in Hall. apply dispose_one_disposes in Hone as [Hd Hkeep1].
  apply IH in Hall as [Hds Hkeep]. split.
  - intros e [<-|He]%elem_of_cons; [|by apply Hds]. by apply Hkeep, Hd.
  - intros e' He'. by apply Hkeep, Hkeep1.
Qed.

Lemma for_each_normal {A} (body : A → state → outcome) xs st v st' :
  for_each body xs st = Done (Normal v) st' → v = VUndef.
Proof.
  revert st. induction xs as [|x xs IH]; intros st; cbn [for_each].
  - by intros [= <- _].
  - destruct (body x st) as [|[w|err] st1]; try done. cbn [bind]. apply IH.
Qed.

Lemma rest_of_tracker_dispose o g e :
  rest_of (effect_of (tracker_dispose o g) e) = rest_of (effect_of g e).
Proof.
  unfold tracker_dispose. rewrite rest_of_set_tracker.
  generalize (subscriptions (tracker_of g o)) as ds. intros ds. revert g.
  induction ds as [|d ds IH]; intros g; [done|]. cbn [foldl]. rewrite IH.
  unfold unsubscribe. by rewrite rest_of_set_subscribers.
Qed.

Lemma cleanups_rest_of x y : rest_of x = rest_of y → cleanups x = cleanups y.
Proof. by intros [= _ _ _ ?]. Qed.

(** Disposing a computation whose effect has no cleanup pending returns,
    and leaves no cleanup pending where there was none. *)
Lemma dispose_one_returns E rec d st :
  (∀ e, d = OEffect e → cleanups (effect_of (nodes st) e) = []) →
  ∃ st', dispose_one E rec d st = Done (Normal VUndef) st'
         ∧ ∀ e', cleanups (effect_of (nodes st) e') = [] →
                 cleanups (effect_of (nodes st') e') = [].
Proof.
  intros Hd. destruct d as [m|e|c]; cbn [dispose_one].
  - eexists. split; [done|]. intros e' He'. cbn [nodes upd]. unfold MemoSource_dispose.
    rewrite <- He'. apply cleanups_rest_of.
    by rewrite rest_of_set_subscribers, rest_of_tracker_dispose.
  - unfold EffectComputation_dispose.
    destruct (disposed (effect_of (nodes st) e)); [by exists st|].
    unfold runCleanups. cbn zeta.
    assert (cleanups (effect_of (nodes (upd (set_disposed e true) st)) e) = []) as ->.
    { unfold set_disposed. cbn [nodes upd]. rewrite effect_of_set_effect, decide_True by done.
      cbn. by apply Hd. }
    cbn [for_each ret bind]. eexists. split; [done|]. intros e' He'. cbn [nodes upd].
    rewrite (cleanups_rest_of _ _ (rest_of_tracker_dispose _ _ _)).
    unfold set_cleanups, set_disposed. rewrite !effect_of_set_effect.
    by case_decide.
  - eexists. split; [done|]. intros e' He'. cbn [nodes upd].
    rewrite <- He'. apply cleanups_rest_of, rest_of_tracker_dispose.
Qed.

Lemma dispose_all_returns E rec : ∀ ds st,
  (∀ e, OEffect e ∈ ds → cleanups (effect_of (nodes st) e) = []) →
  ∃ st', for_each (dispose_one E rec) ds st = Done (Normal VUndef) st'.
Proof.
  induction ds as [|d ds IH]; intros st Hds; [by exists st|].
  cbn [for_each].
  destruct (dispose_one_returns E rec d st) as (st1 & -> & Hkeep).
  { intros e ->. apply Hds. by left. }
  cbn [bind]. apply IH. intros e He. apply Hkeep, Hds. by right.
Qed.

(** X18.  Unmounting disposes every effect of the scope.  When
    [Scope.dispose] returns, every effect the scope had registered is
    disposed, whatever the cleanups did meanwhile, and the scope has
    forgotten its cleanups and its computations; so, disposal being final,
    no effect of the component runs after the unmount.  And [dispose] does
    return when no cleanup is pending, in the scope or in its effects. *)
Theorem scope_dispose_disposes_effects (E : env) (fuel : nat) (sc : Scope) (st : state) :
  (∀ sc' v st',
     Scope_dispose E (run E fuel) sc st = (sc', Done (Normal v) st') →
     (∀ e, OEffect e ∈ disposables sc → disposed (effect_of (nodes st') e) = true)
     ∧ disposables sc' = [] ∧ scopeCleanups sc' = []
     ∧ ∀ e t fuel' r st'',
         OEffect e ∈ disposables sc →
         run E fuel' t st' = Done r st'' →
         run_count (OEffect e) st'' = run_count (OEffect e) st')
  ∧ (scopeCleanups sc = [] →
     (∀ e, OEffect e ∈ disposables sc → cleanups (effect_of (nodes st) e) = []) →
     ∃ st', Scope_dispose E (run E fuel) sc st
            = (set_disposables [] sc, Done (Normal VUndef) st')).
Proof.
  split.
  - intros sc' v st' Hdispose. unfold Scope_dispose in Hdispose.
    destruct (for_each _ (scopeCleanups sc) st) as [|[v1|err] st1] eqn:Hclean;
      [by injection Hdispose|..|by injection Hdispose].
    cbn [disposables set_scopeCleanups] in Hdispose.
    destruct (for_each (dispose_one E (run E fuel)) (disposables sc) st1)
      as [|[v2|err] st2] eqn:Hall;
      [by injection Hdispose|..|by injection Hdispose].
    injection Hdispose as <- <- <-.
    pose proof (for_each_normal _ _ _ _ _ Hall) as ->.
    apply dispose_all_disposes in Hall as [Hds _].
    split_and!; [done|done|done|].
    intros e t fuel' r st'' He Hrun.
    pose proof (run_still E (OEffect e) fuel' t st2) as Hwp.
    rewrite Hrun in Hwp. by destruct (Hwp (Hds e He)) as [_ Hruns _].
  - intros Hnone Hds. unfold Scope_dispose. rewrite Hnone. cbn [for_each ret].
    cbn [disposables set_scopeCleanups].
    destruct (dispose_all_returns E (run E fuel) (disposables sc) st Hds) as (st' & ->).
    exists st'. f_equal. by destruct sc; cbn in *; subst.
Qed.

(** ** Memos are refreshed when a dependency is set *)

Lemma result_of_values g g' p :
  (∀ s, value_of g' s = value_of g s) → result_of g' p = result_of g p.
Proof.
  intros Hs. unfold value_of in Hs.
  induction p as [| |s k IH| | | | | |v k IH| |]; cbn; try done.
  rewrite Hs. apply IH.
Qed.

Lemma computed_values E g g' m :
  (∀ s, value_of g' s = value_of g s) → computed E g' m = computed E g m.
Proof. intros Hs. unfold computed. by rewrite (result_of_values g g'). Qed.

Lemma value_of_set_tracker o t g s : value_of (set_tracker o t g) s = value_of g s.
Proof. unfold value_of, signal_of. by rewrite signals_set_tracker. Qed.

Lemma value_of_set_subscribers d subs g s :
  value_of (set_subscribers d subs g) s = value_of g s.
Proof.
  unfold value_of. destruct d as [s'|m]; [|done]. cbn [set_subscribers].
  rewrite signal_of_set_signal. by case_decide; subst.
Qed.

Lemma cache_set_tracker o t g m : cache (set_tracker o t g) m = cache g m.
Proof.
  unfold cache. destruct o as [m'|e|c]; try reflexivity. cbn [set_tracker].
  rewrite memo_of_set_memo. by case_decide; subst.
Qed.

Lemma cache_set_subscribers d subs g m : cache (set_subscribers d subs g) m = cache g m.
Proof.
  unfold cache. destruct d as [s|m']; [done|]. cbn [set_subscribers].
  rewrite memo_of_set_memo. by case_decide; subst.
Qed.

(** What a collection leaves alone: the values and the caches. *)
Lemma collected_values o fn st :
  (∀ s, value_of (nodes (collected o fn st)) s = value_of (nodes st) s)
  ∧ (∀ m, cache (nodes (collected o fn st)) m = cache (nodes st) m).
Proof.
  unfold collected, reconciled. cbn [nodes].
  assert (∀ g, (∀ s, value_of (reset_collecting o g) s = value_of g s)
               ∧ (∀ m, cache (reset_collecting o g) m = cache g m)) as Hreset.
  { intros g. unfold reset_collecting. split; intros;
      [apply value_of_set_tracker|apply cache_set_tracker]. }
  assert (∀ ss g, (∀ s, value_of (add_reads o ss g) s = value_of g s)
                  ∧ (∀ m, cache (add_reads o ss g) m = cache g m)) as Hreads.
  { unfold add_reads. induction ss as [|s0 ss IH]; intros g; [done|]. cbn [foldl].
    destruct (IH (addDependency o (DSig s0) g)) as [Hv Hc]. unfold addDependency in *.
    split; intros.
    - by rewrite Hv, value_of_set_tracker.
    - by rewrite Hc, cache_set_tracker. }
  assert (∀ nextDeps g, (∀ s, value_of (drop_stale o nextDeps g) s = value_of g s)
                        ∧ (∀ m, cache (drop_stale o nextDeps g) m = cache g m)) as Hdrop.
  { intros nextDeps g. unfold drop_stale. generalize (subscriptions (tracker_of g o)) as ds.
    intros ds. revert g. induction ds as [|d ds IH]; intros g; [done|]. cbn [foldl].
    destruct (IH (if bool_decide (d ∈ nextDeps) then g
                  else set_tracker o
                         (Tracker (filter (λ d', d' ≠ d)
                                     (subscriptions (tracker_of (unsubscribe d o g) o)))
                                  (collecting (tracker_of (unsubscribe d o g) o)))
                         (unsubscribe d o g))) as [Hv Hc].
    split; intros.
    - rewrite Hv. case_bool_decide; [done|]. unfold unsubscribe.
      by rewrite value_of_set_tracker, value_of_set_subscribers.
    - rewrite Hc. case_bool_decide; [done|]. unfold unsubscribe.
      by rewrite cache_set_tracker, cache_set_subscribers. }
  assert (∀ nextDeps g, (∀ s, value_of (subscribe_new o nextDeps g) s = value_of g s)
                        ∧ (∀ m, cache (subscribe_new o nextDeps g) m = cache g m)) as Hnew.
  { unfold subscribe_new. induction nextDeps as [|d ds IH]; intros g; [done|]. cbn [foldl].
    destruct (IH (if bool_decide (d ∈ subscriptions (tracker_of g o)) then g
                  else add_subscription o d (add_subscriber d o g))) as [Hv Hc].
    split; intros.
    - rewrite Hv. case_bool_decide; [done|]. unfold add_subscription, add_subscriber.
      by rewrite value_of_set_tracker, value_of_set_subscribers.
    - rewrite Hc. case_bool_decide; [done|]. unfold add_subscription, add_subscriber.
      by rewrite cache_set_tracker, cache_set_subscribers. }
  split; intros.
  - rewrite (proj1 (Hnew _ _)), (proj1 (Hdrop _ _)), (proj1 (Hreads _ _)).
    apply Hreset.
  - rewrite (proj2 (Hnew _ _)), (proj2 (Hdrop _ _)), (proj2 (Hreads _ _)).
    apply Hreset.
Qed.

(** What a call of a subscriber leaves: the values as they were, the cache
    of the memo that was called refreshed, every other cache as it was. *)
Lemma restarted_values E n cb st :
  ready E n (nodes st) cb →
  (∀ s, value_of (nodes (restarted E cb st)) s = value_of (nodes st) s)
  ∧ (∀ m, cache (nodes (restarted E cb st)) m
          = if decide (cb = OMemo m) then (true, computed E (nodes st) m)
            else cache (nodes st) m).
Proof.
  intros [Hrest Hbody]. destruct cb as [m|e|c]; cbn [at_rest restarted body_of] in *; [| |done].
  - destruct (result_of_returns n (memo_compute E m) (nodes st) Hbody) as (v & Hres & Hv).
    set (st0 := upd (set_computing m true) st).
    set (st1 := collected (OMemo m) (memo_compute E m) st0).
    assert (recomputed E m st = upd (set_computing m false) (upd (set_memo_result m v) st1))
      as -> by (unfold recomputed; cbn zeta; by rewrite Hres).
    destruct (collected_values (OMemo m) (memo_compute E m) st0) as [Hv1 Hc1].
    fold st1 in Hv1, Hc1. split.
    + intros s. exact (Hv1 s).
    + intros m'. unfold cache, set_computing, set_memo_result. cbn [nodes upd].
      rewrite !memo_of_set_memo. destruct (decide (m = m')) as [->|Hne].
      * rewrite !decide_True by done. cbn. unfold computed. by rewrite Hres.
      * rewrite !decide_False by congruence. specialize (Hc1 m'). unfold cache in Hc1.
        rewrite Hc1. unfold st0, set_computing. cbn [nodes upd].
        by rewrite memo_of_set_memo, decide_False.
  - unfold rerun.
    set (st0 := set_activeEffect (Some e) (upd (set_cleanups e []) (begin_run e st))).
    destruct (collected_values (OEffect e) (effect_body E e) st0) as [Hv1 Hc1].
    split.
    + intros s. exact (Hv1 s).
    + intros m'. rewrite decide_False by done. exact (Hc1 m').
Qed.

(** The loop of [set] over the subscribers of a signal, from the iterator
    position [i]: the values stay, and the memos called are refreshed. *)
Lemma notify_refreshes E n s : ∀ k i fuel st,
  batchDepth st = 0%Z →
  NoDup (jsset_live (drop i (subscribers_of (nodes st) (DSig s)))) →
  (∀ cb, cb ∈ jsset_live (drop i (subscribers_of (nodes st) (DSig s))) →
         ready E n (nodes st) cb) →
  length (subscribers_of (nodes st) (DSig s)) - i ≤ k → k + n + 2 < fuel →
  ∃ st', run E fuel (TNotifyAll (DSig s) i) st = Done (Normal VUndef) st'
         ∧ (∀ s', value_of (nodes st') s' = value_of (nodes st) s')
         ∧ (∀ m, cache (nodes st') m
                 = if bool_decide
                        (OMemo m ∈ jsset_live (drop i (subscribers_of (nodes st) (DSig s))))
                   then (true, computed E (nodes st) m)
                   else cache (nodes st) m).
Proof.
  induction k as [|k IH]; intros i fuel st Hb Hnd Hready Hlen Hfuel.
  { destruct fuel; [lia|]. rewrite run_S. cbn [dispatch]. unfold notify_all.
    rewrite lookup_ge_None_2 by lia. rewrite drop_ge by lia.
    exists st. split_and!; try done. }
  destruct fuel as [|fuel]; [lia|]. rewrite run_S. cbn [dispatch]. unfold notify_all.
  destruct (subscribers_of (nodes st) (DSig s) !! i) as [slot|] eqn:Hslot.
  2:{ apply lookup_ge_None in Hslot. rewrite drop_ge by lia.
      exists st. split_and!; try done. }
  rewrite (drop_S _ _ _ Hslot) in Hnd, Hready |- *.
  apply lookup_lt_Some in Hslot as Hi.
  destruct slot as [cb|].
  2:{ cbn [jsset_live omap] in *. apply IH; [done|done|done|lia|lia]. }
  change (jsset_live (Some cb :: ?l)) with (cb :: jsset_live l) in *.
  assert (ready E n (nodes st) cb) as Hcb by (apply Hready; by left).
  apply NoDup_cons in Hnd as [Hfresh Hnd].
  unfold notifySubscriber. cbn zeta. change (batchDepth (emit _ st)) with (batchDepth st).
  rewrite Hb, bool_decide_eq_false_2 by lia.
  set (st1 := emit (EvNotify cb) st).
  rewrite (call_ready E n fuel cb st1) by (done || lia). cbn [bind].
  set (st2 := emit (EvInvoke cb) st1).
  destruct (restarted_spec E n cb st2 Hcb) as (_ & Hb3 & _ & Hrest3 & Hsubs3).
  destruct (restarted_values E n cb st2 Hcb) as [Hv3 Hc3].
  cbn zeta in *.
  set (st3 := restarted E cb st2) in *.
  set (subs := subscribers_of (nodes st) (DSig s)) in *.
  assert (Some cb ∈ subs) as Hin.
  { apply list_elem_of_lookup. by exists i. }
  assert (drop (S i) (subscribers_of (nodes st3) (DSig s)) = drop (S i) subs
          ∧ length (subscribers_of (nodes st3) (DSig s)) = length subs) as [Hdrop Hlen3].
  { destruct (Hsubs3 s Hin) as [-> | ->]; [done|].
    rewrite drop_jsset_delete, length_jsset_delete. split; [|done].
    apply jsset_delete_absent. by rewrite <- elem_of_jsset_live. }
  destruct (IH (S i) fuel st3) as (st' & Hrun & Hv' & Hc').
  - by rewrite Hb3.
  - by rewrite Hdrop.
  - rewrite Hdrop. intros cb' Hcb'.
    destruct (Hready cb') as [Hr' Hbody']; [by right|].
    split; [|done]. by apply Hrest3.
  - rewrite Hlen3. lia.
  - lia.
  - exists st'. split_and!; [done| |].
    + intros s'. rewrite Hv'. apply Hv3.
    + intros m. rewrite Hc', Hdrop, Hc3.
      rewrite (computed_values E (nodes st2) (nodes st3)) by exact Hv3.
      change (nodes st2) with (nodes st).
      destruct (decide (cb = OMemo m)) as [->|Hne].
      * rewrite bool_decide_eq_false_2 by done.
        by rewrite bool_decide_eq_true_2 by (by left).
      * apply (f_equal (λ b : bool, if b then _ else _)), bool_decide_ext.
        rewrite elem_of_cons. split; [by right|]. by intros [?|?].
Qed.

(** X19.  A [set] refreshes the memos over the signal.  The subscribers of
    the signal are effects at rest and memos at rest without subscribers,
    whose functions only read signals.  After a value-changing [set], outside
    a batch, the signal holds the new value, and every memo subscribed to it
    has cached the value its compute function returns over the values the
    signals now hold: a read of the memo returns that value. *)
Theorem set_refreshes_memos (E : env) (n fuel : nat) (s : nat) (w : val) (st : state) :
  let subscribers := jsset_live (subscribers_of (nodes st) (DSig s)) in
  batchDepth st = 0%Z →
  NoDup subscribers →
  (∀ cb, cb ∈ subscribers → ready E n (nodes st) cb) →
  is_function w = false →
  sig_value (signal_of (nodes st) s) ≠ w →
  length (subscribers_of (nodes st) (DSig s)) + n + 4 < fuel →
  ∃ st',
    run E fuel (TProg (SigSet s w Ret)) st = Done (Normal w) st'
    ∧ sig_value (signal_of (nodes st') s) = w
    ∧ ∀ m, OMemo m ∈ subscribers →
           ∃ v, result_of (nodes st') (memo_compute E m) = Normal v
                ∧ hasValue (memo_of (nodes st') m) = true
                ∧ memo_value (memo_of (nodes st') m) = v
                ∧ MemoSource_get (run E fuel) m st'
                  = Done (Normal v) (trackDependency (DMemo m) st').
Proof.
  intros subscribers Hb Hnd Hready Hw Hne Hfuel.
  destruct fuel as [|fuel]; [lia|]. rewrite run_S. cbn [dispatch exec].
  unfold SignalSource_set.
  replace (match w with
           | VFun f => run E fuel (TProg (fn_body E f (sig_value (signal_of (nodes st) s)))) st
           | _ => ret w st
           end) with (ret w st) by (by destruct w).
  cbn [bind ret]. rewrite object_is_ne by done.
  set (st2 := upd (set_sig_value s w) st).
  assert (subscribers_of (nodes st2) (DSig s) = subscribers_of (nodes st) (DSig s)) as Hsubs
    by apply subscribers_of_set_sig_value.
  assert (value_of (nodes st2) s = w) as Hnew.
  { unfold value_of, st2, set_sig_value. cbn [nodes upd].
    by rewrite signal_of_set_signal, decide_True. }
  destruct (notify_refreshes E n s (length (subscribers_of (nodes st) (DSig s))) 0 fuel st2)
    as (st' & Hrun & Hv & Hc).
  + done.
  + by rewrite drop_0, Hsubs.
  + rewrite drop_0, Hsubs. intros cb Hcb.
    destruct (Hready cb Hcb) as [Hrest Hbody]. split; [|done].
    by apply (at_rest_effects n (nodes st)).
  + rewrite Hsubs. lia.
  + lia.
  + rewrite Hrun. cbn [bind ret]. destruct fuel as [|fuel]; [lia|].
    exists st'. split; [done|]. split; [by rewrite <- Hnew, <- Hv|].
    intros m Hm. specialize (Hc m). rewrite drop_0, Hsubs in Hc.
    rewrite bool_decide_eq_true_2 in Hc by done.
    rewrite <- (computed_values E (nodes st2) (nodes st')) in Hc by exact Hv.
    unfold cache in Hc. injection Hc as Hhas Hval.
    exists (computed E (nodes st') m).
    split_and!; [|done|done|].
    { destruct (Hready _ Hm) as [_ Hbody]. cbn [body_of] in Hbody.
      destruct (result_of_returns n (memo_compute E m) (nodes st') Hbody) as (v & Hres & _).
      unfold computed. by rewrite Hres. }
    unfold MemoSource_get. cbn zeta.
    assert (memo_of (nodes (trackDependency (DMemo m) st')) m
            = Memo (memo_tracker (memo_of (nodes (trackDependency (DMemo m) st')) m))
                   (memo_subscribers (memo_of (nodes (trackDependency (DMemo m) st')) m))
                   true (computed E (nodes st') m)
                   (computing (memo_of (nodes (trackDependency (DMemo m) st')) m))) as Hm'.
    { pose proof (memo_of_trackDependency_flags (DMemo m) st' m) as Hflags.
      destruct (memo_of (nodes (trackDependency (DMemo m) st')) m) as [t subs h v c].
      cbn in *. destruct Hflags as (-> & -> & _). by rewrite Hhas, Hval. }
    rewrite Hm'. cbn [hasValue memo_value bind ret]. by rewrite Hm'.
Qed.

(** *** On the watchers *)

(** [setA(2)]: the memo that doubles signal 0 holds 4 afterwards. *)
Lemma set_refreshes_memos_witness :
  jsset_live (subscribers_of (nodes watchers_started) (DSig 0))
  = [OEffect 0; OEffect 2; OMemo 0]
  ∧ batchDepth watchers_started = 0%Z
  ∧ sig_value (signal_of (nodes watchers_started) 0) = VNum 1
  ∧ ∃ st',
      run watchers_env 20 (TProg (SigSet 0 (VNum 2) Ret)) watchers_started
      = Done (Normal (VNum 2)) st'
      ∧ sig_value (signal_of (nodes st') 0) = VNum 2
      ∧ memo_value (memo_of (nodes st') 0) = VNum 4
      ∧ MemoSource_get (run watchers_env 20) 0 st'
        = Done (Normal (VNum 4)) (trackDependency (DMemo 0) st').
Proof.
  assert (jsset_live (subscribers_of (nodes watchers_started) (DSig 0))
          = [OEffect 0; OEffect 2; OMemo 0]) as Hsubs by (vm_compute; reflexivity).
  assert (batchDepth watchers_started = 0%Z) as Hb by (vm_compute; reflexivity).
  assert (sig_value (signal_of (nodes watchers_started) 0) = VNum 1) as Hold
    by (vm_compute; reflexivity).
  assert (NoDup (jsset_live (subscribers_of (nodes watchers_started) (DSig 0)))) as Hnd.
  { rewrite Hsubs. apply (NoDup_fmap_1 (λ cb, match cb with
                                               | OEffect e => e | OMemo m => 10 + m
                                               | ORender c => 20 + c
                                               end)).
    vm_compute. repeat constructor; rewrite ?elem_of_cons, ?elem_of_nil; lia. }
  assert (∀ cb, cb ∈ jsset_live (subscribers_of (nodes watchers_started) (DSig 0)) →
                ready watchers_env 2 (nodes watchers_started) cb) as Hready.
  { rewrite Hsubs. intros cb Hcb.
    apply elem_of_cons in Hcb as [->|Hcb]; [|apply elem_of_cons in Hcb as [->|Hcb];
      [|apply list_elem_of_singleton in Hcb as ->]].
    - split; [vm_compute; reflexivity|repeat constructor].
    - split; [vm_compute; reflexivity|repeat constructor].
    - split; [|constructor; intros v; constructor; by destruct v].
      split_and!; [vm_compute; reflexivity|vm_compute; reflexivity|vm_compute; lia]. }
  assert (is_function (VNum 2) = false) as Hw by reflexivity.
  assert (sig_value (signal_of (nodes watchers_started) 0) ≠ VNum 2) as Hne
    by (rewrite Hold; intros [=]).
  assert (length (subscribers_of (nodes watchers_started) (DSig 0)) + 2 + 4 < 20) as Hfuel
    by (vm_compute; lia).
  destruct (set_refreshes_memos watchers_env 2 20 0 (VNum 2) watchers_started
              Hb Hnd Hready Hw Hne Hfuel) as (st' & Hrun & Hval & Hmemos).
  destruct (Hmemos 0) as (v & Hv & _ & Hcache & Hget).
  { rewrite Hsubs. apply list_elem_of_In. cbn. auto. }
  assert (v = VNum 4) as ->.
  { cbn [watchers_env memo_compute result_of] in Hv. rewrite Hval in Hv.
    by injection Hv as <-. }
  split_and!; [exact Hsubs|exact Hb|exact Hold|].
  exists st'. split_and!; [exact Hrun|exact Hval|exact Hcache|exact Hget].
Defined.

(** ** Memos: notification on change *)

(** X20.  A memo notifies only when its value changes.  A recomputation of
    a memo whose compute function reads signals and returns [v]: when the
    memo holds a value identical to [v] by [Object.is], the call caches [v]
    and notifies nobody; it makes a notification exactly when the memo had
    no value or held a different one, and has a subscriber. *)
Theorem memo_notifies_iff_changed (E : env) (n fuel : nat) (m : nat) (st : state)
    (r : result) (st' : state) :
  let x := memo_of (nodes st) m in
  computing x = false →
  DMemo m ∉ subscriptions (memo_tracker x) →
  reads_only false n (memo_compute E m) → n < fuel →
  MemoSource_recompute E (run E fuel) m st = Done r st' →
  ∃ v, result_of (nodes st) (memo_compute E m) = Normal v
       ∧ (hasValue x = true → object_is (memo_value x) v = true →
            r = Normal VUndef ∧ st' = recomputed E m st
            ∧ memo_value (memo_of (nodes st') m) = v
            ∧ invocations st' = invocations st)
       ∧ (notifications st' ≠ notifications st
          ↔ (hasValue x = false ∨ object_is (memo_value x) v = false)
            ∧ jsset_live (memo_subscribers x) ≠ []).
Proof.
  intros x Hc Hself Hbody Hfuel Hrun. unfold MemoSource_recompute in Hrun.
  fold x in Hrun. rewrite Hc in Hrun. cbn zeta in Hrun.
  set (st0 := upd (set_computing m true) st) in *.
  rewrite (collect_reads_only E false n fuel (OMemo m) (memo_compute E m) st0 Hbody Hfuel)
    in Hrun.
  destruct (reads_of_signals (nodes st) (nodes st0) (memo_compute E m) eq_refl)
    as (_ & Hres0 & _).
  rewrite Hres0 in Hrun.
  destruct (result_of_returns n (memo_compute E m) (nodes st) Hbody) as (v & Hres & Hv).
  rewrite Hres in Hrun. cbn [bind] in Hrun.
  set (st1 := collected (OMemo m) (memo_compute E m) st0) in *.
  set (st2 := upd (set_memo_result m v) st1) in *.
  assert (memo_of (nodes st0) m
          = Memo (memo_tracker x) (memo_subscribers x) (hasValue x) (memo_value x) true) as Hx0.
  { unfold st0, set_computing. cbn [nodes upd]. by rewrite memo_of_set_memo, decide_True. }
  (* the memo after the collection: same cache, same subscribers *)
  destruct (collected_spec (OMemo m) (memo_compute E m) st0) as (Hsubs1 & _).
  cbn zeta in Hsubs1. specialize (Hsubs1 (DMemo m)). fold st1 in Hsubs1.
  rewrite bool_decide_eq_false_2 in Hsubs1 by apply memo_not_read.
  rewrite bool_decide_eq_false_2 in Hsubs1.
  2:{ cbn [tracker_of]. by rewrite Hx0. }
  cbn [subscribers_of] in Hsubs1. rewrite Hx0 in Hsubs1. cbn [memo_subscribers] in Hsubs1.
  assert (hasValue (memo_of (nodes st1) m) = hasValue x
          ∧ memo_value (memo_of (nodes st1) m) = memo_value x) as [Hhas1 Hval1].
  { pose proof (proj2 (collected_values (OMemo m) (memo_compute E m) st0) m) as Hcache.
    fold st1 in Hcache. unfold cache in Hcache. rewrite Hx0 in Hcache.
    injection Hcache as H1 H2. by split. }
  rewrite Hhas1, Hval1 in Hrun.
  assert (subscribers_of (nodes st2) (DMemo m) = memo_subscribers x) as Hsubs2.
  { unfold st2, set_memo_result. cbn [nodes upd subscribers_of].
    by rewrite memo_of_set_memo, decide_True. }
  assert (notifications st2 = notifications st) as Hn2.
  { unfold notifications. change (trace st2) with (trace st ++ [EvRun (OMemo m)]).
    rewrite filter_app, filter_cons_False by (intros []). cbn. by rewrite app_nil_r. }
  assert (recomputed E m st = upd (set_computing m false) st2) as Hrec.
  { unfold recomputed. cbn zeta. by rewrite Hres. }
  exists v. split; [done|].
  destruct (negb (hasValue x) || negb (object_is (memo_value x) v)) eqn:Hchanged.
  - (* changed: the loop over the subscribers runs *)
    destruct (run E fuel (TNotifyAll (DMemo m) 0) st2) as [|r2 st3] eqn:Hloop; [done|].
    cbn [finally ret] in Hrun. injection Hrun as <- <-.
    assert (hasValue x = false ∨ object_is (memo_value x) v = false) as Hwhy.
    { destruct (hasValue x); [right|by left]. by destruct (object_is _ _). }
    split.
    { intros Hhas Hsame. rewrite Hhas, Hsame in Hchanged. done. }
    change (notifications (upd (set_computing m false) st3)) with (notifications st3).
    destruct (jsset_live (memo_subscribers x)) as [|cb cbs] eqn:Hlive.
    + apply notify_all_no_subscriber in Hloop as [-> ->]; [|by rewrite drop_0, Hsubs2].
      split; [by rewrite Hn2|]. by intros [_ ?].
    + eapply notify_all_first in Hloop as (l & Hl); [|by rewrite drop_0, Hsubs2].
      split; [done|]. intros _. rewrite <- Hn2. unfold notifications. rewrite Hl.
      rewrite filter_app, filter_cons_True by done.
      intros Heq. apply (f_equal length) in Heq. rewrite length_app in Heq.
      cbn in Heq. lia.
  - (* the same value *)
    cbn [finally ret] in Hrun. injection Hrun as <- <-.
    apply orb_false_elim in Hchanged as [Hhas Hsame].
    apply negb_false_iff in Hhas, Hsame.
    split.
    + intros _ _. split_and!; [done|by rewrite Hrec| |].
      * unfold st2, set_computing, set_memo_result. cbn [nodes upd].
        by rewrite !memo_of_set_memo, !decide_True.
      * unfold invocations. change (trace (upd (set_computing m false) st2))
          with (trace st ++ [EvRun (OMemo m)]).
        rewrite filter_app, filter_cons_False by (intros []). cbn. by rewrite app_nil_r.
    + change (notifications (upd (set_computing m false) st2)) with (notifications st2).
      split; [by rewrite Hn2|]. intros [[Hno|Hdiff] _]; congruence.
Qed.

(** *** On a memo for the parity of a counter *)

(** [count] goes from 2 to 4: the memo recomputes [true] again, and the
    effect that reads it is not notified. *)
Lemma memo_notifies_iff_changed_witness :
  jsset_live (memo_subscribers (memo_of (nodes parity_changed) 0)) = [OEffect 0]
  ∧ hasValue (memo_of (nodes parity_changed) 0) = true
  ∧ memo_value (memo_of (nodes parity_changed) 0) = VBool true
  ∧ ∃ r st',
      MemoSource_recompute parity_env (run parity_env 20) 0 parity_changed = Done r st'
      ∧ result_of (nodes parity_changed) (memo_compute parity_env 0) = Normal (VBool true)
      ∧ r = Normal VUndef
      ∧ st' = recomputed parity_env 0 parity_changed
      ∧ invocations st' = invocations parity_changed.
Proof.
  assert (hasValue (memo_of (nodes parity_changed) 0) = true) as Hhas
    by (vm_compute; reflexivity).
  assert (memo_value (memo_of (nodes parity_changed) 0) = VBool true) as Hval
    by (vm_compute; reflexivity).
  assert (computing (memo_of (nodes parity_changed) 0) = false) as Hc
    by (vm_compute; reflexivity).
  assert (DMemo 0 ∉ subscriptions (memo_tracker (memo_of (nodes parity_changed) 0))) as Hself.
  { assert (subscriptions (memo_tracker (memo_of (nodes parity_changed) 0)) = [DSig 0]) as ->
      by (vm_compute; reflexivity).
    by intros [=]%list_elem_of_singleton. }
  assert (reads_only false 1 (memo_compute parity_env 0)) as Hbody.
  { constructor. intros v. constructor. by destruct v. }
  assert (1 < 20) as Hfuel by lia.
  split_and!; [vm_compute; reflexivity|exact Hhas|exact Hval|].
  destruct (MemoSource_recompute parity_env (run parity_env 20) 0 parity_changed)
    as [|r st'] eqn:Hrun; [vm_compute in Hrun; discriminate Hrun|].
  destruct (memo_notifies_iff_changed parity_env 1 20 0 parity_changed r st'
              Hc Hself Hbody Hfuel Hrun) as (v & Hres & Hsame & _).
  assert (v = VBool true) as -> by (vm_compute in Hres; by injection Hres as <-).
  destruct (Hsame Hhas) as (-> & -> & _ & Hinv); [by rewrite Hval|].
  exists (Normal VUndef), (recomputed parity_env 0 parity_changed).
  split_and!; [reflexivity|exact Hres|reflexivity|reflexivity|exact Hinv].
Defined.

(** ** The cleanups of an effect *)

Lemma run_logs_only E n p : logs_only n p → ∀ fuel st,
  n < fuel →
  run E fuel (TProg p) st
  = Done (result_of (nodes st) p) (set_console (console st ++ logs_of (nodes st) p) st).
Proof.
  induction 1 as [n v|n v k Hk IH]; intros fuel st Hfuel;
    (destruct fuel as [|fuel]; [lia|]); rewrite run_S; cbn [dispatch exec].
  - cbn. rewrite app_nil_r. by destruct st.
  - rewrite IH by lia. cbn. by rewrite <- app_assoc.
Qed.

Lemma logs_only_returns n p g : logs_only n p → ∃ v, result_of g p = Normal v.
Proof. induction 1; cbn; eauto. Qed.

(** The loop of [runCleanups] over cleanups that only log. *)
Lemma run_cleanups_logs E n fuel : ∀ cs st,
  Forall (λ f, logs_only n (fn_body E f VUndef)) cs → n < fuel →
  for_each (λ f st, run E fuel (TProg (fn_body E f VUndef)) st) cs st
  = Done (Normal VUndef) (set_console (console st ++ cleanup_logs E (nodes st) cs) st).
Proof.
  induction cs as [|f cs IH]; intros st Hcs Hfuel.
  { cbn. rewrite app_nil_r. by destruct st. }
  apply Forall_cons in Hcs as [Hf Hcs]. cbn [for_each].
  rewrite (run_logs_only E n _ Hf) by done.
  destruct (logs_only_returns n _ (nodes st) Hf) as (v & ->). cbn [bind].
  rewrite IH by done. unfold cleanup_logs. cbn. by rewrite <- app_assoc.
Qed.

Lemma reads_and_returns_result n p g : reads_and_returns n p → ∃ v, result_of g p = Normal v.
Proof. induction 1; cbn; eauto. Qed.

Lemma run_reads_and_returns E n p : reads_and_returns n p → ∀ fuel st o rest,
  collectorStack st = rest ++ [o] → n < fuel →
  run E fuel (TProg p) st
  = Done (result_of (nodes st) p)
         (set_console (console st ++ logs_of (nodes st) p)
                      (upd (add_reads o (reads_of (nodes st) p)) st)).
Proof.
  induction 1 as [n v|n s k Hk IH|n v k Hk IH]; intros fuel st o rest Hstack Hfuel;
    (destruct fuel as [|fuel]; [lia|]); rewrite run_S; cbn [dispatch exec].
  - cbn. rewrite app_nil_r. by destruct st.
  - unfold SignalSource_get, trackDependency, currentCollector.
    rewrite Hstack, last_snoc. cbn [bind ret].
    set (st1 := upd (addDependency o (DSig s)) st).
    assert (signals (nodes st1) = signals (nodes st)) as Hsig
      by apply signals_set_tracker.
    assert (signal_of (nodes st1) s = signal_of (nodes st) s) as ->
      by (unfold signal_of; by rewrite Hsig).
    rewrite (IH _ fuel st1 o rest) by (done || lia).
    destruct (reads_of_signals (nodes st) (nodes st1)
                (k (sig_value (signal_of (nodes st) s))) Hsig) as (-> & -> & ->).
    done.
  - rewrite (IH fuel _ o rest) by (done || lia). cbn.
    by rewrite <- app_assoc.
Qed.

Lemma collect_reads_and_returns E n fuel o fn st :
  reads_and_returns n fn → n < fuel →
  collect (run E fuel) o fn st = Done (result_of (nodes st) fn) (collected o fn st).
Proof.
  intros Hfn Hfuel. unfold collect.
  set (st1 := pushCollector o (upd (reset_collecting o) (emit (EvRun o) st))).
  assert (signals (nodes st1) = signals (nodes st)) as Hsig by apply signals_set_tracker.
  rewrite (run_reads_and_returns E n fn Hfn fuel st1 o (collectorStack st)) by done.
  destruct (reads_of_signals (nodes st) (nodes st1) fn Hsig) as (-> & -> & ->).
  cbn [finally]. unfold reconcileSubscriptions.
  destruct (add_reads_spec o (reads_of (nodes st) fn) (reset_collecting o (nodes st)))
    as (Ht & _).
  unfold reset_collecting in Ht at 2 3. rewrite tracker_of_set_tracker in Ht. cbn in Ht.
  rewrite add_new_signals.
  2:{ cbn. rewrite Ht. cbn. by apply collecting_reads. }
  f_equal. apply state_eq; try reflexivity.
  cbn. apply removelast_last.
Qed.

Lemma cleanup_logs_signals E g g' cs :
  signals g' = signals g → cleanup_logs E g' cs = cleanup_logs E g cs.
Proof.
  intros Hsig. unfold cleanup_logs. f_equal. apply list_fmap_ext. intros i f _.
  by destruct (reads_of_signals g g' (fn_body E f VUndef) Hsig) as (_ & _ & ->).
Qed.

(** The effect at the end of a run. *)
Lemma rest_of_end_run e previousEffect v st s r d c :
  rest_of (effect_of (nodes st) e) = (s, r, d, c) →
  rest_of (effect_of (nodes (end_run e previousEffect v st)) e)
  = (s, false, d, c ++ returned_cleanup (Normal v)).
Proof.
  intros (Hs & Hr & Hd & Hc)%rest_of_fields. unfold end_run, keep_cleanup, set_running.
  destruct v; cbn [nodes upd set_activeEffect returned_cleanup];
    rewrite ?app_nil_r; unfold set_cleanups;
    rewrite !effect_of_set_effect, ?decide_True by done; cbn; by subst.
Qed.



(** *** An effect that returns a cleanup *)



(** ** Computations that throw *)

(** An effect at rest whose body reads signals and then throws. *)
Lemma start_throws E n fuel e st err :
  idle e (nodes st) → reads_only true n (effect_body E e) →
  result_of (nodes st) (effect_body E e) = Thrown err → n + 1 < fuel →
  EffectComputation_start (run E fuel) e st = Done (Thrown err) (rerun E e st).
Proof.
  intros Hidle Hbody Hthrows Hfuel. unfold EffectComputation_start, EffectComputation_schedule.
  pose proof Hidle as Hidle'. unfold idle, rest_of in Hidle'.
  injection Hidle' as Hs Hr Hd Hc. rewrite Hd, Hr.
  destruct fuel as [|fuel]; [lia|]. rewrite run_S. cbn [dispatch].
  unfold EffectComputation_execute. rewrite Hd. fold (begin_run e st).
  destruct (begin_run_spec e st) as (Hsig & _). cbn zeta in Hsig.
  unfold runCleanups.
  assert (cleanups (effect_of (nodes (begin_run e st)) e) = []) as ->.
  { unfold begin_run, set_scheduled, set_running. cbn [nodes upd].
    by rewrite !effect_of_set_effect, !decide_True. }
  cbn [for_each ret bind].
  set (st0 := set_activeEffect (Some e) (upd (set_cleanups e []) (begin_run e st))).
  rewrite (collect_reads_only E true n fuel (OEffect e) (effect_body E e) st0 Hbody)
    by lia.
  destruct (reads_of_signals (nodes st) (nodes st0) (effect_body E e) Hsig) as (_ & -> & _).
  rewrite Hthrows. cbn [bind finally ret]. done.
Qed.

(** X23.  An effect survives a throwing run.  When the body of an effect at
    rest reads signals and then throws, the call that started it throws the
    same exception; the effect is at rest again afterwards, the active
    effect and the collector stack are restored, and the effect is
    subscribed to exactly the signals it read before it threw: the next
    change of one of them runs it again. *)
Theorem effect_survives_throw (E : env) (n fuel : nat) (e : nat) (st : state) (err : val) :
  idle e (nodes st) → consistent (OEffect e) (nodes st) →
  reads_only true n (effect_body E e) →
  result_of (nodes st) (effect_body E e) = Thrown err →
  n + 1 < fuel →
  ∃ st',
    EffectComputation_start (run E fuel) e st = Done (Thrown err) st'
    ∧ idle e (nodes st')
    ∧ activeEffect st' = activeEffect st ∧ collectorStack st' = collectorStack st
    ∧ run_count (OEffect e) st' = S (run_count (OEffect e) st)
    ∧ ∀ d, OEffect e ∈ jsset_live (subscribers_of (nodes st') d)
           ↔ d ∈ DSig <$> reads_of (nodes st) (effect_body E e).
Proof.
  intros Hidle Hcons Hbody Hthrows Hfuel.
  exists (rerun E e st). split; [by apply (start_throws E n)|].
  destruct (rerun_spec E e st Hidle) as (_ & _ & _ & Hstack & Hactive & Hrest & _).
  cbn zeta in *.
  destruct (rerun_tracks_reads E e st Hidle Hcons) as [_ Hreads].
  split_and!; [by apply Hrest|done|done| |done].
  rewrite run_count_rerun by done. rewrite bool_decide_eq_true_2 by done. lia.
Qed.

(** X24.  A memo does not cache an exception.  When a memo without a value
    is read and its compute function reads signals and then throws, the
    read throws the same exception; the memo still has no value and is not
    left computing, so the next read computes again. *)
Theorem memo_error_is_not_cached (E : env) (n fuel : nat) (m : nat) (st : state)
    (err : val) :
  hasValue (memo_of (nodes st) m) = false →
  computing (memo_of (nodes st) m) = false →
  reads_only true n (memo_compute E m) →
  result_of (nodes st) (memo_compute E m) = Thrown err →
  n + 1 < fuel →
  ∃ st',
    MemoSource_get (run E fuel) m st = Done (Thrown err) st'
    ∧ hasValue (memo_of (nodes st') m) = false
    ∧ computing (memo_of (nodes st') m) = false
    ∧ run_count (OMemo m) st' = S (run_count (OMemo m) st).
Proof.
  intros Hhas Hc Hbody Hthrows Hfuel. unfold MemoSource_get. cbn zeta.
  destruct (memo_of_trackDependency_flags (DMemo m) st m) as (Hhas1 & _ & Hc1 & _).
  set (st1 := trackDependency (DMemo m) st) in *.
  rewrite Hhas1, Hhas.
  destruct fuel as [|fuel]; [lia|]. rewrite run_S. cbn [dispatch].
  unfold MemoSource_recompute. rewrite Hc1, Hc. cbn zeta.
  set (st0 := upd (set_computing m true) st1).
  rewrite (collect_reads_only E true n fuel (OMemo m) (memo_compute E m) st0 Hbody) by lia.
  assert (signals (nodes st0) = signals (nodes st)) as Hsig.
  { change (signals (nodes st0)) with (signals (nodes st1)).
    unfold st1, trackDependency. destruct (currentCollector st); [|done].
    apply signals_set_tracker. }
  destruct (reads_of_signals (nodes st) (nodes st0) (memo_compute E m) Hsig) as (_ & -> & _).
  rewrite Hthrows. cbn [bind finally ret].
  eexists. split; [done|].
  set (st2 := collected (OMemo m) (memo_compute E m) st0).
  assert (hasValue (memo_of (nodes st2) m) = false) as Hhas2.
  { pose proof (proj2 (collected_values (OMemo m) (memo_compute E m) st0) m) as Hcache.
    unfold cache in Hcache. injection Hcache as Hsame _.
    etrans; [exact Hsame|]. unfold st0, set_computing. cbn [nodes upd].
    rewrite memo_of_set_memo, decide_True by done. cbn [hasValue].
    by rewrite Hhas1. }
  cbn [nodes upd]. unfold set_computing. rewrite memo_of_set_memo, decide_True by done.
  cbn [hasValue computing]. split_and!; [done|done|].
  unfold run_count. cbn [trace upd].
  change (trace st2) with (trace st1 ++ [EvRun (OMemo m)]).
  assert (trace st1 = trace st) as -> by (unfold st1, trackDependency; by destruct (currentCollector st)).
  rewrite filter_app, length_app, filter_cons_True by done. cbn. lia.
Qed.

Lemma rerun_values E e st s : value_of (nodes (rerun E e st)) s = value_of (nodes st) s.
Proof.
  unfold rerun.
  set (st0 := set_activeEffect (Some e) (upd (set_cleanups e []) (begin_run e st))).
  destruct (collected_values (OEffect e) (effect_body E e) st0) as [Hv1 _].
  exact (Hv1 s).
Qed.

(** The loop of [set] over the subscribers, from the iterator position [i],
    when the live subscribers from there on are [before], then the effect
    [e], whose body throws, then [after]. *)
Lemma notify_stops E n s e err : ∀ k i fuel st before after,
  batchDepth st = 0%Z →
  jsset_live (drop i (subscribers_of (nodes st) (DSig s))) = before ++ OEffect e :: after →
  NoDup (before ++ OEffect e :: after) →
  (∀ cb, cb ∈ before → ready E n (nodes st) cb) →
  idle e (nodes st) → reads_only true n (effect_body E e) →
  (∀ g, result_of g (effect_body E e) = Thrown err) →
  length (subscribers_of (nodes st) (DSig s)) - i ≤ k → k + n + 2 < fuel →
  ∃ st', run E fuel (TNotifyAll (DSig s) i) st = Done (Thrown err) st'
         ∧ (∀ o, run_count o st'
                 = run_count o st
                   + (if bool_decide (o ∈ before ++ [OEffect e]) then 1 else 0))
         ∧ (∀ s', value_of (nodes st') s' = value_of (nodes st) s').
Proof.
  induction k as [|k IH]; intros i fuel st before after Hb Hlive Hnd Hready Hidle Hbody
    Hthrows Hlen Hfuel.
  { rewrite drop_ge in Hlive by lia. by destruct before. }
  destruct fuel as [|fuel]; [lia|]. rewrite run_S. cbn [dispatch]. unfold notify_all.
  destruct (subscribers_of (nodes st) (DSig s) !! i) as [slot|] eqn:Hslot.
  2:{ apply lookup_ge_None in Hslot. rewrite drop_ge in Hlive by lia. by destruct before. }
  rewrite (drop_S _ _ _ Hslot) in Hlive.
  apply lookup_lt_Some in Hslot as Hi.
  destruct slot as [cb|].
  2:{ cbn [jsset_live omap] in Hlive. apply (IH (S i) fuel st before after); try done; lia. }
  change (jsset_live (Some cb :: ?l)) with (cb :: jsset_live l) in Hlive.
  unfold notifySubscriber. cbn zeta. change (batchDepth (emit _ st)) with (batchDepth st).
  rewrite Hb, bool_decide_eq_false_2 by lia.
  set (st1 := emit (EvNotify cb) st).
  destruct before as [|cb0 before].
  - (* the throwing effect *)
    cbn [app] in Hlive. injection Hlive as -> Hafter.
    unfold call_subscriber. set (st2 := emit (EvInvoke (OEffect e)) st1).
    change (EffectComputation_schedule (run E fuel) e st2)
      with (EffectComputation_start (run E fuel) e st2).
    rewrite (start_throws E n fuel e st2 err) by (done || lia). cbn [bind].
    eexists. split; [done|]. split.
    + intros o. rewrite run_count_rerun by done. unfold st2, st1. rewrite !run_count_emit.
      rewrite !(bool_decide_eq_false_2 (_ = EvRun o)) by done.
      cbn [app]. rewrite Nat.add_0_r, Nat.add_0_r. f_equal.
      apply (f_equal (λ b : bool, if b then 1 else 0)), bool_decide_ext.
      by rewrite list_elem_of_singleton.
    + intros s'. by rewrite rerun_values.
  - (* a subscriber before it *)
    cbn [app] in Hlive, Hnd. injection Hlive as -> Hlive.
    change (jsset_live (drop (S i) (subscribers_of (nodes st) (DSig s)))
            = before ++ OEffect e :: after) in Hlive.
    assert (ready E n (nodes st) cb0) as Hcb by (apply Hready; by left).
    apply NoDup_cons in Hnd as [Hfresh Hnd].
    rewrite (call_ready E n fuel cb0 st1) by (done || lia). cbn [bind].
    set (st2 := emit (EvInvoke cb0) st1).
    destruct (restarted_spec E n cb0 st2 Hcb) as (Hcount3 & Hb3 & _ & Hrest3 & Hsubs3).
    destruct (restarted_values E n cb0 st2 Hcb) as [Hv3 _].
    cbn zeta in *.
    set (st3 := restarted E cb0 st2) in *.
    set (subs := subscribers_of (nodes st) (DSig s)) in *.
    assert (Some cb0 ∈ subs) as Hin.
    { apply list_elem_of_lookup. by exists i. }
    assert (drop (S i) (subscribers_of (nodes st3) (DSig s)) = drop (S i) subs
            ∧ length (subscribers_of (nodes st3) (DSig s)) = length subs) as [Hdrop Hlen3].
    { destruct (Hsubs3 s Hin) as [-> | ->]; [done|].
      rewrite drop_jsset_delete, length_jsset_delete. split; [|done].
      apply jsset_delete_absent. rewrite <- elem_of_jsset_live. by rewrite Hlive. }
    destruct (IH (S i) fuel st3 before after) as (st' & Hrun & Hcount & Hv').
    + by rewrite Hb3.
    + by rewrite Hdrop.
    + done.
    + intros cb' Hcb'. destruct (Hready cb') as [Hr' Hbody']; [by right|].
      split; [|done]. by apply Hrest3.
    + by apply (Hrest3 (OEffect e)).
    + done.
    + done.
    + rewrite Hlen3. lia.
    + lia.
    + exists st'. split_and!; [done| |].
      * intros o. rewrite Hcount, Hcount3. unfold st2, st1. rewrite !run_count_emit.
        rewrite !(bool_decide_eq_false_2 (_ = EvRun o)) by done.
        change ((cb0 :: before) ++ [OEffect e]) with (cb0 :: (before ++ [OEffect e])).
        rewrite <- (count_cons o cb0 (before ++ [OEffect e])); [lia|].
        intros Hcb0. apply Hfresh. apply elem_of_app in Hcb0 as [?|Hcb0%list_elem_of_singleton].
        -- apply elem_of_app. by left.
        -- apply elem_of_app. right. subst. by left.
      * intros s'. rewrite Hv'. apply Hv3.
Qed.

(** X25.  A throwing subscriber cuts a [set] short.  The live subscribers
    of the signal are, in subscription order, [before], then an effect at
    rest whose body reads signals and throws, then [after]; those in
    [before] are effects at rest and memos at rest without subscribers,
    whose functions only read signals.  A value-changing [set] outside a
    batch then throws the exception of the effect, after it has installed
    the value and run the computations in [before] and the effect once
    each: the subscribers in [after] are not run, although the signal has
    changed. *)
Theorem set_stops_at_throwing_subscriber (E : env) (n fuel : nat) (s : nat) (w : val)
    (st : state) (before : list owner) (e : nat) (after : list owner) (err : val) :
  batchDepth st = 0%Z →
  is_function w = false →
  sig_value (signal_of (nodes st) s) ≠ w →
  jsset_live (subscribers_of (nodes st) (DSig s)) = before ++ OEffect e :: after →
  NoDup (before ++ OEffect e :: after) →
  (∀ cb, cb ∈ before → ready E n (nodes st) cb) →
  idle e (nodes st) → reads_only true n (effect_body E e) →
  (∀ g, result_of g (effect_body E e) = Thrown err) →
  length (subscribers_of (nodes st) (DSig s)) + n + 4 < fuel →
  ∃ st',
    run E fuel (TProg (SigSet s w Ret)) st = Done (Thrown err) st'
    ∧ sig_value (signal_of (nodes st') s) = w
    ∧ ∀ o, run_count o st'
           = run_count o st + (if bool_decide (o ∈ before ++ [OEffect e]) then 1 else 0).
Proof.
  intros Hb Hw Hne Hlive Hnd Hready Hidle Hbody Hthrows Hfuel.
  destruct fuel as [|fuel]; [lia|]. rewrite run_S. cbn [dispatch exec].
  unfold SignalSource_set.
  replace (match w with
           | VFun f => run E fuel (TProg (fn_body E f (sig_value (signal_of (nodes st) s)))) st
           | _ => ret w st
           end) with (ret w st) by (by destruct w).
  cbn [bind ret]. rewrite object_is_ne by done.
  set (st2 := upd (set_sig_value s w) st).
  assert (subscribers_of (nodes st2) (DSig s) = subscribers_of (nodes st) (DSig s)) as Hsubs
    by apply subscribers_of_set_sig_value.
  assert (value_of (nodes st2) s = w) as Hnew.
  { unfold value_of, st2, set_sig_value. cbn [nodes upd].
    by rewrite signal_of_set_signal, decide_True. }
  assert (∀ cb, at_rest n (nodes st) cb → at_rest n (nodes st2) cb) as Hrest.
  { intros cb. by apply (at_rest_effects n (nodes st)). }
  destruct (notify_stops E n s e err (length (subscribers_of (nodes st) (DSig s))) 0 fuel st2
              before after) as (st' & Hrun & Hcount & Hv).
  - done.
  - by rewrite drop_0, Hsubs.
  - done.
  - intros cb Hcb. destruct (Hready cb Hcb) as [Hr Hbody']. split; [|done]. by apply Hrest.
  - by apply (Hrest (OEffect e)).
  - done.
  - done.
  - rewrite Hsubs. lia.
  - lia.
  - rewrite Hrun. cbn [bind]. exists st'. split; [done|]. split.
    + by rewrite <- Hnew, <- Hv.
    + intros o. by rewrite Hcount.
Qed.

(** *** Effects and memos that throw, on the scenarios *)

Lemma watchers_created_consistent o : consistent o (nodes watchers_created).
Proof.
  assert (subscriptions (tracker_of (nodes watchers_created) o) = []) as Hkeys
    by (by destruct o).
  intros d. rewrite Hkeys.
  assert (subscribers_of (nodes watchers_created) d = []) as ->.
  { destruct d as [s|m]; [|done]. unfold watchers_created. cbn [nodes upd subscribers_of].
    rewrite !signal_of_set_signal. by repeat case_decide. }
  cbn [jsset_live omap]. by rewrite !elem_of_nil.
Qed.

Lemma effect_survives_throw_witness :
  idle 1 (nodes watchers_created)
  ∧ result_of (nodes watchers_created) (effect_body failing_env 1) = Thrown (VError "boom")
  ∧ ∃ st',
      EffectComputation_start (run failing_env 20) 1 watchers_created
      = Done (Thrown (VError "boom")) st'
      ∧ idle 1 (nodes st')
      ∧ activeEffect st' = activeEffect watchers_created
      ∧ collectorStack st' = collectorStack watchers_created
      ∧ run_count (OEffect 1) st' = S (run_count (OEffect 1) watchers_created)
      ∧ ∀ d, OEffect 1 ∈ jsset_live (subscribers_of (nodes st') d) ↔ d ∈ [DSig 0].
Proof.
  assert (idle 1 (nodes watchers_created)) as Hidle by reflexivity.
  assert (reads_only true 2 (effect_body failing_env 1)) as Hbody by (repeat constructor).
  assert (result_of (nodes watchers_created) (effect_body failing_env 1)
          = Thrown (VError "boom")) as Hthrows by reflexivity.
  assert (2 + 1 < 20) as Hfuel by lia.
  split_and!; [exact Hidle|exact Hthrows|].
  exact (effect_survives_throw failing_env 2 20 1 watchers_created (VError "boom")
           Hidle (watchers_created_consistent (OEffect 1)) Hbody Hthrows Hfuel).
Defined.

Lemma memo_error_is_not_cached_witness :
  hasValue (memo_of (nodes initial_state) 0) = false
  ∧ result_of (nodes initial_state) (memo_compute throwing_env 0) = Thrown (VError "boom")
  ∧ ∃ st',
      MemoSource_get (run throwing_env 20) 0 initial_state = Done (Thrown (VError "boom")) st'
      ∧ hasValue (memo_of (nodes st') 0) = false
      ∧ computing (memo_of (nodes st') 0) = false
      ∧ run_count (OMemo 0) st' = S (run_count (OMemo 0) initial_state).
Proof.
  assert (hasValue (memo_of (nodes initial_state) 0) = false) as Hhas by reflexivity.
  assert (computing (memo_of (nodes initial_state) 0) = false) as Hc by reflexivity.
  assert (reads_only true 0 (memo_compute throwing_env 0)) as Hbody by (by constructor).
  assert (result_of (nodes initial_state) (memo_compute throwing_env 0)
          = Thrown (VError "boom")) as Hthrows by reflexivity.
  assert (0 + 1 < 20) as Hfuel by lia.
  split_and!; [exact Hhas|exact Hthrows|].
  exact (memo_error_is_not_cached throwing_env 0 20 0 initial_state (VError "boom")
           Hhas Hc Hbody Hthrows Hfuel).
Defined.

(** [setA(2)] with the three effects subscribed: effect 0 runs, effect 1
    throws, effect 2 is not run. *)
Lemma set_stops_at_throwing_subscriber_witness :
  jsset_live (subscribers_of (nodes failing_started) (DSig 0))
  = [OEffect 0] ++ OEffect 1 :: [OEffect 2]
  ∧ ∃ st',
      run failing_env 20 (TProg (SigSet 0 (VNum 2) Ret)) failing_started
      = Done (Thrown (VError "boom")) st'
      ∧ sig_value (signal_of (nodes st') 0) = VNum 2
      ∧ run_count (OEffect 0) st' = run_count (OEffect 0) failing_started + 1
      ∧ run_count (OEffect 1) st' = run_count (OEffect 1) failing_started + 1
      ∧ run_count (OEffect 2) st' = run_count (OEffect 2) failing_started + 0.
Proof.
  assert (jsset_live (subscribers_of (nodes failing_started) (DSig 0))
          = [OEffect 0] ++ OEffect 1 :: [OEffect 2]) as Hlive by (vm_compute; reflexivity).
  assert (batchDepth failing_started = 0%Z) as Hb by (vm_compute; reflexivity).
  assert (is_function (VNum 2) = false) as Hw by reflexivity.
  assert (sig_value (signal_of (nodes failing_started) 0) ≠ VNum 2) as Hne
    by (vm_compute; intros [=]).
  assert (NoDup ([OEffect 0] ++ OEffect 1 :: [OEffect 2])) as Hnd.
  { apply (NoDup_fmap_1 (λ cb, match cb with
                                | OEffect e => e | OMemo m => 10 + m | ORender c => 20 + c
                                end)).
    vm_compute. repeat constructor; rewrite ?elem_of_cons, ?elem_of_nil; lia. }
  assert (∀ cb, cb ∈ [OEffect 0] → ready failing_env 2 (nodes failing_started) cb) as Hready.
  { intros cb ->%list_elem_of_singleton.
    split; [vm_compute; reflexivity|repeat constructor]. }
  assert (idle 1 (nodes failing_started)) as Hidle by (vm_compute; reflexivity).
  assert (reads_only true 2 (effect_body failing_env 1)) as Hbody by (repeat constructor).
  assert (∀ g, result_of g (effect_body failing_env 1) = Thrown (VError "boom")) as Hthrows
    by (intros g; reflexivity).
  assert (length (subscribers_of (nodes failing_started) (DSig 0)) + 2 + 4 < 20) as Hfuel
    by (vm_compute; lia).
  destruct (set_stops_at_throwing_subscriber failing_env 2 20 0 (VNum 2) failing_started
              [OEffect 0] 1 [OEffect 2] (VError "boom")
              Hb Hw Hne Hlive Hnd Hready Hidle Hbody Hthrows Hfuel)
    as (st' & Hrun & Hval & Hcount).
  split; [exact Hlive|]. exists st'.
  split_and!; [exact Hrun|exact Hval|exact (Hcount (OEffect 0))|exact (Hcount (OEffect 1))
              |exact (Hcount (OEffect 2))].
Defined.

(** ** A batch whose function throws *)

Lemma run_writes_then_throw_batching E m err ws : ∀ fuel st,
  (0 < batchDepth st)%Z →
  Forall (λ w, is_function w.2 = false) ws →
  (∀ s, s ∈ ws.*1 → length (subscribers_of (nodes st) (DSig s)) ≤ m) →
  length ws + m + 1 < fuel →
  run E fuel (TProg (writes_then_throw ws err)) st = Done (Thrown err) (batched_writes ws st).
Proof.
  induction ws as [|[s v] ws IH]; intros fuel st Hb Hws Hm Hfuel.
  - destruct fuel; [lia|]. done.
  - destruct fuel as [|fuel]; [lia|]. cbn [length] in Hfuel.
    apply Forall_cons in Hws as [Hv Hws]. cbn [fst snd] in Hv.
    destruct (batched_write_frame s v st) as (Hsubs & _ & _ & _ & Hd & _).
    assert (length (subscribers_of (nodes st) (DSig s)) ≤ m) as Hs.
    { apply Hm. cbn. by left. }
    rewrite run_S. cbn [writes_then_throw foldr dispatch exec fst snd].
    fold (writes_then_throw ws err).
    unfold SignalSource_set.
    replace (match v with
             | VFun f => run E fuel (TProg (fn_body E f (sig_value (signal_of (nodes st) s)))) st
             | _ => ret v st
             end) with (ret v st) by (by destruct v).
    cbn [bind ret].
    change (batched_writes ((s, v) :: ws) st) with (batched_writes ws (batched_write s v st)).
    assert (run E fuel (TProg (writes_then_throw ws err)) (batched_write s v st)
            = Done (Thrown err) (batched_writes ws (batched_write s v st))) as Hrest.
    { apply IH; [by rewrite Hd|done| |lia].
      intros s' Hs'. rewrite Hsubs. apply Hm. cbn. by right. }
    rewrite <- Hrest. unfold batched_write. cbn zeta.
    destruct (object_is _ v).
    + cbn [bind ret]. done.
    + rewrite (notify_all_batching E (DSig s) m); [|done| |lia].
      2:{ rewrite nodes_upd, subscribers_of_set_sig_value. lia. }
      cbn [bind ret]. by rewrite drop_0.
Qed.

(** X26.  A batch flushes also when its function throws.  The function
    performs the writes [ws] and then throws; the computations subscribed to
    the signals written are effects at rest and memos at rest without
    subscribers, whose functions only read signals.  Called outside any
    batch, [batch] throws the exception of the function, and before it does
    the writes made until the throw are flushed: every computation
    subscribed to at least one signal whose value changed has run once, and
    the batch depth is back at zero with nothing pending. *)
Theorem batch_flushes_when_body_throws (E : env) (n m fuel : nat)
    (ws : list (nat * val)) (err : val) (st : state) :
  let notified (o : owner) :=
    ∃ s, s ∈ changed (nodes st) ws ∧ o ∈ jsset_live (subscribers_of (nodes st) (DSig s)) in
  batchDepth st = 0%Z →
  pendingSubscribers st = [] →
  Forall (λ w, is_function w.2 = false) ws →
  (∀ s, s ∈ ws.*1 → length (subscribers_of (nodes st) (DSig s)) ≤ m) →
  (∀ cb, notified cb → ready E n (nodes st) cb) →
  length ws + m + n + 6 < fuel →
  ∃ st' queued,
    run E fuel (TProg (Batch (writes_then_throw ws err) Ret)) st = Done (Thrown err) st'
    ∧ NoDup queued ∧ (∀ o, o ∈ queued ↔ notified o)
    ∧ (∀ o, run_count o st'
            = run_count o st + (if bool_decide (o ∈ queued) then 1 else 0))
    ∧ batchDepth st' = 0%Z ∧ pendingSubscribers st' = [].
Proof.
  intros notified Hb Hp Hws Hm Hready Hfuel.
  destruct fuel as [|fuel]; [lia|]. rewrite run_S. cbn [dispatch exec]. unfold batch.
  rewrite Hb. change (0 + 1)%Z with 1%Z.
  set (st0 := set_batchDepth 1 st).
  rewrite (run_writes_then_throw_batching E m err ws fuel st0); [|done|done|done|lia].
  destruct (batched_writes_spec ws st0) as (Hsubs1 & He1 & Hm1 & Hc1 & Hd1 & Hn1 & Hq1).
  set (st1 := batched_writes ws st0) in *.
  cbn [finally]. rewrite Hd1. change (batchDepth st0 - 1)%Z with 0%Z.
  cbn [batchDepth set_batchDepth]. rewrite bool_decide_eq_true_2 by done.
  set (st2 := set_batchDepth 0 st1).
  assert (∀ cb, cb ∈ pendingSubscribers st1 ↔ notified cb) as Hq.
  { intros cb. rewrite Hq1. change (pendingSubscribers st0) with (pendingSubscribers st).
    rewrite Hp, elem_of_nil. change (nodes st0) with (nodes st). unfold notified. tauto. }
  assert (NoDup (pendingSubscribers st1)) as Hn.
  { apply Hn1. change (pendingSubscribers st0) with (pendingSubscribers st).
    rewrite Hp. constructor. }
  destruct fuel as [|fuel]; [lia|]. rewrite run_S. cbn [dispatch]. unfold flushSubscribers.
  change (pendingSubscribers st2) with (pendingSubscribers st1).
  destruct (pendingSubscribers st1) as [|cb queued] eqn:Hqueue.
  { cbn [ret]. exists st2, []. split_and!; [done|constructor|done| |done|done]. intros o.
    change (run_count o st2) with (run_count o st1). rewrite Hc1.
    change (run_count o st0) with (run_count o st).
    rewrite bool_decide_eq_false_2; [lia|]. apply not_elem_of_nil. }
  destruct (call_each_once E n (cb :: queued) fuel (set_pendingSubscribers [] st2))
    as (st3 & Hrun & Hcount & Hb3 & Hp3 & _).
  + done.
  + intros cb' Hcb'. apply Hq in Hcb'.
    destruct (Hready cb' Hcb') as [Hrest Hbody]. split; [|done].
    by apply (at_rest_effects n (nodes st)).
  + lia.
  + rewrite Hrun. cbn [bind].
    destruct fuel as [|fuel]; [lia|]. rewrite run_S. cbn [dispatch]. unfold flushSubscribers.
    rewrite Hp3. cbn [pendingSubscribers set_pendingSubscribers ret].
    exists st3, (cb :: queued). split_and!; [done|done|done| |done|done]. intros o.
    rewrite Hcount.
    change (run_count o (set_pendingSubscribers [] st2)) with (run_count o st1).
    rewrite Hc1. by change (run_count o st0) with (run_count o st).
Qed.

(** *** On the effect over two signals *)

(** [batch(() => { setA(2); setB(20); throw err })]: both effects run once
    more, and the batch throws. *)
Lemma batch_flushes_when_body_throws_witness :
  jsset_live (subscribers_of (nodes pair_started) (DSig 0)) = [OEffect 0]
  ∧ jsset_live (subscribers_of (nodes pair_started) (DSig 1)) = [OEffect 0; OEffect 1]
  ∧ changed (nodes pair_started) [(0, VNum 2); (1, VNum 20)] = [0; 1]
  ∧ ∃ st',
      run pair_env 20
        (TProg (Batch (writes_then_throw [(0, VNum 2); (1, VNum 20)] (VError "boom")) Ret))
        pair_started
      = Done (Thrown (VError "boom")) st'
      ∧ run_count (OEffect 0) st' = run_count (OEffect 0) pair_started + 1
      ∧ run_count (OEffect 1) st' = run_count (OEffect 1) pair_started + 1
      ∧ batchDepth st' = 0%Z ∧ pendingSubscribers st' = [].
Proof.
  assert (jsset_live (subscribers_of (nodes pair_started) (DSig 0)) = [OEffect 0]) as H0
    by (vm_compute; reflexivity).
  assert (jsset_live (subscribers_of (nodes pair_started) (DSig 1)) = [OEffect 0; OEffect 1])
    as H1 by (vm_compute; reflexivity).
  assert (changed (nodes pair_started) [(0, VNum 2); (1, VNum 20)] = [0; 1]) as Hch
    by (vm_compute; reflexivity).
  split_and!; [exact H0|exact H1|exact Hch|].
  assert (batchDepth pair_started = 0%Z) as Hb by (vm_compute; reflexivity).
  assert (pendingSubscribers pair_started = []) as Hp by (vm_compute; reflexivity).
  assert (Forall (λ w : nat * val, is_function w.2 = false) [(0, VNum 2); (1, VNum 20)])
    as Hf by (repeat constructor).
  assert (∀ s, s ∈ [(0, VNum 2); (1, VNum 20)].*1 →
               length (subscribers_of (nodes pair_started) (DSig s)) ≤ 2) as Hm.
  { intros s Hs. cbn in Hs.
    apply elem_of_cons in Hs as [->|Hs]; [vm_compute; lia|].
    apply list_elem_of_singleton in Hs as ->. vm_compute; lia. }
  assert (∀ cb, (∃ s, s ∈ changed (nodes pair_started) [(0, VNum 2); (1, VNum 20)]
                      ∧ cb ∈ jsset_live (subscribers_of (nodes pair_started) (DSig s))) →
                ready pair_env 4 (nodes pair_started) cb) as Hr.
  { intros cb (s & Hs & Hcb). rewrite Hch in Hs.
    assert (cb = OEffect 0 ∨ cb = OEffect 1) as Hcases.
    { apply elem_of_cons in Hs as [->|Hs].
      - rewrite H0 in Hcb. apply list_elem_of_singleton in Hcb. by left.
      - apply list_elem_of_singleton in Hs as ->. rewrite H1 in Hcb.
        apply elem_of_cons in Hcb as [->|Hcb]; [by left|].
        apply list_elem_of_singleton in Hcb. by right. }
    destruct Hcases as [-> | ->].
    + split; [vm_compute; reflexivity|repeat constructor].
    + split; [vm_compute; reflexivity|repeat constructor]. }
  assert (2 + 2 + 4 + 6 < 20) as Hfuel by lia.
  destruct (batch_flushes_when_body_throws pair_env 4 2 20 [(0, VNum 2); (1, VNum 20)]
              (VError "boom") pair_started Hb Hp Hf Hm Hr Hfuel)
    as (st' & queued & Hrun & _ & Hq & Hcount & Hdepth & Hpending).
  assert (OEffect 0 ∈ queued) as Hq0.
  { apply Hq. exists 0. rewrite Hch, H0. split; apply list_elem_of_here. }
  assert (OEffect 1 ∈ queued) as Hq1.
  { apply Hq. exists 1. rewrite Hch, H1. split; apply list_elem_of_In; cbn; auto. }
  exists st'. split; [exact Hrun|]. rewrite !Hcount.
  rewrite (bool_decide_eq_true_2 _ Hq0), (bool_decide_eq_true_2 _ Hq1).
  split_and!; [reflexivity|reflexivity|exact Hdepth|exact Hpending].
Defined.

(** ** A memo that was disposed *)

Lemma kept_refl m g : kept m g g.
Proof. split; [apply same_for_refl|done]. Qed.

Lemma kept_trans m g1 g2 g3 : kept m g1 g2 → kept m g2 g3 → kept m g1 g3.
Proof. intros [H1 H2] [H1' H2']. split; [by eapply same_for_trans|congruence]. Qed.

Lemma cache_set_effect e x g m : cache (set_effect e x g) m = cache g m.
Proof. done. Qed.

Lemma cache_set_component c x g m : cache (set_component c x g) m = cache g m.
Proof. done. Qed.

Lemma cache_set_sig_value s v g m : cache (set_sig_value s v g) m = cache g m.
Proof. done. Qed.

Lemma cache_set_computing m' b g m : cache (set_computing m' b g) m = cache g m.
Proof.
  unfold cache, set_computing. rewrite memo_of_set_memo. by case_decide; subst.
Qed.

Lemma cache_set_memo_result m' v g m :
  m' ≠ m → cache (set_memo_result m' v g) m = cache g m.
Proof.
  intros Hne. unfold cache, set_memo_result. by rewrite memo_of_set_memo, decide_False.
Qed.

Lemma kept_add_subscriber m d cb g : cb ≠ OMemo m → kept m g (add_subscriber d cb g).
Proof.
  intros Hne. split; [by apply same_for_add_subscriber|apply cache_set_subscribers].
Qed.

Lemma kept_unsubscribe m d cb g : cb ≠ OMemo m → kept m g (unsubscribe d cb g).
Proof.
  intros Hne. split; [by apply same_for_unsubscribe|apply cache_set_subscribers].
Qed.

Lemma kept_set_tracker m o t g :
  o ≠ OMemo m → kept m g (set_tracker o t g).
Proof.
  intros Hne. split; [by apply same_for_set_tracker|apply cache_set_tracker].
Qed.

Lemma kept_addDependency m o d g : kept m g (addDependency o d g).
Proof. split; [apply same_for_addDependency|apply cache_set_tracker]. Qed.

Lemma kept_reset_collecting m o g : kept m g (reset_collecting o g).
Proof. split; [apply same_for_reset_collecting|apply cache_set_tracker]. Qed.

Lemma kept_add_subscription m o d g : o ≠ OMemo m → kept m g (add_subscription o d g).
Proof. intros Hne. by apply kept_set_tracker. Qed.

Lemma kept_drop_stale m o nextDeps g : o ≠ OMemo m → kept m g (drop_stale o nextDeps g).
Proof.
  intros Hne. unfold drop_stale. generalize (subscriptions (tracker_of g o)) as ds.
  intros ds. revert g. induction ds as [|d ds IH]; intros g; [apply kept_refl|].
  cbn [foldl]. eapply kept_trans; [|apply IH].
  case_bool_decide; [apply kept_refl|].
  eapply kept_trans; [by apply kept_unsubscribe|]. by apply kept_set_tracker.
Qed.

Lemma kept_set_sig_value m s v g : kept m g (set_sig_value s v g).
Proof. split; [apply same_for_set_sig_value|done]. Qed.

Lemma kept_set_scheduled m e b g : kept m g (set_scheduled e b g).
Proof. split; [apply same_for_set_scheduled|done]. Qed.

Lemma kept_set_running m e b g : kept m g (set_running e b g).
Proof. split; [apply same_for_set_running|done]. Qed.

Lemma kept_set_cleanups m e cs g : kept m g (set_cleanups e cs g).
Proof. split; [apply same_for_set_cleanups|done]. Qed.

Lemma kept_set_computing m m' b g : kept m g (set_computing m' b g).
Proof. split; [apply same_for_set_computing|apply cache_set_computing]. Qed.

Lemma kept_set_memo_result m m' v g : m' ≠ m → kept m g (set_memo_result m' v g).
Proof.
  intros Hne. split; [apply same_for_set_memo_result|by apply cache_set_memo_result].
Qed.

Lemma kept_force_update m c g : kept m g (force_update c g).
Proof. split; [by apply same_for_force_update|done]. Qed.

(** *** Steps of the state *)

Lemma frozen_refl m st : parked m st → frozen m st st.
Proof. by split. Qed.

Lemma frozen_trans m st1 st2 st3 : frozen m st1 st2 → frozen m st2 st3 → frozen m st1 st3.
Proof. intros [H1 H2 H3] [H1' H2' H3']. split; [done|congruence|congruence]. Qed.

Lemma frozen_upd m f st :
  parked m st → kept m (nodes st) (f (nodes st)) → frozen m st (upd f st).
Proof.
  intros [Hv Hs Hp] [Hsame Hcache]. split; [split| |]; cbn [nodes upd]; try done.
  - unfold cache in Hcache. by injection Hcache as -> _.
  - intros d Hd. apply (Hs d). by apply (same_subscribed _ _ _ Hsame).
Qed.

Lemma frozen_fields m st st' :
  parked m st → nodes st' = nodes st → trace st' = trace st →
  pendingSubscribers st' = pendingSubscribers st → frozen m st st'.
Proof.
  intros [Hv Hs Hp] Hn Ht Hq. split; [split| |].
  - by rewrite Hn.
  - by rewrite Hn.
  - by rewrite Hq.
  - by rewrite Hn.
  - unfold run_count. by rewrite Ht.
Qed.

Lemma frozen_pending m st ps :
  parked m st → OMemo m ∉ ps → frozen m st (set_pendingSubscribers ps st).
Proof. intros [Hv Hs Hp] Hps. by split; [split| |]. Qed.

Lemma frozen_emit m ev st :
  parked m st → ev ≠ EvRun (OMemo m) → frozen m st (emit ev st).
Proof.
  intros [Hv Hs Hp] Hev. split; [by split|done|].
  unfold run_count. cbn [trace emit]. rewrite filter_app, length_app.
  rewrite (filter_cons_False _ ev) by done. cbn. lia.
Qed.

Lemma frozen_trackDependency m d st : parked m st → frozen m st (trackDependency d st).
Proof.
  intros Hp. unfold trackDependency. destruct (currentCollector st) as [o'|].
  - apply frozen_upd; [done|]. apply kept_addDependency.
  - by apply frozen_refl.
Qed.

Lemma wp_impl (P : Prop) o (Q : result → state → Prop) :
  (P → wp o Q) → wp o (λ r st, P → Q r st).
Proof. destruct o; simpl; auto. Qed.

Section FrozenStep.
Variable E : env.
Variable rec : task → state → outcome.
Variable m : nat.
Hypothesis Hrec : rec_ok rec (Post_frozen m).

Lemma wp_rec_frozen t st (Q : result → state → Prop) :
  parked m st → t ≠ TRecompute m →
  (∀ r st', frozen m st st' → Q r st') → wp (rec t st) Q.
Proof using Hrec.
  intros Hp Ht HQ. eapply wp_rec; [exact Hrec|]. intros r st' Hpost. apply HQ. by apply Hpost.
Qed.

Lemma frozen_then st st1 (Q : result → state → Prop) :
  frozen m st st1 →
  (∀ r st', frozen m st st' → Q r st') → (∀ r st', frozen m st1 st' → Q r st').
Proof using Type. intros H1 HQ r st' H2. apply HQ. by eapply frozen_trans. Qed.

(** A memo that has no value is not the parked one. *)
Lemma parked_not_empty st m' :
  parked m st → hasValue (memo_of (nodes st) m') = false → TRecompute m' ≠ TRecompute m.
Proof using Type. intros [Hv _ _] Hv' [= ->]. congruence. Qed.

Lemma frozen_wp_subscribe d cb st (Q : result → state → Prop) :
  parked m st → cb ≠ OMemo m →
  (∀ r st', frozen m st st' → Q r st') → wp (subscribe rec d cb st) Q.
Proof using Hrec.
  intros Hp Hne HQ. unfold subscribe.
  assert (frozen m st (upd (add_subscriber d cb) st)) as H1.
  { apply frozen_upd; [done|]. by apply kept_add_subscriber. }
  destruct d as [s|m'].
  - by apply wp_ret, HQ.
  - destruct (hasValue _) eqn:Hv.
    + by apply wp_ret, HQ.
    + apply wp_rec_frozen; [apply H1| |by apply (frozen_then st)].
      eapply parked_not_empty; [apply H1|exact Hv].
Qed.

Lemma frozen_wp_reconcile o' nextDeps st (Q : result → state → Prop) :
  parked m st → o' ≠ OMemo m →
  (∀ r st', frozen m st st' → Q r st') →
  wp (reconcileSubscriptions rec o' nextDeps st) Q.
Proof using Hrec.
  intros Hp Hne HQ. unfold reconcileSubscriptions, add_new.
  apply (wp_for_each _ (λ st', frozen m st st')).
  - apply frozen_upd; [done|]. by apply kept_drop_stale.
  - intros d st1 _ H1. case_bool_decide.
    + by apply wp_ret.
    + apply wp_bind, frozen_wp_subscribe; [apply H1|done|]. intros [v|err] st2 H2.
      * apply wp_ret. eapply frozen_trans; [exact H1|].
        eapply frozen_trans; [exact H2|]. apply frozen_upd; [apply H2|].
        by apply kept_add_subscription.
      * apply HQ. by eapply frozen_trans.
  - intros st' H1. by apply HQ.
Qed.

Lemma frozen_wp_collect o' fn st (Q : result → state → Prop) :
  parked m st → o' ≠ OMemo m →
  (∀ r st', frozen m st st' → Q r st') → wp (collect rec o' fn st) Q.
Proof using Hrec.
  intros Hp Hne HQ. unfold collect.
  assert (frozen m st (pushCollector o' (upd (reset_collecting o') (emit (EvRun o') st))))
    as H0.
  { apply (frozen_trans _ _ (emit (EvRun o') st));
      [apply frozen_emit; [done|by intros [= ->]]|].
    assert (frozen m st (emit (EvRun o') st)) as He
      by (apply frozen_emit; [done|by intros [= ->]]).
    apply (frozen_trans _ _ (upd (reset_collecting o') (emit (EvRun o') st)));
      [apply frozen_upd; [apply He|apply kept_reset_collecting]|].
    apply frozen_fields; [|done|done|done].
    apply (frozen_upd m (reset_collecting o') (emit (EvRun o') st));
      [apply He|apply kept_reset_collecting]. }
  apply wp_finally, wp_rec_frozen; [apply H0|done|]. intros r st1 H1.
  assert (frozen m st (popCollector st1)) as H1'.
  { eapply frozen_trans; [exact H0|]. eapply frozen_trans; [exact H1|].
    apply frozen_fields; [apply H1|done|done|done]. }
  apply frozen_wp_reconcile; [apply H1'|done|]. intros r' st2 H2.
  assert (frozen m st st2) as H by (by eapply frozen_trans).
  destruct r'; by apply HQ.
Qed.

Lemma frozen_wp_schedule e st (Q : result → state → Prop) :
  parked m st →
  (∀ r st', frozen m st st' → Q r st') → wp (EffectComputation_schedule rec e st) Q.
Proof using Hrec.
  intros Hp HQ. unfold EffectComputation_schedule.
  destruct (disposed _); [by apply wp_ret, HQ, frozen_refl|].
  destruct (running _).
  - apply wp_ret, HQ. apply frozen_upd; [done|]. apply kept_set_scheduled.
  - by apply wp_rec_frozen.
Qed.

Lemma frozen_wp_runCleanups e st (Q : result → state → Prop) :
  parked m st →
  (∀ r st', frozen m st st' → Q r st') → wp (runCleanups E rec e st) Q.
Proof using Hrec.
  intros Hp HQ. unfold runCleanups.
  apply (wp_for_each _ (λ st', frozen m st st')).
  - apply frozen_upd; [done|]. apply kept_set_cleanups.
  - intros f st1 _ H1. apply wp_rec_frozen; [apply H1|done|]. intros [v|err] st2 H2.
    + by eapply frozen_trans.
    + apply HQ. by eapply frozen_trans.
  - intros st' H1. by apply HQ.
Qed.

Lemma frozen_wp_execute e st (Q : result → state → Prop) :
  parked m st →
  (∀ r st', frozen m st st' → Q r st') → wp (EffectComputation_execute E rec e st) Q.
Proof using Hrec.
  intros Hp HQ. unfold EffectComputation_execute.
  destruct (disposed (effect_of (nodes st) e)) eqn:Hd; [by apply wp_ret, HQ, frozen_refl|].
  assert (frozen m st (upd (set_scheduled e false) (upd (set_running e true) st))) as H0.
  { assert (frozen m st (upd (set_running e true) st)) as Hr
      by (apply frozen_upd; [done|apply kept_set_running]).
    eapply frozen_trans; [exact Hr|].
    apply frozen_upd; [apply Hr|apply kept_set_scheduled]. }
  apply wp_bind, frozen_wp_runCleanups; [apply H0|].
  intros [v|err] st1 H1; [|apply HQ; by eapply frozen_trans].
  assert (frozen m st st1) as H1' by (by eapply frozen_trans). clear H0 H1.
  assert (frozen m st (set_activeEffect (Some e) st1)) as H1''.
  { eapply frozen_trans; [exact H1'|]. apply frozen_fields; [apply H1'|done|done|done]. }
  apply wp_bind, wp_finally, wp_bind, frozen_wp_collect; [apply H1''|done|].
  intros r st2 H2.
  assert (frozen m st st2) as H2'.
  { eapply frozen_trans; [exact H1''|exact H2]. }
  assert (∀ r' st3, frozen m st st3 →
    wp (ret VUndef (upd (set_running e false) (set_activeEffect (activeEffect st1) st3)))
       (λ r'' st4,
          match r'' with
          | Normal _ =>
              match r' with
              | Normal v0 =>
                  wp (if scheduled (effect_of (nodes st4) e)
                      then rec (TExecute e) st4 else ret VUndef st4) Q
              | Thrown e0 => Q (Thrown e0) st4
              end
          | Thrown e0 => Q (Thrown e0) st4
          end)) as Hfin.
  { intros r' st3 H3. apply wp_ret.
    assert (frozen m st3 (set_activeEffect (activeEffect st1) st3)) as Ha
      by (apply frozen_fields; [apply H3|done|done|done]).
    assert (frozen m st (upd (set_running e false)
                           (set_activeEffect (activeEffect st1) st3))) as H4.
    { eapply frozen_trans; [exact H3|]. eapply frozen_trans; [exact Ha|].
      apply frozen_upd; [apply Ha|apply kept_set_running]. }
    destruct r' as [v0|e0]; [|by apply HQ].
    destruct (scheduled _); [|by apply wp_ret, HQ].
    apply wp_rec_frozen; [apply H4|done|]. by apply (frozen_then st). }
  destruct r as [maybeCleanup|err].
  - destruct maybeCleanup; apply wp_ret; apply (Hfin (Normal VUndef)); try done.
    eapply frozen_trans; [exact H2'|]. apply frozen_upd; [apply H2'|apply kept_set_cleanups].
  - by apply (Hfin (Thrown err)).
Qed.

Lemma frozen_wp_recompute m' st (Q : result → state → Prop) :
  parked m st → m' ≠ m →
  (∀ r st', frozen m st st' → Q r st') → wp (MemoSource_recompute E rec m' st) Q.
Proof using Hrec.
  intros Hp Hm HQ. unfold MemoSource_recompute.
  destruct (computing _); [by apply wp_ret, HQ, frozen_refl|].
  assert (OMemo m' ≠ OMemo m) as Hne by congruence.
  assert (frozen m st (upd (set_computing m' true) st)) as H0.
  { apply frozen_upd; [done|apply kept_set_computing]. }
  apply wp_finally, wp_bind, frozen_wp_collect; [apply H0|done|]. intros r st1 H1.
  assert (frozen m st st1) as H1' by (by eapply frozen_trans).
  assert (∀ r' st2, frozen m st st2 →
    wp (ret VUndef (upd (set_computing m' false) st2))
       (λ r'' st3, match r'' with
                   | Normal _ => Q r' st3
                   | Thrown e0 => Q (Thrown e0) st3
                   end)) as Hfin.
  { intros r' st2 H2. apply wp_ret. apply HQ.
    eapply frozen_trans; [exact H2|]. apply frozen_upd; [apply H2|apply kept_set_computing]. }
  destruct r as [nextValue|err]; [|by apply Hfin].
  assert (frozen m st (upd (set_memo_result m' nextValue) st1)) as H2.
  { eapply frozen_trans; [exact H1'|].
    apply frozen_upd; [apply H1'|by apply kept_set_memo_result]. }
  destruct (negb _ || negb _).
  - apply wp_rec_frozen; [apply H2|done|]. intros r' st2 H3. apply Hfin.
    by eapply frozen_trans.
  - by apply wp_ret, Hfin.
Qed.

Lemma frozen_wp_MemoSource_get m' st (Q : result → state → Prop) :
  parked m st →
  (∀ r st', frozen m st st' → Q r st') → wp (MemoSource_get rec m' st) Q.
Proof using Hrec.
  intros Hp HQ. unfold MemoSource_get. apply wp_bind.
  pose proof (frozen_trackDependency m (DMemo m') st Hp) as H0.
  destruct (hasValue _) eqn:Hv.
  - by apply wp_ret, wp_ret, HQ.
  - apply wp_rec_frozen; [apply H0| |].
    + eapply parked_not_empty; [apply H0|exact Hv].
    + intros [v|err] st1 H1.
      * apply wp_ret, HQ. by eapply frozen_trans.
      * apply HQ. by eapply frozen_trans.
Qed.

Lemma frozen_wp_call_subscriber cb st (Q : result → state → Prop) :
  parked m st → cb ≠ OMemo m →
  (∀ r st', frozen m st st' → Q r st') → wp (call_subscriber rec cb st) Q.
Proof using Hrec.
  intros Hp Hne HQ. unfold call_subscriber.
  assert (frozen m st (emit (EvInvoke cb) st)) as H0 by (by apply frozen_emit).
  destruct cb as [m'|e|c].
  - apply wp_rec_frozen; [apply H0|congruence|]. by apply (frozen_then st).
  - apply frozen_wp_schedule; [apply H0|]. by apply (frozen_then st).
  - destruct (suppressRenderInvalidation _) eqn:Hs; apply wp_ret, HQ; [done|].
    eapply frozen_trans; [exact H0|]. apply frozen_upd; [apply H0|].
    apply kept_force_update.
Qed.

Lemma frozen_wp_notifySubscriber cb st (Q : result → state → Prop) :
  parked m st → cb ≠ OMemo m →
  (∀ r st', frozen m st st' → Q r st') → wp (notifySubscriber rec cb st) Q.
Proof using Hrec.
  intros Hp Hne HQ. unfold notifySubscriber.
  assert (frozen m st (emit (EvNotify cb) st)) as H0 by (by apply frozen_emit).
  case_bool_decide as Hd.
  - apply wp_ret, HQ. eapply frozen_trans; [exact H0|].
    apply frozen_pending; [apply H0|]. cbn [pendingSubscribers emit].
    rewrite set_add_elem. intros [Heq|Hin]; [congruence|]. by apply Hp.
  - apply frozen_wp_call_subscriber; [apply H0|done|]. by apply (frozen_then st).
Qed.

Lemma frozen_wp_flushSubscribers st (Q : result → state → Prop) :
  parked m st →
  (∀ r st', frozen m st st' → Q r st') → wp (flushSubscribers rec st) Q.
Proof using Hrec.
  intros Hp HQ. unfold flushSubscribers.
  destruct (pendingSubscribers st) as [|cb queued] eqn:Hq; [by apply wp_ret, HQ, frozen_refl|].
  apply wp_bind.
  apply (wp_for_each _ (λ st', frozen m st st')).
  - apply frozen_pending; [done|apply not_elem_of_nil].
  - intros cb' st1 Hcb' H1. apply frozen_wp_call_subscriber; [apply H1| |].
    + intros ->. apply (parked_not_pending _ _ Hp). by rewrite Hq.
    + intros [v|err] st2 H2.
      * by eapply frozen_trans.
      * apply HQ. by eapply frozen_trans.
  - intros st1 H1. apply wp_rec_frozen; [apply H1|done|]. by apply (frozen_then st).
Qed.

Lemma frozen_wp_notify_all d i st (Q : result → state → Prop) :
  parked m st →
  (∀ r st', frozen m st st' → Q r st') → wp (notify_all rec d i st) Q.
Proof using Hrec.
  intros Hp HQ. unfold notify_all.
  destruct (subscribers_of (nodes st) d !! i) as [[cb|]|] eqn:Hslot.
  - apply wp_bind, frozen_wp_notifySubscriber; [done| |].
    + intros ->. apply (parked_unsubscribed _ _ Hp d). unfold subscribed.
      apply elem_of_jsset_live, list_elem_of_lookup. by exists i.
    + intros [v|err] st1 H1; [|by apply HQ].
      apply wp_rec_frozen; [apply H1|done|]. by apply (frozen_then st).
  - by apply wp_rec_frozen.
  - by apply wp_ret, HQ, frozen_refl.
Qed.

Lemma frozen_wp_SignalSource_set s v st (Q : result → state → Prop) :
  parked m st →
  (∀ r st', frozen m st st' → Q r st') → wp (SignalSource_set E rec s v st) Q.
Proof using Hrec.
  intros Hp HQ. unfold SignalSource_set. apply wp_bind.
  assert (∀ resolved st1, frozen m st st1 →
    wp (let st2 := upd (set_sig_value s resolved) st1 in
        bind (if object_is (sig_value (signal_of (nodes st) s)) resolved
              then ret VUndef st2 else rec (TNotifyAll (DSig s) 0) st2)
             (λ _ st3, ret resolved st3)) Q) as Hk.
  { intros resolved st1 H1. cbn zeta. apply wp_bind.
    assert (frozen m st (upd (set_sig_value s resolved) st1)) as H2.
    { eapply frozen_trans; [exact H1|]. apply frozen_upd; [apply H1|apply kept_set_sig_value]. }
    destruct (object_is _ _).
    - by apply wp_ret, wp_ret, HQ.
    - apply wp_rec_frozen; [apply H2|done|]. intros [v'|err] st2 H3.
      + apply wp_ret, HQ. by eapply frozen_trans.
      + apply HQ. by eapply frozen_trans. }
  destruct v; try (by apply wp_ret, Hk, frozen_refl).
  apply wp_rec_frozen; [done|done|]. intros [v'|err] st1 H1; [by apply Hk|by apply HQ].
Qed.

Lemma frozen_wp_batch fn st (Q : result → state → Prop) :
  parked m st →
  (∀ r st', frozen m st st' → Q r st') → wp (batch rec fn st) Q.
Proof using Hrec.
  intros Hp HQ. unfold batch.
  assert (frozen m st (set_batchDepth (batchDepth st + 1) st)) as H0
    by (by apply frozen_fields).
  apply wp_finally, wp_rec_frozen; [apply H0|done|]. intros r st1 H1. cbn zeta.
  assert (frozen m st (set_batchDepth (batchDepth st1 - 1) st1)) as H2.
  { eapply frozen_trans; [exact H0|]. eapply frozen_trans; [exact H1|].
    apply frozen_fields; [apply H1|done|done|done]. }
  case_bool_decide as Hz.
  - apply wp_rec_frozen; [apply H2|done|]. intros r' st2 H3.
    assert (frozen m st st2) as H by (by eapply frozen_trans).
    destruct r'; by apply HQ.
  - apply wp_ret. by apply HQ.
Qed.

Lemma frozen_wp_untrack fn st (Q : result → state → Prop) :
  parked m st →
  (∀ r st', frozen m st st' → Q r st') → wp (untrack rec fn st) Q.
Proof using Hrec.
  intros Hp HQ. unfold untrack.
  assert (frozen m st (popCollector st)) as H0 by (by apply frozen_fields).
  apply wp_finally, wp_rec_frozen; [apply H0|done|]. intros r st1 H1.
  assert (frozen m st st1) as H1' by (by eapply frozen_trans).
  destruct (last (collectorStack st)); apply wp_ret; apply HQ; [|done].
  eapply frozen_trans; [exact H1'|]. apply frozen_fields; [apply H1'|done|done|done].
Qed.

Lemma frozen_wp_exec p st (Q : result → state → Prop) :
  parked m st →
  (∀ r st', frozen m st st' → Q r st') → wp (exec E rec p st) Q.
Proof using Hrec.
  intros Hp HQ.
  assert (∀ p' st1, frozen m st st1 → wp (rec (TProg p') st1) Q) as Hk.
  { intros p' st1 H1. apply wp_rec_frozen; [apply H1|done|]. by apply (frozen_then st). }
  destruct p; cbn [exec].
  - by apply HQ, frozen_refl.
  - by apply HQ, frozen_refl.
  - unfold SignalSource_get. apply wp_bind, wp_ret, Hk. by apply frozen_trackDependency.
  - apply wp_bind, frozen_wp_SignalSource_set; [done|].
    intros [v'|err] st1 H1; [by apply Hk|by apply HQ].
  - apply wp_bind, frozen_wp_MemoSource_get; [done|].
    intros [v'|err] st1 H1; [by apply Hk|by apply HQ].
  - apply wp_bind, frozen_wp_untrack; [done|].
    intros [v'|err] st1 H1; [by apply Hk|by apply HQ].
  - apply wp_bind, frozen_wp_batch; [done|].
    intros [v'|err] st1 H1; [by apply Hk|by apply HQ].
  - pose proof (wp_rec_frozen (TProg p) st (λ r st1, frozen m st st1) Hp) as Hrun.
    destruct (rec (TProg p) st) as [|[v'|err] st1]; [done| |].
    + apply Hk. by apply Hrun.
    + assert (frozen m st st1) as H1 by (by apply Hrun).
      apply wp_bind. apply wp_rec_frozen; [apply H1|done|]. intros [v'|err'] st2 H2.
      * apply Hk. by eapply frozen_trans.
      * apply HQ. by eapply frozen_trans.
  - apply Hk. by apply frozen_fields.
  - apply Hk. by apply frozen_fields.
  - apply Hk. by apply frozen_refl.
Qed.

Lemma dispatch_frozen t st : wp (dispatch E rec t st) (Post_frozen m t st).
Proof using Hrec.
  unfold Post_frozen. apply wp_impl. intros Ht. apply wp_impl. intros Hp.
  destruct t; cbn [dispatch].
  - by apply frozen_wp_exec.
  - by apply frozen_wp_notify_all.
  - by apply frozen_wp_flushSubscribers.
  - apply frozen_wp_recompute; [done|congruence|done].
  - by apply frozen_wp_execute.
Qed.
End FrozenStep.

Lemma run_frozen E m fuel : rec_ok (run E fuel) (Post_frozen m).
Proof. apply run_wp. intros rec Hrec t st. by apply dispatch_frozen. Qed.

(** *** After [dispose] *)

Lemma cache_tracker_dispose o g m : cache (tracker_dispose o g) m = cache g m.
Proof.
  unfold tracker_dispose. rewrite cache_set_tracker.
  generalize (subscriptions (tracker_of g o)) as ds. intros ds. revert g.
  induction ds as [|d ds IH]; intros g; [done|]. cbn [foldl]. rewrite IH.
  unfold unsubscribe. apply cache_set_subscribers.
Qed.

(** [MemoSource.dispose] parks a memo that has a value. *)
Lemma dispose_parks m st :
  hasValue (memo_of (nodes st) m) = true →
  consistent (OMemo m) (nodes st) →
  OMemo m ∉ pendingSubscribers st →
  parked m (upd (MemoSource_dispose m) st)
  ∧ cache (nodes (upd (MemoSource_dispose m) st)) m = cache (nodes st) m.
Proof.
  intros Hv Hcons Hp.
  assert (cache (nodes (upd (MemoSource_dispose m) st)) m = cache (nodes st) m) as Hcache.
  { cbn [nodes upd]. unfold MemoSource_dispose.
    by rewrite cache_set_subscribers, cache_tracker_dispose. }
  split; [|done]. split.
  - unfold cache in Hcache. injection Hcache as Hhas _. exact (eq_trans Hhas Hv).
  - intros d. unfold subscribed. cbn [nodes upd]. unfold MemoSource_dispose.
    rewrite subscribers_of_set_subscribers. case_decide; [by intros ?%elem_of_nil|].
    destruct (tracker_dispose_spec (OMemo m) (nodes st)) as (Hsubs & _). rewrite Hsubs.
    rewrite elem_of_jsset_live. case_bool_decide as Hin.
    + rewrite elem_of_jsset_delete. by intros [_ ?].
    + rewrite <- elem_of_jsset_live. intros Hlive. by apply Hin, Hcons.
  - done.
Qed.


(** *** On the counter *)

(** A way to check that subscriptions and subscriber sets agree. *)
Lemma consistent_by_maps o g :
  Forall (λ d, o ∈ jsset_live (subscribers_of g d)) (subscriptions (tracker_of g o)) →
  map_Forall (λ s x, o ∈ jsset_live (sig_subscribers x)
                     → DSig s ∈ subscriptions (tracker_of g o)) (signals g) →
  map_Forall (λ m x, o ∈ jsset_live (memo_subscribers x)
                     → DMemo m ∈ subscriptions (tracker_of g o)) (memos g) →
  consistent o g.
Proof.
  intros Hkeys Hsigs Hmemos d. split.
  - intros Hd. by apply (proj1 (Forall_forall _ _) Hkeys).
  - destruct d as [s|m]; cbn [subscribers_of].
    + unfold signal_of. destruct (signals g !! s) as [x|] eqn:Hs; cbn [default].
      * by apply (Hsigs s x).
      * by intros ?%elem_of_nil.
    + unfold memo_of. destruct (memos g !! m) as [x|] eqn:Hm; cbn [default].
      * by apply (Hmemos m x).
      * by intros ?%elem_of_nil.
Qed.

Lemma counter_started_memo_consistent : consistent (OMemo 0) (nodes counter_started).
Proof.
  apply consistent_by_maps; refine (bool_decide_unpack _ _); vm_compute; exact I.
Qed.

